(* ===== verification/_CoqProject ===== *)
-Q . S2P
Prelude.v
Scanner.v
ScannerState.v
Ast.v
Parser.v
Precedence.v
ParserTotal.v
Roundtrip.v
CodeGen.v
Scoping.v
Pipeline.v
Unparse.v
Labels.v
Operators.v
Stack.v
Assembly.v
StackSize.v
StackFlow.v
AssemblyTotal.v
Driver.v
