(* ===== verification/Prelude.v ===== *)
(** * A verification development of the Mini Triangle compiler

    The program is the three-stage Mini Triangle compiler of this
    repository, written in Python 2:

    - [src/scanner.py]: class [Scanner], a hand-written lexer turning the
      source text into a list of [Token]s ending with one [TK_EOT] token,
      or raising [ScannerError(pos, char)];
    - [src/parser.py]: class [Parser], a recursive-descent parser with one
      token of lookahead over that list, building an [ast] tree or
      raising [ParserException(pos, type, exp_type)];
    - [src/codegen.py]: class [CodeGen], which walks the tree and emits
      byteplay instructions, keeping a stack of code buffers, a stack of
      environments, a rename table [scope_vars] and a function table
      [declared_functions]; it raises the [CodeGeneratorError] family.
    - The [ast] module imported by the parser and the generator is not
      part of [src/]: its node classes are modelled from the spec
      (section 3, "AST") and marked so in the manifest.

    Data flows text -> Scanner -> tokens -> Parser -> tree -> CodeGen ->
    instruction lists.  Each stage is a pure function of the previous
    stage's output, and the first exception aborts the compilation.

    ** Files, in dependency order

    - [Prelude] (this file): the [outcome] error monad that models Python
      exceptions, its notation in [mt_scope], the [span] helper shared by
      the scanner, Python's [str] on naturals ([str_of_nat]), the hint
      database [mt] and the tactics [inv_bind] and [inv_bind_pairs].
    - [Scanner]: token kinds ([TK], the [TK_*] constants), [Token],
      [KEYWORDS], the character classes of Python's [str] methods, and
      [scan_token]/[scan].  The Python object state (a [StringIO] stream,
      the current character [char], the flag [eot] and the counter [pos])
      is represented by the list of characters from the current one on
      and the index of the current character ([char_pos()] in the
      source, which is Python's [pos - 1]).
    - [ScannerState] (Module [Stream]): the [Scanner] object itself
      ([scanner]: the unread [StringIO] stream, [char], [eot], [pos]),
      [char_take], the observers [char_current], [char_pos],
      [char_eot], and [scan_int], [scan_keyword], [scan_token] and
      [scan] run on it with the source's own loops ([take_while],
      [skip_line], [obj_scan_loop], [obj_scan_tokens]); [rep] relates it
      to the state of [Scanner].
    - [Ast]: the tree ([expression], [command], [declaration]).
    - [Parser]: the parser as one mutually recursive family of functions
      over the remaining token list ([tokens[curindex:]]); every method of
      [Parser] is one function, every [while] loop one more function.
      The recursion is bounded by a fuel argument.
    - [Precedence]: token chains of literals and operators, and the left
      fold the spec describes for the operator tiers.
    - [ParserTotal]: the fuel bound [parse_fuel] is enough: [parse] never
      runs out of fuel, so it always returns a tree or one of the
      exceptions of the source.
    - [Roundtrip] (Module [Printer]): a printer from trees to the token
      list the scanner would give for them ([print_program]: binary
      expressions in parentheses, a sequence standing for one command
      between [begin] and [end]), the well-formed trees [program_wf] (the
      shapes [parse] can build), and the parser read back through it,
      with the fuel of [ParserTotal] ([parses f c ts a rest]: from
      [need c ts] on, [f] reads [a] and leaves [rest]); the converse,
      that [parse] only builds well-formed trees, is an invariant
      [wf_at] of the whole family proved by induction on the fuel.
    - [CodeGen]: byteplay instructions ([instr], with [Label()] objects
      drawn from a counter), the generator state [cg_state] (fields named
      after the attributes of [CodeGen]) and one definition per method.
    - [Scoping]: the spec's scope state machine as an abstract stack of
      frames ([Frames]: [push_frame], [declare], [resolve],
      [pop_frame]) and the relation [refines] between it and the
      generator's [envs] and [scope_vars]; one simulation lemma per scope
      operation of [codegen.py] and, by mutual induction over commands and
      declarations, the scope contract of [gen_command] and
      [gen_declaration].
    - [Unparse]: [Positions] shows that the parser's result depends on
      the kinds and values of the tokens only ([kinds]; positions appear
      in exceptions alone), by an invariant [same_at] of the whole family
      over the fuel; [Source] writes a program as text
      ([print_source]: each printed token, then a space), with the
      conditions under which the scanner reads each token back
      ([token_ok], [program_src]), and composes scanner, parser and
      generator on that text ([Pipeline.compile]).
    - [Labels]: the labels and jumps of the generated lists ([placed],
      [jumps], [labels_wf]) and the code contract of every command and
      declaration, by mutual induction: it only appends to the current
      list, and what it appends places fresh labels once each and jumps
      only to labels it places.
    - [Operators]: the instructions compiled text can hold; the code of
      a parsed tree never holds [BINARY_MODULO] ([no_modulo]).
    - [Stack]: CPython 2's operand stack ([pops], [pushes], the
      executable [run_stack]) run over the generated code.
    - [Pipeline]: the three stages of the [__main__] driver of
      [codegen.py] as [compile] (scan, parse, generate, with the stage of
      the exception), the composition theorems, and the concrete
      scenarios of the spec run on their source text.
    - [Assembly]: byteplay's [Code.to_code], the assembly step that
      [CodeGen.generate] and [gen_function] call (a library outside
      [src/], modelled from the spec and the CPython 2.7 bytecode
      format): the first loop [asm_loop] emits the bytes of each
      instruction and fills the constant, name and local tables, a
      placed label records its offset; the second loop [patch_jumps]
      writes each jump's resolved 16-bit argument.  Object identity of
      integer constants is a parameter [int_is] ([cpython_int_is] for
      CPython's shared small integers).  [generate_code] is
      [CodeGen.generate] with its [to_code] call.  [offset_at] and
      [jump_dest] (the target the interpreter takes) state where jumps
      land in bytes.  [compute_stacksize] is byteplay's
      [_compute_stacksize], which [to_code] runs first: a depth-first
      search over the flow of the list with the operand-stack depth.
    - [StackSize]: the search ends within its fuel, accepts every list
      with a stack typing, and a one-pass depth computation
      ([pass_run]) that ends without contradiction gives such a typing.
    - [StackFlow]: the stack discipline of commands ([cmd_flow]: every
      function body returns on all paths, [putint] is not an operand,
      the two branches of an [if] leave the stack at one depth and a
      loop body leaves it as it found it) and the
      proof that the code of such a command passes the one-pass check,
      so that the search accepts it ([generate_stacksize]).
    - [AssemblyTotal]: what the assembler needs of a list ([code_ok]:
      the stack search succeeds, jumps are closed, comparisons are known;
      [code_small]: 16-bit offsets) and the contract, by mutual
      induction, that every command and declaration of a program in the
      discipline appends only such instructions, nested function bodies
      included.
    - [Driver]: the whole [__main__] block ([main] on a [world] of
      command-line arguments, readable files and clock), the
      [os.path.splitext] it calls, the [__str__] methods whose text it
      prints, and [gen_pyc] (the [.pyc] header: [struct.pack(">L")] of
      the magic number and the clock, and the order of the writes).

    ** What the theorems show (see PROJECT.json for the list)

    - Scanner: [scan] is total (the fuel [S (length s)] is enough), the
      token list ends with exactly one EOT token, positions are strictly
      increasing and inside the text, every scan error names the offending
      character at its position, and identifier tokens never spell a
      keyword.
    - Parser: [parse] is total with the fuel [parse_fuel]; a successful
      parse stops on the EOT token, in particular on scanned text; the
      additive tier folds left for every chain of [+] and [-]
      ([Precedence]); the concrete error behaviours the spec describes
      are checked on their source text ([Pipeline]).
    - Parser round trip ([Roundtrip]): [parse] reads every well-formed
      program back from its printed tokens, every program [parse]
      returns is well formed (so a function always has a parameter,
      which the spec's grammar leaves open).
    - Source round trip ([Unparse]): compiling the text of a
      well-formed program whose names are identifiers, literals
      non-negative and operators one character of [OPERATORS] gives
      exactly what the generator gives on the program: the scanner and
      the parser are transparent on printed programs.
    - Scanner object (refinement): [Scanner.__init__] starts in the
      state of the whole text, every method commutes with [rep], each
      call of [scan_token] on the object agrees with the model's, and
      [Scanner(input).scan()] on the object returns exactly [scan input],
      errors included ([obj_scan_refine]).
    - Scanner round trip: the text of Python's [str(n)] scans back to the
      single literal [n], and every token [token_ok] accepts scans back
      from its text.
    - Code generator: arity errors for [getint], [putint] and declared
      functions; an undeclared call raises [InvalidExpressionError]; a
      block that declares a name twice leaks a binding, and a name whose
      block has closed raises [IndexError] when referenced; the
      generator raises nothing but [IllegalFunctionArgumentError],
      [InvalidExpressionError], [IndexError] and [KeyError] (so
      [TypeMismatchError] and [UnknownFunctionError] never, error); and
      renaming by depth gives [x ++ str(n)] at depth [d] and [x] at
      depth [10 n + d] one slot, for every [x], [n >= 1], [1 <= d <= 9].
    - Scoping: for commands whose blocks and functions declare distinct
      names ([cmd_ok]), generation refines the spec's frame stack
      (refinement), a shadowed name resolves to a fresh slot inside its
      block and to the outer slot after it (spec, shadowing), and a
      generated program ends at depth 0 with no open scope (invariant).
    - Labels: in the code of every program each label is placed once and
      every jump goes to a placed label; the layout of [if] and [while]
      puts neither label inside the branches or the body.
    - Assembly (spec, forward-jump resolution): once assembled, the jump
      on false of an [if] goes to the offset of the else-branch and its
      jump forward to the first instruction after the construct; the
      jump on false of a [while] goes to the first instruction after the
      loop and its jump back to the test.
    - AssemblyTotal: [to_code] never raises on a [code_ok], [code_small]
      list, and [generate] produces [code_ok] lists for the programs of
      the stack discipline, so [CodeGen.generate] run to its end returns
      a code object for every such program whose tree walk succeeds and
      whose lists are short enough (liveness).
    - Operators: no compiled text yields [BINARY_MODULO] (safety).
    - StackFlow (error): the three shapes the stack search rejects do
      make [CodeGen.generate] fail in [to_code], for whole families of
      programs: a function whose body has no [if], [while] or [return]
      ([IndexError]), a loop whose body leaves call results on the
      stack ("Inconsistent code"), and [x := putint(a)] ("Popped a
      non-existing element").
    - Driver: a [.mt] file that compiles yields [name.pyc] with the magic,
      the clock in big-endian order and the code; a failing compilation
      writes nothing and exits with status 0 exactly when the exception
      is one the script catches, otherwise with a traceback; the clock
      must lie in [0, 2^32), else
      a four-byte file is left behind (bounds).
    - Stack: expressions leave one value and never underflow; [putint]
      as an expression leaves none, and call statements leave their
      result on the stack.
    - Pipeline: the scanner and parser raise only the exceptions the
      driver catches (never [IndexError]); examples run the spec's four
      scenarios, recursion, the unparsable [\] operator, assignable
      constants and two variables sharing one slot on their source text.

    ** Bounds and fuel

    [scan] uses the fuel [S (length s)]: every token but EOT consumes at
    least one character.  The loops of the [Scanner] object
    ([ScannerState]) get [S (S n)] turns for [n] unread characters: each
    turn but the last takes a character.  The parser's fuel is linear in the number of
    tokens, with a factor that covers the deepest chain of calls that
    consume nothing ([ParserTotal]).  Integers are Python [int]s, so they
    are modelled as unbounded [Z]; nesting depths as [nat].  The theorems
    on the parser's tiers ([Precedence]) hold for every fuel above a bound
    linear in the length of the chain.  The assembler's jump arguments
    are 16 bits wide: [code_small] asks that each list, nested ones
    included, have at most 10922 instructions (at most 6 bytes each, so
    every offset stays below [0xFFFF]); beyond that byteplay raises
    [NotImplementedError], which the model keeps.  The stack search
    gets the fuel [stack_fuel k = S ((2 len + 3) (S len))] for a list
    of [len] instructions: every turn lowers a measure bounded by that
    number (a weight of at most [2 len + 1] per pending position, plus
    [2 len + 3] per label whose depth is not recorded yet).  The clock is an
    integer number of seconds; [struct.pack(">L")] accepts [0 <= t <
    2^32] and the model raises [struct.error] outside.

    ** Not modelled

    [marshal.dump] (the file holds the code object itself), the
    [FunctionType] wrapper, byteplay's flags and line-number
    computations, [CodeGen.print_code] and the [__str__] of the
    generator's exceptions (never printed: they escape the script), and
    the execution of the generated bytecode, which is outside the spec's
    scope.  The directory of the [.pyc] is taken to be writable. *)

From Stdlib Require Export String Ascii ZArith Lia Sorted.
From stdpp Require Export base list gmap strings.
From Stdlib Require Import DecimalString DecimalNat.

(** ** Python exceptions as values *)

(** A computation of the source returns a value or raises an exception;
    every component gives [E] its own exception type. *)
Inductive outcome (E A : Type) : Type :=
| Ok (a : A)
| Raise (e : E).
Arguments Ok {E A} a.
Arguments Raise {E A} e.

Set Warnings "-notation-incompatible-prefix".
Declare Scope mt_scope.
Delimit Scope mt_scope with mt.

Notation "x <- c1 ;; c2" :=
  (match c1 with Ok x => c2 | Raise e => Raise e end)
  (at level 100, c1 at next level, right associativity) : mt_scope.

Notation "' pat <- c1 ;; c2" :=
  (match c1 with Ok pat => c2 | Raise e => Raise e end)
  (at level 100, pat pattern, c1 at next level, right associativity) : mt_scope.

Open Scope mt_scope.

Definition is_ok {E A} (r : outcome E A) : bool :=
  match r with Ok _ => true | Raise _ => false end.

Section Outcome.
Context {E A B : Type}.

Lemma bind_Ok_inv (c : outcome E A) (k : A -> outcome E B) (b : B) :
    (x <- c ;; k x) = Ok b -> exists a, c = Ok a /\ k a = Ok b.
  Proof. destruct c; [eauto | discriminate]. Qed.

Lemma bind_Raise_inv (c : outcome E A) (k : A -> outcome E B) (e : E) :
    (x <- c ;; k x) = Raise e -> c = Raise e \/ exists a, c = Ok a /\ k a = Raise e.
  Proof. destruct c; [eauto | intros [= ->]; auto]. Qed.
End Outcome.

(** ** Python's [str] on a non-negative [int] *)

(** The decimal digits of [n], most significant first. *)
Definition str_of_nat (n : nat) : string := NilZero.string_of_uint (Nat.to_uint n).

Lemma string_app_assoc (a b c : string) : (a +:+ b) +:+ c = a +:+ (b +:+ c).
Proof. induction a as [|x a IH]; [reflexivity|exact (f_equal (String x) IH)]. Qed.

Lemma string_of_revapp d acc :
  NilEmpty.string_of_uint (Decimal.revapp d acc) =
  NilEmpty.string_of_uint (Decimal.rev d) +:+ NilEmpty.string_of_uint acc.
Proof.
  unfold Decimal.rev. revert acc.
  induction d; intros acc; simpl; try reflexivity;
    rewrite IHd, (IHd (_ Decimal.Nil)), string_app_assoc; reflexivity.
Qed.

Lemma to_lu_not_nil n : DecimalNat.Unsigned.to_lu n <> Decimal.Nil.
Proof. induction n as [|n IH]; [done|]. rewrite DecimalNat.Unsigned.to_lu_succ.
  destruct (DecimalNat.Unsigned.to_lu n); simpl; try done. Qed.

Lemma revapp_not_nil d acc : d <> Decimal.Nil -> Decimal.revapp d acc <> Decimal.Nil.
Proof. revert acc. induction d; intros acc H; simpl; try done; destruct d; simpl; try done; apply IHd; done. Qed.

Lemma str_of_nat_lu n :
  str_of_nat n = NilEmpty.string_of_uint (Decimal.rev (DecimalNat.Unsigned.to_lu n)).
Proof.
  unfold str_of_nat. rewrite DecimalNat.Unsigned.to_uint_alt.
  pose proof (revapp_not_nil _ Decimal.Nil (to_lu_not_nil n)) as H. unfold Decimal.rev.
  destruct (Decimal.revapp _ _); done.
Qed.

Lemma string_app_neq (a b : string) : b <> EmptyString -> a +:+ b <> a.
Proof.
  intros Hb. induction a as [|c a IH]; [done|]. intros H. apply IH. by injection H.
Qed.

Lemma str_of_nat_nonempty n : str_of_nat n <> EmptyString.
Proof. unfold str_of_nat. destruct (Nat.to_uint n); done. Qed.

(** Python's [str(10 * n + m)] for [n > 0] and a digit [m] is [str(n)]
    followed by the digit. *)
Lemma str_of_nat_digit n m :
  n <> 0 -> m < 10 -> str_of_nat (10 * n + m) = str_of_nat n +:+ str_of_nat m.
Proof.
  intros Hn Hm. rewrite !str_of_nat_lu, Nat.add_comm.
  do 10 (destruct m as [|m]; [cbn [Nat.add]; rewrite ?DecimalNat.Unsigned.to_lu_succ,
    DecimalNat.Unsigned.to_lu_tenfold by done; simpl;
    unfold Decimal.rev at 1; simpl; rewrite string_of_revapp; reflexivity|]). lia.
Qed.

(** ** The longest prefix satisfying a test *)

(** The scanner's inner [while] loops ([scan_int], [scan_keyword]) take
    characters while a test holds; [span f l] is that split. *)
Fixpoint span {A} (f : A -> bool) (l : list A) : list A * list A :=
  match l with
  | [] => ([], [])
  | x :: l' => if f x then let '(p, r) := span f l' in (x :: p, r) else ([], l)
  end.

Section Span.
Context {A : Type} (f : A -> bool).

Lemma span_app (l : list A) : (span f l).1 ++ (span f l).2 = l.
  Proof. induction l as [|x l IH]; simpl; [done|]. destruct (f x); [|done].
    destruct (span f l). simpl in *. by rewrite IH. Qed.

Lemma span_prefix (l : list A) : Forall (fun x => f x = true) (span f l).1.
  Proof. induction l as [|x l IH]; simpl; [done|]. destruct (f x) eqn:Hf; [|done].
    destruct (span f l). simpl in *. by constructor. Qed.

Lemma span_stop (l : list A) x r : (span f l).2 = x :: r -> f x = false.
  Proof. induction l as [|y l IH]; simpl; [done|]. destruct (f y) eqn:Hf.
    - destruct (span f l). simpl in *. auto.
    - by intros [= -> ->]. Qed.

Lemma span_length (l : list A) :
    length (span f l).1 + length (span f l).2 = length l.
  Proof. rewrite <- (span_app l) at 3. by rewrite length_app. Qed.

Lemma span_drop (l : list A) : drop (length (span f l).1) l = (span f l).2.
  Proof. induction l as [|x l IH]; simpl; [done|]. destruct (f x); [|done].
    destruct (span f l). simpl in *. done. Qed.
End Span.

(** ** Automation *)

Create HintDb mt discriminated.
Create Rewrite HintDb mt.
#[export] Hint Resolve span_prefix span_app : mt.

(** Split the hypotheses [x <- c ;; k = Ok b] into their steps. *)
Ltac inv_bind :=
  repeat match goal with
  | H : (match ?c with Ok _ => _ | Raise _ => _ end) = Ok _ |- _ =>
      let E := fresh "E" in destruct c eqn:E; [|discriminate H]
  | H : Ok _ = Ok _ |- _ => injection H as H
  end.

(** [inv_bind], also splitting the pairs that [' (a, b) <- c ;; k] and
    [let '(a, b) := f x in k] destructure. *)
Ltac inv_bind_pairs :=
  repeat (inv_bind; try match goal with
  | H : (match ?p with (_, _) => _ end) = _ |- _ =>
      let E := fresh "P" in destruct p eqn:E
  end).
