(* ===== verification/Scanner.v ===== *)
(** * Scanner: [src/scanner.py]

    Token kinds, tokens, the keyword table, the character classes of
    Python 2's [str] methods (C locale, one byte per character), and the
    scanner [Scanner.scan_token]/[Scanner.scan].

    The scanner object keeps a [StringIO] stream, the current character
    [char], a flag [eot] and a counter [pos].  Here its state is the list
    of characters from the current one on (empty exactly when [eot] is
    set) together with the index of the current character, which is what
    [char_pos()] returns ([pos - 1] in the source).  [char_take()] is
    dropping the head and adding one to the index. *)

From Stdlib Require Import DecimalString DecimalNat.
From S2P Require Import Prelude.

(** ** Tokens (scanner.py, lines 11-93) *)

Inductive TK : Type :=
| TK_IDENTIFIER | TK_INTLITERAL | TK_OPERATOR | TK_BEGIN | TK_CONST | TK_DO
| TK_ELSE | TK_END | TK_IF | TK_IN | TK_LET | TK_THEN | TK_VAR | TK_WHILE
| TK_SEMICOLON | TK_COLON | TK_BECOMES | TK_IS | TK_LPAREN | TK_RPAREN
| TK_EOT | TK_FUNCDEF | TK_RETURN | TK_COMMA.

#[export] Instance TK_eq_dec : EqDecision TK.
Proof. solve_decision. Defined.

(** The integer constants of the source. *)
Definition TK_code (k : TK) : nat :=
  match k with
  | TK_IDENTIFIER => 0 | TK_INTLITERAL => 1 | TK_OPERATOR => 2 | TK_BEGIN => 3
  | TK_CONST => 4 | TK_DO => 5 | TK_ELSE => 6 | TK_END => 7 | TK_IF => 8
  | TK_IN => 9 | TK_LET => 10 | TK_THEN => 11 | TK_VAR => 12 | TK_WHILE => 13
  | TK_SEMICOLON => 14 | TK_COLON => 15 | TK_BECOMES => 16 | TK_IS => 17
  | TK_LPAREN => 18 | TK_RPAREN => 19 | TK_EOT => 20 | TK_FUNCDEF => 21
  | TK_RETURN => 22 | TK_COMMA => 23
  end.

(** [TOKENS]: the printable name of each kind. *)
Definition TOKENS (k : TK) : string :=
  match k with
  | TK_IDENTIFIER => "IDENTIFIER" | TK_INTLITERAL => "INTLITERAL"
  | TK_OPERATOR => "OPERATOR" | TK_BEGIN => "BEGIN" | TK_CONST => "CONST"
  | TK_DO => "DO" | TK_ELSE => "ELSE" | TK_END => "END" | TK_IF => "IF"
  | TK_IN => "IN" | TK_LET => "LET" | TK_THEN => "THEN" | TK_VAR => "VAR"
  | TK_WHILE => "WHILE" | TK_SEMICOLON => "SEMICOLON" | TK_COLON => "COLON"
  | TK_BECOMES => "BECOMES" | TK_IS => "IS" | TK_LPAREN => "LPAREN"
  | TK_RPAREN => "RPAREN" | TK_EOT => "EOT" | TK_FUNCDEF => "FUNCDEF"
  | TK_RETURN => "RETURN" | TK_COMMA => "COMMA"
  end.

(** [KEYWORDS.get(word)]. *)
Definition KEYWORDS (w : string) : option TK :=
  if String.eqb w "begin" then Some TK_BEGIN
  else if String.eqb w "const" then Some TK_CONST
  else if String.eqb w "do" then Some TK_DO
  else if String.eqb w "else" then Some TK_ELSE
  else if String.eqb w "end" then Some TK_END
  else if String.eqb w "if" then Some TK_IF
  else if String.eqb w "in" then Some TK_IN
  else if String.eqb w "let" then Some TK_LET
  else if String.eqb w "then" then Some TK_THEN
  else if String.eqb w "var" then Some TK_VAR
  else if String.eqb w "while" then Some TK_WHILE
  else if String.eqb w "func" then Some TK_FUNCDEF
  else if String.eqb w "return" then Some TK_RETURN
  else None.

Definition OPERATORS : list string := ["+"; "*"; "-"; "/"; "<"; ">"; "="; "!="; "\"].

(** The value of a token: the text of an identifier or operator, the
    number of a literal, and [0] for every other kind. *)
Inductive tval : Type :=
| VInt (z : Z)
| VStr (s : string).

#[export] Instance tval_eq_dec : EqDecision tval.
Proof. solve_decision. Defined.

Record Token : Type := mkToken { type : TK; val : tval; pos : nat }.

#[export] Instance Token_eq_dec : EqDecision Token.
Proof. intros [] []. unfold Decision. decide equality; solve_decision. Defined.

(** [ScannerError(pos, char)]; [ScanOutOfFuel] is the fuel of [scan]
    running out, which [scan_total] shows never happens. *)
Inductive scan_error : Type :=
| ScannerError (pos : nat) (char : ascii)
| ScanOutOfFuel.

(** ** Character classes of Python 2 [str] in the C locale *)

Definition isspace (c : ascii) : bool :=
  let n := nat_of_ascii c in (Nat.eqb n 32 || (9 <=? n) && (n <=? 13))%bool.
Definition isdigit (c : ascii) : bool :=
  let n := nat_of_ascii c in ((48 <=? n) && (n <=? 57))%bool.
Definition isalpha (c : ascii) : bool :=
  let n := nat_of_ascii c in ((65 <=? n) && (n <=? 90) || (97 <=? n) && (n <=? 122))%bool.
Definition isalnum (c : ascii) : bool := (isalpha c || isdigit c)%bool.

(** [c in OPERATORS], for the one-character string [c]. *)
Definition in_OPERATORS (c : ascii) : bool :=
  existsb (String.eqb (String c EmptyString)) OPERATORS.

(** [int(string.join(numlist, ''))] on a run of digits. *)
Definition int_of_digits (ds : list ascii) : Z :=
  fold_left (fun acc d => 10 * acc + Z.of_nat (nat_of_ascii d - 48))%Z ds 0%Z.

(** ** Scanning *)

Abbreviation scan_state := (list ascii * nat)%type.

(** [scan_int]: the current character [c] is a digit; take the maximal
    run of digits. *)
Definition scan_int (c : ascii) (r : list ascii) (p : nat) : Token * scan_state :=
  let '(ds, r') := span isdigit r in
  (mkToken TK_INTLITERAL (VInt (int_of_digits (c :: ds))) p, (r', p + S (length ds))).

(** [scan_keyword]: the current character [c] is a letter; take the
    maximal run of letters and digits. *)
Definition scan_keyword (c : ascii) (r : list ascii) (p : nat) : string * scan_state :=
  let '(w, r') := span isalnum r in
  (string_of_list_ascii (c :: w), (r', p + S (length w))).

(** A token made of the current character alone, with value [0]. *)
Definition punct (k : TK) (r : list ascii) (p : nat) : Token * scan_state :=
  (mkToken k (VInt 0) p, (r, S p)).

(** [scan_token]: the body of the [while not self.char_eot()] loop.  The
    comment loop [while self.char_current() != '\n' ...] is
    [skip_comment]; when it stops at a newline the outer loop skips that
    newline as a space, which [skip_comment] does directly. *)
Fixpoint scan_token (s : list ascii) (p : nat) {struct s}
  : outcome scan_error (Token * scan_state) :=
  match s with
  | [] => Ok (mkToken TK_EOT (VInt 0) p, ([], p))
  | c :: r =>
    if isspace c then scan_token r (S p)
    else if Ascii.eqb c "!" then skip_comment r (S p)
    else if isdigit c then Ok (scan_int c r p)
    else if isalpha c then
      let '(word, st) := scan_keyword c r p in
      match KEYWORDS word with
      | None => Ok (mkToken TK_IDENTIFIER (VStr word) p, st)
      | Some k => Ok (mkToken k (VInt 0) p, st)
      end
    else if in_OPERATORS c then Ok (mkToken TK_OPERATOR (VStr (String c EmptyString)) p, (r, S p))
    else if Ascii.eqb c ";" then Ok (punct TK_SEMICOLON r p)
    else if Ascii.eqb c ":" then
      match r with
      | c2 :: r2 => if Ascii.eqb c2 "=" then Ok (mkToken TK_BECOMES (VInt 0) p, (r2, S (S p)))
                   else Ok (punct TK_COLON r p)
      | [] => Ok (punct TK_COLON r p)
      end
    else if Ascii.eqb c "~" then Ok (punct TK_IS r p)
    else if Ascii.eqb c "(" then Ok (punct TK_LPAREN r p)
    else if Ascii.eqb c ")" then Ok (punct TK_RPAREN r p)
    else if Ascii.eqb c "," then Ok (punct TK_COMMA r p)
    else Raise (ScannerError p c)
  end
with skip_comment (r : list ascii) (q : nat) {struct r}
  : outcome scan_error (Token * scan_state) :=
  match r with
  | [] => Ok (mkToken TK_EOT (VInt 0) q, ([], q))
  | c :: r' => if Ascii.eqb c "010" then scan_token r' (S q) else skip_comment r' (S q)
  end.

(** [scan]: scan tokens until the EOT token, which is kept. *)
Fixpoint scan_tokens (fuel : nat) (s : list ascii) (p : nat) : outcome scan_error (list Token) :=
  match fuel with
  | 0 => Raise ScanOutOfFuel
  | S fuel' =>
    '(t, (s', p')) <- scan_token s p ;;
    if decide (type t = TK_EOT) then Ok [t]
    else ts <- scan_tokens fuel' s' p' ;; Ok (t :: ts)
  end.

Definition scan (input : string) : outcome scan_error (list Token) :=
  scan_tokens (S (String.length input)) (list_ascii_of_string input) 0.

(** ** Well-formed tokens *)

(** The text of an identifier: a letter followed by letters and digits. *)
Definition ident_text (w : string) : Prop :=
  exists c cs, w = string_of_list_ascii (c :: cs) /\ isalpha c = true /\
               Forall (fun x => isalnum x = true) cs.

(** What the scanner promises of each token it returns, by kind. *)
Definition Token_wf (t : Token) : Prop :=
  match type t with
  | TK_IDENTIFIER => exists w, val t = VStr w /\ KEYWORDS w = None /\ ident_text w
  | TK_INTLITERAL => exists z, val t = VInt z /\ (0 <= z)%Z
  | TK_OPERATOR => exists c, val t = VStr (String c EmptyString) /\ in_OPERATORS c = true
  | _ => val t = VInt 0
  end.

(** The characters the scanner accepts at the start of a token or
    separator: the guards of [scan_token]'s branches. *)
Definition token_start (c : ascii) : bool :=
  (isspace c || Ascii.eqb c "!" || isdigit c || isalpha c || in_OPERATORS c ||
   Ascii.eqb c ";" || Ascii.eqb c ":" || Ascii.eqb c "~" || Ascii.eqb c "(" ||
   Ascii.eqb c ")" || Ascii.eqb c ",")%bool.

(** The effect of one call of [scan_token s p] returning [t] and the
    state [(s', p')]: the state moved forward over [p' - p] characters;
    EOT comes only at the end of the text, at its position; any other
    token starts inside the consumed characters and is well formed. *)
Definition token_step (s : list ascii) (p : nat) (t : Token) (s' : list ascii) (p' : nat) : Prop :=
  p <= p' /\ s' = drop (p' - p) s /\ p' + length s' = p + length s /\
  if decide (type t = TK_EOT) then s' = [] /\ t = mkToken TK_EOT (VInt 0) p'
  else p <= pos t < p' /\ Token_wf t.

Lemma KEYWORDS_kind w k :
  KEYWORDS w = Some k ->
  k <> TK_EOT /\ k <> TK_IDENTIFIER /\ k <> TK_INTLITERAL /\ k <> TK_OPERATOR.
Proof. unfold KEYWORDS. repeat case_match; intros [= <-]; done. Qed.

Lemma fold_digits_nonneg ds acc :
  (0 <= acc)%Z -> (0 <= fold_left (fun acc d => 10 * acc + Z.of_nat (nat_of_ascii d - 48))%Z ds acc)%Z.
Proof. revert acc. induction ds; intros; simpl; [lia | apply IHds; lia]. Qed.

Lemma token_step_skip c r p t s' p' :
  token_step r (S p) t s' p' -> token_step (c :: r) p t s' p'.
Proof.
  unfold token_step. intros (Hle & Hdrop & Hlen & Ht).
  replace (p' - p) with (S (p' - S p)) by lia. simpl.
  split; [lia|]. split; [done|]. split; [lia|].
  case_decide; [done|]. destruct Ht as [? ?]. split; [lia|done].
Qed.

Lemma token_step_tok s n t p :
  type t <> TK_EOT -> Token_wf t -> pos t = p -> 1 <= n <= length s ->
  token_step s p t (drop n s) (p + n).
Proof.
  intros Hk Hwf Hp Hn. unfold token_step. rewrite length_drop.
  replace (p + n - p) with n by lia. repeat split; try lia.
  case_decide; [done|]. split; [lia|done].
Qed.

Lemma token_step_one t c r p :
  type t <> TK_EOT -> Token_wf t -> pos t = p -> token_step (c :: r) p t r (S p).
Proof. intros. rewrite <- Nat.add_1_r. apply (token_step_tok (c :: r) 1); simpl; auto; lia. Qed.

Lemma token_step_span f t c r p :
  type t <> TK_EOT -> Token_wf t -> pos t = p ->
  token_step (c :: r) p t (span f r).2 (p + S (length (span f r).1)).
Proof.
  intros. rewrite <- span_drop. change (drop _ r) with (drop (S (length (span f r).1)) (c :: r)).
  apply token_step_tok; auto. pose proof (span_length f r). simpl. lia.
Qed.

#[export] Hint Resolve token_step_skip token_step_one token_step_span : mt.

Lemma token_step_eot p : token_step [] p (mkToken TK_EOT (VInt 0) p) [] p.
Proof. unfold token_step. simpl. rewrite Nat.sub_diag. repeat split; lia. Qed.

Ltac token_step_close :=
  first [ apply token_step_one | apply token_step_span | apply token_step_tok ];
  simpl; try done; try lia.

(** One call of [scan_token] (and of the comment loop) is a [token_step]. *)
Lemma scan_token_step_both s :
  (forall p t s' p', scan_token s p = Ok (t, (s', p')) -> token_step s p t s' p') /\
  (forall q t s' p', skip_comment s q = Ok (t, (s', p')) -> token_step s q t s' p').
Proof.
  induction s as [|c r [IHs IHc]]; split; intros p t s' p' H; simpl in H.
  1,2: injection H as <- <- <-; apply token_step_eot.
  - destruct (isspace c); [by apply token_step_skip, IHs|].
    destruct (Ascii.eqb c "!"); [by apply token_step_skip, IHc|].
    destruct (isdigit c) eqn:Hd.
    { unfold scan_int in H. pose proof (span_prefix isdigit r).
      destruct (span isdigit r) as [ds r'] eqn:Hs. injection H as <- <- <-.
      pose proof (token_step_span isdigit (mkToken TK_INTLITERAL (VInt (int_of_digits (c :: ds))) p) c r p) as Hst.
      rewrite Hs in Hst. apply Hst; [done| |done].
      red; simpl. eexists; split; [done|]. apply fold_digits_nonneg. lia. }
    destruct (isalpha c) eqn:Ha.
    { unfold scan_keyword in H. pose proof (span_prefix isalnum r).
      destruct (span isalnum r) as [w r'] eqn:Hs.
      destruct (KEYWORDS (string_of_list_ascii (c :: w))) as [k|] eqn:Hk;
        injection H as <- <- <-.
      - pose proof (KEYWORDS_kind _ _ Hk) as (? & ? & ? & ?).
        pose proof (token_step_span isalnum (mkToken k (VInt 0) p) c r p) as Hst.
        rewrite Hs in Hst. apply Hst; [done| |done]. unfold Token_wf; simpl. by destruct k.
      - pose proof (token_step_span isalnum (mkToken TK_IDENTIFIER (VStr (string_of_list_ascii (c :: w))) p) c r p) as Hst.
        rewrite Hs in Hst. apply Hst; [done| |done].
        red; simpl. eexists; split; [done|]. split; [done|]. by exists c, w. }
    destruct (in_OPERATORS c) eqn:Ho.
    { injection H as <- <- <-. apply token_step_one; [done| |done]. red; simpl. by exists c. }
    repeat match goal with
    | H : (if Ascii.eqb c ?a then _ else _) = _ |- _ => destruct (Ascii.eqb c a); [|]
    end; try discriminate; unfold punct in *.
    all: try (injection H as <- <- <-; by apply token_step_one).
    destruct r as [|c2 r2]; [injection H as <- <- <-; by apply token_step_one|].
    destruct (Ascii.eqb c2 "="); injection H as <- <- <-; [|by apply token_step_one].
    pose proof (token_step_tok (c :: c2 :: r2) 2 (mkToken TK_BECOMES (VInt 0) p) p) as Hst.
    simpl in Hst. rewrite Nat.add_succ_r, Nat.add_1_r in Hst. apply Hst; simpl; try done; lia.
  - destruct (Ascii.eqb c "010"); apply token_step_skip; [by apply IHs | by apply IHc].
Qed.

Lemma scan_token_step s p t s' p' :
  scan_token s p = Ok (t, (s', p')) -> token_step s p t s' p'.
Proof. apply scan_token_step_both. Qed.

(** A token other than EOT consumes at least one character. *)
Lemma token_step_progress s p t s' p' :
  token_step s p t s' p' -> type t <> TK_EOT -> length s' < length s.
Proof. unfold token_step. intros (? & _ & ? & Ht) Hne. case_decide; [done|]. lia. Qed.

Lemma HdRel_lt_Forall (a : nat) l : Forall (fun x => a < x) l -> HdRel lt a l.
Proof. intros [|]; constructor; done. Qed.

Lemma length_list_ascii_of_string (s : string) : length (list_ascii_of_string s) = String.length s.
Proof. induction s; simpl; auto. Qed.

(** What [scan_tokens] returns from the state [(s, p)]: the tokens
    before the EOT token lie in [p, p + length s), are well formed and
    are not EOT; the EOT token comes last, at [p + length s]; the
    positions increase strictly. *)
Definition scanned (s : list ascii) (p : nat) (ts : list Token) : Prop :=
  exists ts0, ts = ts0 ++ [mkToken TK_EOT (VInt 0) (p + length s)] /\
    Forall (fun t => type t <> TK_EOT /\ p <= pos t < p + length s /\ Token_wf t) ts0 /\
    Sorted lt (map pos ts).

Lemma scan_tokens_scanned fuel s p ts :
  scan_tokens fuel s p = Ok ts -> scanned s p ts.
Proof.
  revert s p ts. induction fuel as [|fuel IH]; intros s p ts H; simpl in H; [discriminate|].
  destruct (scan_token s p) as [[t [s' p']]|] eqn:E; [|discriminate].
  pose proof (scan_token_step _ _ _ _ _ E) as Hst. unfold token_step in Hst.
  destruct Hst as (Hle & Hdrop & Hlen & Ht). case_decide as Heot.
  - destruct Ht as [-> ->]. injection H as <-. exists []. simpl in *.
    repeat split; [f_equal; f_equal; lia | constructor | repeat constructor].
  - destruct Ht as [Hpos Hwf]. inv_bind. subst ts.
    destruct (IH _ _ _ E0) as (ts0 & -> & Hall & Hsort).
    exists (t :: ts0). split; [by rewrite Hlen|]. split.
    + constructor; [split; [done|split; [lia|done]]|].
      eapply Forall_impl; [exact Hall|]. intros x (? & ? & ?). repeat split; auto; lia.
    + simpl. constructor; [done|]. apply HdRel_lt_Forall.
      rewrite map_app. apply Forall_app. split.
      * apply Forall_map. eapply Forall_impl; [exact Hall|]. intros x (? & ? & ?). lia.
      * repeat constructor. simpl. lia.
Qed.

(** [scan_token] raises only [ScannerError], on a character at its
    position that starts no token. *)
Lemma scan_token_raise_both s :
  (forall p e, scan_token s p = Raise e ->
     exists i c, e = ScannerError (p + i) c /\ s !! i = Some c /\ token_start c = false) /\
  (forall q e, skip_comment s q = Raise e ->
     exists i c, e = ScannerError (q + i) c /\ s !! i = Some c /\ token_start c = false).
Proof.
  induction s as [|c r [IHs IHc]]; split; intros p e H; simpl in H; try discriminate.
  - unfold token_start. destruct (isspace c) eqn:?.
    { destruct (IHs _ _ H) as (i & c' & -> & ? & ?). exists (S i), c'. rewrite Nat.add_succ_r. done. }
    destruct (Ascii.eqb c "!") eqn:?.
    { destruct (IHc _ _ H) as (i & c' & -> & ? & ?). exists (S i), c'. rewrite Nat.add_succ_r. done. }
    unfold scan_int, scan_keyword, punct in H.
    destruct (isdigit c) eqn:?, (isalpha c) eqn:?, (in_OPERATORS c) eqn:?; simpl in H;
      repeat case_match; try discriminate.
    injection H as <-. exists 0, c. rewrite Nat.add_0_r. simpl.
    repeat split; try done.
    repeat match goal with Hf : _ = false |- _ => rewrite Hf; clear Hf end. done.
  - destruct (Ascii.eqb c "010"); [destruct (IHs _ _ H) as (i & c' & -> & ? & ?) | destruct (IHc _ _ H) as (i & c' & -> & ? & ?)];
      exists (S i), c'; rewrite Nat.add_succ_r; done.
Qed.

Lemma scan_tokens_total fuel s p :
  length s < fuel -> scan_tokens fuel s p <> Raise ScanOutOfFuel.
Proof.
  revert s p. induction fuel as [|fuel IH]; intros s p Hf; [lia|]. simpl.
  destruct (scan_token s p) as [[t [s' p']]|e] eqn:E.
  - case_decide; [done|]. pose proof (token_step_progress _ _ _ _ _ (scan_token_step _ _ _ _ _ E) H).
    specialize (IH s' p' ltac:(lia)). destruct (scan_tokens fuel s' p'); congruence.
  - destruct (proj1 (scan_token_raise_both s) _ _ E) as (i & c & -> & _). done.
Qed.

Lemma scan_tokens_raise fuel s p q c :
  scan_tokens fuel s p = Raise (ScannerError q c) ->
  exists i, q = p + i /\ s !! i = Some c /\ token_start c = false.
Proof.
  revert s p. induction fuel as [|fuel IH]; intros s p H; simpl in H; [discriminate|].
  destruct (scan_token s p) as [[t [s' p']]|e] eqn:E.
  - case_decide; [discriminate|]. destruct (scan_tokens fuel s' p') eqn:E2; [discriminate|].
    injection H as ->. destruct (IH _ _ E2) as (i & -> & Hi & Hc).
    pose proof (scan_token_step _ _ _ _ _ E) as (Hle & Hdrop & _).
    exists (p' - p + i). split; [lia|]. split; [|done].
    rewrite Hdrop, lookup_drop in Hi. done.
  - destruct (proj1 (scan_token_raise_both s) _ _ E) as (i & c' & Heq & ? & ?).
    subst e. injection H as <- <-. eauto.
Qed.

(** ** The scanner's contract *)

(** C2: [scan] terminates on every text: its fuel [S (length s)] never
    runs out, so it returns the token list or a [ScannerError]. *)
Theorem scan_total (input : string) : scan input <> Raise ScanOutOfFuel.
Proof.
  unfold scan. apply scan_tokens_total. rewrite length_list_ascii_of_string. lia.
Qed.

(** C3: a successful scan ends with exactly one EOT token, placed at the
    end of the text; every other token lies inside the text, is well
    formed ([Token_wf]: identifiers are letter-digit words that are not
    keywords, literals are non-negative, operators are one character of
    [OPERATORS]) and the positions increase strictly. *)
Theorem scan_contract (input : string) (ts : list Token) :
  scan input = Ok ts ->
  exists ts0, ts = ts0 ++ [mkToken TK_EOT (VInt 0) (String.length input)] /\
    Forall (fun t => type t <> TK_EOT /\ pos t < String.length input /\ Token_wf t) ts0 /\
    Sorted lt (map pos ts).
Proof.
  unfold scan. intros H. destruct (scan_tokens_scanned _ _ _ _ H) as (ts0 & -> & Hall & Hs).
  rewrite length_list_ascii_of_string in *. exists ts0. split; [done|]. split; [|done].
  eapply Forall_impl; [exact Hall|]. intros t (? & ? & ?). repeat split; auto; lia.
Qed.

Lemma scan_contract_witness :
  exists ts, scan "x := 12; ! note" = Ok ts /\
    exists ts0, ts = ts0 ++ [mkToken TK_EOT (VInt 0) (String.length "x := 12; ! note")] /\
    Forall (fun t => type t <> TK_EOT /\ pos t < String.length "x := 12; ! note" /\ Token_wf t) ts0 /\
    Sorted lt (map pos ts).
Proof.
  eexists. split; [vm_compute; reflexivity|]. apply scan_contract. vm_compute. reflexivity.
Defined.

(** A scan error names a character of the text at its position, and
    that character starts no token or separator. *)
Theorem scan_error_char (input : string) (q : nat) (c : ascii) :
  scan input = Raise (ScannerError q c) ->
  list_ascii_of_string input !! q = Some c /\ token_start c = false.
Proof. unfold scan. intros H. by destruct (scan_tokens_raise _ _ _ _ _ H) as (i & -> & ? & ?). Qed.

Lemma scan_error_char_witness :
  scan "a # b" = Raise (ScannerError 2 "#") /\
  list_ascii_of_string "a # b" !! 2 = Some "#"%char /\ token_start "#" = false.
Proof. split; [vm_compute; reflexivity|]. apply scan_error_char. vm_compute. reflexivity. Defined.

(** ** Python's [str] scanned back *)

Lemma digits_of_uint d acc :
  Forall (fun c => isdigit c = true) (list_ascii_of_string (NilEmpty.string_of_uint d)) /\
  fold_left (fun acc d => 10 * acc + Z.of_nat (nat_of_ascii d - 48))%Z
    (list_ascii_of_string (NilEmpty.string_of_uint d)) (Z.of_nat acc) = Z.of_nat (Nat.of_uint_acc d acc).
Proof.
  revert acc. induction d; intros acc; simpl; [split; [constructor|done]|..];
    (split; [constructor; [reflexivity|apply (proj1 (IHd 0))]|]);
    erewrite <- (proj2 (IHd _)); f_equal; rewrite Nat.tail_mul_spec; simpl; lia.
Qed.

(** [str(n)] is a non-empty run of digits whose value is [n]. *)
Lemma str_of_nat_digits n :
  exists c ds, list_ascii_of_string (str_of_nat n) = c :: ds /\
    Forall (fun c => isdigit c = true) (c :: ds) /\ int_of_digits (c :: ds) = Z.of_nat n.
Proof.
  unfold str_of_nat. destruct (digits_of_uint (Nat.to_uint n) 0) as [Hd Hv].
  pose proof (DecimalNat.Unsigned.of_to n) as Hn. unfold Nat.of_uint in Hn. rewrite Hn in Hv.
  destruct (Nat.to_uint n) eqn:E; simpl in *.
  { subst n. exists "0"%char, []. repeat constructor. }
  all: eexists _, _; split; [reflexivity|]; split; [exact Hd|exact Hv].
Qed.

Lemma isdigit_not_space c : isdigit c = true -> isspace c = false /\ Ascii.eqb c "!" = false.
Proof.
  unfold isdigit, isspace. intros H. apply andb_prop in H as [H1 H2].
  apply Nat.leb_le in H1, H2. split.
  - destruct (Nat.eqb_spec (nat_of_ascii c) 32); [lia|]. simpl.
    destruct (Nat.leb_spec 9 (nat_of_ascii c)), (Nat.leb_spec (nat_of_ascii c) 13); simpl; lia || done.
  - destruct (Ascii.eqb_spec c "!") as [->|]; [cbv in H1; lia|done].
Qed.

Lemma span_all {A} (f : A -> bool) l : Forall (fun x => f x = true) l -> span f l = (l, []).
Proof. induction 1 as [|x l Hx _ IH]; [done|]. simpl. by rewrite Hx, IH. Qed.

Lemma scan_token_digits c ds p :
  Forall (fun c => isdigit c = true) (c :: ds) ->
  scan_token (c :: ds) p = Ok (mkToken TK_INTLITERAL (VInt (int_of_digits (c :: ds))) p, ([], p + S (length ds))).
Proof.
  intros Hd. inversion Hd as [|? ? Hc Hds]; subst. destruct (isdigit_not_space c Hc) as [Hs He].
  simpl. rewrite Hs, He, Hc. unfold scan_int. by rewrite span_all.
Qed.

(** Round trip of an integer literal: the text Python's [str(n)]
    gives scans back to the one literal token of value [n], then EOT. *)
Theorem scan_str_of_nat (n : nat) :
  scan (str_of_nat n) =
    Ok [mkToken TK_INTLITERAL (VInt (Z.of_nat n)) 0; mkToken TK_EOT (VInt 0) (String.length (str_of_nat n))].
Proof.
  destruct (str_of_nat_digits n) as (c & ds & E & Hd & Hv).
  unfold scan. rewrite <- length_list_ascii_of_string, E. simpl length.
  cbn [scan_tokens]. rewrite scan_token_digits by done. simpl. rewrite Hv; repeat f_equal; lia.
Qed.
