(* ===== verification/ScannerState.v ===== *)
(** * ScannerState: the [Scanner] object and its character stream

    [Scanner] keeps a [StringIO] stream [inputstr], the current
    character [char] (a one-character string, or [''] at the end), the
    flag [eot] and the counter [pos]; [char_take] reads the next
    character, [char_current], [char_pos] and [char_eot] observe the
    state, and [scan_int] and [scan_keyword] loop over [char_take].
    This file models those methods on the object as the source writes
    them ([Stream]) and shows that the state [Scanner.scan_token] works
    on, the characters from the current one on and the position of the
    current one, is an abstraction of it ([rep]): every method commutes
    with the abstraction, the two word loops compute [scan_int] and
    [scan_keyword] of [Scanner], and [scan_token] and [scan] on the
    object return exactly what the list model returns.  The loops run
    on fuel: [S (S n)] turns for [n] unread characters, one per
    character and one for the last test, which the proofs show is
    enough. *)

From S2P Require Import Prelude Scanner.

Module Stream.

(** The attributes of a [Scanner] object. *)
Record scanner : Type := mkScanner {
  inputstr : list ascii;  (** what [StringIO.read] has not returned yet *)
  eot : bool;
  spos : nat;             (** the attribute [pos] *)
  char : string
}.

(** [self.inputstr.read(1)]: one character, or [''] at the end. *)
Definition read1 (l : list ascii) : string * list ascii :=
  match l with [] => (EmptyString, []) | c :: r => (String c EmptyString, r) end.

(** [char_take]: return the current character and read the next one. *)
Definition char_take (o : scanner) : string * scanner :=
  let '(ch, rest) := read1 (inputstr o) in
  (char o, {| inputstr := rest; eot := if String.eqb ch "" then true else eot o;
              spos := S (spos o); char := ch |}).

Definition char_current (o : scanner) : string := char o.
Definition char_pos (o : scanner) : nat := spos o - 1.
Definition char_eot (o : scanner) : bool := eot o.

(** [Scanner.__init__]: the fields, then [char_take()]. *)
Definition init (input : string) : scanner :=
  snd (char_take (mkScanner (list_ascii_of_string input) false 0 EmptyString)).

(** A test of Python's [str] on the current character: [''.isdigit()]
    and [''.isalpha()] are false. *)
Definition str_test (f : ascii -> bool) (s : string) : bool :=
  match s with String c EmptyString => f c | _ => false end.

(** [while test(self.char_current()): word += self.char_take()]; the
    fuel bounds the number of turns: one per character left, the
    current one included, and one more for the last test. *)
Fixpoint take_while (f : ascii -> bool) (fuel : nat) (acc : string) (o : scanner)
    : option (string * scanner) :=
  match fuel with
  | 0 => None
  | S n =>
    if str_test f (char_current o) then
      let '(c, o') := char_take o in take_while f n (acc +:+ c) o'
    else Some (acc, o)
  end.

(** [Scanner.scan_int] on the object: the first digit, then the loop;
    [int(string.join(numlist, ''))]. *)
Definition obj_scan_int (o : scanner) : option (Token * scanner) :=
  let p := char_pos o in
  let '(c, o1) := char_take o in
  match take_while isdigit (S (S (length (inputstr o1)))) c o1 with
  | Some (w, o2) => Some (mkToken TK_INTLITERAL (VInt (int_of_digits (list_ascii_of_string w))) p, o2)
  | None => None
  end.

(** [Scanner.scan_keyword] on the object: [isalpha() or isdigit()]. *)
Definition obj_scan_keyword (o : scanner) : option (string * scanner) :=
  let '(c, o1) := char_take o in
  take_while (fun x => isalpha x || isdigit x)%bool (S (S (length (inputstr o1)))) c o1.

(** [c in OPERATORS] on the one-character string [c]. *)
Definition in_OPERATORS_str (c : string) : bool := existsb (String.eqb c) OPERATORS.

(** The character a [ScannerError] reports: the current one. *)
Definition str_char (s : string) : ascii :=
  match s with String c _ => c | EmptyString => "000"%char end.

(** A one-character token: [pos = self.char_pos()], [self.char_take()]. *)
Definition obj_punct (k : TK) (o : scanner) : Token * scanner :=
  let pos := char_pos o in
  let '(_, o') := char_take o in (mkToken k (VInt 0) pos, o').

(** The comment loop [while self.char_current() != '\n' and not
    self.char_eot(): self.char_take()]: it stops on the newline. *)
Fixpoint skip_line (fuel : nat) (o : scanner) : option scanner :=
  match fuel with
  | 0 => None
  | S n =>
    if negb (String.eqb (char_current o) (String "010" EmptyString)) && negb (char_eot o)
    then skip_line n (snd (char_take o)) else Some o
  end.

(** The [while not self.char_eot()] loop of [Scanner.scan_token] on the
    object, with the local [c]; a loop running out of fuel is
    [ScanOutOfFuel]. *)
Fixpoint obj_scan_loop (fuel : nat) (c : string) (o : scanner) {struct fuel}
    : outcome scan_error (Token * scanner) :=
  match fuel with
  | 0 => Raise ScanOutOfFuel
  | S n =>
    if char_eot o then Ok (mkToken TK_EOT (VInt 0) (char_pos o), o)
    else if str_test isspace c then
      let o' := snd (char_take o) in obj_scan_loop n (char_current o') o'
    else if String.eqb c "!" then
      match skip_line (S (S (length (inputstr o)))) o with
      | Some o' => obj_scan_loop n (char_current o') o'
      | None => Raise ScanOutOfFuel
      end
    else if str_test isdigit c then
      match obj_scan_int o with Some r => Ok r | None => Raise ScanOutOfFuel end
    else if str_test isalpha c then
      let pos := char_pos o in
      match obj_scan_keyword o with
      | Some (word, o') =>
        Ok (match KEYWORDS word with
            | None => mkToken TK_IDENTIFIER (VStr word) pos
            | Some k => mkToken k (VInt 0) pos
            end, o')
      | None => Raise ScanOutOfFuel
      end
    else if in_OPERATORS_str c then
      let pos := char_pos o in
      let '(v, o') := char_take o in Ok (mkToken TK_OPERATOR (VStr v) pos, o')
    else if String.eqb c ";" then Ok (obj_punct TK_SEMICOLON o)
    else if String.eqb c ":" then
      let pos := char_pos o in
      let '(_, o1) := char_take o in
      if String.eqb (char_current o1) "=" then
        let '(_, o2) := char_take o1 in Ok (mkToken TK_BECOMES (VInt 0) pos, o2)
      else Ok (mkToken TK_COLON (VInt 0) pos, o1)
    else if String.eqb c "~" then Ok (obj_punct TK_IS o)
    else if String.eqb c "(" then Ok (obj_punct TK_LPAREN o)
    else if String.eqb c ")" then Ok (obj_punct TK_RPAREN o)
    else if String.eqb c "," then Ok (obj_punct TK_COMMA o)
    else Raise (ScannerError (char_pos o) (str_char (char_current o)))
  end.

(** [Scanner.scan_token]: [c = self.char_current()], then the loop; it
    turns at most once per character left, and once more at the end. *)
Definition obj_scan_token (o : scanner) : outcome scan_error (Token * scanner) :=
  obj_scan_loop (S (S (length (inputstr o)))) (char_current o) o.

(** [Scanner.scan]: append tokens until the EOT token. *)
Fixpoint obj_scan_tokens (fuel : nat) (o : scanner) : outcome scan_error (list Token) :=
  match fuel with
  | 0 => Raise ScanOutOfFuel
  | S n =>
    '(t, o') <- obj_scan_token o ;;
    if decide (type t = TK_EOT) then Ok [t]
    else ts <- obj_scan_tokens n o' ;; Ok (t :: ts)
  end.

(** [Scanner(input).scan()]. *)
Definition obj_scan (input : string) : outcome scan_error (list Token) :=
  obj_scan_tokens (S (String.length input)) (init input).

(** ** The abstraction *)

(** The characters from the current one on. *)
Definition remaining (o : scanner) : list ascii :=
  if eot o then [] else list_ascii_of_string (char o) ++ inputstr o.

(** The attributes are consistent: [eot] is set exactly when [char] is
    [''], and then nothing is left to read; otherwise [char] is one
    character. *)
Definition inv (o : scanner) : Prop :=
  1 <= spos o /\
  (eot o = true -> char o = EmptyString /\ inputstr o = []) /\
  (eot o = false -> exists c, char o = String c EmptyString).

(** [rep o (s, p)]: the object [o] is in the state [(s, p)] of
    [Scanner.scan_token]. *)
Definition rep (o : scanner) (st : list ascii * nat) : Prop :=
  inv o /\ remaining o = st.1 /\ char_pos o = st.2.

(** The current character as the one-character string Python holds. *)
Definition head_str (s : list ascii) : string :=
  match s with c :: _ => String c EmptyString | [] => EmptyString end.

(** ** Every method commutes with the abstraction *)

Lemma str_app_nil_r (s : string) : (s +:+ EmptyString)%string = s.
Proof. induction s as [|a s IH]; [done|]. change (String a (s +:+ "") = String a s). by rewrite IH. Qed.

Lemma str_app_nil_l (s : string) : (EmptyString +:+ s)%string = s.
Proof. reflexivity. Qed.

Lemma str_app_assoc (a b c : string) : ((a +:+ b) +:+ c)%string = (a +:+ (b +:+ c))%string.
Proof.
  induction a as [|x a IH]; [done|].
  change (String x ((a +:+ b) +:+ c) = String x (a +:+ (b +:+ c))). by rewrite IH.
Qed.

Lemma rep_cons o c r p :
  rep o (c :: r, p) -> eot o = false /\ char o = String c EmptyString /\ inputstr o = r /\ 1 <= spos o.
Proof.
  unfold rep, inv, remaining. simpl. intros ((Hs & Ht & Hf) & Hrem & Hp).
  destruct (eot o); [discriminate|]. destruct (Hf eq_refl) as [c' Hc]. rewrite Hc in Hrem.
  injection Hrem as -> ->. auto.
Qed.

Lemma char_take_rep o c r p :
  rep o (c :: r, p) -> (char_take o).1 = String c EmptyString /\ rep (char_take o).2 (r, S p).
Proof.
  intros H. pose proof H as (_ & _ & Hp). apply rep_cons in H as (He & Hc & Hi & Hs).
  unfold char_take. rewrite Hi. unfold char_pos in Hp.
  destruct r as [|c' r']; simpl; (split; [done|]); unfold rep, inv, remaining, char_pos; simpl in *.
  - repeat split; try lia; done.
  - rewrite He. repeat split; try lia; eauto.
Qed.

Lemma char_take_end o p : rep o ([], p) -> (char_take o).1 = EmptyString /\ rep (char_take o).2 ([], S p).
Proof.
  unfold rep, inv, remaining, char_pos. simpl. intros ((Hs & Ht & Hf) & Hrem & Hp).
  destruct (eot o) eqn:He.
  - destruct (Ht eq_refl) as [Hc Hi]. unfold char_take. rewrite Hi, Hc. simpl.
    repeat split; try lia; done.
  - destruct (Hf eq_refl) as [c Hc]. rewrite Hc in Hrem. discriminate.
Qed.

Lemma char_eot_rep o s p : rep o (s, p) -> char_eot o = match s with [] => true | _ => false end.
Proof.
  destruct s as [|c r].
  - unfold rep, inv, remaining, char_eot. simpl. intros ((_ & _ & Hf) & Hrem & _).
    destruct (eot o); [done|]. destruct (Hf eq_refl) as [c Hc]. rewrite Hc in Hrem. discriminate.
  - intros H. apply rep_cons in H as (He & _). done.
Qed.

Lemma char_current_rep o s p : rep o (s, p) -> char_current o = head_str s.
Proof.
  destruct s as [|c r].
  - unfold rep, inv, remaining, char_current. simpl. intros ((_ & Ht & Hf) & Hrem & _).
    destruct (eot o); [by destruct (Ht eq_refl)|]. destruct (Hf eq_refl) as [c Hc].
    rewrite Hc in Hrem. discriminate.
  - intros H. apply rep_cons in H as (_ & Hc & _). done.
Qed.

(** [Scanner.__init__] starts in the state of the whole text at 0. *)
Lemma init_rep input : rep (init input) (list_ascii_of_string input, 0).
Proof.
  unfold init, char_take, rep, inv, remaining, char_pos. simpl.
  destruct (list_ascii_of_string input) as [|c r]; simpl; repeat split; eauto; discriminate.
Qed.

(** The word loop takes the longest run of characters passing the test. *)
Lemma take_while_rep f s : forall fuel acc o p,
  rep o (s, p) -> length s < fuel ->
  exists o', take_while f fuel acc o = Some ((acc +:+ string_of_list_ascii (span f s).1)%string, o') /\
    rep o' ((span f s).2, p + length (span f s).1).
Proof.
  induction s as [|c r IH]; intros [|fuel] acc o p Hrep Hf; simpl in Hf; try lia.
  - cbn [take_while]. rewrite (char_current_rep _ _ _ Hrep). simpl.
    rewrite str_app_nil_r, Nat.add_0_r. eauto.
  - cbn [take_while]. rewrite (char_current_rep _ _ _ Hrep). simpl.
    destruct (f c) eqn:Hc.
    + destruct (char_take_rep _ _ _ _ Hrep) as [Ht Ho']. destruct (char_take o) as [x o1]. simpl in *. subst x.
      destruct (IH fuel (acc +:+ String c EmptyString)%string o1 (S p) Ho' ltac:(lia)) as (o' & -> & Hr).
      destruct (span f r) as [w r']. simpl in *. exists o'. split.
      * by rewrite str_app_assoc.
      * by rewrite Nat.add_succ_r.
    + exists o. simpl. rewrite str_app_nil_r, Nat.add_0_r. auto.
Qed.

Lemma rep_length o s p : rep o (s, p) -> length s <= S (length (inputstr o)).
Proof. destruct s as [|c r]; [simpl; lia|]. intros H. apply rep_cons in H as (_ & _ & -> & _). simpl. lia. Qed.

(** The two word loops of the source, run on the [Scanner] object,
    compute [Scanner.scan_int] and [Scanner.scan_keyword]: from an
    object in the state [(c :: r, p)] with [c] a digit, resp. a letter,
    they return the token, resp. the word, of the model and leave the
    object in the state the model moves to. *)
Theorem word_loops_refine o c r p :
  rep o (c :: r, p) ->
  (isdigit c = true -> exists o', obj_scan_int o = Some (fst (scan_int c r p), o') /\ rep o' (snd (scan_int c r p))) /\
  (isalpha c = true ->
     exists o', obj_scan_keyword o = Some (fst (scan_keyword c r p), o') /\ rep o' (snd (scan_keyword c r p))).
Proof.
  intros H. pose proof H as (_ & _ & Hp).
  destruct (char_take_rep _ _ _ _ H) as [Hc Ho1]. unfold obj_scan_int, obj_scan_keyword.
  destruct (char_take o) as [x o1]. simpl in Hc, Ho1. subst x.
  pose proof (rep_length _ _ _ Ho1). split; intros _.
  - destruct (take_while_rep isdigit r (S (S (length (inputstr o1)))) (String c EmptyString) o1 (S p) Ho1
      ltac:(lia)) as (o' & -> & Ho'). unfold scan_int.
    destruct (span isdigit r) as [ds r']. simpl in *. exists o'. split.
    + by rewrite str_app_nil_l, list_ascii_of_string_of_list_ascii, Hp.
    + by rewrite Nat.add_succ_r.
  - destruct (take_while_rep (fun x => isalpha x || isdigit x)%bool r (S (S (length (inputstr o1))))
      (String c EmptyString) o1 (S p) Ho1 ltac:(lia)) as (o' & -> & Ho'). unfold scan_keyword, isalnum.
    destruct (span _ r) as [w r']. simpl in *. exists o'. split; [done|].
    by rewrite Nat.add_succ_r.
Qed.


(** ** The whole scanner *)

(** A character that does not end a comment. *)
Definition notnl (c : ascii) : bool := negb (Ascii.eqb c "010").

Lemma str1_eqb c d : String.eqb (String c EmptyString) (String d EmptyString) = Ascii.eqb c d.
Proof. simpl. by destruct (Ascii.eqb c d). Qed.

(** The comment loop of the model is a scan from the end of the line. *)
Lemma skip_comment_span r q :
  skip_comment r q = scan_token (span notnl r).2 (q + length (span notnl r).1).
Proof.
  revert q. induction r as [|c r IH]; intros q; simpl; [by rewrite Nat.add_0_r|].
  destruct (Ascii.eqb c "010") eqn:E; simpl;
    replace (notnl c) with (negb (Ascii.eqb c "010")) by done; rewrite E; simpl.
  - apply Ascii.eqb_eq in E as ->. by rewrite Nat.add_0_r.
  - rewrite IH. destruct (span notnl r). simpl. by rewrite Nat.add_succ_r.
Qed.

(** The comment loop of the object stops on the newline, or at the end. *)
Lemma skip_line_rep s : forall fuel o p,
  rep o (s, p) -> length s < fuel ->
  exists o', skip_line fuel o = Some o' /\ rep o' ((span notnl s).2, p + length (span notnl s).1).
Proof.
  induction s as [|c r IH]; intros [|fuel] o p Hrep Hf; simpl in Hf; try lia; cbn [skip_line].
  - rewrite (char_current_rep _ _ _ Hrep), (char_eot_rep _ _ _ Hrep). simpl.
    rewrite Nat.add_0_r. eauto.
  - rewrite (char_current_rep _ _ _ Hrep), (char_eot_rep _ _ _ Hrep). simpl head_str.
    rewrite str1_eqb. cbn [span]. destruct (Ascii.eqb c "010") eqn:E;
      replace (notnl c) with (negb (Ascii.eqb c "010")) by done; rewrite E; simpl.
    + rewrite Nat.add_0_r. eauto.
    + destruct (char_take_rep _ _ _ _ Hrep) as [_ Ho1].
      destruct (IH fuel _ _ Ho1 ltac:(lia)) as (o' & -> & Ho'). destruct (span notnl r). simpl in *.
      rewrite Nat.add_succ_r. eauto.
Qed.

(** One call of [scan_token] on the object and in the model agree: the
    same token and the object in the model's next state, or the same
    error. *)
Definition obj_corr (r : outcome scan_error (Token * scanner))
    (r' : outcome scan_error (Token * scan_state)) : Prop :=
  match r, r' with
  | Ok (t, o), Ok (t', st) => t = t' /\ rep o st
  | Raise e, Raise e' => e = e'
  | _, _ => False
  end.

Lemma obj_punct_corr k o c r p :
  rep o (c :: r, p) -> obj_corr (Ok (obj_punct k o)) (Ok (punct k r p)).
Proof.
  intros H. pose proof H as (_ & _ & Hp). destruct (char_take_rep _ _ _ _ H) as [_ Ho1].
  unfold obj_punct. destruct (char_take o). simpl in *. by rewrite Hp.
Qed.

Lemma scan_loop_corr n : forall s p o fuel,
  length s < n -> rep o (s, p) -> length s < fuel ->
  obj_corr (obj_scan_loop fuel (char_current o) o) (scan_token s p).
Proof.
  induction n as [|n IH]; intros s p o [|fuel] Hn H Hf; try lia.
  pose proof H as (_ & _ & Hp). cbn [obj_scan_loop].
  rewrite (char_eot_rep _ _ _ H), (char_current_rep _ _ _ H).
  destruct s as [|c r]; [simpl; by rewrite Hp|]. simpl in Hn, Hf. simpl head_str.
  cbn [str_test scan_token]. rewrite !str1_eqb.
  destruct (isspace c).
  { destruct (char_take_rep _ _ _ _ H) as [_ Ho1]. apply IH; auto; lia. }
  destruct (Ascii.eqb c "!") eqn:E.
  { apply Ascii.eqb_eq in E as ->. pose proof (rep_length _ _ _ H).
    destruct (skip_line_rep _ (S (S (length (inputstr o)))) _ _ H ltac:(lia)) as (o' & -> & Ho'). simpl span in Ho'.
    rewrite skip_comment_span. pose proof (span_length notnl r).
    destruct (span notnl r) as [w rest]. simpl in *. rewrite Nat.add_succ_r in Ho'.
    apply IH; auto; lia. }
  destruct (isdigit c) eqn:D.
  { destruct (proj1 (word_loops_refine _ _ _ _ H) D) as (o' & -> & Ho').
    destruct (scan_int c r p). done. }
  destruct (isalpha c) eqn:A.
  { destruct (proj2 (word_loops_refine _ _ _ _ H) A) as (o' & -> & Ho').
    destruct (scan_keyword c r p) as [w st]. simpl. rewrite Hp. by destruct (KEYWORDS w). }
  change (in_OPERATORS_str (String c EmptyString)) with (in_OPERATORS c).
  destruct (in_OPERATORS c).
  { destruct (char_take_rep _ _ _ _ H) as [Hv Ho1]. destruct (char_take o). simpl in *.
    by subst. }
  destruct (Ascii.eqb c ";"); [exact (obj_punct_corr _ _ _ _ _ H)|].
  destruct (Ascii.eqb c ":").
  { destruct (char_take_rep _ _ _ _ H) as [_ Ho1]. destruct (char_take o) as [v o1]. simpl in *.
    rewrite (char_current_rep _ _ _ Ho1). destruct r as [|c2 r2]; simpl; [by rewrite Hp|].
    destruct (Ascii.eqb c2 "="); [|by rewrite Hp].
    destruct (char_take_rep _ _ _ _ Ho1) as [_ Ho2]. destruct (char_take o1). simpl in *.
    by rewrite Hp. }
  destruct (Ascii.eqb c "~"); [exact (obj_punct_corr _ _ _ _ _ H)|].
  destruct (Ascii.eqb c "("); [exact (obj_punct_corr _ _ _ _ _ H)|].
  destruct (Ascii.eqb c ")"); [exact (obj_punct_corr _ _ _ _ _ H)|].
  destruct (Ascii.eqb c ","); [exact (obj_punct_corr _ _ _ _ _ H)|].
  simpl. by rewrite Hp.
Qed.

Lemma scan_tokens_corr fuel : forall s p o,
  rep o (s, p) -> obj_scan_tokens fuel o = scan_tokens fuel s p.
Proof.
  induction fuel as [|fuel IH]; intros s p o H; [done|]. cbn [obj_scan_tokens scan_tokens].
  pose proof (rep_length _ _ _ H).
  pose proof (scan_loop_corr (S (length s)) s p o (S (S (length (inputstr o)))) ltac:(lia) H ltac:(lia))
    as Hc. unfold obj_scan_token.
  destruct (obj_scan_loop _ _ o) as [[t o']|e], (scan_token s p) as [[t' [s' p']]|e'];
    simpl in Hc; try contradiction; simpl.
  - destruct Hc as [<- Ho']. destruct (decide (type t = TK_EOT)); [done|]. by erewrite IH.
  - by subst.
Qed.

(** C4: [Scanner(input).scan()], run on the object with its own loops
    over [char_take], [char_current] and [char_eot] (spaces, comments up
    to the newline, the word loops, the one-character tokens and the
    [:=] look-ahead), returns exactly what the list model [scan] does:
    the same tokens, positions included, or the same [ScannerError]. *)
Theorem obj_scan_refine input : obj_scan input = scan input.
Proof. apply scan_tokens_corr, init_rep. Qed.

End Stream.
