(* ===== verification/Ast.v ===== *)
(** * Ast: the tree built by the parser

    The module [ast] that [parser.py] and [codegen.py] import is not in
    [src/]; its node classes are modelled from the spec (section 3) and
    from the way the two modules construct and read them:

    - expressions: [BinaryExpression(expr1, oper, expr2)],
      [UnaryExpression(operator, expression)], [IntegerExpression(value)],
      [VnameExpression(Vname(identifier))], and the call node
      [CallCommand(identifier, expr_list)] that [parse_primary_expression]
      builds in expression position (here [CallExpression]);
    - commands: [SequentialCommand], [AssignCommand(Vname, expression)],
      [CallCommand], [IfCommand], [WhileCommand], [LetCommand],
      [ReturnCommand];
    - declarations: [ConstDeclaration], [VarDeclaration(identifier,
      TypeDenoter)], [SequentialDeclaration], [FunctionDeclaration(name,
      arg_list, return_type_denoter, command)];
    - [Program(command)].

    A [Vname] and a [TypeDenoter] only wrap a string, so they are strings
    here; a parameter is the pair [(Vname, TypeDenoter)] of the source. *)

From S2P Require Import Prelude.

Inductive expression : Type :=
| BinaryExpression (expr1 : expression) (oper : string) (expr2 : expression)
| UnaryExpression (operator : string) (expr : expression)
| IntegerExpression (value : Z)
| VnameExpression (identifier : string)
| CallExpression (identifier : string) (expr_list : list expression).

Abbreviation param := (string * string)%type.

Inductive command : Type :=
| SequentialCommand (command1 command2 : command)
| AssignCommand (identifier : string) (expr : expression)
| CallCommand (identifier : string) (expr_list : list expression)
| IfCommand (expr : expression) (command1 command2 : command)
| WhileCommand (expr : expression) (body : command)
| LetCommand (decl : declaration) (body : command)
| ReturnCommand (expr : expression)
with declaration : Type :=
| ConstDeclaration (identifier : string) (expr : expression)
| VarDeclaration (identifier : string) (type_denoter : string)
| SequentialDeclaration (decl1 decl2 : declaration)
| FunctionDeclaration (name : string) (arg_list : list param)
    (return_type_denoter : string) (body : command).

Inductive program : Type :=
| Program (cmd : command).

(** Induction over expressions, with the arguments of a call as a list. *)
Section ExpressionInd.
Variable P : expression -> Prop.
Hypothesis Hbin : forall e1 op e2, P e1 -> P e2 -> P (BinaryExpression e1 op e2).
Hypothesis Hun : forall op e, P e -> P (UnaryExpression op e).
Hypothesis Hint : forall v, P (IntegerExpression v).
Hypothesis Hvar : forall x, P (VnameExpression x).
Hypothesis Hcall : forall name args, Forall P args -> P (CallExpression name args).

Fixpoint expression_ind' (e : expression) : P e :=
    match e with
    | BinaryExpression e1 op e2 => Hbin e1 op e2 (expression_ind' e1) (expression_ind' e2)
    | UnaryExpression op e1 => Hun op e1 (expression_ind' e1)
    | IntegerExpression v => Hint v
    | VnameExpression x => Hvar x
    | CallExpression name args =>
      Hcall name args
        ((fix go (l : list expression) : Forall P l :=
            match l with
            | [] => @ListDef.Forall_nil expression P
            | a :: l' => @ListDef.Forall_cons expression P a l' (expression_ind' a) (go l')
            end) args)
    end.
End ExpressionInd.

(** Mutual induction over commands and the declarations of [let]
    blocks and functions. *)
Scheme command_mut := Induction for command Sort Prop
  with declaration_mut := Induction for declaration Sort Prop.
Combined Scheme command_declaration_mut from command_mut, declaration_mut.
