(* ===== verification/Parser.v ===== *)
(** * Parser: [src/parser.py]

    The state of a [Parser] object is the token list and the index
    [curindex] of the current token; here it is the list of tokens from
    the current one on ([tokens[curindex:]]), so that [curtoken] is its
    head.  Every method is a function from that state to a result and
    the new state, every [while] loop of a method is one more function
    ([..._loop]), and a raised [ParserException(pos, type, exp_type)] is
    a [Raise].  Indexing [self.tokens] past the end raises an
    [IndexError] ([PIndexError]); a list produced by the scanner never
    does, since it ends with its EOT token and [token_accept_any] stops
    there.

    The methods call each other recursively; the family is given a
    shared fuel [n], and [POutOfFuel] is the fuel running out; the entry
    point [parse] and the fuel it gives are in [ParserTotal]. *)

From S2P Require Import Prelude Scanner Ast.

Inductive parse_error : Type :=
| ParserException (pos : nat) (type : TK) (exp_type : option TK)
| PIndexError
| POutOfFuel.

Abbreviation presult A := (outcome parse_error (A * list Token)).

(** ** Token access (lines 297-320) *)

(** The name an identifier token carries: the scanner makes it a string. *)
Definition ident_of (v : tval) : string :=
  match v with VStr s => s | VInt _ => EmptyString end.

(** The number an integer-literal token carries. *)
Definition int_of (v : tval) : Z :=
  match v with VInt z => z | VStr _ => 0%Z end.

(** [self.token_current().val]. *)
Definition cur_val (ts : list Token) : tval :=
  match ts with t :: _ => val t | [] => VInt 0 end.

(** [token_accept_any]: move to the next token unless the current one is
    EOT; [self.tokens[self.curindex]] past the end is an [IndexError]. *)
Definition token_accept_any (ts : list Token) : outcome parse_error (list Token) :=
  match ts with
  | t :: rest =>
    if decide (type t = TK_EOT) then Ok ts
    else match rest with [] => Raise PIndexError | _ => Ok rest end
  | [] => Raise PIndexError
  end.

(** [token_accept(type)]: check the kind of the current token, then move. *)
Definition token_accept (k : TK) (ts : list Token) : outcome parse_error (list Token) :=
  match ts with
  | t :: _ =>
    if decide (type t = k) then token_accept_any ts
    else Raise (ParserException (pos t) (type t) (Some k))
  | [] => Raise PIndexError
  end.

(** The exception raised on an unexpected token, with no expected kind. *)
Definition unexpected {A} (t : Token) : presult A :=
  Raise (ParserException (pos t) (type t) None).

(** [token.type == TK_OPERATOR and token.val in ops]. *)
Definition oper_in (ops : list string) (t : Token) : bool :=
  bool_decide (type t = TK_OPERATOR /\ val t ∈ map VStr ops).

(** ** The recursive-descent methods (lines 40-295) *)

Fixpoint parse_command (n : nat) (ts : list Token) {struct n} : presult command :=
  match n with 0 => Raise POutOfFuel | S n =>
    '(c1, ts) <- parse_single_command n ts ;;
    parse_command_loop n c1 ts
  end
(** [while self.curtoken.type != TK_END and self.curtoken.type != TK_EOT]. *)
with parse_command_loop (n : nat) (c1 : command) (ts : list Token) {struct n} : presult command :=
  match n with 0 => Raise POutOfFuel | S n =>
    match ts with
    | t :: _ =>
      if decide (type t <> TK_END /\ type t <> TK_EOT) then
        '(c2, ts) <- parse_single_command n ts ;;
        parse_command_loop n (SequentialCommand c1 c2) ts
      else Ok (c1, ts)
    | [] => Raise PIndexError
    end
  end
with parse_single_command (n : nat) (ts : list Token) {struct n} : presult command :=
  match n with 0 => Raise POutOfFuel | S n =>
    match ts with
    | [] => Raise PIndexError
    | t :: _ =>
      match type t with
      | TK_IDENTIFIER =>
        let name := ident_of (val t) in
        ts <- token_accept_any ts ;;
        match ts with
        | [] => Raise PIndexError
        | t1 :: _ =>
          if decide (type t1 = TK_BECOMES) then
            ts <- token_accept_any ts ;;
            '(e, ts) <- parse_expression n ts ;;
            ts <- token_accept TK_SEMICOLON ts ;;
            Ok (AssignCommand name e, ts)
          else if decide (type t1 = TK_LPAREN) then
            ts <- token_accept_any ts ;;
            '(args, ts) <- parse_argument_list n ts ;;
            ts <- token_accept TK_RPAREN ts ;;
            ts <- token_accept TK_SEMICOLON ts ;;
            Ok (CallCommand name args, ts)
          else unexpected t1
        end
      | TK_WHILE =>
        ts <- token_accept_any ts ;;
        '(e, ts) <- parse_expression n ts ;;
        ts <- token_accept TK_DO ts ;;
        '(c, ts) <- parse_single_command n ts ;;
        Ok (WhileCommand e c, ts)
      | TK_IF =>
        ts <- token_accept_any ts ;;
        '(e, ts) <- parse_expression n ts ;;
        ts <- token_accept TK_THEN ts ;;
        '(c1, ts) <- parse_single_command n ts ;;
        ts <- token_accept TK_ELSE ts ;;
        '(c2, ts) <- parse_single_command n ts ;;
        Ok (IfCommand e c1 c2, ts)
      | TK_LET =>
        ts <- token_accept_any ts ;;
        '(d, ts) <- parse_declaration n ts ;;
        ts <- token_accept TK_IN ts ;;
        '(c, ts) <- parse_single_command n ts ;;
        Ok (LetCommand d c, ts)
      | TK_BEGIN =>
        ts <- token_accept_any ts ;;
        '(c, ts) <- parse_command n ts ;;
        ts <- token_accept TK_END ts ;;
        Ok (c, ts)
      | TK_RETURN =>
        ts <- token_accept_any ts ;;
        '(e, ts) <- parse_expression n ts ;;
        ts <- token_accept TK_SEMICOLON ts ;;
        Ok (ReturnCommand e, ts)
      | _ => unexpected t
      end
    end
  end
with parse_expression (n : nat) (ts : list Token) {struct n} : presult expression :=
  match n with 0 => Raise POutOfFuel | S n =>
    '(e1, ts) <- parse_tertiary_expression n ts ;;
    parse_expression_loop n e1 ts
  end
with parse_expression_loop (n : nat) (e1 : expression) (ts : list Token) {struct n} : presult expression :=
  match n with 0 => Raise POutOfFuel | S n =>
    match ts with
    | t :: _ =>
      if oper_in ["<"; ">"; "="] t then
        ts <- token_accept_any ts ;;
        '(e2, ts) <- parse_tertiary_expression n ts ;;
        parse_expression_loop n (BinaryExpression e1 (ident_of (val t)) e2) ts
      else Ok (e1, ts)
    | [] => Raise PIndexError
    end
  end
with parse_tertiary_expression (n : nat) (ts : list Token) {struct n} : presult expression :=
  match n with 0 => Raise POutOfFuel | S n =>
    '(e1, ts) <- parse_secondary_expression n ts ;;
    parse_tertiary_loop n e1 ts
  end
with parse_tertiary_loop (n : nat) (e1 : expression) (ts : list Token) {struct n} : presult expression :=
  match n with 0 => Raise POutOfFuel | S n =>
    match ts with
    | t :: _ =>
      if oper_in ["+"; "-"] t then
        ts <- token_accept_any ts ;;
        '(e2, ts) <- parse_secondary_expression n ts ;;
        parse_tertiary_loop n (BinaryExpression e1 (ident_of (val t)) e2) ts
      else Ok (e1, ts)
    | [] => Raise PIndexError
    end
  end
with parse_secondary_expression (n : nat) (ts : list Token) {struct n} : presult expression :=
  match n with 0 => Raise POutOfFuel | S n =>
    '(e1, ts) <- parse_primary_expression n ts ;;
    parse_secondary_loop n e1 ts
  end
(** The operators of this tier are [['*', '/', '']] in the source. *)
with parse_secondary_loop (n : nat) (e1 : expression) (ts : list Token) {struct n} : presult expression :=
  match n with 0 => Raise POutOfFuel | S n =>
    match ts with
    | t :: _ =>
      if oper_in ["*"; "/"; ""] t then
        ts <- token_accept_any ts ;;
        '(e2, ts) <- parse_primary_expression n ts ;;
        parse_secondary_loop n (BinaryExpression e1 (ident_of (val t)) e2) ts
      else Ok (e1, ts)
    | [] => Raise PIndexError
    end
  end
with parse_primary_expression (n : nat) (ts : list Token) {struct n} : presult expression :=
  match n with 0 => Raise POutOfFuel | S n =>
    match ts with
    | [] => Raise PIndexError
    | t :: _ =>
      match type t with
      | TK_INTLITERAL =>
        ts <- token_accept_any ts ;;
        Ok (IntegerExpression (int_of (val t)), ts)
      | TK_IDENTIFIER =>
        let name := ident_of (val t) in
        ts <- token_accept_any ts ;;
        match ts with
        | [] => Raise PIndexError
        | t1 :: _ =>
          if decide (type t1 = TK_LPAREN) then
            ts <- token_accept_any ts ;;
            '(args, ts) <- parse_argument_list n ts ;;
            ts <- token_accept TK_RPAREN ts ;;
            Ok (CallExpression name args, ts)
          else Ok (VnameExpression name, ts)
        end
      | TK_OPERATOR =>
        ts <- token_accept_any ts ;;
        '(e, ts) <- parse_primary_expression n ts ;;
        Ok (UnaryExpression (ident_of (val t)) e, ts)
      | TK_LPAREN =>
        ts <- token_accept_any ts ;;
        '(e, ts) <- parse_expression n ts ;;
        ts <- token_accept TK_RPAREN ts ;;
        Ok (e, ts)
      | _ => unexpected t
      end
    end
  end
with parse_declaration (n : nat) (ts : list Token) {struct n} : presult declaration :=
  match n with 0 => Raise POutOfFuel | S n =>
    '(d1, ts) <- parse_single_declaration n ts ;;
    parse_declaration_loop n d1 ts
  end
(** [while self.curtoken.type != TK_IN]. *)
with parse_declaration_loop (n : nat) (d1 : declaration) (ts : list Token) {struct n} : presult declaration :=
  match n with 0 => Raise POutOfFuel | S n =>
    match ts with
    | t :: _ =>
      if decide (type t <> TK_IN) then
        '(d2, ts) <- parse_single_declaration n ts ;;
        parse_declaration_loop n (SequentialDeclaration d1 d2) ts
      else Ok (d1, ts)
    | [] => Raise PIndexError
    end
  end
with parse_single_declaration (n : nat) (ts : list Token) {struct n} : presult declaration :=
  match n with 0 => Raise POutOfFuel | S n =>
    match ts with
    | [] => Raise PIndexError
    | t :: _ =>
      match type t with
      | TK_CONST =>
        ts <- token_accept_any ts ;;
        let name := ident_of (cur_val ts) in
        ts <- token_accept TK_IDENTIFIER ts ;;
        ts <- token_accept TK_IS ts ;;
        '(e, ts) <- parse_expression n ts ;;
        ts <- token_accept TK_SEMICOLON ts ;;
        Ok (ConstDeclaration name e, ts)
      | TK_VAR =>
        ts <- token_accept_any ts ;;
        let name := ident_of (cur_val ts) in
        ts <- token_accept TK_IDENTIFIER ts ;;
        ts <- token_accept TK_COLON ts ;;
        let type_d := ident_of (cur_val ts) in
        ts <- token_accept TK_IDENTIFIER ts ;;
        ts <- token_accept TK_SEMICOLON ts ;;
        Ok (VarDeclaration name type_d, ts)
      | TK_FUNCDEF => parse_function_declaration n ts
      | _ => unexpected t
      end
    end
  end
with parse_function_declaration (n : nat) (ts : list Token) {struct n} : presult declaration :=
  match n with 0 => Raise POutOfFuel | S n =>
    ts <- token_accept TK_FUNCDEF ts ;;
    let name := ident_of (cur_val ts) in
    ts <- token_accept TK_IDENTIFIER ts ;;
    ts <- token_accept TK_LPAREN ts ;;
    '(params, ts) <- parse_parameter_list n ts ;;
    ts <- token_accept TK_RPAREN ts ;;
    ts <- token_accept TK_COLON ts ;;
    let return_type := ident_of (cur_val ts) in
    ts <- token_accept TK_IDENTIFIER ts ;;
    '(c, ts) <- parse_single_command n ts ;;
    Ok (FunctionDeclaration name params return_type c, ts)
  end
with parse_parameter_list (n : nat) (ts : list Token) {struct n} : presult (list param) :=
  match n with 0 => Raise POutOfFuel | S n =>
    let var_name := ident_of (cur_val ts) in
    ts <- token_accept TK_IDENTIFIER ts ;;
    ts <- token_accept TK_COLON ts ;;
    let var_type := ident_of (cur_val ts) in
    ts <- token_accept TK_IDENTIFIER ts ;;
    parse_parameter_loop n [(var_name, var_type)] ts
  end
(** [while self.curtoken.type == TK_COMMA]. *)
with parse_parameter_loop (n : nat) (acc : list param) (ts : list Token) {struct n} : presult (list param) :=
  match n with 0 => Raise POutOfFuel | S n =>
    match ts with
    | t :: _ =>
      if decide (type t = TK_COMMA) then
        ts <- token_accept_any ts ;;
        let var_name := ident_of (cur_val ts) in
        ts <- token_accept TK_IDENTIFIER ts ;;
        ts <- token_accept TK_COLON ts ;;
        let var_type := ident_of (cur_val ts) in
        ts <- token_accept TK_IDENTIFIER ts ;;
        parse_parameter_loop n (acc ++ [(var_name, var_type)]) ts
      else Ok (acc, ts)
    | [] => Raise PIndexError
    end
  end
with parse_argument_list (n : nat) (ts : list Token) {struct n} : presult (list expression) :=
  match n with 0 => Raise POutOfFuel | S n =>
    match ts with
    | t :: _ =>
      if decide (type t <> TK_RPAREN) then
        '(e, ts) <- parse_expression n ts ;;
        parse_argument_loop n [e] ts
      else Ok ([], ts)
    | [] => Raise PIndexError
    end
  end
(** [while self.curtoken.type == TK_COMMA]. *)
with parse_argument_loop (n : nat) (acc : list expression) (ts : list Token) {struct n} : presult (list expression) :=
  match n with 0 => Raise POutOfFuel | S n =>
    match ts with
    | t :: _ =>
      if decide (type t = TK_COMMA) then
        ts <- token_accept_any ts ;;
        '(e, ts) <- parse_expression n ts ;;
        parse_argument_loop n (acc ++ [e]) ts
      else Ok (acc, ts)
    | [] => Raise PIndexError
    end
  end.

(** [parse_program]: a command followed by the EOT token. *)
Definition parse_program (n : nat) (ts : list Token) : presult program :=
  '(c, ts) <- parse_command n ts ;;
  ts <- token_accept TK_EOT ts ;;
  Ok (Program c, ts).
