(* ===== verification/Precedence.v ===== *)
(** * Precedence: the operator tiers of the parser

    The spec (section 4.2) says each binary-expression tier of the
    parser folds left: [parse_tertiary_expression] reads an operand, then
    repeatedly an additive operator and an operand, wrapping what it has
    read so far.  [additive_left_fold] proves it for every chain of
    integer literals joined by [+] and [-], with any fuel large enough
    for the chain, and whatever token ends the chain, provided it is not
    an operator of the additive or multiplicative tier. *)

From S2P Require Import Prelude Scanner Ast Parser.

(** Tokens of a chain; positions do not matter to the parser's result. *)
Definition int_tok (z : Z) : Token := mkToken TK_INTLITERAL (VInt z) 0.
Definition op_tok (o : string) : Token := mkToken TK_OPERATOR (VStr o) 0.

(** [o1 z1 o2 z2 ...] *)
Fixpoint chain_tokens (pairs : list (string * Z)) : list Token :=
  match pairs with
  | [] => []
  | (o, z) :: ps => op_tok o :: int_tok z :: chain_tokens ps
  end.

(** The left fold the spec describes: [((z0 o1 z1) o2 z2) ...]. *)
Definition left_fold (e0 : expression) (pairs : list (string * Z)) : expression :=
  fold_left (fun e p => BinaryExpression e p.1 (IntegerExpression p.2)) pairs e0.

Definition additive (o : string) : Prop := o = "+" \/ o = "-".

(** The first token of a chain followed by [t :: rest]. *)
Definition chain_head (pairs : list (string * Z)) (t : Token) : Token :=
  match pairs with [] => t | (o, _) :: _ => op_tok o end.

Lemma chain_tokens_app pairs t rest :
  exists rest', chain_tokens pairs ++ t :: rest = chain_head pairs t :: rest'.
Proof. destruct pairs as [|[o z] ps]; simpl; eauto. Qed.

Lemma additive_not_mult o : additive o -> oper_in ["*"; "/"; ""] (op_tok o) = false.
Proof. intros [-> | ->]; reflexivity. Qed.

Lemma additive_in o : additive o -> oper_in ["+"; "-"] (op_tok o) = true.
Proof. intros [-> | ->]; reflexivity. Qed.

(** An integer literal followed by a token that is not multiplicative is
    a whole operand of the additive tier. *)
Lemma secondary_int n z u rest :
  oper_in ["*"; "/"; ""] u = false ->
  parse_secondary_expression (S (S n)) (int_tok z :: u :: rest) = Ok (IntegerExpression z, u :: rest).
Proof.
  intros Hu. destruct n; simpl; unfold token_accept_any; simpl; by rewrite Hu.
Qed.

(** One turn of the additive loop. *)
Lemma tertiary_loop_step n e o u ts :
  additive o ->
  parse_tertiary_loop (S n) e (op_tok o :: u :: ts) =
    ('(e2, ts') <- parse_secondary_expression n (u :: ts) ;;
     parse_tertiary_loop n (BinaryExpression e o e2) ts').
Proof. intros Ho. cbn [parse_tertiary_loop]. by rewrite (additive_in o Ho). Qed.

Lemma tertiary_loop_chain pairs e n t rest :
  Forall (fun p => additive p.1) pairs -> 2 * length pairs + 1 <= n ->
  oper_in ["+"; "-"] t = false -> oper_in ["*"; "/"; ""] t = false ->
  parse_tertiary_loop n e (chain_tokens pairs ++ t :: rest) = Ok (left_fold e pairs, t :: rest).
Proof.
  revert e n. induction pairs as [|[o z] ps IH]; intros e n Hall Hn Ht Htm; simpl in *.
  - destruct n as [|n]; [lia|]. simpl. by rewrite Ht.
  - inversion Hall as [|? ? Ho Hps]; subst. simpl in Ho.
    destruct n as [|[|[|n]]]; try lia. rewrite tertiary_loop_step by done.
    destruct (chain_tokens_app ps t rest) as [rest' Hr]. rewrite Hr.
    rewrite secondary_int; [rewrite <- Hr; apply IH; [done|lia|done|done]|].
    destruct ps as [|[o' z'] ps']; [done|]. inversion Hps; subst. by apply additive_not_mult.
Qed.

(** C26: spec, section 4.2: the additive tier folds left.  A literal
    followed by any chain of [+] and [-] literals parses, with enough
    fuel, to the left fold of the chain, and stops at the first token
    that continues neither tier. *)
Theorem additive_left_fold (z0 : Z) (pairs : list (string * Z)) (n : nat) (t : Token) (rest : list Token) :
  Forall (fun p => additive p.1) pairs -> 2 * length pairs + 3 <= n ->
  oper_in ["+"; "-"] t = false -> oper_in ["*"; "/"; ""] t = false ->
  parse_tertiary_expression n (int_tok z0 :: chain_tokens pairs ++ t :: rest) =
    Ok (left_fold (IntegerExpression z0) pairs, t :: rest).
Proof.
  intros Hall Hn Ht Htm. destruct n as [|[|[|n]]]; try lia. cbn [parse_tertiary_expression].
  destruct (chain_tokens_app pairs t rest) as [rest' Hr]. rewrite Hr, secondary_int.
  - rewrite <- Hr. apply tertiary_loop_chain; [done|lia|done|done].
  - destruct pairs as [|[o z] ps]; [done|]. inversion Hall; subst. by apply additive_not_mult.
Qed.

Lemma additive_left_fold_witness :
  Forall (fun p => additive p.1) [("-", 2%Z); ("+", 3%Z)] /\ 2 * length [("-", 2%Z); ("+", 3%Z)] + 3 <= 7 /\
  oper_in ["+"; "-"] (mkToken TK_SEMICOLON (VInt 0) 0) = false /\
  oper_in ["*"; "/"; ""] (mkToken TK_SEMICOLON (VInt 0) 0) = false /\
  parse_tertiary_expression 7 (int_tok 1 :: chain_tokens [("-", 2%Z); ("+", 3%Z)] ++ [mkToken TK_SEMICOLON (VInt 0) 0]) =
    Ok (left_fold (IntegerExpression 1) [("-", 2%Z); ("+", 3%Z)], [mkToken TK_SEMICOLON (VInt 0) 0]).
Proof.
  assert (H1 : Forall (fun p => additive p.1) [("-", 2%Z); ("+", 3%Z)])
    by (repeat constructor; unfold additive; simpl; auto).
  assert (H2 : 2 * length [("-", 2%Z); ("+", 3%Z)] + 3 <= 7) by (simpl; lia).
  assert (H3 : oper_in ["+"; "-"] (mkToken TK_SEMICOLON (VInt 0) 0) = false) by reflexivity.
  assert (H4 : oper_in ["*"; "/"; ""] (mkToken TK_SEMICOLON (VInt 0) 0) = false) by reflexivity.
  split; [exact H1|]. split; [exact H2|]. split; [exact H3|]. split; [exact H4|].
  exact (additive_left_fold 1 _ 7 _ [] H1 H2 H3 H4).
Defined.
