(* ===== verification/ParserTotal.v ===== *)
(** * ParserTotal: the entry point [Parser.parse] and its fuel

    Every function of the parser family, called with fuel [n] on a token
    list of length [L], needs [n >= 8 * L + c] for a constant [c] between
    1 and 7 that is the length of the longest chain of calls it makes
    before consuming a token (a command calls a single command on the
    same tokens, an expression a tertiary, a secondary, a primary, ...).
    With that much fuel it never returns [POutOfFuel], and when it
    succeeds it has consumed tokens: at least one for the functions that
    parse a non-empty phrase, possibly none for the loops and the
    argument list.  [total_at n] states this of all the functions at fuel
    [n]; it holds at 0 and passes from [n] to [S n], which gives
    [parse_total]. *)

From S2P Require Import Prelude Scanner Ast Parser.

(** The fuel: eight calls per token and eight more cover every chain of
    calls between two consumed tokens ([ParserTotal]). *)
Definition parse_fuel (ts : list Token) : nat := 8 * length ts + 8.

(** [Parser(tokens).parse()]: the constructor reads [tokens[0]]. *)
Definition parse (tokens : list Token) : outcome parse_error program :=
  match tokens with
  | [] => Raise PIndexError
  | _ => '(p, _) <- parse_program (parse_fuel tokens) tokens ;; Ok p
  end.

(** [shrinks strict L L']: the remaining list went from length [L] to
    [L'], strictly when [strict]. *)
Definition shrinks (strict : bool) (L L' : nat) : Prop :=
  if strict then L' < L else L' <= L.

(** A result that is not [POutOfFuel] and whose remaining tokens are a
    suffix of the input [ts], shorter when [strict]. *)
Definition fine {A} (ts : list Token) (strict : bool) (r : presult A) : Prop :=
  r <> Raise POutOfFuel /\
  forall a ts', r = Ok (a, ts') -> ts' `suffix_of` ts /\ shrinks strict (length ts) (length ts').

Lemma sfx_trans (l1 l2 l3 : list Token) : l1 `suffix_of` l2 -> l2 `suffix_of` l3 -> l1 `suffix_of` l3.
Proof. intros. by etrans. Qed.

Ltac suffix_solve := solve [ reflexivity | eauto 30 using sfx_trans ].

Section Fine.
Context {A B : Type}.

Lemma fine_bind ts1 s1 (c : presult A) (k : A -> list Token -> presult B) ts s :
    fine ts1 s1 c ->
    (forall a ts', ts' `suffix_of` ts1 -> shrinks s1 (length ts1) (length ts') -> fine ts s (k a ts')) ->
    fine ts s (match c with Ok (a, ts') => k a ts' | Raise e => Raise e end).
  Proof.
    intros [Hc Hok] Hk. destruct c as [[a ts']|e].
    - destruct (Hok a ts' eq_refl). by apply Hk.
    - split; [intros [= ->]; by apply Hc|discriminate].
  Qed.

Lemma fine_bind_plain {X} (c : outcome parse_error X) (k : X -> presult B) ts s :
    c <> Raise POutOfFuel -> (forall x, c = Ok x -> fine ts s (k x)) ->
    fine ts s (match c with Ok x => k x | Raise e => Raise e end).
  Proof. intros Hc Hk. destruct c as [x|e]; [by apply Hk|]. split; [intros [= ->]; by apply Hc|discriminate]. Qed.

Lemma fine_weaken ts1 s1 ts s (r : presult A) :
    fine ts1 s1 r -> ts1 `suffix_of` ts ->
    (forall L', shrinks s1 (length ts1) L' -> shrinks s (length ts) L') -> fine ts s r.
  Proof.
    intros [Hr Hok] Hsf Hw. split; [done|]. intros a ts' Heq.
    destruct (Hok a ts' Heq). split; [by etrans|auto].
  Qed.

Lemma fine_ok ts s (a : A) ts' :
    ts' `suffix_of` ts -> shrinks s (length ts) (length ts') -> fine ts s (Ok (a, ts')).
  Proof. intros ? ?. split; [discriminate|]. by intros ? ? [= <- <-]. Qed.

Lemma fine_raise ts s (e : parse_error) : e <> POutOfFuel -> fine ts s (@Raise _ (A * list Token) e).
  Proof. intros H. split; [congruence|discriminate]. Qed.
End Fine.

(** ** Moving over tokens *)

Lemma token_accept_any_not_oof ts : token_accept_any ts <> Raise POutOfFuel.
Proof. unfold token_accept_any. repeat case_match; discriminate. Qed.

Lemma token_accept_not_oof k ts : token_accept k ts <> Raise POutOfFuel.
Proof. unfold token_accept. repeat case_match; try discriminate. apply token_accept_any_not_oof. Qed.

Lemma token_accept_any_len ts ts' : token_accept_any ts = Ok ts' -> length ts' <= length ts.
Proof. unfold token_accept_any. repeat case_match; intros [= <-]; simpl; lia. Qed.

Lemma token_accept_any_lt t rest ts' :
  type t <> TK_EOT -> token_accept_any (t :: rest) = Ok ts' -> length ts' < S (length rest).
Proof. unfold token_accept_any. intros H. case_decide; [done|]. case_match; intros [= <-]; simpl; lia. Qed.

Lemma token_accept_any_suffix ts ts' : token_accept_any ts = Ok ts' -> ts' `suffix_of` ts.
Proof. unfold token_accept_any. repeat case_match; intros [= <-]; [done|]. by apply suffix_cons_r. Qed.

Lemma token_accept_suffix k ts ts' : token_accept k ts = Ok ts' -> ts' `suffix_of` ts.
Proof. unfold token_accept. repeat case_match; try discriminate. apply token_accept_any_suffix. Qed.

Lemma token_accept_lt k ts ts' : k <> TK_EOT -> token_accept k ts = Ok ts' -> length ts' < length ts.
Proof.
  unfold token_accept. intros Hk. destruct ts as [|t rest]; [discriminate|].
  case_decide; [|discriminate]. subst k. by apply token_accept_any_lt.
Qed.

Lemma oper_in_type ops t : oper_in ops t = true -> type t = TK_OPERATOR.
Proof. unfold oper_in. rewrite bool_decide_eq_true. tauto. Qed.

Lemma unexpected_fine {A} L s t : fine L s (@unexpected A t).
Proof. by apply fine_raise. Qed.

#[export] Hint Resolve token_accept_any_not_oof token_accept_not_oof unexpected_fine : mt.

(** Step over a [token_accept_any] or [token_accept] bind, recording
    how much shorter the list became. *)
Ltac accept_step :=
  match goal with
  | |- fine _ _ (match token_accept_any (?t :: ?r) with Ok _ => _ | Raise _ => _ end) =>
      apply fine_bind_plain; [apply token_accept_any_not_oof|];
      let ts := fresh "ts" in let H := fresh "Hacc" in let Hs := fresh "Hsf" in intros ts H;
      pose proof (token_accept_any_suffix _ _ H) as Hs; apply token_accept_any_lt in H; [|congruence]
  | |- fine _ _ (match token_accept_any ?l with Ok _ => _ | Raise _ => _ end) =>
      apply fine_bind_plain; [apply token_accept_any_not_oof|];
      let ts := fresh "ts" in let H := fresh "Hacc" in let Hs := fresh "Hsf" in intros ts H;
      pose proof (token_accept_any_suffix _ _ H) as Hs; apply token_accept_any_len in H
  | |- fine _ _ (match token_accept ?k ?l with Ok _ => _ | Raise _ => _ end) =>
      apply fine_bind_plain; [apply token_accept_not_oof|];
      let ts := fresh "ts" in let H := fresh "Hacc" in let Hs := fresh "Hsf" in intros ts H;
      pose proof (token_accept_suffix _ _ _ H) as Hs; apply token_accept_lt in H; [|discriminate]
  end.

(** ** The fuel each function needs *)

Definition need (c : nat) (ts : list Token) : nat := 8 * length ts + c.

Record total_at (n : nat) : Prop := {
  tot_command : forall ts, need 7 ts <= n -> fine ts true (parse_command n ts);
  tot_command_loop : forall c ts, need 7 ts <= n ->
    fine ts false (parse_command_loop n c ts);
  tot_single_command : forall ts, need 6 ts <= n ->
    fine ts true (parse_single_command n ts);
  tot_expression : forall ts, need 4 ts <= n -> fine ts true (parse_expression n ts);
  tot_expression_loop : forall e ts, need 4 ts <= n ->
    fine ts false (parse_expression_loop n e ts);
  tot_tertiary : forall ts, need 3 ts <= n ->
    fine ts true (parse_tertiary_expression n ts);
  tot_tertiary_loop : forall e ts, need 3 ts <= n ->
    fine ts false (parse_tertiary_loop n e ts);
  tot_secondary : forall ts, need 2 ts <= n ->
    fine ts true (parse_secondary_expression n ts);
  tot_secondary_loop : forall e ts, need 2 ts <= n ->
    fine ts false (parse_secondary_loop n e ts);
  tot_primary : forall ts, need 1 ts <= n ->
    fine ts true (parse_primary_expression n ts);
  tot_declaration : forall ts, need 3 ts <= n ->
    fine ts true (parse_declaration n ts);
  tot_declaration_loop : forall d ts, need 3 ts <= n ->
    fine ts false (parse_declaration_loop n d ts);
  tot_single_declaration : forall ts, need 2 ts <= n ->
    fine ts true (parse_single_declaration n ts);
  tot_function_declaration : forall ts, need 1 ts <= n ->
    fine ts true (parse_function_declaration n ts);
  tot_parameter_list : forall ts, need 1 ts <= n ->
    fine ts true (parse_parameter_list n ts);
  tot_parameter_loop : forall acc ts, need 1 ts <= n ->
    fine ts false (parse_parameter_loop n acc ts);
  tot_argument_list : forall ts, need 5 ts <= n ->
    fine ts false (parse_argument_list n ts);
  tot_argument_loop : forall acc ts, need 5 ts <= n ->
    fine ts false (parse_argument_loop n acc ts)
}.

Ltac fuel_arith := unfold need in *; simpl in *; lia.

Ltac apply_tot IH :=
  first [ apply (tot_command _ IH) | apply (tot_command_loop _ IH)
        | apply (tot_single_command _ IH) | apply (tot_expression _ IH)
        | apply (tot_expression_loop _ IH) | apply (tot_tertiary _ IH)
        | apply (tot_tertiary_loop _ IH) | apply (tot_secondary _ IH)
        | apply (tot_secondary_loop _ IH) | apply (tot_primary _ IH)
        | apply (tot_declaration _ IH) | apply (tot_declaration_loop _ IH)
        | apply (tot_single_declaration _ IH) | apply (tot_function_declaration _ IH)
        | apply (tot_parameter_list _ IH) | apply (tot_parameter_loop _ IH)
        | apply (tot_argument_list _ IH) | apply (tot_argument_loop _ IH) ].

(** One step of the proof that a function body is [fine]: follow the
    body's next bind, test or call. *)
Ltac tot_step IH :=
  match goal with
  | |- fine _ _ (Ok _) => apply fine_ok; [suffix_solve | simpl in *; lia]
  | |- fine _ _ (unexpected _) => apply unexpected_fine
  | |- fine _ _ (Raise _) => apply fine_raise; discriminate
  | |- fine _ _ (match token_accept_any _ with Ok _ => _ | Raise _ => _ end) => accept_step
  | |- fine _ _ (match token_accept _ _ with Ok _ => _ | Raise _ => _ end) => accept_step
  | |- fine _ _ (match _ with Ok _ => _ | Raise _ => _ end) =>
      eapply fine_bind; [apply_tot IH; fuel_arith|];
      let a := fresh "a" in let ts := fresh "ts" in let H := fresh "Hsh" in
      let Hs := fresh "Hsf" in intros a ts Hs H; simpl in H
  | |- fine _ _ (match ?l with [] => _ | _ :: _ => _ end) =>
      let t := fresh "t" in let r := fresh "r" in destruct l as [|t r]
  | |- fine _ _ (if decide _ then _ else _) => case_decide
  | |- fine _ _ (if oper_in ?o ?t then _ else _) =>
      let H := fresh "Ho" in destruct (oper_in o t) eqn:H; [apply oper_in_type in H|]
  | |- fine _ _ (match type ?t with _ => _ end) => let H := fresh "Ht" in destruct (type t) eqn:H
  | |- fine _ _ _ =>
      eapply fine_weaken; [apply_tot IH; fuel_arith | suffix_solve | intros ? ?; simpl in *; lia]
  end.

Ltac tot_body IH := intros; cbn -[token_accept_any token_accept unexpected]; repeat tot_step IH.

Section Step.
Context (n : nat) (IH : total_at n).

Lemma command_total ts : need 7 ts <= S n -> fine ts true (parse_command (S n) ts).
  Proof. tot_body IH. Qed.

Lemma command_loop_total c ts :
    need 7 ts <= S n -> fine ts false (parse_command_loop (S n) c ts).
  Proof. tot_body IH. Qed.

Lemma single_command_total ts :
    need 6 ts <= S n -> fine ts true (parse_single_command (S n) ts).
  Proof. tot_body IH. Qed.

Lemma expression_total ts :
    need 4 ts <= S n -> fine ts true (parse_expression (S n) ts).
  Proof. tot_body IH. Qed.

Lemma expression_loop_total e ts :
    need 4 ts <= S n -> fine ts false (parse_expression_loop (S n) e ts).
  Proof. tot_body IH. Qed.

Lemma tertiary_total ts :
    need 3 ts <= S n -> fine ts true (parse_tertiary_expression (S n) ts).
  Proof. tot_body IH. Qed.

Lemma tertiary_loop_total e ts :
    need 3 ts <= S n -> fine ts false (parse_tertiary_loop (S n) e ts).
  Proof. tot_body IH. Qed.

Lemma secondary_total ts :
    need 2 ts <= S n -> fine ts true (parse_secondary_expression (S n) ts).
  Proof. tot_body IH. Qed.

Lemma secondary_loop_total e ts :
    need 2 ts <= S n -> fine ts false (parse_secondary_loop (S n) e ts).
  Proof. tot_body IH. Qed.

Lemma primary_total ts :
    need 1 ts <= S n -> fine ts true (parse_primary_expression (S n) ts).
  Proof. tot_body IH. Qed.

Lemma declaration_total ts :
    need 3 ts <= S n -> fine ts true (parse_declaration (S n) ts).
  Proof. tot_body IH. Qed.

Lemma declaration_loop_total d ts :
    need 3 ts <= S n -> fine ts false (parse_declaration_loop (S n) d ts).
  Proof. tot_body IH. Qed.

Lemma single_declaration_total ts :
    need 2 ts <= S n -> fine ts true (parse_single_declaration (S n) ts).
  Proof. tot_body IH. Qed.

Lemma function_declaration_total ts :
    need 1 ts <= S n -> fine ts true (parse_function_declaration (S n) ts).
  Proof. tot_body IH. Qed.

Lemma parameter_list_total ts :
    need 1 ts <= S n -> fine ts true (parse_parameter_list (S n) ts).
  Proof. tot_body IH. Qed.

Lemma parameter_loop_total acc ts :
    need 1 ts <= S n -> fine ts false (parse_parameter_loop (S n) acc ts).
  Proof. tot_body IH. Qed.

Lemma argument_list_total ts :
    need 5 ts <= S n -> fine ts false (parse_argument_list (S n) ts).
  Proof. tot_body IH. Qed.

Lemma argument_loop_total acc ts :
    need 5 ts <= S n -> fine ts false (parse_argument_loop (S n) acc ts).
  Proof. tot_body IH. Qed.

Lemma total_at_S : total_at (S n).
  Proof.
    constructor; auto using command_total, command_loop_total, single_command_total,
      expression_total, expression_loop_total, tertiary_total, tertiary_loop_total,
      secondary_total, secondary_loop_total, primary_total, declaration_total,
      declaration_loop_total, single_declaration_total, function_declaration_total,
      parameter_list_total, parameter_loop_total, argument_list_total, argument_loop_total.
  Qed.
End Step.

Lemma total_at_all n : total_at n.
Proof.
  induction n as [|n IH]; [|by apply total_at_S].
  constructor; intros; exfalso; unfold need in *; lia.
Qed.

Lemma parse_program_fine tokens :
  fine tokens false (parse_program (parse_fuel tokens) tokens).
Proof.
  unfold parse_program.
  eapply fine_bind; [apply (tot_command _ (total_at_all _)); unfold need, parse_fuel; lia|].
  intros c ts Hs _. apply fine_bind_plain; [apply token_accept_not_oof|].
  intros ts' Hacc. apply fine_ok; [|simpl].
  - etrans; [|exact Hs]. by apply (token_accept_suffix TK_EOT).
  - apply token_accept_suffix, suffix_length in Hacc. apply suffix_length in Hs. lia.
Qed.

(** C1: the parser terminates on every token list: with the fuel
    [parse_fuel] it never runs out, so [parse] returns a program, a
    [ParserException] or an [IndexError]. *)
Theorem parse_total (tokens : list Token) : parse tokens <> Raise POutOfFuel.
Proof.
  unfold parse. destruct tokens as [|t r]; [discriminate|].
  destruct (parse_program_fine (t :: r)) as [Hn _].
  destruct (parse_program _ _) as [[p ts]|e]; congruence.
Qed.

Lemma token_accept_eot ts ts' :
  token_accept TK_EOT ts = Ok ts' -> ts' = ts /\ exists t rest, ts = t :: rest /\ type t = TK_EOT.
Proof.
  unfold token_accept, token_accept_any. destruct ts as [|t rest]; [discriminate|].
  intros H. case_decide as Ht; [|discriminate].
  injection H as <-. eauto.
Qed.

(** A suffix of [ts0 ++ [e]] that starts with an EOT token is [[e]]
    when [ts0] holds no EOT token. *)
Lemma suffix_eot_last (ts0 : list Token) e t rest :
  Forall (fun t => type t <> TK_EOT) ts0 -> type t = TK_EOT ->
  (t :: rest) `suffix_of` (ts0 ++ [e]) -> t :: rest = [e].
Proof.
  intros Hall Ht [pre Heq]. revert pre Heq. induction ts0 as [|x ts0 IH]; intros pre Heq.
  - destruct pre as [|y pre]; simpl in Heq; [done|]. destruct pre; discriminate.
  - destruct pre as [|y pre]; simpl in Heq.
    + injection Heq as -> _. by inversion Hall.
    + injection Heq as -> Heq. inversion Hall. by apply (IH ltac:(done) pre).
Qed.

(** The parse of a token list ending with its only EOT token stops on it. *)
Lemma parse_program_eot (ts0 : list Token) (e : Token) (p : program) :
  type e = TK_EOT -> Forall (fun t => type t <> TK_EOT) ts0 ->
  parse (ts0 ++ [e]) = Ok p ->
  parse_program (parse_fuel (ts0 ++ [e])) (ts0 ++ [e]) = Ok (p, [e]).
Proof.
  intros He Hall. unfold parse. destruct (ts0 ++ [e]) as [|t0 l0] eqn:Eq; [by destruct ts0|]. rewrite <- Eq.
  destruct (parse_program_fine (ts0 ++ [e])) as [_ Hok].
  destruct (parse_program _ _) as [[p' ts']|err] eqn:Ep; [|discriminate]. intros [= ->].
  destruct (Hok _ _ eq_refl) as [Hsf _]. unfold parse_program in Ep.
  destruct (parse_command _ _) as [[c ts1]|]; [|discriminate].
  destruct (token_accept TK_EOT ts1) as [ts2|] eqn:Ea; [|discriminate]. injection Ep as <- <-.
  destruct (token_accept_eot _ _ Ea) as [-> (t & rest & -> & Ht)].
  by rewrite (suffix_eot_last ts0 e t rest Hall Ht Hsf).
Qed.


(** On a token list that ends with its only EOT token (what [scan]
    returns), a successful parse consumes every token before the EOT
    token and stops on it: the tokens left are exactly [[EOT]]. *)
Theorem parse_consumes_all (ts0 : list Token) (e : Token) (p : program) :
  type e = TK_EOT -> Forall (fun t => type t <> TK_EOT) ts0 ->
  parse (ts0 ++ [e]) = Ok p ->
  parse_program (parse_fuel (ts0 ++ [e])) (ts0 ++ [e]) = Ok (p, [e]).
Proof. apply parse_program_eot. Qed.

Lemma parse_consumes_all_witness :
  let ts0 := [mkToken TK_IDENTIFIER (VStr "x") 0; mkToken TK_BECOMES (VInt 0) 2;
              mkToken TK_INTLITERAL (VInt 1) 5; mkToken TK_SEMICOLON (VInt 0) 6] in
  let e := mkToken TK_EOT (VInt 0) 7 in
  parse (ts0 ++ [e]) = Ok (Program (AssignCommand "x" (IntegerExpression 1))) /\
  parse_program (parse_fuel (ts0 ++ [e])) (ts0 ++ [e]) =
    Ok (Program (AssignCommand "x" (IntegerExpression 1)), [e]).
Proof.
  intros ts0 e. split; [vm_compute; reflexivity|].
  apply parse_consumes_all; [reflexivity | repeat constructor; discriminate | vm_compute; reflexivity].
Defined.

(** ** No [IndexError] on a list that ends with EOT *)

(** The parser's precondition: the last token is EOT. *)
Definition eot_terminated (ts : list Token) : Prop :=
  exists e, last ts = Some e /\ type e = TK_EOT.

(** A result that is not an [IndexError] and leaves a list that still
    ends with EOT. *)
Definition safe {A} (r : presult A) : Prop :=
  r <> Raise PIndexError /\ forall a ts', r = Ok (a, ts') -> eot_terminated ts'.

Lemma eot_terminated_nil : ~ eot_terminated [].
Proof. by intros (e & [=] & _). Qed.

Lemma token_accept_any_eot ts :
  eot_terminated ts -> token_accept_any ts <> Raise PIndexError /\
  forall ts', token_accept_any ts = Ok ts' -> eot_terminated ts'.
Proof.
  intros (e & Hl & He). unfold token_accept_any. destruct ts as [|t rest]; [done|].
  case_decide.
  - split; [discriminate|]. intros ? [= <-]. by exists e.
  - destruct rest as [|t' rest]; simpl in Hl; [by injection Hl as ->|].
    split; [discriminate|]. intros ? [= <-]. by exists e.
Qed.

Lemma token_accept_eot_terminated k ts :
  eot_terminated ts -> token_accept k ts <> Raise PIndexError /\
  forall ts', token_accept k ts = Ok ts' -> eot_terminated ts'.
Proof.
  intros H. unfold token_accept. destruct ts as [|t rest]; [by destruct eot_terminated_nil|].
  case_decide; [by apply token_accept_any_eot|]. split; discriminate.
Qed.

Section Safe.
Context {A B : Type}.

Lemma safe_bind (c : presult A) (k : A -> list Token -> presult B) :
    safe c -> (forall a ts', eot_terminated ts' -> safe (k a ts')) ->
    safe (match c with Ok (a, ts') => k a ts' | Raise e => Raise e end).
  Proof.
    intros [Hc Hok] Hk. destruct c as [[a ts']|e]; [by apply Hk, (Hok a ts')|].
    split; [intros [= ->]; by apply Hc|discriminate].
  Qed.

Lemma safe_bind_plain {X} (c : outcome parse_error X) (k : X -> presult B) :
    c <> Raise PIndexError -> (forall x, c = Ok x -> safe (k x)) ->
    safe (match c with Ok x => k x | Raise e => Raise e end).
  Proof. intros Hc Hk. destruct c as [x|e]; [by apply Hk|]. split; [intros [= ->]; by apply Hc|discriminate]. Qed.
End Safe.

Record safe_at (n : nat) : Prop := {
  safe_command : forall ts, eot_terminated ts -> safe (parse_command n ts);
  safe_command_loop : forall c ts, eot_terminated ts -> safe (parse_command_loop n c ts);
  safe_single_command : forall ts, eot_terminated ts -> safe (parse_single_command n ts);
  safe_expression : forall ts, eot_terminated ts -> safe (parse_expression n ts);
  safe_expression_loop : forall e ts, eot_terminated ts -> safe (parse_expression_loop n e ts);
  safe_tertiary : forall ts, eot_terminated ts -> safe (parse_tertiary_expression n ts);
  safe_tertiary_loop : forall e ts, eot_terminated ts -> safe (parse_tertiary_loop n e ts);
  safe_secondary : forall ts, eot_terminated ts -> safe (parse_secondary_expression n ts);
  safe_secondary_loop : forall e ts, eot_terminated ts -> safe (parse_secondary_loop n e ts);
  safe_primary : forall ts, eot_terminated ts -> safe (parse_primary_expression n ts);
  safe_declaration : forall ts, eot_terminated ts -> safe (parse_declaration n ts);
  safe_declaration_loop : forall d ts, eot_terminated ts -> safe (parse_declaration_loop n d ts);
  safe_single_declaration : forall ts, eot_terminated ts -> safe (parse_single_declaration n ts);
  safe_function_declaration : forall ts, eot_terminated ts -> safe (parse_function_declaration n ts);
  safe_parameter_list : forall ts, eot_terminated ts -> safe (parse_parameter_list n ts);
  safe_parameter_loop : forall acc ts, eot_terminated ts -> safe (parse_parameter_loop n acc ts);
  safe_argument_list : forall ts, eot_terminated ts -> safe (parse_argument_list n ts);
  safe_argument_loop : forall acc ts, eot_terminated ts -> safe (parse_argument_loop n acc ts)
}.

Ltac apply_safe IH :=
  first [ apply (safe_command _ IH) | apply (safe_command_loop _ IH)
        | apply (safe_single_command _ IH) | apply (safe_expression _ IH)
        | apply (safe_expression_loop _ IH) | apply (safe_tertiary _ IH)
        | apply (safe_tertiary_loop _ IH) | apply (safe_secondary _ IH)
        | apply (safe_secondary_loop _ IH) | apply (safe_primary _ IH)
        | apply (safe_declaration _ IH) | apply (safe_declaration_loop _ IH)
        | apply (safe_single_declaration _ IH) | apply (safe_function_declaration _ IH)
        | apply (safe_parameter_list _ IH) | apply (safe_parameter_loop _ IH)
        | apply (safe_argument_list _ IH) | apply (safe_argument_loop _ IH) ].

Ltac safe_step IH :=
  match goal with
  | H : eot_terminated [] |- _ => destruct (eot_terminated_nil H)
  | |- safe (Ok _) => split; [discriminate | by intros ? ? [= <- <-]]
  | |- safe (unexpected _) => split; discriminate
  | |- safe (Raise POutOfFuel) => split; discriminate
  | |- safe (match token_accept_any ?l with Ok _ => _ | Raise _ => _ end) =>
      let Hl := fresh "Hl" in
      assert (Hl := token_accept_any_eot l ltac:(assumption));
      apply safe_bind_plain; [apply Hl|];
      let ts := fresh "ts" in let H := fresh "Heot" in intros ts H; apply Hl in H; clear Hl
  | |- safe (match token_accept ?k ?l with Ok _ => _ | Raise _ => _ end) =>
      let Hl := fresh "Hl" in
      assert (Hl := token_accept_eot_terminated k l ltac:(assumption));
      apply safe_bind_plain; [apply Hl|];
      let ts := fresh "ts" in let H := fresh "Heot" in intros ts H; apply Hl in H; clear Hl
  | |- safe (match _ with Ok _ => _ | Raise _ => _ end) =>
      eapply safe_bind; [apply_safe IH; assumption|];
      let a := fresh "a" in let ts := fresh "ts" in let H := fresh "Heot" in intros a ts H
  | |- safe (match ?l with [] => _ | _ :: _ => _ end) =>
      let t := fresh "t" in let r := fresh "r" in destruct l as [|t r]
  | |- safe (if decide _ then _ else _) => case_decide
  | |- safe (if oper_in ?o ?t then _ else _) => destruct (oper_in o t)
  | |- safe (match type ?t with _ => _ end) => destruct (type t)
  | |- safe _ => apply_safe IH; assumption
  end.

Ltac safe_body IH := intros; cbn -[token_accept_any token_accept unexpected]; repeat safe_step IH.

Section SafeStep.
Context (n : nat) (IH : safe_at n).

Lemma command_safe ts :
    eot_terminated ts -> safe (parse_command (S n) ts).
  Proof. safe_body IH. Qed.

Lemma command_loop_safe c ts :
    eot_terminated ts -> safe (parse_command_loop (S n) c ts).
  Proof. safe_body IH. Qed.

Lemma single_command_safe ts :
    eot_terminated ts -> safe (parse_single_command (S n) ts).
  Proof. safe_body IH. Qed.

Lemma expression_safe ts :
    eot_terminated ts -> safe (parse_expression (S n) ts).
  Proof. safe_body IH. Qed.

Lemma expression_loop_safe e ts :
    eot_terminated ts -> safe (parse_expression_loop (S n) e ts).
  Proof. safe_body IH. Qed.

Lemma tertiary_safe ts :
    eot_terminated ts -> safe (parse_tertiary_expression (S n) ts).
  Proof. safe_body IH. Qed.

Lemma tertiary_loop_safe e ts :
    eot_terminated ts -> safe (parse_tertiary_loop (S n) e ts).
  Proof. safe_body IH. Qed.

Lemma secondary_safe ts :
    eot_terminated ts -> safe (parse_secondary_expression (S n) ts).
  Proof. safe_body IH. Qed.

Lemma secondary_loop_safe e ts :
    eot_terminated ts -> safe (parse_secondary_loop (S n) e ts).
  Proof. safe_body IH. Qed.

Lemma primary_safe ts :
    eot_terminated ts -> safe (parse_primary_expression (S n) ts).
  Proof. safe_body IH. Qed.

Lemma declaration_safe ts :
    eot_terminated ts -> safe (parse_declaration (S n) ts).
  Proof. safe_body IH. Qed.

Lemma declaration_loop_safe d ts :
    eot_terminated ts -> safe (parse_declaration_loop (S n) d ts).
  Proof. safe_body IH. Qed.

Lemma single_declaration_safe ts :
    eot_terminated ts -> safe (parse_single_declaration (S n) ts).
  Proof. safe_body IH. Qed.

Lemma function_declaration_safe ts :
    eot_terminated ts -> safe (parse_function_declaration (S n) ts).
  Proof. safe_body IH. Qed.

Lemma parameter_list_safe ts :
    eot_terminated ts -> safe (parse_parameter_list (S n) ts).
  Proof. safe_body IH. Qed.

Lemma parameter_loop_safe acc ts :
    eot_terminated ts -> safe (parse_parameter_loop (S n) acc ts).
  Proof. safe_body IH. Qed.

Lemma argument_list_safe ts :
    eot_terminated ts -> safe (parse_argument_list (S n) ts).
  Proof. safe_body IH. Qed.

Lemma argument_loop_safe acc ts :
    eot_terminated ts -> safe (parse_argument_loop (S n) acc ts).
  Proof. safe_body IH. Qed.

Lemma safe_at_S : safe_at (S n).
  Proof.
    constructor; auto using command_safe, command_loop_safe, single_command_safe, expression_safe, expression_loop_safe, tertiary_safe, tertiary_loop_safe, secondary_safe, secondary_loop_safe, primary_safe, declaration_safe, declaration_loop_safe, single_declaration_safe, function_declaration_safe, parameter_list_safe, parameter_loop_safe, argument_list_safe, argument_loop_safe.
  Qed.
End SafeStep.

Lemma safe_at_all n : safe_at n.
Proof.
  induction n as [|n IH]; [|by apply safe_at_S].
  constructor; intros; split; discriminate.
Qed.

(** [parse] raises no [IndexError] on an EOT-terminated list. *)
Lemma parse_safe (tokens : list Token) :
  eot_terminated tokens -> parse tokens <> Raise PIndexError.
Proof.
  intros Heot. unfold parse. destruct tokens as [|t r]; [by destruct eot_terminated_nil|].
  unfold parse_program.
  destruct (safe_command _ (safe_at_all (parse_fuel (t :: r))) (t :: r) Heot) as [Hc Hok].
  destruct (parse_command _ _) as [[c ts]|e] eqn:E.
  - destruct (token_accept_eot_terminated TK_EOT ts (Hok _ _ eq_refl)) as [Ha _].
    destruct (token_accept TK_EOT ts); [discriminate|congruence].
  - intros [= ->]. by apply Hc.
Qed.


(** C5: on a token list whose last token is EOT (what [scan] returns), the
    parser never raises an [IndexError]: [token_accept_any] stops on the
    EOT token and every index it reads is in range. *)
Theorem parse_no_index_error (tokens : list Token) :
  eot_terminated tokens -> parse tokens <> Raise PIndexError.
Proof. apply parse_safe. Qed.

Lemma parse_no_index_error_witness :
  eot_terminated [mkToken TK_RETURN (VInt 0) 0; mkToken TK_EOT (VInt 0) 6] /\
  parse [mkToken TK_RETURN (VInt 0) 0; mkToken TK_EOT (VInt 0) 6] <> Raise PIndexError.
Proof.
  assert (H : eot_terminated [mkToken TK_RETURN (VInt 0) 0; mkToken TK_EOT (VInt 0) 6])
    by (eexists; split; reflexivity).
  split; [exact H | apply parse_no_index_error; exact H].
Defined.

(** C27: spec, section 8: on the tokens the scanner produces, a
    successful parse consumes every token up to the end-of-text token
    and stops on it. *)
Theorem scan_parse_consumes_all (text : string) (ts : list Token) (p : program) :
  scan text = Ok ts -> parse ts = Ok p ->
  exists e, last ts = Some e /\ type e = TK_EOT /\
    parse_program (parse_fuel ts) ts = Ok (p, [e]).
Proof.
  unfold scan. intros Hs Hp. destruct (scan_tokens_scanned _ _ _ _ Hs) as (ts0 & -> & Hall & _).
  eexists. split; [by rewrite last_app|]. split; [done|].
  apply parse_program_eot; [done| |done].
  eapply Forall_impl; [exact Hall|]. by intros t [? _].
Qed.

Lemma scan_parse_consumes_all_witness :
  exists ts p, scan "x := 1;" = Ok ts /\ parse ts = Ok p /\
    exists e, last ts = Some e /\ type e = TK_EOT /\ parse_program (parse_fuel ts) ts = Ok (p, [e]).
Proof.
  destruct (scan "x := 1;") as [ts|e] eqn:Hs; [|vm_compute in Hs; discriminate].
  destruct (parse ts) as [p|e] eqn:Hp.
  2: { assert (Hp' : match scan "x := 1;" with Ok ts => parse ts | Raise _ => Raise POutOfFuel end = Raise e)
         by (rewrite Hs; exact Hp). vm_compute in Hp'. discriminate. }
  exists ts, p. split; [done|]. split; [done|]. exact (scan_parse_consumes_all _ _ _ Hs Hp).
Defined.
