(* ===== verification/Roundtrip.v ===== *)
(** * Roundtrip: printing a tree as tokens and parsing it back

    A printer from the tree of [Ast] to the token list the scanner
    would produce for it, and the theorem that the parser of
    [src/parser.py] reads every well-formed tree back from its printed
    tokens.  The printer puts every binary expression in parentheses
    and every sequence that stands where one command is expected
    between [begin] and [end]; declarations are printed one after the
    other, as [parse_declaration] reads them.  A tree is well formed
    ([program_wf]) when it is one the parser can build: binary
    operators among those of the three tiers, declaration sequences
    nested to the left, functions with at least one parameter. *)

From S2P Require Import Prelude Scanner Ast Parser Precedence ParserTotal.

Module Printer.

(** ** Tokens *)

(** A token of a kind that carries no value ([punct] of the scanner). *)
Definition tk (k : TK) : Token := mkToken k (VInt 0) 0.
Definition id_tok (x : string) : Token := mkToken TK_IDENTIFIER (VStr x) 0.

(** The operators of [parse_expression], [parse_tertiary_expression]
    and [parse_secondary_expression]. *)
Definition rel_ops : list string := ["<"; ">"; "="].
Definition add_ops : list string := ["+"; "-"].
Definition mul_ops : list string := ["*"; "/"; ""].
Definition binops : list string := rel_ops ++ add_ops ++ mul_ops.

(** ** The printer *)

Fixpoint print_expression (e : expression) : list Token :=
  match e with
  | BinaryExpression e1 op e2 =>
    tk TK_LPAREN :: print_expression e1 ++ op_tok op :: print_expression e2 ++ [tk TK_RPAREN]
  | UnaryExpression op e1 => op_tok op :: print_expression e1
  | IntegerExpression v => [int_tok v]
  | VnameExpression x => [id_tok x]
  | CallExpression f args =>
    id_tok f :: tk TK_LPAREN ::
      match args with
      | [] => []
      | a :: l => print_expression a ++ flat_map (fun e => tk TK_COMMA :: print_expression e) l
      end ++ [tk TK_RPAREN]
  end.

(** The arguments of a call, separated by commas. *)
Definition print_args (args : list expression) : list Token :=
  match args with
  | [] => []
  | a :: l => print_expression a ++ flat_map (fun e => tk TK_COMMA :: print_expression e) l
  end.

Definition print_param (p : param) : list Token :=
  [id_tok p.1; tk TK_COLON; id_tok p.2].

Definition print_params (ps : list param) : list Token :=
  match ps with
  | [] => []
  | p :: l => print_param p ++ flat_map (fun p => tk TK_COMMA :: print_param p) l
  end.

(** [print_single c]: [c] where one command is expected; a sequence
    goes between [begin] and [end], its left spine flattened. *)
Fixpoint print_single (c : command) : list Token :=
  match c with
  | SequentialCommand c1 c2 =>
    tk TK_BEGIN ::
      (fix spine (c : command) : list Token :=
         match c with
         | SequentialCommand a b => spine a ++ print_single b
         | _ => print_single c
         end) c1 ++ print_single c2 ++ [tk TK_END]
  | AssignCommand x e => id_tok x :: tk TK_BECOMES :: print_expression e ++ [tk TK_SEMICOLON]
  | CallCommand f args =>
    id_tok f :: tk TK_LPAREN :: print_args args ++ [tk TK_RPAREN; tk TK_SEMICOLON]
  | IfCommand e c1 c2 =>
    tk TK_IF :: print_expression e ++ tk TK_THEN :: print_single c1 ++
      tk TK_ELSE :: print_single c2
  | WhileCommand e c1 => tk TK_WHILE :: print_expression e ++ tk TK_DO :: print_single c1
  | LetCommand d c1 =>
    tk TK_LET ::
      (fix decls (d : declaration) : list Token :=
         match d with
         | SequentialDeclaration d1 d2 => decls d1 ++ decls d2
         | ConstDeclaration x e =>
           [tk TK_CONST; id_tok x; tk TK_IS] ++ print_expression e ++ [tk TK_SEMICOLON]
         | VarDeclaration x t => [tk TK_VAR; id_tok x; tk TK_COLON; id_tok t; tk TK_SEMICOLON]
         | FunctionDeclaration f ps rt body =>
           [tk TK_FUNCDEF; id_tok f; tk TK_LPAREN] ++ print_params ps ++
             [tk TK_RPAREN; tk TK_COLON; id_tok rt] ++ print_single body
         end) d ++ tk TK_IN :: print_single c1
  | ReturnCommand e => tk TK_RETURN :: print_expression e ++ [tk TK_SEMICOLON]
  end.

(** A command where [parse_command] reads one: a sequence is the
    commands of its left spine one after the other. *)
Fixpoint print_command (c : command) : list Token :=
  match c with
  | SequentialCommand a b => print_command a ++ print_single b
  | _ => print_single c
  end.

Fixpoint print_declaration (d : declaration) : list Token :=
  match d with
  | SequentialDeclaration d1 d2 => print_declaration d1 ++ print_declaration d2
  | ConstDeclaration x e =>
    [tk TK_CONST; id_tok x; tk TK_IS] ++ print_expression e ++ [tk TK_SEMICOLON]
  | VarDeclaration x t => [tk TK_VAR; id_tok x; tk TK_COLON; id_tok t; tk TK_SEMICOLON]
  | FunctionDeclaration f ps rt body =>
    [tk TK_FUNCDEF; id_tok f; tk TK_LPAREN] ++ print_params ps ++
      [tk TK_RPAREN; tk TK_COLON; id_tok rt] ++ print_single body
  end.

(** The program, followed by the EOT token that ends what [scan] returns. *)
Definition print_program (p : program) : list Token :=
  match p with Program c => print_command c ++ [tk TK_EOT] end.

(** The commands of a sequence's left spine, as [parse_command] reads
    them, and the declarations of a declaration sequence. *)
Fixpoint command_spine (c : command) : list command :=
  match c with
  | SequentialCommand a b => command_spine a ++ [b]
  | _ => [c]
  end.

Fixpoint declaration_spine (d : declaration) : list declaration :=
  match d with
  | SequentialDeclaration d1 d2 => declaration_spine d1 ++ declaration_spine d2
  | _ => [d]
  end.

(** ** Well-formed trees *)

Fixpoint expression_wf (e : expression) : bool :=
  match e with
  | BinaryExpression e1 op e2 => bool_decide (op ∈ binops) && expression_wf e1 && expression_wf e2
  | UnaryExpression _ e1 => expression_wf e1
  | IntegerExpression _ | VnameExpression _ => true
  | CallExpression _ args => forallb expression_wf args
  end.

Definition is_seq_decl (d : declaration) : bool :=
  match d with SequentialDeclaration _ _ => true | _ => false end.

Fixpoint command_wf (c : command) : bool :=
  match c with
  | SequentialCommand c1 c2 => command_wf c1 && command_wf c2
  | IfCommand e c1 c2 => expression_wf e && command_wf c1 && command_wf c2
  | AssignCommand _ e | ReturnCommand e => expression_wf e
  | CallCommand _ args => forallb expression_wf args
  | WhileCommand e c1 => expression_wf e && command_wf c1
  | LetCommand d c1 => declaration_wf d && command_wf c1
  end
with declaration_wf (d : declaration) : bool :=
  match d with
  | SequentialDeclaration d1 d2 => negb (is_seq_decl d2) && declaration_wf d1 && declaration_wf d2
  | ConstDeclaration _ e => expression_wf e
  | VarDeclaration _ _ => true
  | FunctionDeclaration _ ps _ body => negb (bool_decide (ps = [])) && command_wf body
  end.

Definition program_wf (p : program) : bool :=
  match p with Program c => command_wf c end.

(** ** Equations of the printer *)

Lemma print_expression_call f args :
  print_expression (CallExpression f args) = id_tok f :: tk TK_LPAREN :: print_args args ++ [tk TK_RPAREN].
Proof. reflexivity. Qed.

Lemma print_single_seq c1 c2 :
  print_single (SequentialCommand c1 c2) =
    tk TK_BEGIN :: print_command (SequentialCommand c1 c2) ++ [tk TK_END].
Proof.
  simpl. rewrite <- app_assoc. do 2 f_equal.
Qed.

Lemma print_single_let d c :
  print_single (LetCommand d c) = tk TK_LET :: print_declaration d ++ tk TK_IN :: print_single c.
Proof. reflexivity. Qed.

(** Every printed expression, command and declaration starts with a
    token that begins one: a literal, a name, an operator, [(], a
    keyword. *)
Definition starts (ks : list TK) (l : list Token) : bool :=
  match l with t :: _ => bool_decide (type t ∈ ks) | [] => false end.

Definition expression_starts : list TK := [TK_LPAREN; TK_OPERATOR; TK_INTLITERAL; TK_IDENTIFIER].
Definition command_starts : list TK := [TK_BEGIN; TK_IDENTIFIER; TK_IF; TK_WHILE; TK_LET; TK_RETURN].
Definition declaration_starts : list TK := [TK_CONST; TK_VAR; TK_FUNCDEF].

Lemma starts_app ks l r : starts ks l = true -> starts ks (l ++ r) = true.
Proof. by destruct l. Qed.

Lemma print_expression_starts e : starts expression_starts (print_expression e) = true.
Proof. by destruct e. Qed.

Lemma print_single_starts c : starts command_starts (print_single c) = true.
Proof. by destruct c. Qed.

Lemma print_command_starts c : starts command_starts (print_command c) = true.
Proof. induction c; [simpl; by apply starts_app|..]; apply print_single_starts. Qed.

Lemma print_declaration_starts d : starts declaration_starts (print_declaration d) = true.
Proof. induction d; simpl; try done. by apply starts_app. Qed.

Lemma print_expression_length e : 1 <= length (print_expression e).
Proof. destruct e; simpl; lia. Qed.

(** The head of a list that starts with one of [ks] is not [k]. *)
Lemma starts_not ks k t r : starts ks (t :: r) = true -> bool_decide (k ∈ ks) = false -> type t <> k.
Proof. simpl. intros Ht Hk <-. by rewrite Ht in Hk. Qed.

(** ** Reading the tokens back *)

#[local] Arguments token_accept_any : simpl never.
#[local] Arguments token_accept : simpl never.
#[local] Arguments oper_in : simpl never.

(** [parses f c ts a rest]: with any fuel from [need c ts] on, [f]
    reads [a] from [ts] and leaves [rest] (the fuel of [ParserTotal]). *)
Definition parses {A} (f : nat -> list Token -> presult A) (c : nat)
    (ts : list Token) (a : A) (rest : list Token) : Prop :=
  forall n, need c ts <= n -> f n ts = Ok (a, rest).

(** What may follow a primary expression, and a whole expression. *)
Definition pfollow (rest : list Token) : Prop :=
  match rest with t :: _ => type t <> TK_LPAREN | [] => False end.
Definition efollow (rest : list Token) : Prop :=
  match rest with t :: _ => type t <> TK_LPAREN /\ type t <> TK_OPERATOR | [] => False end.
(** The loop of a tier stops on [rest]. *)
Definition stops (ops : list string) (rest : list Token) : Prop :=
  match rest with t :: _ => oper_in ops t = false | [] => False end.

Ltac fuel := unfold need, print_args in *;
  repeat progress (cbn [length app flat_map print_expression] in *; rewrite ?length_app in *); lia.
Ltac norm := repeat progress (cbn [app]; rewrite <- ?app_assoc).

Lemma app_nonnil_r {A} (l r : list A) : r <> [] -> l ++ r <> [].
Proof. destruct l; [done | discriminate]. Qed.

Ltac nonnil := repeat apply app_nonnil_r; first [discriminate | assumption].

Lemma accept_any_cons t r : type t <> TK_EOT -> r <> [] -> token_accept_any (t :: r) = Ok r.
Proof. intros Ht Hr. unfold token_accept_any. rewrite decide_False by done. by destruct r. Qed.

Lemma accept_cons k t r : type t = k -> k <> TK_EOT -> r <> [] -> token_accept k (t :: r) = Ok r.
Proof. intros <- ??. unfold token_accept. rewrite decide_True by done. by apply accept_any_cons. Qed.

(** Step over the acceptance of a printed token. *)
Ltac accept :=
  first [ rewrite accept_any_cons by (discriminate || nonnil)
        | rewrite accept_cons by (reflexivity || discriminate || nonnil) ].

Lemma oper_in_op_tok ops o : oper_in ops (op_tok o) = bool_decide (o ∈ ops).
Proof.
  unfold oper_in. apply bool_decide_ext. simpl. rewrite list_elem_of_fmap.
  split; [intros [_ (o' & [= ->] & ?)]; done | intros; split; eauto].
Qed.

Lemma stops_not_operator ops rest : efollow rest -> stops ops rest.
Proof.
  destruct rest as [|t r]; [done|]. intros [_ Ht]. simpl.
  destruct (oper_in ops t) eqn:E; [by apply oper_in_type in E|done].
Qed.

Lemma stops_nonnil ops rest : stops ops rest -> rest <> [].
Proof. by destruct rest. Qed.

(** *** The three tiers *)

(** A tier reads an operand of the tier below and stops on [rest]. *)
Ltac tier_lift rest :=
  let n := fresh "n" in let Hn := fresh "Hn" in
  intros Hp Hs n Hn; destruct n as [|n]; [fuel|]; simpl; rewrite Hp by fuel;
  destruct rest as [|t r]; [done|]; destruct n as [|n]; [fuel|]; simpl; by rewrite Hs.

Lemma secondary_lift ts e rest :
  parses parse_primary_expression 1 ts e rest -> stops mul_ops rest ->
  parses parse_secondary_expression 2 ts e rest.
Proof. tier_lift rest. Qed.

Lemma tertiary_lift ts e rest :
  parses parse_secondary_expression 2 ts e rest -> stops add_ops rest ->
  parses parse_tertiary_expression 3 ts e rest.
Proof. tier_lift rest. Qed.

Lemma expression_lift ts e rest :
  parses parse_tertiary_expression 3 ts e rest -> stops rel_ops rest ->
  parses parse_expression 4 ts e rest.
Proof. tier_lift rest. Qed.

(** A tier reads an operand, one operator of its own and a second
    operand, and stops on [rest]. *)
Ltac tier_step ts2 rest :=
  let n := fresh "n" in let Hn := fresh "Hn" in
  intros H1 Hop H2 Hs Hl n Hn;
  assert (ts2 <> []) by (intros ->; specialize (H2 _ (le_n _)); vm_compute in H2; discriminate);
  destruct n as [|n]; [fuel|]; simpl; rewrite H1 by fuel;
  destruct n as [|n]; [fuel|]; simpl; rewrite oper_in_op_tok, bool_decide_eq_true_2 by done;
  accept; rewrite H2 by fuel;
  destruct rest as [|t r]; [done|]; destruct n as [|n]; [fuel|]; simpl; by rewrite Hs.

Lemma secondary_step ts e1 o ts2 e2 rest :
  parses parse_primary_expression 1 ts e1 (op_tok o :: ts2) -> o ∈ mul_ops ->
  parses parse_primary_expression 1 ts2 e2 rest -> stops mul_ops rest ->
  length ts2 < length ts ->
  parses parse_secondary_expression 2 ts (BinaryExpression e1 o e2) rest.
Proof. tier_step ts2 rest. Qed.

Lemma tertiary_step ts e1 o ts2 e2 rest :
  parses parse_secondary_expression 2 ts e1 (op_tok o :: ts2) -> o ∈ add_ops ->
  parses parse_secondary_expression 2 ts2 e2 rest -> stops add_ops rest ->
  length ts2 < length ts ->
  parses parse_tertiary_expression 3 ts (BinaryExpression e1 o e2) rest.
Proof. tier_step ts2 rest. Qed.

Lemma expression_step ts e1 o ts2 e2 rest :
  parses parse_tertiary_expression 3 ts e1 (op_tok o :: ts2) -> o ∈ rel_ops ->
  parses parse_tertiary_expression 3 ts2 e2 rest -> stops rel_ops rest ->
  length ts2 < length ts ->
  parses parse_expression 4 ts (BinaryExpression e1 o e2) rest.
Proof. tier_step ts2 rest. Qed.

(** *** Expressions *)

Definition primary_ok (e : expression) : Prop :=
  forall rest, pfollow rest -> parses parse_primary_expression 1 (print_expression e ++ rest) e rest.

Definition expression_ok (e : expression) : Prop :=
  forall rest, efollow rest -> parses parse_expression 4 (print_expression e ++ rest) e rest.

Lemma efollow_pfollow rest : efollow rest -> pfollow rest.
Proof. destruct rest; simpl; tauto. Qed.

Lemma expression_of_primary e : primary_ok e -> expression_ok e.
Proof.
  intros He rest Hr. pose proof (stops_not_operator mul_ops _ Hr).
  pose proof (stops_not_operator add_ops _ Hr). pose proof (stops_not_operator rel_ops _ Hr).
  apply expression_lift; [|done]; apply tertiary_lift; [|done]; apply secondary_lift; [|done].
  by apply He, efollow_pfollow.
Qed.

(** A binary expression between parentheses, for each tier of its operator. *)
Lemma binary_ok e1 o e2 rest :
  primary_ok e1 -> primary_ok e2 -> o ∈ binops ->
  parses parse_expression 4
    (print_expression e1 ++ op_tok o :: print_expression e2 ++ tk TK_RPAREN :: rest)
    (BinaryExpression e1 o e2) (tk TK_RPAREN :: rest).
Proof.
  intros H1 H2 Ho.
  assert (Hl : forall l, length l < length (print_expression e1 ++ op_tok o :: l)) by (intros; fuel).
  unfold binops, rel_ops, add_ops, mul_ops in Ho. simpl in Ho.
  repeat (rewrite elem_of_cons in Ho; destruct Ho as [->|Ho]); [..|by apply elem_of_nil in Ho].
  all: first
    [ apply expression_lift; [|reflexivity]; apply tertiary_lift; [|reflexivity];
      apply secondary_step with (ts2 := print_expression e2 ++ tk TK_RPAREN :: rest); [apply H1 | set_solver | apply H2 | reflexivity | apply Hl]; simpl; congruence
    | apply expression_lift; [|reflexivity];
      apply tertiary_step with (ts2 := print_expression e2 ++ tk TK_RPAREN :: rest);
        [apply secondary_lift; [apply H1|] | set_solver
                           | apply secondary_lift; [apply H2|] | reflexivity | apply Hl];
      simpl; (congruence || reflexivity)
    | apply expression_step with (ts2 := print_expression e2 ++ tk TK_RPAREN :: rest);
      [apply tertiary_lift; [apply secondary_lift; [apply H1|]|] | set_solver
      | apply tertiary_lift; [apply secondary_lift; [apply H2|]|] | reflexivity | apply Hl];
      simpl; (congruence || reflexivity) ].
Qed.

(** *** Arguments of a call *)

Lemma argument_list_unfold n ts :
  starts expression_starts ts = true ->
  parse_argument_list (S n) ts = ('(e, ts) <- parse_expression n ts ;; parse_argument_loop n [e] ts).
Proof.
  destruct ts as [|t r]; [done|]. intros Hs. simpl.
  by rewrite decide_True by (apply (starts_not _ _ _ _ Hs); reflexivity).
Qed.

Lemma efollow_args args rest :
  efollow (flat_map (fun e => tk TK_COMMA :: print_expression e) args ++ tk TK_RPAREN :: rest).
Proof. destruct args; simpl; split; discriminate. Qed.

Lemma argument_loop_ok args acc rest :
  Forall expression_ok args ->
  parses (fun n ts => parse_argument_loop n acc ts) 5
    (flat_map (fun e => tk TK_COMMA :: print_expression e) args ++ tk TK_RPAREN :: rest)
    (acc ++ args) (tk TK_RPAREN :: rest).
Proof.
  intros Hall. revert acc. induction Hall as [|e args He Hall IH]; intros acc n Hn.
  - destruct n as [|n]; [fuel|]. simpl. by rewrite app_nil_r.
  - destruct n as [|n]; [fuel|]. simpl. accept. norm.
    rewrite He by (apply efollow_args || fuel). simpl.
    rewrite IH by fuel. by rewrite <- app_assoc.
Qed.

Lemma argument_list_ok args rest :
  Forall expression_ok args ->
  parses parse_argument_list 5 (print_args args ++ tk TK_RPAREN :: rest) args (tk TK_RPAREN :: rest).
Proof.
  intros Hall n Hn. destruct n as [|n]; [fuel|]. destruct Hall as [|a args Ha Hall]; [done|].
  unfold print_args. rewrite <- app_assoc, argument_list_unfold by apply starts_app, print_expression_starts.
  rewrite Ha by (apply efollow_args || fuel). simpl.
  pose proof (print_expression_length a). by rewrite (argument_loop_ok _ _ _ Hall) by fuel.
Qed.

(** Every well-formed expression is read back as a primary expression
    from its printed tokens, whatever follows them but [(]. *)
Lemma primary_print e : expression_wf e = true -> primary_ok e.
Proof.
  induction e as [e1 o e2 IH1 IH2|o e IH|v|x|f args IH] using expression_ind';
    intros Hwf rest Hr n Hn; assert (rest <> []) by (by destruct rest);
    destruct n as [|n]; try fuel.
  - simpl in Hwf. apply andb_prop in Hwf as [Hwf Hw2]. apply andb_prop in Hwf as [Ho Hw1].
    cbn [print_expression]. norm. simpl. accept.
    rewrite binary_ok; [simpl; by accept | auto | auto | by apply bool_decide_eq_true in Ho | fuel].
  - cbn [print_expression app]. simpl. accept. rewrite IH by (done || fuel). done.
  - simpl. by accept.
  - simpl. accept. destruct rest as [|t r]; [done|]. simpl. by rewrite decide_False.
  - rewrite print_expression_call. norm. simpl. repeat (accept; simpl).
    rewrite argument_list_ok; [simpl; by accept| |fuel].
    simpl in Hwf. rewrite forallb_forall in Hwf.
    rewrite List.Forall_forall in IH |- *. intros a Ha.
    apply expression_of_primary, IH, Hwf; done.
Qed.

Lemma expression_print e : expression_wf e = true -> expression_ok e.
Proof. intros. by apply expression_of_primary, primary_print. Qed.

(** *** Commands and declarations *)

Definition single_ok (c : command) : Prop :=
  forall rest, rest <> [] -> parses parse_single_command 6 (print_single c ++ rest) c rest.

Definition single_declaration_ok (d : declaration) : Prop :=
  forall rest, rest <> [] ->
  parses parse_single_declaration 2 (print_declaration d ++ rest) d rest.

(** What ends a command list, and a declaration list. *)
Definition cfollow (rest : list Token) : Prop :=
  match rest with t :: _ => type t = TK_END \/ type t = TK_EOT | [] => False end.
Definition dfollow (rest : list Token) : Prop :=
  match rest with t :: _ => type t = TK_IN | [] => False end.

Lemma print_single_length c : 1 <= length (print_single c).
Proof. destruct c; simpl; lia. Qed.

Lemma print_declaration_length d : 1 <= length (print_declaration d).
Proof. induction d; simpl; rewrite ?length_app; simpl; lia. Qed.

Lemma print_command_spine c : print_command c = concat (map print_single (command_spine c)).
Proof.
  induction c; simpl; rewrite ?app_nil_r; try done.
  by rewrite map_app, concat_app, IHc1; simpl; rewrite app_nil_r.
Qed.

Lemma print_declaration_spine d :
  print_declaration d = concat (map print_declaration (declaration_spine d)).
Proof. induction d; simpl; rewrite ?app_nil_r; try done. by rewrite map_app, concat_app, IHd1, IHd2. Qed.

Lemma command_spine_fold c :
  exists s l, command_spine c = s :: l /\ fold_left SequentialCommand l s = c.
Proof.
  induction c; simpl; eauto.
  destruct IHc1 as (s & l & -> & <-). exists s, (l ++ [c2]). by rewrite fold_left_app.
Qed.

Lemma declaration_spine_fold d :
  declaration_wf d = true ->
  exists s l, declaration_spine d = s :: l /\ fold_left SequentialDeclaration l s = d.
Proof.
  induction d; simpl; eauto. intros Hw.
  apply andb_prop in Hw as [Hw Hw2]. apply andb_prop in Hw as [Hs Hw1].
  destruct (IHd1 Hw1) as (s & l & -> & <-). exists s, (l ++ [d2]).
  split; [by destruct d2 | by rewrite fold_left_app].
Qed.

Ltac add_len L lem :=
  lazymatch goal with _ : 1 <= L |- _ => fail | _ => assert (1 <= L) by apply lem end.

(** The fuel arithmetic of commands: lengths of printed pieces. *)
Ltac cfuel :=
  unfold need, print_args, print_params, print_param in *;
  repeat progress (cbn [length app flat_map map concat print_expression print_declaration] in *;
                   rewrite ?length_app in *);
  repeat match goal with
  | H : context [length (print_single ?c)] |- _ => add_len (length (print_single c)) print_single_length
  | |- context [length (print_single ?c)] => add_len (length (print_single c)) print_single_length
  | H : context [length (print_declaration ?d)] |- _ =>
      add_len (length (print_declaration d)) print_declaration_length
  | |- context [length (print_declaration ?d)] =>
      add_len (length (print_declaration d)) print_declaration_length
  end; lia.

Lemma command_loop_unfold n acc ts :
  starts command_starts ts = true ->
  parse_command_loop (S n) acc ts =
    ('(c2, ts) <- parse_single_command n ts ;; parse_command_loop n (SequentialCommand acc c2) ts).
Proof.
  destruct ts as [|t r]; [done|]. intros Hs. simpl.
  rewrite decide_True; [done|]. split; apply (starts_not _ _ _ _ Hs); reflexivity.
Qed.

Lemma declaration_loop_unfold n acc ts :
  starts declaration_starts ts = true ->
  parse_declaration_loop (S n) acc ts =
    ('(d2, ts) <- parse_single_declaration n ts ;;
     parse_declaration_loop n (SequentialDeclaration acc d2) ts).
Proof.
  destruct ts as [|t r]; [done|]. intros Hs. simpl.
  by rewrite decide_True by (apply (starts_not _ _ _ _ Hs); reflexivity).
Qed.

Lemma cfollow_nonnil rest : cfollow rest -> rest <> [].
Proof. by destruct rest. Qed.

Lemma dfollow_nonnil rest : dfollow rest -> rest <> [].
Proof. by destruct rest. Qed.

Lemma command_loop_ok ss acc rest :
  Forall single_ok ss -> cfollow rest ->
  parses (fun n ts => parse_command_loop n acc ts) 7
    (concat (map print_single ss) ++ rest) (fold_left SequentialCommand ss acc) rest.
Proof.
  intros Hall Hr. revert acc. induction Hall as [|s ss Hs Hall IH]; intros acc n Hn.
  - destruct n as [|n]; [fuel|]. destruct rest as [|t r]; [done|]. simpl.
    rewrite decide_False; [done|]. simpl in Hr. tauto.
  - destruct n as [|n]; [fuel|]. cbn [map concat]. rewrite <- app_assoc.
    rewrite command_loop_unfold by apply starts_app, print_single_starts.
    pose proof (cfollow_nonnil _ Hr).
    rewrite Hs by (nonnil || cfuel). simpl. apply IH. cfuel.
Qed.

Lemma command_ok ss c rest :
  Forall single_ok ss -> command_spine c = ss -> cfollow rest ->
  parses parse_command 7 (print_command c ++ rest) c rest.
Proof.
  intros Hall Hss Hr n Hn. destruct (command_spine_fold c) as (s & l & Hsp & Hf).
  rewrite print_command_spine, Hsp in *. subst ss. inversion Hall as [|? ? Hs Hl]; subst.
  destruct n as [|n]; [fuel|]. simpl. rewrite <- app_assoc.
  pose proof (cfollow_nonnil _ Hr).
  rewrite Hs by (nonnil || cfuel). simpl. apply command_loop_ok; [done|done|cfuel].
Qed.

Lemma declaration_loop_ok ds acc rest :
  Forall single_declaration_ok ds -> dfollow rest ->
  parses (fun n ts => parse_declaration_loop n acc ts) 3
    (concat (map print_declaration ds) ++ rest) (fold_left SequentialDeclaration ds acc) rest.
Proof.
  intros Hall Hr. revert acc. induction Hall as [|d ds Hd Hall IH]; intros acc n Hn.
  - destruct n as [|n]; [fuel|]. destruct rest as [|t r]; [done|]. simpl in Hr |- *.
    by rewrite decide_False by tauto.
  - destruct n as [|n]; [fuel|]. cbn [map concat]. rewrite <- app_assoc.
    rewrite declaration_loop_unfold by apply starts_app, print_declaration_starts.
    pose proof (dfollow_nonnil _ Hr).
    rewrite Hd by (nonnil || cfuel). simpl. apply IH. cfuel.
Qed.

Lemma declaration_ok d rest :
  declaration_wf d = true -> Forall single_declaration_ok (declaration_spine d) -> dfollow rest ->
  parses parse_declaration 3 (print_declaration d ++ rest) d rest.
Proof.
  intros Hw Hall Hr n Hn. destruct (declaration_spine_fold d Hw) as (s & l & Hsp & Hf).
  rewrite print_declaration_spine, Hsp in *. inversion Hall as [|? ? Hs Hl]; subst.
  destruct n as [|n]; [fuel|]. simpl. rewrite <- app_assoc.
  pose proof (dfollow_nonnil _ Hr).
  rewrite Hs by (nonnil || cfuel). simpl. apply declaration_loop_ok; [done|done|cfuel].
Qed.

(** *** One command, one declaration *)

(** Follow the parser through printed tokens: unfold, accept, repeat. *)
Ltac walk := repeat (simpl; first [accept | idtac]; simpl).

Lemma efollow_tk k : k <> TK_LPAREN -> k <> TK_OPERATOR -> forall rest, efollow (tk k :: rest).
Proof. by split. Qed.

Ltac expr_rewrite H :=
  rewrite H; [| apply efollow_tk; discriminate | cfuel].

Lemma assign_ok x e : expression_wf e = true -> single_ok (AssignCommand x e).
Proof.
  intros He rest Hr n Hn. destruct n as [|n]; [fuel|]. cbn [print_single] in *. norm.
  walk. expr_rewrite (expression_print e He). walk. done.
Qed.

Lemma call_command_ok f args :
  forallb expression_wf args = true -> single_ok (CallCommand f args).
Proof.
  intros Hw rest Hr n Hn. destruct n as [|n]; [fuel|]. cbn [print_single] in *. norm. walk.
  rewrite argument_list_ok; [walk; done | | cfuel].
  rewrite forallb_forall in Hw. apply List.Forall_forall. intros a Ha.
  by apply expression_print, Hw.
Qed.

Lemma if_ok e c1 c2 :
  expression_wf e = true -> single_ok c1 -> single_ok c2 -> single_ok (IfCommand e c1 c2).
Proof.
  intros He H1 H2 rest Hr n Hn. destruct n as [|n]; [fuel|]. cbn [print_single] in *. norm.
  walk. expr_rewrite (expression_print e He). walk.
  rewrite H1 by (discriminate || cfuel). walk. by rewrite H2 by (done || cfuel).
Qed.

Lemma while_ok e c : expression_wf e = true -> single_ok c -> single_ok (WhileCommand e c).
Proof.
  intros He Hc rest Hr n Hn. destruct n as [|n]; [fuel|]. cbn [print_single] in *. norm.
  walk. expr_rewrite (expression_print e He). walk. by rewrite Hc by (done || cfuel).
Qed.

Lemma return_ok e : expression_wf e = true -> single_ok (ReturnCommand e).
Proof.
  intros He rest Hr n Hn. destruct n as [|n]; [fuel|]. cbn [print_single] in *. norm.
  walk. expr_rewrite (expression_print e He). walk. done.
Qed.

Lemma let_ok d c :
  declaration_wf d = true -> Forall single_declaration_ok (declaration_spine d) -> single_ok c ->
  single_ok (LetCommand d c).
Proof.
  intros Hw Hd Hc rest Hr n Hn. destruct n as [|n]; [fuel|]. rewrite print_single_let in *. norm.
  walk. rewrite (declaration_ok d _ Hw Hd) by (done || cfuel). walk.
  by rewrite Hc by (done || cfuel).
Qed.

Lemma seq_ok c1 c2 :
  Forall single_ok (command_spine (SequentialCommand c1 c2)) -> single_ok (SequentialCommand c1 c2).
Proof.
  intros Hall rest Hr n Hn. destruct n as [|n]; [fuel|]. rewrite print_single_seq in *. norm.
  walk. rewrite (command_ok _ _ _ Hall eq_refl) by (by left || cfuel). walk. done.
Qed.

Lemma parameter_loop_ok l acc rest :
  parses (fun n ts => parse_parameter_loop n acc ts) 1
    (flat_map (fun p => tk TK_COMMA :: print_param p) l ++ tk TK_RPAREN :: rest)
    (acc ++ l) (tk TK_RPAREN :: rest).
Proof.
  revert acc. induction l as [|[x t] l IH]; intros acc n Hn; destruct n as [|n]; try fuel.
  - simpl. by rewrite app_nil_r.
  - walk. rewrite IH by cfuel. by rewrite <- app_assoc.
Qed.

Lemma parameter_list_ok ps rest :
  ps <> [] -> parses parse_parameter_list 1 (print_params ps ++ tk TK_RPAREN :: rest) ps (tk TK_RPAREN :: rest).
Proof.
  intros Hps n Hn. destruct ps as [|[x t] l]; [done|]. destruct n as [|n]; [fuel|].
  walk. by rewrite parameter_loop_ok by cfuel.
Qed.

Lemma const_ok x e : expression_wf e = true -> single_declaration_ok (ConstDeclaration x e).
Proof.
  intros He rest Hr n Hn. destruct n as [|n]; [fuel|]. cbn [print_declaration] in *. norm.
  walk. expr_rewrite (expression_print e He). walk. done.
Qed.

Lemma var_ok x t : single_declaration_ok (VarDeclaration x t).
Proof. intros rest Hr n Hn. destruct n as [|n]; [fuel|]. walk. done. Qed.

Lemma function_ok f ps rt body :
  ps <> [] -> single_ok body -> single_declaration_ok (FunctionDeclaration f ps rt body).
Proof.
  intros Hps Hb rest Hr n Hn. destruct n as [|n]; [fuel|]. cbn [print_declaration] in *. norm.
  simpl. destruct n as [|n]; [fuel|]. walk.
  rewrite parameter_list_ok by (done || cfuel). walk. by rewrite Hb by (done || cfuel).
Qed.

(** *** Every well-formed tree *)

Ltac split_wf :=
  repeat match goal with H : _ && _ = true |- _ => apply andb_prop in H as [? ?] end.

(** A command that is not a sequence is its own spine. *)
Ltac single_spine H := split; [exact H | constructor; [exact H | constructor]].

Lemma command_declaration_print :
  (forall c, command_wf c = true -> single_ok c /\ Forall single_ok (command_spine c)) /\
  (forall d, declaration_wf d = true -> Forall single_declaration_ok (declaration_spine d)).
Proof.
  apply command_declaration_mut;
    [ intros c1 IH1 c2 IH2 Hw | intros x e Hw | intros f args Hw | intros e c1 IH1 c2 IH2 Hw
    | intros e c IH Hw | intros d IHd c IHc Hw | intros e Hw | intros x e Hw | intros x t Hw
    | intros d1 IH1 d2 IH2 Hw | intros f ps rt b IH Hw ]; simpl in Hw; split_wf.
  - assert (Hs : Forall single_ok (command_spine c1 ++ [c2])).
    { apply Forall_app; split; [by apply IH1|]. constructor; [by apply IH2|done]. }
    split; [by apply seq_ok|done].
  - single_spine (assign_ok x e ltac:(done)).
  - single_spine (call_command_ok f args ltac:(done)).
  - single_spine (if_ok e c1 c2 ltac:(done) (proj1 (IH1 ltac:(done))) (proj1 (IH2 ltac:(done)))).
  - single_spine (while_ok e c ltac:(done) (proj1 (IH ltac:(done)))).
  - single_spine (let_ok d c ltac:(done) (IHd ltac:(done)) (proj1 (IHc ltac:(done)))).
  - single_spine (return_ok e ltac:(done)).
  - constructor; [by apply const_ok|done].
  - constructor; [apply var_ok|done].
  - apply Forall_app; auto.
  - constructor; [|done]. apply function_ok; [|by apply IH].
    match goal with H : negb _ = true |- _ => by apply negb_true_iff, bool_decide_eq_false in H end.
Qed.

(** The parser reads a printed program back, stopping on its EOT token. *)
Lemma parse_program_print c :
  command_wf c = true ->
  parse_program (parse_fuel (print_command c ++ [tk TK_EOT])) (print_command c ++ [tk TK_EOT]) =
    Ok (Program c, [tk TK_EOT]).
Proof.
  intros Hw. destruct (proj1 command_declaration_print c Hw) as [_ Hall].
  unfold parse_program, parse_fuel.
  rewrite (command_ok _ c [tk TK_EOT] Hall eq_refl) by (first [by right | unfold need; lia]).
  reflexivity.
Qed.

(** *** What the parser builds is well formed *)

(** [okp P r]: every tree [r] returns satisfies [P]. *)
Definition okp {A} (P : A -> Prop) (r : presult A) : Prop :=
  forall a ts', r = Ok (a, ts') -> P a.

Lemma okp_raise {C} (R : C -> Prop) e : okp R (Raise e).
Proof. discriminate. Qed.

Section Okp.
Context {A B : Type} (P : A -> Prop) (Q : B -> Prop).

Lemma okp_ok a ts : P a -> okp P (Ok (a, ts)).
Proof. by intros ? ? ? [= <- _]. Qed.

Lemma okp_bind (c : presult A) (k : A -> list Token -> presult B) :
  okp P c -> (forall a ts', P a -> okp Q (k a ts')) ->
  okp Q (match c with Ok (a, ts') => k a ts' | Raise e => Raise e end).
Proof. intros Hc Hk. destruct c as [[a ts']|e]; [|apply okp_raise]. by apply Hk, (Hc a ts'). Qed.

Lemma okp_bind_plain {X} (c : outcome parse_error X) (k : X -> presult B) :
  (forall x, okp Q (k x)) -> okp Q (match c with Ok x => k x | Raise e => Raise e end).
Proof. intros Hk. destruct c; [apply Hk | apply okp_raise]. Qed.
End Okp.

Definition ewf (e : expression) : Prop := expression_wf e = true.
Definition cwf (c : command) : Prop := command_wf c = true.
Definition dwf (d : declaration) : Prop := declaration_wf d = true.
(** A declaration that [parse_single_declaration] returns. *)
Definition sdwf (d : declaration) : Prop := declaration_wf d = true /\ is_seq_decl d = false.

Record wf_at (n : nat) : Prop := {
  wf_command : forall ts, okp cwf (parse_command n ts);
  wf_command_loop : forall c ts, cwf c -> okp cwf (parse_command_loop n c ts);
  wf_single_command : forall ts, okp cwf (parse_single_command n ts);
  wf_expression : forall ts, okp ewf (parse_expression n ts);
  wf_expression_loop : forall e ts, ewf e -> okp ewf (parse_expression_loop n e ts);
  wf_tertiary : forall ts, okp ewf (parse_tertiary_expression n ts);
  wf_tertiary_loop : forall e ts, ewf e -> okp ewf (parse_tertiary_loop n e ts);
  wf_secondary : forall ts, okp ewf (parse_secondary_expression n ts);
  wf_secondary_loop : forall e ts, ewf e -> okp ewf (parse_secondary_loop n e ts);
  wf_primary : forall ts, okp ewf (parse_primary_expression n ts);
  wf_declaration : forall ts, okp dwf (parse_declaration n ts);
  wf_declaration_loop : forall d ts, dwf d -> okp dwf (parse_declaration_loop n d ts);
  wf_single_declaration : forall ts, okp sdwf (parse_single_declaration n ts);
  wf_function_declaration : forall ts, okp sdwf (parse_function_declaration n ts);
  wf_parameter_list : forall ts, okp (fun ps => ps <> []) (parse_parameter_list n ts);
  wf_parameter_loop : forall acc ts, acc <> [] -> okp (fun ps => ps <> []) (parse_parameter_loop n acc ts);
  wf_argument_list : forall ts, okp (Forall ewf) (parse_argument_list n ts);
  wf_argument_loop : forall acc ts, Forall ewf acc -> okp (Forall ewf) (parse_argument_loop n acc ts)
}.

Lemma oper_in_binop ops t :
  bool_decide (ops ⊆ binops) = true -> oper_in ops t = true -> bool_decide (ident_of (val t) ∈ binops) = true.
Proof.
  intros Hs. apply bool_decide_eq_true in Hs. unfold oper_in. rewrite !bool_decide_eq_true.
  intros [_ Hv]. apply list_elem_of_fmap in Hv as (o & -> & Ho). simpl. set_solver.
Qed.

Lemma forallb_ewf args : Forall ewf args -> forallb expression_wf args = true.
Proof. intros H. apply forallb_forall. intros a Ha. by apply (proj1 (List.Forall_forall _ _) H). Qed.

Ltac apply_wf IH :=
  first [ apply (wf_command _ IH) | apply (wf_command_loop _ IH)
        | apply (wf_single_command _ IH) | apply (wf_expression _ IH)
        | apply (wf_expression_loop _ IH) | apply (wf_tertiary _ IH)
        | apply (wf_tertiary_loop _ IH) | apply (wf_secondary _ IH)
        | apply (wf_secondary_loop _ IH) | apply (wf_primary _ IH)
        | apply (wf_declaration _ IH) | apply (wf_declaration_loop _ IH)
        | apply (wf_single_declaration _ IH) | apply (wf_function_declaration _ IH)
        | apply (wf_parameter_list _ IH) | apply (wf_parameter_loop _ IH)
        | apply (wf_argument_list _ IH) | apply (wf_argument_loop _ IH) ].

(** The side conditions: the tree built from well-formed parts is well formed. *)
Ltac wf_solve :=
  unfold ewf, cwf, dwf, sdwf in *; simpl in *;
  repeat match goal with
  | H : _ /\ _ |- _ => destruct H
  | |- _ /\ _ => split
  | |- (_ && _) = true => apply andb_true_intro; split
  | |- Forall _ (_ ++ _) => apply Forall_app; split
  | |- Forall _ [_] => constructor
  | |- forallb expression_wf _ = true => apply forallb_ewf
  | H : oper_in ?o ?t = true |- bool_decide (ident_of (val ?t) ∈ binops) = true =>
      apply (oper_in_binop o); [reflexivity | exact H]
  | |- _ ++ _ :: _ <> [] => apply app_nonnil_r; discriminate
  | H : is_seq_decl ?a = false |- negb (is_seq_decl ?a) = true => by rewrite H
  | H : ?a <> [] |- negb (bool_decide (?a = [])) = true => by rewrite bool_decide_eq_false_2
  end; try done.

Ltac wf_step IH :=
  match goal with
  | |- okp _ (Ok _) => apply okp_ok; wf_solve
  | |- okp _ (unexpected _) => apply okp_raise
  | |- okp _ (Raise _) => apply okp_raise
  | |- okp _ (match token_accept_any _ with Ok _ => _ | Raise _ => _ end) =>
      apply okp_bind_plain; intros ?
  | |- okp _ (match token_accept _ _ with Ok _ => _ | Raise _ => _ end) =>
      apply okp_bind_plain; intros ?
  | |- okp _ (match _ with Ok _ => _ | Raise _ => _ end) =>
      eapply okp_bind; [apply_wf IH; wf_solve|];
      let a := fresh "a" in let ts := fresh "ts" in let H := fresh "Hwf" in intros a ts H
  | |- okp _ (match ?l with [] => _ | _ :: _ => _ end) =>
      let t := fresh "t" in let r := fresh "r" in destruct l as [|t r]
  | |- okp _ (if decide _ then _ else _) => case_decide
  | |- okp _ (if oper_in ?o ?t then _ else _) => let H := fresh "Ho" in destruct (oper_in o t) eqn:H
  | |- okp _ (match type ?t with _ => _ end) => destruct (type t)
  | |- okp _ _ => apply_wf IH; wf_solve
  end.

Ltac wf_body IH := intros; cbn -[token_accept_any token_accept unexpected]; repeat wf_step IH.

Section WfStep.
Context (n : nat) (IH : wf_at n).

Lemma wf_at_S : wf_at (S n).
Proof. constructor; wf_body IH. Qed.
End WfStep.

Lemma wf_at_all n : wf_at n.
Proof. induction n as [|n IH]; [|by apply wf_at_S]. constructor; intros; apply okp_raise. Qed.

(** Every program [parse] returns is well formed. *)
Lemma parse_wf ts p : parse ts = Ok p -> program_wf p = true.
Proof.
  unfold parse. destruct ts as [|t r]; [discriminate|]. unfold parse_program.
  pose proof (wf_command _ (wf_at_all (parse_fuel (t :: r))) (t :: r)) as Hc.
  destruct (parse_command _ _) as [[c ts]|e]; [|discriminate].
  destruct (token_accept _ _); [|discriminate]. intros [= <-]. by apply (Hc c ts).
Qed.

(** [parse] reads a printed well-formed program back. *)
Lemma parse_printed c : command_wf c = true -> parse (print_program (Program c)) = Ok (Program c).
Proof.
  intros Hw. unfold parse, print_program.
  destruct (print_command c ++ [tk TK_EOT]) as [|t r] eqn:E; [by destruct (print_command c)|].
  by rewrite <- E, parse_program_print.
Qed.

(** C6: print/parse roundtrip: every well-formed program (binary
    operators of the three tiers, declaration sequences nested to the
    left, functions with a parameter) is read back by [parse] from its
    printed token list, binary expressions parenthesised and nested
    sequences between [begin] and [end]. *)
Theorem parse_print (p : program) : program_wf p = true -> parse (print_program p) = Ok p.
Proof. destruct p as [c]. apply parse_printed. Qed.

Lemma parse_print_witness :
  let p := Program
    (LetCommand
       (SequentialDeclaration
          (SequentialDeclaration (VarDeclaration "x" "Integer") (ConstDeclaration "k" (IntegerExpression 7)))
          (FunctionDeclaration "f" [("a", "Integer"); ("b", "Integer")] "Integer"
             (ReturnCommand (BinaryExpression (VnameExpression "a") "+"
                (BinaryExpression (VnameExpression "b") "*" (IntegerExpression 2))))))
       (SequentialCommand
          (SequentialCommand
             (AssignCommand "x" (CallExpression "f" [IntegerExpression 1; VnameExpression "k"]))
             (WhileCommand (BinaryExpression (VnameExpression "x") ">" (IntegerExpression 0))
                (SequentialCommand (AssignCommand "x" (BinaryExpression (VnameExpression "x") "-"
                                      (IntegerExpression 1)))
                   (CallCommand "putint" [VnameExpression "x"]))))
          (IfCommand (BinaryExpression (VnameExpression "x") "=" (IntegerExpression 0))
             (CallCommand "putint" [UnaryExpression "-" (IntegerExpression 1)])
             (ReturnCommand (VnameExpression "x"))))) in
  program_wf p = true /\ parse (print_program p) = Ok p.
Proof.
  intros p. split; [reflexivity|]. apply parse_print. reflexivity.
Defined.

(** C7: every tree [parse] returns is well formed, the converse of
    [parse_print]: every program it returns has its binary operators among those of
    the three tiers, its declaration sequences nested to the left and
    at least one parameter in every function. *)
Theorem parse_result_wf (ts : list Token) (p : program) : parse ts = Ok p -> program_wf p = true.
Proof. apply parse_wf. Qed.

Lemma parse_result_wf_witness :
  let ts := [id_tok "f"; tk TK_LPAREN; int_tok 1; tk TK_COMMA; op_tok "-"; id_tok "x"; tk TK_RPAREN;
             tk TK_SEMICOLON; tk TK_EOT] in
  let p := Program (CallCommand "f" [IntegerExpression 1; UnaryExpression "-" (VnameExpression "x")]) in
  parse ts = Ok p /\ program_wf p = true.
Proof.
  intros ts p. split; [vm_compute; reflexivity|]. apply (parse_result_wf ts). vm_compute. reflexivity.
Defined.

End Printer.
