(* ===== verification/CodeGen.v ===== *)
(** * CodeGen: [src/codegen.py]

    The generator object [CodeGen] keeps:
    - [self.code], the instruction list being filled, and
      [self.code_stacks], the stack of all open lists whose top is
      [self.code]: here [code] and [code_stacks], the open lists below
      the current one, top first;
    - [self.scope_depth];
    - [self.envs], one dictionary per open scope mapping a declared name
      to [(type, writable)]: here [envs], top first;
    - [self.declared_functions], function name to [(arg_list,
      return_type)], never shrunk;
    - [self.scope_vars], the rename table: for each source name the list
      of slot names it has in the open scopes, most recent last in the
      source and first here.
    Each [Label()] of byteplay is a fresh object; [labels] counts those
    allocated so far and a label is its number.  Every method is a
    function from this state to a new state or an exception; the
    recursion over the tree ([gen_command], [gen_declaration],
    [gen_expression]) is structural. *)

From S2P Require Import Prelude Ast.

(** ** byteplay instructions *)

Abbreviation label := nat.

Inductive instr : Type :=
| LOAD_CONST (k : const)
| LOAD_FAST (x : string)
| STORE_FAST (x : string)
| LOAD_GLOBAL (x : string)
| STORE_NAME (x : string)
| CALL_FUNCTION (argc : nat)
| MAKE_FUNCTION (n : nat)
| PRINT_ITEM
| PRINT_NEWLINE
| RETURN_VALUE
| BINARY_ADD | BINARY_MULTIPLY | BINARY_SUBTRACT | BINARY_DIVIDE | BINARY_MODULO
| COMPARE_OP (op : string)
| UNARY_POSITIVE | UNARY_NEGATIVE
| POP_JUMP_IF_FALSE (l : label)
| JUMP_FORWARD (l : label)
| JUMP_ABSOLUTE (l : label)
| LABEL (l : label)            (** the pair [(label, None)] placing a label *)
with const : Type :=
| CInt (z : Z)
| CNone
| CCode (code : list instr) (args : list string) (name : string).
                               (** [Code(code, [], args, ..., name, ...)] *)

(** ** Exceptions (lines 23-81), and Python's own [IndexError] and
    [KeyError] *)

Inductive ast_node : Type :=
| NCommand (c : command)
| NExpression (e : expression)
| NDeclaration (d : declaration).

Inductive cg_error : Type :=
| CodeGeneratorError (node : ast_node)
| TypeMismatchError (node : ast_node)
| InvalidExpressionError (node : ast_node)
| InvalidDeclarationError (node : ast_node)
| UnknownFunctionError (func_name : string)
| IllegalFunctionArgumentError (func_name : string) (argc : nat)
| CGIndexError
| CGKeyError.

(** ** The generator state (lines 91-105) *)

Record cg_state : Type := mkState {
  code : list instr;
  code_stacks : list (list instr);
  scope_depth : nat;
  envs : list (gmap string (string * bool));
  declared_functions : gmap string (list param * string);
  scope_vars : gmap string (list string);
  labels : nat
}.

Definition init_state : cg_state :=
  {| code := []; code_stacks := []; scope_depth := 0; envs := [∅];
     declared_functions := ∅; scope_vars := ∅; labels := 0 |}.

Abbreviation cg_result := (outcome cg_error cg_state).

(** [self.code.append(i)]. *)
Definition emit (i : instr) (st : cg_state) : cg_state :=
  {| code := code st ++ [i]; code_stacks := code_stacks st; scope_depth := scope_depth st;
     envs := envs st; declared_functions := declared_functions st;
     scope_vars := scope_vars st; labels := labels st |}.

(** [Label()]. *)
Definition new_label (st : cg_state) : label * cg_state :=
  (labels st,
   {| code := code st; code_stacks := code_stacks st; scope_depth := scope_depth st;
      envs := envs st; declared_functions := declared_functions st;
      scope_vars := scope_vars st; labels := S (labels st) |}).

(** ** Environments and scopes (lines 308-363) *)

(** [env_load]: [self.get_current_env()[name] = (type_denoter, writable)];
    the [ConstDeclaration] branch writes [('Integer', False)] the same way. *)
Definition env_load (name ty : string) (writable : bool) (st : cg_state) : cg_result :=
  match envs st with
  | env :: rest =>
    Ok {| code := code st; code_stacks := code_stacks st; scope_depth := scope_depth st;
          envs := <[name := (ty, writable)]> env :: rest;
          declared_functions := declared_functions st; scope_vars := scope_vars st;
          labels := labels st |}
  | [] => Raise CGIndexError
  end.

(** [add_var]: push the slot [var_name + str(scope_depth)] (the bare
    name at depth 0) on the name's stack and return it. *)
Definition slot_name (x : string) (depth : nat) : string :=
  if Nat.eqb depth 0 then x else x +:+ str_of_nat depth.

Definition add_var (x : string) (st : cg_state) : string * cg_state :=
  let var_list := default [] (scope_vars st !! x) in
  let slot := slot_name x (scope_depth st) in
  (slot,
   {| code := code st; code_stacks := code_stacks st; scope_depth := scope_depth st;
      envs := envs st; declared_functions := declared_functions st;
      scope_vars := <[x := slot :: var_list]> (scope_vars st); labels := labels st |}).

(** [lookup_var]: [None] for a name never declared; [var_list[-1]] of an
    empty list is an [IndexError]. *)
Definition lookup_var (x : string) (st : cg_state) : outcome cg_error (option string) :=
  match scope_vars st !! x with
  | None => Ok None
  | Some [] => Raise CGIndexError
  | Some (v :: _) => Ok (Some v)
  end.

Definition raise_scope (st : cg_state) : cg_state :=
  {| code := code st; code_stacks := code_stacks st; scope_depth := S (scope_depth st);
     envs := ∅ :: envs st; declared_functions := declared_functions st;
     scope_vars := scope_vars st; labels := labels st |}.

(** [self.scope_vars[x].pop()]. *)
Definition pop_var (sv : gmap string (list string)) (x : string)
  : outcome cg_error (gmap string (list string)) :=
  match sv !! x with
  | None => Raise CGKeyError
  | Some [] => Raise CGIndexError
  | Some (_ :: l) => Ok (<[x := l]> sv)
  end.

Fixpoint pop_vars (xs : list string) (sv : gmap string (list string))
  : outcome cg_error (gmap string (list string)) :=
  match xs with
  | [] => Ok sv
  | x :: xs => sv <- pop_var sv x ;; pop_vars xs sv
  end.

(** [lower_scope]: pop one slot for every name of the current
    environment (the dictionary's keys, in its iteration order), then
    drop the environment and decrease the depth. *)
Definition lower_scope (st : cg_state) : cg_result :=
  match envs st with
  | env :: rest =>
    sv <- pop_vars (map fst (map_to_list env)) (scope_vars st) ;;
    Ok {| code := code st; code_stacks := code_stacks st; scope_depth := scope_depth st - 1;
          envs := rest; declared_functions := declared_functions st;
          scope_vars := sv; labels := labels st |}
  | [] => Raise CGIndexError
  end.

(** [raise_code_stack]: a fresh list becomes the current one, in a new scope. *)
Definition raise_code_stack (st : cg_state) : cg_state :=
  raise_scope
    {| code := []; code_stacks := code st :: code_stacks st; scope_depth := scope_depth st;
       envs := envs st; declared_functions := declared_functions st;
       scope_vars := scope_vars st; labels := labels st |}.

(** [lower_code_stack]: [self.code = self.code_stacks[-2]], pop, and
    leave the scope.  With a single open list, [code_stacks[-2]] is the
    current list itself. *)
Definition lower_code_stack (st : cg_state) : cg_result :=
  match code_stacks st with
  | outer :: rest =>
    lower_scope
      {| code := outer; code_stacks := rest; scope_depth := scope_depth st;
         envs := envs st; declared_functions := declared_functions st;
         scope_vars := scope_vars st; labels := labels st |}
  | [] => lower_scope st
  end.

(** [self.declared_functions[name] = (arg_list, return_type)]. *)
Definition declare_function (name : string) (sig : list param * string) (st : cg_state) : cg_state :=
  {| code := code st; code_stacks := code_stacks st; scope_depth := scope_depth st;
     envs := envs st; declared_functions := <[name := sig]> (declared_functions st);
     scope_vars := scope_vars st; labels := labels st |}.

(** ** Operators (lines 198-231) *)

Definition binop_instr (op : string) : option instr :=
  if String.eqb op "+" then Some BINARY_ADD
  else if String.eqb op "*" then Some BINARY_MULTIPLY
  else if String.eqb op "-" then Some BINARY_SUBTRACT
  else if String.eqb op "/" then Some BINARY_DIVIDE
  else if (String.eqb op "<" || String.eqb op ">")%bool then Some (COMPARE_OP op)
  else if String.eqb op "=" then Some (COMPARE_OP "==")
  else if String.eqb op "\" then Some BINARY_MODULO
  else None.

Definition unop_instr (op : string) : option instr :=
  if String.eqb op "+" then Some UNARY_POSITIVE
  else if String.eqb op "-" then Some UNARY_NEGATIVE
  else None.

(** ** Calls (lines 136-153 and 293-306) *)

(** [for e in node.expr_list: self.gen_expression(e)]. *)
Fixpoint gen_list (gen_e : expression -> cg_state -> cg_result) (l : list expression)
    (st : cg_state) : cg_result :=
  match l with
  | [] => Ok st
  | e :: l => st <- gen_e e st ;; gen_list gen_e l st
  end.

(** [gen_call_command]: a call of a declared function. *)
Definition gen_call_command (gen_e : expression -> cg_state -> cg_result) (node : ast_node)
    (name : string) (args : list expression) (st : cg_state) : cg_result :=
  match declared_functions st !! name with
  | Some (params, _) =>
    let argc := length params in
    if negb (Nat.eqb argc (length args)) then Raise (IllegalFunctionArgumentError name argc)
    else
      st <- gen_list gen_e args (emit (LOAD_GLOBAL name) st) ;;
      Ok (emit (CALL_FUNCTION argc) st)
  | None => Raise (InvalidExpressionError node)
  end.

(** The [CallCommand] branch of [gen_command]: the built-ins [getint]
    and [putint], then declared functions. *)
Definition gen_call (gen_e : expression -> cg_state -> cg_result) (node : ast_node)
    (name : string) (args : list expression) (st : cg_state) : cg_result :=
  if String.eqb name "getint" then
    if negb (Nat.eqb (length args) 0) then Raise (IllegalFunctionArgumentError "getint" 0)
    else Ok (emit (CALL_FUNCTION 0) (emit (LOAD_GLOBAL "input") st))
  else if String.eqb name "putint" then
    match args with
    | [e] => st <- gen_e e st ;; Ok (emit PRINT_NEWLINE (emit PRINT_ITEM st))
    | _ => Raise (IllegalFunctionArgumentError "putint" 1)
    end
  else gen_call_command gen_e node name args st.

(** ** Expressions (lines 190-235) *)

Fixpoint gen_expression (e : expression) (st : cg_state) : cg_result :=
  match e with
  | BinaryExpression e1 op e2 =>
    st <- gen_expression e1 st ;;
    st <- gen_expression e2 st ;;
    match binop_instr op with
    | Some i => Ok (emit i st)
    | None => Raise (InvalidExpressionError (NExpression e))
    end
  | IntegerExpression v => Ok (emit (LOAD_CONST (CInt v)) st)
  | VnameExpression x =>
    v <- lookup_var x st ;;
    match v with
    | Some slot => Ok (emit (LOAD_FAST slot) st)
    | None => Raise (InvalidExpressionError (NExpression e))
    end
  | UnaryExpression op e1 =>
    st <- gen_expression e1 st ;;
    match unop_instr op with
    | Some i => Ok (emit i st)
    | None => Raise (InvalidExpressionError (NExpression e))
    end
  | CallExpression name args => gen_call gen_expression (NExpression e) name args st
  end.

(** ** Functions (lines 269-291) *)

(** The parameter loop of [gen_function]: each parameter is loaded in
    the environment and gets a slot; the slots are the code object's
    argument names. *)
Fixpoint load_params (args : list param) (st : cg_state)
  : outcome cg_error (list string * cg_state) :=
  match args with
  | [] => Ok ([], st)
  | (x, ty) :: rest =>
    st <- env_load x ty true st ;;
    let '(slot, st) := add_var x st in
    '(names, st) <- load_params rest st ;;
    Ok (slot :: names, st)
  end.

(** [gen_function]: a new list and scope; the signature is recorded
    before the body is generated, so that the body can call the
    function; the finished list becomes a code object that the
    enclosing list binds to the name. *)
Definition gen_function (gen_c : command -> cg_state -> cg_result) (name : string)
    (arg_list : list param) (rt : string) (body : command) (st : cg_state) : cg_result :=
  let st := declare_function name (arg_list, rt) (raise_code_stack st) in
  '(arg_names, st) <- load_params arg_list st ;;
  st <- gen_c body st ;;
  let code_obj := CCode (code st) arg_names name in
  st <- lower_code_stack st ;;
  Ok (emit (STORE_NAME name) (emit (MAKE_FUNCTION 0) (emit (LOAD_CONST code_obj) st))).

(** ** Commands and declarations (lines 123-188 and 237-267) *)

Fixpoint gen_command (c : command) (st : cg_state) : cg_result :=
  match c with
  | SequentialCommand c1 c2 =>
    st <- gen_command c1 st ;;
    gen_command c2 st
  | AssignCommand x e =>
    st <- gen_expression e st ;;
    v <- lookup_var x st ;;
    match v with
    | Some slot => Ok (emit (STORE_FAST slot) st)
    | None => Raise (InvalidExpressionError (NCommand c))
    end
  | CallCommand name args => gen_call gen_expression (NCommand c) name args st
  | IfCommand e c1 c2 =>
    let '(label_else, st) := new_label st in
    let '(label_if, st) := new_label st in
    st <- gen_expression e st ;;
    st <- gen_command c1 (emit (POP_JUMP_IF_FALSE label_else) st) ;;
    st <- gen_command c2 (emit (LABEL label_else) (emit (JUMP_FORWARD label_if) st)) ;;
    Ok (emit (LABEL label_if) st)
  | WhileCommand e body =>
    let '(label_loop_test, st) := new_label st in
    let '(label_loop_done, st) := new_label st in
    st <- gen_expression e (emit (LABEL label_loop_test) st) ;;
    st <- gen_command body (emit (POP_JUMP_IF_FALSE label_loop_done) st) ;;
    Ok (emit (LABEL label_loop_done) (emit (JUMP_ABSOLUTE label_loop_test) st))
  | LetCommand d body =>
    st <- gen_declaration d (raise_scope st) ;;
    st <- gen_command body st ;;
    lower_scope st
  | ReturnCommand e =>
    st <- gen_expression e st ;;
    Ok (emit RETURN_VALUE st)
  end
with gen_declaration (d : declaration) (st : cg_state) : cg_result :=
  match d with
  | ConstDeclaration x e =>
    st <- gen_expression e st ;;
    st <- env_load x "Integer" false st ;;
    let '(_, st) := add_var x st in
    v <- lookup_var x st ;;
    match v with
    | Some slot => Ok (emit (STORE_FAST slot) st)
    | None => Raise (InvalidExpressionError (NDeclaration d))
    end
  | VarDeclaration x ty =>
    st <- env_load x ty true st ;;
    let '(_, st) := add_var x st in
    let st := emit (LOAD_CONST CNone) st in
    v <- lookup_var x st ;;
    match v with
    | Some slot => Ok (emit (STORE_FAST slot) st)
    | None => Raise (InvalidExpressionError (NDeclaration d))
    end
  | SequentialDeclaration d1 d2 =>
    st <- gen_declaration d1 st ;;
    gen_declaration d2 st
  | FunctionDeclaration name args rt body => gen_function gen_command name args rt body st
  end.

(** [generate]: the program's command, then [LOAD_CONST 0] and
    [RETURN_VALUE]; the result's [code] is the top-level list. *)
Definition generate (p : program) : cg_result :=
  match p with
  | Program c =>
    st <- gen_command c init_state ;;
    Ok (emit RETURN_VALUE (emit (LOAD_CONST (CInt 0)) st))
  end.

(** ** Expressions only append code *)

(** [st] with the instructions [k] appended to the current list. *)
Definition append_code (k : list instr) (st : cg_state) : cg_state :=
  {| code := code st ++ k; code_stacks := code_stacks st; scope_depth := scope_depth st;
     envs := envs st; declared_functions := declared_functions st;
     scope_vars := scope_vars st; labels := labels st |}.

(** An instruction that neither places a label nor jumps. *)
Definition no_flow (i : instr) : bool :=
  match i with
  | LABEL _ | POP_JUMP_IF_FALSE _ | JUMP_FORWARD _ | JUMP_ABSOLUTE _ => false
  | _ => true
  end.

(** An expression generator that only appends code, each instruction of
    which satisfies [Q]. *)
Definition appends_sat (Q : instr -> Prop) (gen_e : expression -> cg_state -> cg_result)
    (e : expression) : Prop :=
  forall st st', gen_e e st = Ok st' -> exists k, st' = append_code k st /\ Forall Q k.

(** An expression generator that only appends code, without control flow. *)
Definition appends_only := appends_sat (fun i => no_flow i = true).

Lemma emit_append i st : emit i st = append_code [i] st.
Proof. reflexivity. Qed.

Lemma append_code_app k1 k2 st : append_code k2 (append_code k1 st) = append_code (k1 ++ k2) st.
Proof. unfold append_code. simpl. by rewrite app_assoc. Qed.

Lemma append_code_nil st : append_code [] st = st.
Proof. destruct st. unfold append_code. simpl. by rewrite app_nil_r. Qed.

#[export] Hint Rewrite emit_append append_code_app append_code_nil : mt.

(** Close an equation between states built by appending code. *)
Ltac solve_code := autorewrite with mt; repeat rewrite <- app_assoc; reflexivity.

(** Close [Forall no_flow] on a concatenation of pieces known to be plain. *)
Ltac solve_plain :=
  repeat first [ assumption | reflexivity | apply Forall_app; split | constructor ].

(** The instructions an expression can emit, each satisfying [Q]. *)
Section Appends.
Context (Q : instr -> Prop).
Hypothesis Q_global : forall x, Q (LOAD_GLOBAL x).
Hypothesis Q_call : forall n, Q (CALL_FUNCTION n).
Hypothesis Q_print_item : Q PRINT_ITEM.
Hypothesis Q_print_newline : Q PRINT_NEWLINE.
Hypothesis Q_const : forall v, Q (LOAD_CONST (CInt v)).
Hypothesis Q_fast : forall x, Q (LOAD_FAST x).
Hypothesis Q_binop : forall op i, binop_instr op = Some i -> Q i.
Hypothesis Q_unop : forall op i, unop_instr op = Some i -> Q i.

Lemma gen_list_sat gen_e args st st' :
    Forall (appends_sat Q gen_e) args -> gen_list gen_e args st = Ok st' ->
    exists k, st' = append_code k st /\ Forall Q k.
  Proof.
    intros Hall. revert st. induction Hall as [|e args He Hall IH]; intros st H; simpl in H.
    - injection H as <-. exists []. by rewrite append_code_nil.
    - inv_bind. destruct (He _ _ E) as (k1 & -> & P1). destruct (IH _ H) as (k2 & -> & P2).
      exists (k1 ++ k2). rewrite append_code_app. split; [done|solve_plain; auto].
  Qed.

Lemma gen_call_sat gen_e node name args st st' :
    Forall (appends_sat Q gen_e) args -> gen_call gen_e node name args st = Ok st' ->
    exists k, st' = append_code k st /\ Forall Q k.
  Proof.
    intros Hall Hc. unfold gen_call, gen_call_command in Hc.
    repeat case_match; try discriminate; inv_bind; subst.
    - exists [LOAD_GLOBAL "input"; CALL_FUNCTION 0]. split; [solve_code|solve_plain; auto].
    - inversion Hall as [|? ? He]. match goal with Hx : gen_e _ _ = Ok _ |- _ =>
        destruct (He _ _ Hx) as (k & -> & P) end.
      exists (k ++ [PRINT_ITEM; PRINT_NEWLINE]). split; [solve_code|solve_plain; auto].
    - match goal with Hx : gen_list _ _ _ = Ok _ |- _ =>
        rewrite emit_append in Hx; destruct (gen_list_sat _ _ _ _ Hall Hx) as (k & -> & P) end.
      exists ([LOAD_GLOBAL name] ++ k ++ [CALL_FUNCTION (length l)]). split; [solve_code|solve_plain; auto].
  Qed.

Lemma gen_expression_sat e : appends_sat Q gen_expression e.
Proof.
  induction e as [e1 op e2 IH1 IH2|op e1 IH|v|x|name args IH] using expression_ind';
    intros st st' H; simpl in H.
  - inv_bind. destruct (IH1 _ _ E) as (k1 & -> & P1). destruct (IH2 _ _ E0) as (k2 & -> & P2).
    destruct (binop_instr op) as [i|] eqn:Ei; [|discriminate]. injection H as <-.
    apply Q_binop in Ei. exists (k1 ++ k2 ++ [i]). split; [solve_code|solve_plain; auto].
  - inv_bind. destruct (IH _ _ E) as (k & -> & P).
    destruct (unop_instr op) as [i|] eqn:Ei; [|discriminate]. injection H as <-.
    apply Q_unop in Ei. exists (k ++ [i]). split; [solve_code|solve_plain; auto].
  - injection H as <-. exists [LOAD_CONST (CInt v)]. split; [done|solve_plain; auto].
  - destruct (lookup_var x st) as [[slot|]|]; try discriminate. injection H as <-.
    exists [LOAD_FAST slot]. split; [done|solve_plain; auto].
  - by apply (gen_call_sat gen_expression (NExpression (CallExpression name args)) name args).
Qed.
End Appends.

Lemma binop_instr_plain op i : binop_instr op = Some i -> no_flow i = true.
Proof. unfold binop_instr. intros H. repeat case_match; by simplify_eq. Qed.

Lemma unop_instr_plain op i : unop_instr op = Some i -> no_flow i = true.
Proof. unfold unop_instr. intros H. repeat case_match; by simplify_eq. Qed.

Lemma gen_list_appends gen_e args st st' :
    Forall (appends_only gen_e) args -> gen_list gen_e args st = Ok st' ->
    exists k, st' = append_code k st /\ Forall (fun i => no_flow i = true) k.
Proof. by apply gen_list_sat. Qed.

Lemma gen_call_appends gen_e node name args st st' :
    Forall (appends_only gen_e) args -> gen_call gen_e node name args st = Ok st' ->
    exists k, st' = append_code k st /\ Forall (fun i => no_flow i = true) k.
Proof. by apply gen_call_sat. Qed.

(** Generating an expression changes nothing but the current list, to
    which it appends instructions that neither jump nor place labels. *)
Lemma gen_expression_appends e : appends_only gen_expression e.
Proof. apply gen_expression_sat; eauto using binop_instr_plain, unop_instr_plain. Qed.

(** ** Calls *)

(** The number of arguments a call of [name] must have: [getint] takes
    none, [putint] one, a declared function the length of its [arg_list]. *)
Definition expected_arity (name : string) (st : cg_state) : option nat :=
  if String.eqb name "getint" then Some 0
  else if String.eqb name "putint" then Some 1
  else (fun sig => length sig.1) <$> declared_functions st !! name.

Lemma gen_call_arity gen_e node name args st argc :
  expected_arity name st = Some argc -> length args <> argc ->
  gen_call gen_e node name args st = Raise (IllegalFunctionArgumentError name argc).
Proof.
  unfold expected_arity, gen_call, gen_call_command. intros Ha Hl.
  destruct (String.eqb_spec name "getint") as [->|]; [injection Ha as <-|].
  { destruct (Nat.eqb_spec (length args) 0); [done|]. done. }
  destruct (String.eqb_spec name "putint") as [->|]; [injection Ha as <-|].
  { destruct args as [|? [|]]; simpl in *; done. }
  destruct (declared_functions st !! name) as [[params rt]|]; [|discriminate].
  injection Ha as <-. simpl. destruct (Nat.eqb_spec (length params) (length args)); [lia|done].
Qed.

(** C31: a call with the wrong number of arguments, as a command or inside
    an expression, raises [IllegalFunctionArgumentError] naming the
    function and the number it takes: 0 for [getint], 1 for [putint],
    the length of the declared parameter list for a declared function. *)
Theorem call_arity_error (name : string) (args : list expression) (st : cg_state) (argc : nat) :
  expected_arity name st = Some argc -> length args <> argc ->
  gen_command (CallCommand name args) st = Raise (IllegalFunctionArgumentError name argc) /\
  gen_expression (CallExpression name args) st = Raise (IllegalFunctionArgumentError name argc).
Proof. intros. split; by apply gen_call_arity. Qed.

Lemma call_arity_error_witness :
  expected_arity "putint" init_state = Some 1 /\ length [IntegerExpression 1; IntegerExpression 2] <> 1 /\
  gen_command (CallCommand "putint" [IntegerExpression 1; IntegerExpression 2]) init_state =
    Raise (IllegalFunctionArgumentError "putint" 1) /\
  gen_expression (CallExpression "putint" [IntegerExpression 1; IntegerExpression 2]) init_state =
    Raise (IllegalFunctionArgumentError "putint" 1).
Proof.
  assert (H1 : expected_arity "putint" init_state = Some 1) by reflexivity.
  assert (H2 : length [IntegerExpression 1; IntegerExpression 2] <> 1) by (simpl; lia).
  split; [exact H1|]. split; [exact H2|]. exact (call_arity_error _ _ _ _ H1 H2).
Defined.

(** C34: a call of a name that is neither a built-in nor declared raises
    [InvalidExpressionError] on the call node, not the
    [UnknownFunctionError] that the generator defines and the spec names. *)
Theorem call_unknown_function (name : string) (args : list expression) (st : cg_state) :
  name <> "getint" -> name <> "putint" -> declared_functions st !! name = None ->
  gen_command (CallCommand name args) st =
    Raise (InvalidExpressionError (NCommand (CallCommand name args))).
Proof.
  intros Hg Hp Hd. simpl. unfold gen_call, gen_call_command.
  destruct (String.eqb_spec name "getint"); [done|]. destruct (String.eqb_spec name "putint"); [done|].
  by rewrite Hd.
Qed.

Lemma call_unknown_function_witness :
  gen_command (CallCommand "f" []) init_state =
    Raise (InvalidExpressionError (NCommand (CallCommand "f" []))).
Proof. apply call_unknown_function; [discriminate | discriminate | reflexivity]. Defined.

(** ** The rename table across a [let] block *)

(** Run the generator on a symbolic state: unfold the table operations
    and evaluate the map lookups and inserts on the declared name. *)
Lemma map_to_list_insert_empty {V} (x : string) (a : V) :
  map_to_list (<[x:=a]> (∅ : gmap string V)) = [(x, a)].
Proof. by rewrite insert_empty, map_to_list_singleton. Qed.

Ltac gen_compute :=
  repeat progress (simpl; unfold lookup_var, lower_scope, pop_var, env_load, add_var, emit, raise_scope;
                   rewrite ?lookup_insert_eq, ?insert_insert_eq, ?map_to_list_insert_empty).

(** C32: a block that declares the same variable twice leaves one of the
    two slots on the name's stack after it closes: [lower_scope] pops
    once per key of the environment, and the environment has one key
    for the two declarations. *)
Theorem let_duplicate_leaks (x ty1 ty2 : string) (st : cg_state) :
  exists st',
    gen_command (LetCommand (SequentialDeclaration (VarDeclaration x ty1) (VarDeclaration x ty2))
                   (AssignCommand x (IntegerExpression 0))) st = Ok st' /\
    scope_vars st' !! x = Some (slot_name x (S (scope_depth st)) :: default [] (scope_vars st !! x)).
Proof.
  destruct st. eexists. split.
  - gen_compute. reflexivity.
  - simpl. by rewrite ?insert_insert_eq, ?lookup_insert_eq.
Qed.

(** C33: after a block that declares a name not declared before, the
    name's stack is empty rather than absent, and a reference to the
    name raises [IndexError] (from [var_list[len(var_list)-1]]) instead
    of the generator's [InvalidExpressionError]. *)
Theorem let_leaves_empty_stack (x ty : string) (st : cg_state) :
  scope_vars st !! x = None ->
  exists st',
    gen_command (LetCommand (VarDeclaration x ty) (AssignCommand x (IntegerExpression 0))) st = Ok st' /\
    scope_vars st' !! x = Some [] /\
    gen_expression (VnameExpression x) st' = Raise CGIndexError.
Proof.
  intros Hx. destruct st. simpl in Hx. eexists. split; [gen_compute; reflexivity|].
  simpl. rewrite Hx. gen_compute. split; reflexivity.
Qed.

Lemma let_leaves_empty_stack_witness :
  exists st',
    gen_command (LetCommand (VarDeclaration "x" "Integer") (AssignCommand "x" (IntegerExpression 0)))
      init_state = Ok st' /\
    scope_vars st' !! "x" = Some [] /\
    gen_expression (VnameExpression "x") st' = Raise CGIndexError.
Proof. apply let_leaves_empty_stack. reflexivity. Defined.

(** ** The iteration order of [lower_scope] *)

(** ** The exceptions the generator raises *)

(** The exceptions of the [CodeGeneratorError] family that some line of
    [codegen.py] raises, and the two Python errors of the dictionaries
    and lists it indexes. *)
Definition raisable (e : cg_error) : bool :=
  match e with
  | IllegalFunctionArgumentError _ _ | InvalidExpressionError _ | CGIndexError | CGKeyError => true
  | CodeGeneratorError _ | TypeMismatchError _ | InvalidDeclarationError _ | UnknownFunctionError _ => false
  end.

(** Split an exception raised by a chain of binds into the step that
    raised it. *)
Ltac raise_cases :=
  repeat match goal with
  | H : Ok _ = Raise _ |- _ => discriminate H
  | H : Raise _ = Raise _ |- _ => simplify_eq H; intros <-
  | H : (match ?x with _ => _ end) = Raise _ |- _ => destruct x eqn:?
  end.

Lemma lookup_var_raisable x st e : lookup_var x st = Raise e -> raisable e = true.
Proof. unfold lookup_var. intros H. raise_cases; done. Qed.

Lemma env_load_raisable x ty w st e : env_load x ty w st = Raise e -> raisable e = true.
Proof. unfold env_load. intros H. raise_cases; done. Qed.

Lemma pop_vars_raisable xs sv e : pop_vars xs sv = Raise e -> raisable e = true.
Proof.
  revert sv. induction xs as [|x xs IH]; intros sv H; simpl in H; [done|].
  unfold pop_var in H. raise_cases; eauto.
Qed.

Lemma lower_scope_raisable st e : lower_scope st = Raise e -> raisable e = true.
Proof. unfold lower_scope. intros H. raise_cases; eauto using pop_vars_raisable. Qed.

Lemma lower_code_stack_raisable st e : lower_code_stack st = Raise e -> raisable e = true.
Proof. unfold lower_code_stack. intros H. raise_cases; eauto using lower_scope_raisable. Qed.

Lemma load_params_raisable args st e : load_params args st = Raise e -> raisable e = true.
Proof.
  revert st. induction args as [|[x ty] args IH]; intros st H; simpl in H; [done|].
  raise_cases; eauto using env_load_raisable.
Qed.

#[export] Hint Resolve lookup_var_raisable env_load_raisable lower_scope_raisable
  lower_code_stack_raisable load_params_raisable : mt.

(** A generator of expressions that raises only [raisable] exceptions on [a]. *)
Definition raises_raisable (gen_e : expression -> cg_state -> cg_result) (a : expression) : Prop :=
  forall st e, gen_e a st = Raise e -> raisable e = true.

Lemma gen_list_raisable gen_e args st e :
  Forall (raises_raisable gen_e) args -> gen_list gen_e args st = Raise e -> raisable e = true.
Proof.
  intros Hall. revert st. induction Hall as [|a args Ha _ IH]; intros st H; simpl in H; raise_cases; eauto.
Qed.

Lemma gen_call_raisable gen_e node name args st e :
  Forall (raises_raisable gen_e) args -> gen_call gen_e node name args st = Raise e -> raisable e = true.
Proof.
  unfold gen_call, gen_call_command. intros Hall H.
  repeat case_match; raise_cases; eauto using gen_list_raisable.
  inversion Hall; eauto.
Qed.

Lemma gen_expression_raisable a : raises_raisable gen_expression a.
Proof.
  unfold raises_raisable. induction a as [a1 op a2 IH1 IH2|op a1 IH|v|x|name args IH] using expression_ind';
    intros st e Hg; simpl in Hg; raise_cases; eauto with mt.
  exact (gen_call_raisable _ _ _ _ _ _ IH Hg).
Qed.

Lemma gen_raisable :
  (forall c st e, gen_command c st = Raise e -> raisable e = true) /\
  (forall d st e, gen_declaration d st = Raise e -> raisable e = true).
Proof.
  assert (Hargs : forall args, Forall (raises_raisable gen_expression) args)
    by (intros; apply Forall_forall; intros; apply gen_expression_raisable).
  pose proof gen_expression_raisable as Hexp. unfold raises_raisable in Hexp.
  apply command_declaration_mut; intros; simpl in *; try unfold gen_function in *;
    raise_cases; eauto using gen_call_raisable with mt.
Qed.

(** C28: the generator raises an [IllegalFunctionArgumentError], an
    [InvalidExpressionError], or Python's [IndexError] or [KeyError],
    and nothing else: [TypeMismatchError], [InvalidDeclarationError] and
    [UnknownFunctionError], which [codegen.py] defines and the spec
    names, are never raised (no line of the generator raises them), nor
    is [CodeGeneratorError] on a [Program] tree. *)
Theorem generate_raises (p : program) (e : cg_error) :
  generate p = Raise e ->
  (exists name argc, e = IllegalFunctionArgumentError name argc) \/
  (exists node, e = InvalidExpressionError node) \/ e = CGIndexError \/ e = CGKeyError.
Proof.
  destruct p as [c]. simpl. destruct (gen_command c init_state) as [st|e'] eqn:Hc; [discriminate|].
  intros [= <-]. apply (proj1 gen_raisable) in Hc. destruct e'; try discriminate Hc; eauto 6.
Qed.

Lemma generate_raises_witness :
  generate (Program (AssignCommand "c" (IntegerExpression 2))) =
    Raise (InvalidExpressionError (NCommand (AssignCommand "c" (IntegerExpression 2)))) /\
  exists node, InvalidExpressionError (NCommand (AssignCommand "c" (IntegerExpression 2))) =
    InvalidExpressionError node.
Proof.
  assert (H : generate (Program (AssignCommand "c" (IntegerExpression 2))) =
    Raise (InvalidExpressionError (NCommand (AssignCommand "c" (IntegerExpression 2))))) by reflexivity.
  split; [exact H|].
  destruct (generate_raises _ _ H) as [(n & a & Ha)|[Hn|[Hi|Hk]]]; try discriminate; exact Hn.
Defined.

(** ** Renaming by depth *)

(** C29: renaming by depth is not injective: for every name [x], every
    [n >= 1] and every depth [d] from 1 to 9, the name [x ++ str(n)]
    declared at depth [d] and the name [x] declared at depth [10 * n + d]
    are two different names that [add_var] gives the same slot, so the
    two variables share one local of the code object. *)
Theorem add_var_collision (x : string) (n : nat) (st1 st2 : cg_state) :
  1 <= n -> 1 <= scope_depth st1 <= 9 -> scope_depth st2 = 10 * n + scope_depth st1 ->
  x +:+ str_of_nat n <> x /\ fst (add_var (x +:+ str_of_nat n) st1) = fst (add_var x st2).
Proof.
  intros Hn Hd H2. split.
  - apply string_app_neq, str_of_nat_nonempty.
  - simpl. unfold slot_name. rewrite H2.
    replace (scope_depth st1 =? 0) with false by (symmetry; apply Nat.eqb_neq; lia).
    replace (10 * n + scope_depth st1 =? 0) with false by (symmetry; apply Nat.eqb_neq; lia).
    rewrite str_of_nat_digit by lia. apply string_app_assoc.
Qed.

Lemma add_var_collision_witness :
  1 <= 1 /\ 1 <= scope_depth (raise_scope init_state) <= 9 /\
  scope_depth (Nat.iter 11 raise_scope init_state) = 10 * 1 + scope_depth (raise_scope init_state) /\
  "x" +:+ str_of_nat 1 <> "x" /\
  fst (add_var ("x" +:+ str_of_nat 1) (raise_scope init_state)) = fst (add_var "x" (Nat.iter 11 raise_scope init_state)).
Proof.
  assert (H1 : 1 <= 1) by lia.
  assert (H2 : 1 <= scope_depth (raise_scope init_state) <= 9) by (simpl; lia).
  assert (H3 : scope_depth (Nat.iter 11 raise_scope init_state) = 10 * 1 + scope_depth (raise_scope init_state))
    by reflexivity.
  split; [exact H1|]. split; [exact H2|]. split; [exact H3|].
  exact (add_var_collision "x" 1 _ _ H1 H2 H3).
Defined.
