(* ===== verification/Scoping.v ===== *)
(** * Scoping: the rename table against the spec's scope state machine

    The spec (section 4.3, "State machine") describes the scopes of the
    generator as a stack of frames: [push] opens an empty frame, a
    declaration adds [(name, slot)] to the top frame and pushes the slot
    on the name's rename stack, [pop] removes exactly the entries of the
    top frame.  [Frames] is that machine, with the slot a name resolves
    to.  [refines fs st] relates it to the generator's [envs] (one
    dictionary per frame, whose keys are the frame's names) and
    [scope_vars] (each name's list is the name's slots in the frames,
    newest first; an absent name and an empty list are both "no slot").

    The simulation lemmas show that [raise_scope], [env_load] with
    [add_var], [lookup_var] and [lower_scope] implement [push_frame],
    [declare], [resolve] and [pop_frame], the last only when the top
    frame declares each name once ([let_duplicate_leaks] in [CodeGen]
    is the case where it does not).  Lifted to whole commands, a
    command whose blocks declare distinct names leaves the frame stack
    as it found it, and a declaration sequence adds its names to the top
    frame at the current depth. *)

From Stdlib Require Import DecimalString DecimalNat.
From S2P Require Import Prelude Ast CodeGen.

(** ** The spec's frame stack *)

Module Frames.

(** A frame: the names declared in one scope with their slots, newest
    first.  The head of the stack is the innermost scope. *)
Abbreviation frame := (list (string * string)).

Definition frame_slots (x : string) (f : frame) : list string :=
  map snd (filter (fun p => p.1 = x) f).

(** The slots of [x] in all open frames, innermost and newest first. *)
Definition slots_of (x : string) (fs : list frame) : list string :=
  concat (map (frame_slots x) fs).

(** The slot a reference to [x] denotes. *)
Definition resolve (x : string) (fs : list frame) : option string :=
  head (slots_of x fs).

Definition push_frame (fs : list frame) : list frame := [] :: fs.

Definition declare (x s : string) (fs : list frame) : list frame :=
  match fs with
  | f :: rest => ((x, s) :: f) :: rest
  | [] => [[(x, s)]]
  end.

Definition pop_frame (fs : list frame) : list frame := tail fs.

(** Declaring the names [xs] in order at depth [k]. *)
Definition declare_all (xs : list string) (k : nat) (fs : list frame) : list frame :=
  fold_left (fun fs x => declare x (slot_name x k) fs) xs fs.

(** The frame at position [i] from the top holds slots of depth [d - i]. *)
Fixpoint frames_at (fs : list frame) (d : nat) : Prop :=
  match fs with
  | [] => True
  | f :: rest => Forall (fun p => p.2 = slot_name p.1 d) f /\ frames_at rest (pred d)
  end.

End Frames.
Import Frames.

(** ** The refinement relation *)

(** The keys of a scope's dictionary are the names of its frame. *)
Definition env_frame (env : gmap string (string * bool)) (f : frame) : Prop :=
  forall y, is_Some (env !! y) <-> y ∈ map fst f.

Definition refines (fs : list frame) (st : cg_state) : Prop :=
  Forall2 env_frame (envs st) fs /\
  forall y, default [] (scope_vars st !! y) = slots_of y fs.

(** ** Blocks that declare each name once *)

(** The names a declaration sequence adds to the current scope; a
    function declaration adds none (its name goes to
    [declared_functions], its parameters to a scope of their own). *)
Fixpoint decl_names (d : declaration) : list string :=
  match d with
  | ConstDeclaration x _ | VarDeclaration x _ => [x]
  | SequentialDeclaration d1 d2 => decl_names d1 ++ decl_names d2
  | FunctionDeclaration _ _ _ _ => []
  end.

(** Every [let] block declares distinct names and every function has
    distinct parameter names, at any nesting. *)
Fixpoint cmd_ok (c : command) : bool :=
  match c with
  | SequentialCommand c1 c2 | IfCommand _ c1 c2 => cmd_ok c1 && cmd_ok c2
  | WhileCommand _ b => cmd_ok b
  | LetCommand d b => bool_decide (NoDup (decl_names d)) && decl_ok d && cmd_ok b
  | AssignCommand _ _ | CallCommand _ _ | ReturnCommand _ => true
  end
with decl_ok (d : declaration) : bool :=
  match d with
  | SequentialDeclaration d1 d2 => decl_ok d1 && decl_ok d2
  | FunctionDeclaration _ args _ b => bool_decide (NoDup (map fst args)) && cmd_ok b
  | ConstDeclaration _ _ | VarDeclaration _ _ => true
  end.

(** The scope part of a state: the frame stack it refines, the open
    code lists below the current one, and the depth. *)
Definition at_scope (fs : list frame) (cs : list (list instr)) (k : nat) (st : cg_state) : Prop :=
  refines fs st /\ code_stacks st = cs /\ scope_depth st = k.

(** Two states with the same scope part. *)
Definition same_scopes (st st' : cg_state) : Prop :=
  envs st' = envs st /\ scope_vars st' = scope_vars st /\
  code_stacks st' = code_stacks st /\ scope_depth st' = scope_depth st.

(** The scope contract of a command: it leaves the frame stack, the
    code lists and the depth as it found them. *)
Definition cmd_sim (c : command) : Prop :=
  forall fs cs k st st', cmd_ok c = true -> at_scope fs cs k st ->
    gen_command c st = Ok st' -> at_scope fs cs k st'.

(** The scope contract of a declaration: it declares its names in the
    top frame, at the current depth. *)
Definition decl_sim (d : declaration) : Prop :=
  forall fs cs k st st', decl_ok d = true -> at_scope fs cs k st ->
    gen_declaration d st = Ok st' -> at_scope (declare_all (decl_names d) k fs) cs k st'.

(** ** Frames *)

Lemma slots_of_cons x f fs : slots_of x (f :: fs) = frame_slots x f ++ slots_of x fs.
Proof. done. Qed.

Lemma frame_slots_cons x y s f :
  frame_slots x ((y, s) :: f) = if decide (y = x) then s :: frame_slots x f else frame_slots x f.
Proof. unfold frame_slots. rewrite filter_cons. simpl. by repeat case_decide. Qed.

Lemma frame_slots_absent x f : x ∉ map fst f -> frame_slots x f = [].
Proof.
  induction f as [|[y s] f IH]; intros Hx; [done|]. simpl in Hx.
  rewrite frame_slots_cons. case_decide; [set_solver|]. apply IH. set_solver.
Qed.

Lemma frame_slots_once x f :
  NoDup (map fst f) -> x ∈ map fst f -> exists s, frame_slots x f = [s].
Proof.
  induction f as [|[y s] f IH]; intros Hnd Hx; [set_solver|]. simpl in *.
  apply NoDup_cons in Hnd as [Hy Hnd].
  rewrite frame_slots_cons. case_decide; simpl in *; subst.
  - exists s. by rewrite (frame_slots_absent _ _ Hy).
  - apply IH; [done|set_solver].
Qed.

Lemma declare_all_cons xs k f fs :
  declare_all xs k (f :: fs) = (rev (map (fun x => (x, slot_name x k)) xs) ++ f) :: fs.
Proof.
  revert f. induction xs as [|x xs IH]; intros f; [done|].
  simpl. rewrite IH, <- app_assoc. done.
Qed.

Lemma declare_all_app xs ys k fs :
  declare_all (xs ++ ys) k fs = declare_all ys k (declare_all xs k fs).
Proof. apply fold_left_app. Qed.

Lemma map_fst_declared xs k : map fst (rev (map (fun x => (x, slot_name x k)) xs) ++ []) = rev xs.
Proof. rewrite app_nil_r, map_rev, map_map. simpl. by rewrite map_id. Qed.

Lemma NoDup_rev_names (xs : list string) : NoDup xs -> NoDup (rev xs).
Proof. rewrite !NoDup_ListNoDup. apply List.NoDup_rev. Qed.

(** ** The scope operations refine the frame operations *)

Lemma refines_append fs k st : refines fs (append_code k st) <-> refines fs st.
Proof. done. Qed.

Lemma refines_raise fs st : refines fs st -> refines (push_frame fs) (raise_scope st).
Proof.
  intros [Henv Hsv]. split; [|done]. simpl. constructor; [|done].
  intros y. rewrite lookup_empty. split; [by intros []|set_solver].
Qed.

Lemma add_var_fields x st :
  scope_vars (add_var x st).2 = <[x := slot_name x (scope_depth st) :: default [] (scope_vars st !! x)]> (scope_vars st) /\
  envs (add_var x st).2 = envs st /\ scope_depth (add_var x st).2 = scope_depth st /\
  code_stacks (add_var x st).2 = code_stacks st.
Proof. done. Qed.

(** A declaration: [env_load] then [add_var], at the current depth. *)
Lemma refines_declare fs st x ty w st1 :
  refines fs st -> env_load x ty w st = Ok st1 ->
  refines (declare x (slot_name x (scope_depth st)) fs) (add_var x st1).2 /\
  scope_depth (add_var x st1).2 = scope_depth st /\ code_stacks (add_var x st1).2 = code_stacks st.
Proof.
  intros [Henv Hsv] Hl. unfold refines. destruct (add_var_fields x st1) as (-> & -> & -> & ->).
  unfold env_load in Hl. destruct (envs st) as [|env rest] eqn:E; [discriminate|].
  injection Hl as <-. inversion Henv as [|? f ? fs' Hef Hrest]; subst. simpl.
  split; [split|done].
  - constructor; [|done]. intros y. red in Hef. rewrite lookup_insert_is_Some', Hef. set_solver.
  - intros y. destruct (decide (x = y)) as [<-|Hne].
    + rewrite lookup_insert_eq, !slots_of_cons, frame_slots_cons, decide_True by done.
      cbn -[slots_of]. by rewrite Hsv.
    + rewrite lookup_insert_ne, Hsv, !slots_of_cons, frame_slots_cons, decide_False by done.
      done.
Qed.

Lemma refines_lookup fs st x :
  refines fs st ->
  match resolve x fs with
  | Some s => lookup_var x st = Ok (Some s)
  | None => lookup_var x st = Ok None \/ lookup_var x st = Raise CGIndexError
  end.
Proof.
  intros [_ Hsv]. specialize (Hsv x). unfold resolve, lookup_var. rewrite <- Hsv.
  destruct (scope_vars st !! x) as [[|s l]|]; simpl; auto.
Qed.

(** [pop_vars] on distinct names that all have a slot pops one slot of
    each and touches nothing else. *)
Lemma pop_vars_spec ys sv :
  NoDup ys -> (forall y, y ∈ ys -> default [] (sv !! y) <> []) ->
  exists sv', pop_vars ys sv = Ok sv' /\
    forall y, default [] (sv' !! y) =
      if decide (y ∈ ys) then tail (default [] (sv !! y)) else default [] (sv !! y).
Proof.
  revert sv. induction ys as [|y ys IH]; intros sv Hnd Hne; cbn [pop_vars].
  { exists sv. split; [done|]. intros z. case_decide; set_solver. }
  apply NoDup_cons in Hnd as [Hy Hnd]. unfold pop_var.
  destruct (sv !! y) as [[|a l]|] eqn:E;
    [exfalso; apply (Hne y); [set_solver|by rewrite E]| |
     exfalso; apply (Hne y); [set_solver|by rewrite E]]. simpl.
  destruct (IH (<[y:=l]> sv)) as (sv' & Hp & Hsv'); [done| |].
  { intros z Hz. rewrite lookup_insert_ne by set_solver. apply Hne. set_solver. }
  exists sv'. split; [done|]. intros z. rewrite Hsv'.
  destruct (decide (z = y)) as [->|Hzy].
  - rewrite decide_False, decide_True, lookup_insert_eq, E by set_solver. done.
  - rewrite lookup_insert_ne by done. repeat case_decide; set_solver.
Qed.

Lemma map_fst_map_to_list_elem (env : gmap string (string * bool)) y :
  y ∈ map fst (map_to_list env) <-> is_Some (env !! y).
Proof.
  rewrite list_elem_of_In, in_map_iff. split.
  - intros [[k v] [<- Hin]]. exists v. apply elem_of_map_to_list, list_elem_of_In, Hin.
  - intros [v Hv]. exists (y, v). split; [done|]. by apply list_elem_of_In, elem_of_map_to_list.
Qed.

Lemma NoDup_map_fst_map_to_list (env : gmap string (string * bool)) :
  NoDup (map fst (map_to_list env)).
Proof.
  assert (Hm : forall l : list (string * (string * bool)), map fst l = fst <$> l)
    by (induction l as [|a l IH]; [done|]; cbn [map]; rewrite IH; reflexivity).
  rewrite Hm. apply NoDup_fst_map_to_list.
Qed.

(** Closing a scope whose frame declares each name once: [lower_scope]
    pops the frame. *)
Lemma refines_lower f fs st :
  refines (f :: fs) st -> NoDup (map fst f) ->
  exists sv, lower_scope st =
    Ok {| code := code st; code_stacks := code_stacks st; scope_depth := scope_depth st - 1;
          envs := tail (envs st); declared_functions := declared_functions st;
          scope_vars := sv; labels := labels st |} /\
    refines fs {| code := code st; code_stacks := code_stacks st; scope_depth := scope_depth st - 1;
                  envs := tail (envs st); declared_functions := declared_functions st;
                  scope_vars := sv; labels := labels st |}.
Proof.
  intros [Henv Hsv] Hnd. unfold lower_scope.
  destruct (envs st) as [|env rest] eqn:E; [inversion Henv|].
  inversion Henv as [|? ? ? ? Hef Hrest]; subst. red in Hef.
  destruct (pop_vars_spec (map fst (map_to_list env)) (scope_vars st)) as (sv & Hp & Hsv');
    [apply NoDup_map_fst_map_to_list| |].
  { intros y Hy. rewrite Hsv, slots_of_cons.
    apply map_fst_map_to_list_elem, Hef in Hy. destruct (frame_slots_once y f) as [s ->]; done. }
  rewrite Hp. exists sv. split; [done|]. split; [done|]. intros y. rewrite Hsv', Hsv, slots_of_cons.
  case_decide as Hy.
  - apply map_fst_map_to_list_elem, Hef in Hy. by destruct (frame_slots_once y f) as [s ->].
  - rewrite frame_slots_absent; [done|]. rewrite <- Hef, <- map_fst_map_to_list_elem. done.
Qed.

(** ** The scope part along a command *)

Lemma at_scope_same fs cs k st st' :
  at_scope fs cs k st -> same_scopes st st' -> at_scope fs cs k st'.
Proof.
  intros ([Henv Hsv] & Hcs & Hk) (He & Hs & Hc & Hd).
  unfold at_scope, refines. rewrite He, Hs, Hc, Hd. done.
Qed.

Lemma same_scopes_refl st : same_scopes st st.
Proof. done. Qed.

Lemma same_scopes_trans s1 s2 s3 : same_scopes s1 s2 -> same_scopes s2 s3 -> same_scopes s1 s3.
Proof. intros (?&?&?&?) (?&?&?&?). repeat split; congruence. Qed.

Lemma same_scopes_append k st : same_scopes st (append_code k st).
Proof. done. Qed.

Lemma same_scopes_emit i st : same_scopes st (emit i st).
Proof. done. Qed.

Lemma same_scopes_label st : same_scopes st (new_label st).2.
Proof. done. Qed.

#[export] Hint Resolve same_scopes_refl same_scopes_emit same_scopes_label same_scopes_append : mt.

Lemma gen_expression_same e st st' : gen_expression e st = Ok st' -> same_scopes st st'.
Proof. intros H. destruct (gen_expression_appends e _ _ H) as (k & -> & _). done. Qed.

Lemma gen_call_same node name args st st' :
  gen_call gen_expression node name args st = Ok st' -> same_scopes st st'.
Proof.
  intros H. apply gen_call_appends in H as (k & -> & _); [done|].
  apply Forall_forall. intros e _. apply gen_expression_appends.
Qed.

(** Chain the steps of a generator that keep the scope part. *)
Ltac scope_chain :=
  repeat match goal with
  | H : gen_expression _ ?s = Ok ?s' |- _ => apply gen_expression_same in H
  | H : at_scope ?fs ?cs ?k ?s, H' : same_scopes ?s ?s' |- _ =>
      apply (at_scope_same fs cs k s s' H) in H'; clear H
  end.

Lemma at_scope_raise fs cs k st :
  at_scope fs cs k st -> at_scope (push_frame fs) cs (S k) (raise_scope st).
Proof. intros (Hr & Hc & Hk). split; [by apply refines_raise|]. simpl. by rewrite Hc, Hk. Qed.

Lemma at_scope_declare fs cs k st x ty w st1 :
  at_scope fs cs k st -> env_load x ty w st = Ok st1 ->
  at_scope (declare x (slot_name x k) fs) cs k (add_var x st1).2.
Proof.
  intros (Hr & <- & <-) Hl. destruct (refines_declare _ _ _ _ _ _ Hr Hl) as (? & ? & ?).
  split; [|split]; assumption.
Qed.

Lemma at_scope_lower f fs cs k st st' :
  at_scope (f :: fs) cs (S k) st -> NoDup (map fst f) -> lower_scope st = Ok st' ->
  at_scope fs cs k st'.
Proof.
  intros (Hr & Hc & Hk) Hnd Hl. destruct (refines_lower _ _ _ Hr Hnd) as (sv & Hl' & Hr').
  rewrite Hl' in Hl. injection Hl as <-. split; [done|]. simpl. rewrite Hc, Hk. split; [done|lia].
Qed.

(** The declared variable is found at once: its slot was just pushed. *)
Lemma lookup_var_add_var x st : lookup_var x (add_var x st).2 = Ok (Some (slot_name x (scope_depth st))).
Proof. unfold lookup_var. simpl. by rewrite lookup_insert_eq. Qed.

(** The parameters of a function are declared in order in its scope. *)
Lemma load_params_sim args fs cs k st names st' :
  at_scope fs cs k st -> load_params args st = Ok (names, st') ->
  at_scope (declare_all (map fst args) k fs) cs k st' /\ names = map (fun p => slot_name p.1 k) args.
Proof.
  revert fs st names. induction args as [|[x ty] args IH]; intros fs st names Hs H; simpl in H.
  { by injection H as <- <-. }
  inv_bind_pairs. pose proof (at_scope_declare _ _ _ _ _ _ _ _ Hs E) as Hd.
  subst. destruct (IH _ _ _ Hd E0) as [Hr ->]. split; [exact Hr|].
  destruct Hd as (_ & _ & Hk). simpl in Hk. by rewrite Hk.
Qed.

(** A function declaration: its parameters live in a scope and a code
    list of their own, both closed when the body is done. *)
Lemma gen_function_sim name args rt body fs cs k st st' :
  cmd_sim body -> cmd_ok body = true -> NoDup (map fst args) -> at_scope fs cs k st ->
  gen_function gen_command name args rt body st = Ok st' -> at_scope fs cs k st'.
Proof.
  intros Hbody Hok Hnd Hs H. unfold gen_function in H. inv_bind_pairs.
  assert (H0 : at_scope (push_frame fs) (code st :: cs) (S k)
                 (declare_function name (args, rt) (raise_code_stack st))).
  { destruct Hs as ([Henv Hsv] & Hc & Hk). repeat split; simpl; rewrite ?Hc, ?Hk; try done.
    constructor; [|done]. intros y. rewrite lookup_empty. split; [by intros []|set_solver]. }
  destruct (load_params_sim _ _ _ _ _ _ _ H0 E) as [H1 _].
  pose proof (Hbody _ _ _ _ _ Hok H1 E0) as H2.
  unfold push_frame in H2. rewrite declare_all_cons in H2. unfold lower_code_stack in E1.
  destruct H2 as (Hr2 & Hc2 & Hk2). rewrite Hc2 in E1.
  eapply at_scope_lower in E1; [| |by rewrite map_fst_declared; apply NoDup_rev_names].
  - subst. eapply at_scope_same; [exact E1|]. done.
  - split; [exact Hr2|split; [done|exact Hk2]].
Qed.

Lemma at_scope_emit fs cs k i st : at_scope fs cs k st -> at_scope fs cs k (emit i st).
Proof. intros H. eapply at_scope_same; [exact H|]. apply same_scopes_emit. Qed.

Lemma at_scope_expression fs cs k e st st' :
  gen_expression e st = Ok st' -> at_scope fs cs k st -> at_scope fs cs k st'.
Proof. intros He H. eapply at_scope_same; [exact H|]. by apply gen_expression_same in He. Qed.

Lemma at_scope_call fs cs k node name args st st' :
  gen_call gen_expression node name args st = Ok st' -> at_scope fs cs k st -> at_scope fs cs k st'.
Proof. intros He H. eapply at_scope_same; [exact H|]. by apply gen_call_same in He. Qed.

(** A state whose scope part is that of a state known to be at scope. *)
Ltac at_same :=
  match goal with
  | H : at_scope ?fs ?cs ?k _ |- at_scope ?fs ?cs ?k _ => eapply (at_scope_same _ _ _ _ _ H); done
  end.

#[export] Hint Resolve at_scope_emit at_scope_expression at_scope_call : mt.
#[export] Hint Extern 2 (at_scope _ _ _ _) => at_same : mt.

(** Generation keeps the scope contract: commands leave the frame stack
    as they found it, declarations add their names to the top frame. *)
Lemma gen_sim : (forall c, cmd_sim c) /\ (forall d, decl_sim d).
Proof.
  apply command_declaration_mut; unfold cmd_sim, decl_sim; simpl.
  - intros c1 IH1 c2 IH2 fs cs k st st' Hok Hs H. apply andb_prop in Hok as [Hok1 Hok2].
    inv_bind. eauto.
  - intros x e fs cs k st st' _ Hs H. inv_bind. case_match; [|discriminate]. inv_bind. subst.
    eauto with mt.
  - intros name args fs cs k st st' _ Hs H. eauto with mt.
  - intros e c1 IH1 c2 IH2 fs cs k st st' Hok Hs H. apply andb_prop in Hok as [Hok1 Hok2].
    inv_bind. subst. apply at_scope_emit. eapply IH2; [done| |exact E1].
    do 2 apply at_scope_emit. eapply IH1; [done| |exact E0].
    apply at_scope_emit. eapply at_scope_expression; [exact E|]. at_same.
  - intros e c IH fs cs k st st' Hok Hs H. inv_bind. subst. do 2 apply at_scope_emit.
    eapply IH; [done| |exact E0]. apply at_scope_emit. eapply at_scope_expression; [exact E|].
    apply at_scope_emit. at_same.
  - intros d IHd c IHc fs cs k st st' Hok Hs H.
    apply andb_prop in Hok as [Hok Hc]. apply andb_prop in Hok as [Hnd Hd].
    inv_bind. pose proof (IHd _ _ _ _ _ Hd (at_scope_raise _ _ _ _ Hs) E) as H1.
    pose proof (IHc _ _ _ _ _ Hc H1 E0) as H2. unfold push_frame in H2.
    rewrite declare_all_cons in H2. eapply at_scope_lower; [exact H2| |exact H].
    rewrite map_fst_declared. apply NoDup_rev_names. by apply bool_decide_eq_true in Hnd.
  - intros e fs cs k st st' _ Hs H. inv_bind. subst. eauto with mt.
  - intros x e fs cs k st st' _ Hs H. inv_bind_pairs. case_match; [|discriminate]. inv_bind. subst.
    apply at_scope_emit. eapply at_scope_declare; [|exact E0]. eauto with mt.
  - intros x ty fs cs k st st' _ Hs H. inv_bind_pairs. case_match; [|discriminate]. inv_bind. subst.
    apply at_scope_emit. eapply at_scope_declare; [exact Hs|exact E].
  - intros d1 IH1 d2 IH2 fs cs k st st' Hok Hs H. apply andb_prop in Hok as [Hok1 Hok2].
    inv_bind. rewrite declare_all_app. eauto.
  - intros name args rt c IH fs cs k st st' Hok Hs H. apply andb_prop in Hok as [Hnd Hc].
    eapply gen_function_sim; [exact IH|exact Hc| |exact Hs|exact H].
    by apply bool_decide_eq_true in Hnd.
Qed.

(** ** Slots of different depths differ *)

Lemma string_app_cancel (x a b : string) : x +:+ a = x +:+ b -> a = b.
Proof. induction x as [|c x IH]; [done|]. intros H. injection H. apply IH. Qed.

Lemma string_app_empty (x : string) : x +:+ "" = x.
Proof. induction x as [|c x IH]; [done|]. change (String c (x +:+ "") = String c x). by rewrite IH. Qed.

Lemma str_of_nat_inj n m : str_of_nat n = str_of_nat m -> n = m.
Proof.
  assert (Hs : forall n, option_map Nat.of_uint (NilZero.uint_of_string (str_of_nat n)) = Some n).
  { intros p. unfold str_of_nat. destruct (Nat.to_uint p) eqn:E;
      [rewrite NilZero.usu_nil; simpl; by rewrite <- (DecimalNat.Unsigned.of_to p), E|..];
      rewrite NilZero.usu by done; simpl; by rewrite <- E, DecimalNat.Unsigned.of_to. }
  intros H. pose proof (Hs n) as Hn. rewrite H, Hs in Hn. congruence.
Qed.

Lemma slot_name_depth_inj x j j' : slot_name x j = slot_name x j' -> j = j'.
Proof.
  unfold slot_name. intros H.
  destruct (Nat.eqb_spec j 0), (Nat.eqb_spec j' 0); subst; try done.
  - exfalso. apply (str_of_nat_nonempty j'), eq_sym, (string_app_cancel x).
    by rewrite string_app_empty.
  - exfalso. apply (str_of_nat_nonempty j), (string_app_cancel x).
    by rewrite string_app_empty.
  - by apply str_of_nat_inj, (string_app_cancel x).
Qed.

(** In frames of decreasing depths, every slot of [x] has a depth at
    most the top one. *)
Lemma frames_at_slot fs d x s :
  frames_at fs d -> s ∈ slots_of x fs -> exists j, j <= d /\ s = slot_name x j.
Proof.
  revert d. induction fs as [|f fs IH]; intros d Hf Hin; [set_solver|].
  destruct Hf as [Hf Hrest]. rewrite slots_of_cons, elem_of_app in Hin. destruct Hin as [Hin|Hin].
  - exists d. split; [done|]. induction f as [|[y t] f IHf]; [set_solver|].
    inversion Hf as [|? ? Hyt Hf']; subst. rewrite frame_slots_cons in Hin. simpl in Hyt.
    case_decide; [|by apply IHf]. subst. apply elem_of_cons in Hin as [->|]; [done|by apply IHf].
  - destruct (IH _ Hrest Hin) as (j & Hj & ->). exists j. split; [lia|done].
Qed.

Lemma refines_init : refines [[]] init_state.
Proof.
  unfold refines, init_state. simpl. split.
  - constructor; [|done]. intros y. rewrite lookup_empty. split; [by intros []|set_solver].
  - intros y. by rewrite lookup_empty.
Qed.

(** A name declared in the top frame resolves to its slot there. *)
Lemma frame_slots_app x f1 f2 : frame_slots x (f1 ++ f2) = frame_slots x f1 ++ frame_slots x f2.
Proof. unfold frame_slots. by rewrite filter_app, map_app. Qed.

Lemma frame_slots_declared x k ys :
  x ∈ ys -> head (frame_slots x (map (fun y => (y, slot_name y k)) ys)) = Some (slot_name x k).
Proof.
  induction ys as [|y ys IH]; intros Hx; [set_solver|]. simpl. rewrite frame_slots_cons.
  case_decide; [by subst|]. apply IH. set_solver.
Qed.

Lemma resolve_declared x xs k f fs :
  x ∈ xs -> resolve x (declare_all xs k (f :: fs)) = Some (slot_name x k).
Proof.
  intros Hx. unfold resolve. rewrite declare_all_cons, slots_of_cons, frame_slots_app, <- map_rev.
  assert (Hr : x ∈ rev xs) by (rewrite list_elem_of_In, <- in_rev, <- list_elem_of_In; done).
  pose proof (frame_slots_declared x k (rev xs) Hr) as Hd.
  destruct (frame_slots x (map _ (rev xs))); simpl in *; congruence.
Qed.

Lemma resolve_elem x fs s : resolve x fs = Some s -> s ∈ slots_of x fs.
Proof. unfold resolve. destruct (slots_of x fs); [done|]. intros [= ->]. set_solver. Qed.

Lemma cmd_sim_refines c fs st st' :
  cmd_ok c = true -> refines fs st -> gen_command c st = Ok st' ->
  at_scope fs (code_stacks st) (scope_depth st) st'.
Proof. intros Hok Hr H. by eapply (proj1 gen_sim); [exact Hok|split|exact H]. Qed.

(** ** The scope contract *)

(** C9: the generator implements the spec's scope machine: a command
    whose blocks and functions declare distinct names leaves the frame
    stack the rename table refines unchanged, and with it the open code
    lists and the depth. *)
Theorem gen_command_refines (c : command) (fs : list frame) (st st' : cg_state) :
  cmd_ok c = true -> refines fs st -> gen_command c st = Ok st' ->
  refines fs st' /\ code_stacks st' = code_stacks st /\ scope_depth st' = scope_depth st.
Proof. intros Hok Hr H. by destruct (cmd_sim_refines c fs st st' Hok Hr H) as (? & ? & ?). Qed.

Lemma gen_command_refines_witness :
  exists st',
    cmd_ok (LetCommand (VarDeclaration "x" "Integer") (AssignCommand "x" (IntegerExpression 3))) = true /\
    refines [[]] init_state /\
    gen_command (LetCommand (VarDeclaration "x" "Integer") (AssignCommand "x" (IntegerExpression 3)))
      init_state = Ok st' /\
    refines [[]] st' /\ code_stacks st' = code_stacks init_state /\
    scope_depth st' = scope_depth init_state.
Proof.
  assert (Hok : cmd_ok (LetCommand (VarDeclaration "x" "Integer") (AssignCommand "x" (IntegerExpression 3)))
                = true) by (vm_compute; reflexivity).
  destruct (gen_command (LetCommand (VarDeclaration "x" "Integer") (AssignCommand "x" (IntegerExpression 3)))
              init_state) as [st'|e] eqn:Hg; [|vm_compute in Hg; discriminate].
  exists st'. split; [exact Hok|]. split; [exact refines_init|]. split; [reflexivity|].
  exact (gen_command_refines _ _ _ _ Hok refines_init Hg).
Defined.

(** C10: shadowing (spec, section 8).  A name declared in a [let] block
    whose outer binding is the slot [s]: inside the block it resolves to
    the slot of the block's depth, which differs from [s]; after the block
    it resolves to [s] again. *)
Theorem let_shadowing (d : declaration) (body : command) (fs : list frame)
    (st st' : cg_state) (x s : string) :
  cmd_ok (LetCommand d body) = true -> refines fs st -> frames_at fs (scope_depth st) ->
  x ∈ decl_names d -> resolve x fs = Some s ->
  gen_command (LetCommand d body) st = Ok st' ->
  (exists s1, gen_declaration d (raise_scope st) = Ok s1 /\
     lookup_var x s1 = Ok (Some (slot_name x (S (scope_depth st))))) /\
  slot_name x (S (scope_depth st)) <> s /\
  lookup_var x st' = Ok (Some s).
Proof.
  intros Hok Hr Hf Hx Hs H.
  pose proof (cmd_sim_refines _ _ _ _ Hok Hr H) as [Hr' _].
  pose proof (refines_lookup _ _ x Hr') as Hl. rewrite Hs in Hl.
  simpl in Hok, H. apply andb_prop in Hok as [Hok _]. apply andb_prop in Hok as [_ Hd].
  inv_bind. split; [|split; [|done]].
  - exists a. split; [done|].
    destruct (proj2 gen_sim _ _ _ _ _ _ Hd (at_scope_raise _ _ _ _ (conj Hr (conj eq_refl eq_refl))) E)
      as [Hr1 _].
    pose proof (refines_lookup _ _ x Hr1) as Hl1. unfold push_frame in Hl1.
    by rewrite resolve_declared in Hl1.
  - intros Heq. destruct (frames_at_slot _ _ _ _ Hf (resolve_elem _ _ _ Hs)) as (j & Hj & Hsj).
    rewrite Hsj in Heq. apply slot_name_depth_inj in Heq. lia.
Qed.

Lemma let_shadowing_witness :
  exists st0 st',
    gen_declaration (VarDeclaration "x" "Integer") (raise_scope init_state) = Ok st0 /\
    cmd_ok (LetCommand (VarDeclaration "x" "Integer") (AssignCommand "x" (IntegerExpression 1))) = true /\
    refines [[("x", "x1")]; []] st0 /\ frames_at [[("x", "x1")]; []] (scope_depth st0) /\
    "x" ∈ decl_names (VarDeclaration "x" "Integer") /\ resolve "x" [[("x", "x1")]; []] = Some "x1" /\
    gen_command (LetCommand (VarDeclaration "x" "Integer") (AssignCommand "x" (IntegerExpression 1)))
      st0 = Ok st' /\
    (exists s1, gen_declaration (VarDeclaration "x" "Integer") (raise_scope st0) = Ok s1 /\
       lookup_var "x" s1 = Ok (Some (slot_name "x" (S (scope_depth st0))))) /\
    slot_name "x" (S (scope_depth st0)) <> "x1" /\ lookup_var "x" st' = Ok (Some "x1").
Proof.
  destruct (gen_declaration (VarDeclaration "x" "Integer") (raise_scope init_state)) as [st0|e] eqn:H0;
    [|vm_compute in H0; discriminate].
  destruct (proj2 gen_sim (VarDeclaration "x" "Integer") [[]; []] [] 1 _ _ eq_refl
      (at_scope_raise [[]] [] 0 init_state (conj refines_init (conj eq_refl eq_refl))) H0)
    as (Hr & _ & Hk).
  assert (Hf : frames_at [[("x", "x1")]; []] (scope_depth st0)) by (rewrite Hk; repeat constructor).
  assert (Hx : "x" ∈ decl_names (VarDeclaration "x" "Integer")) by (simpl; set_solver).
  assert (Hok : cmd_ok (LetCommand (VarDeclaration "x" "Integer") (AssignCommand "x" (IntegerExpression 1)))
                = true) by (vm_compute; reflexivity).
  assert (Hs : resolve "x" [[("x", "x1")]; []] = Some "x1") by (vm_compute; reflexivity).
  destruct (gen_command (LetCommand (VarDeclaration "x" "Integer") (AssignCommand "x" (IntegerExpression 1)))
              st0) as [st'|e] eqn:Hc.
  2: { assert (Hc' : Raise e = match gen_declaration (VarDeclaration "x" "Integer") (raise_scope init_state)
         with Ok s => gen_command (LetCommand (VarDeclaration "x" "Integer")
                                    (AssignCommand "x" (IntegerExpression 1))) s
            | Raise _ => Raise CGKeyError end) by (rewrite H0; done).
       vm_compute in Hc'. discriminate. }
  exists st0, st'. split; [reflexivity|]. split; [exact Hok|]. split; [exact Hr|]. split; [exact Hf|].
  split; [exact Hx|]. split; [exact Hs|]. split; [exact Hc|].
  exact (let_shadowing (VarDeclaration "x" "Integer") (AssignCommand "x" (IntegerExpression 1))
           _ _ _ "x" "x1" Hok Hr Hf Hx Hs Hc).
Defined.

(** C11: the terminal state of the spec's scope machine: after generating
    a program whose blocks and functions declare distinct names, the
    depth is back to 0, one empty environment is open, no code list is
    open below the top-level one, and no name has a slot. *)
Theorem generate_closes_scopes (c : command) (st : cg_state) :
  cmd_ok c = true -> generate (Program c) = Ok st ->
  scope_depth st = 0 /\ code_stacks st = [] /\ envs st = [∅] /\
  forall x, default [] (scope_vars st !! x) = [].
Proof.
  intros Hok H. simpl in H. inv_bind. subst.
  destruct (cmd_sim_refines _ _ _ _ Hok refines_init E) as ([Henv Hsv] & Hc & Hk).
  simpl. split; [done|]. split; [done|]. split; [|done].
  inversion Henv as [|env ? ? ? Hef Hnil]; subst. inversion Hnil; subst. f_equal.
  apply map_empty. intros y. destruct (env !! y) eqn:E'; [|done].
  assert (Hy : y ∈ map fst ([] : frame)) by (apply Hef; by eexists). set_solver.
Qed.

Lemma generate_closes_scopes_witness :
  exists st,
    cmd_ok (LetCommand (VarDeclaration "x" "Integer") (AssignCommand "x" (IntegerExpression 3))) = true /\
    generate (Program (LetCommand (VarDeclaration "x" "Integer") (AssignCommand "x" (IntegerExpression 3))))
      = Ok st /\
    scope_depth st = 0 /\ code_stacks st = [] /\ envs st = [∅] /\
    forall x, default [] (scope_vars st !! x) = [].
Proof.
  assert (Hok : cmd_ok (LetCommand (VarDeclaration "x" "Integer") (AssignCommand "x" (IntegerExpression 3)))
                = true) by (vm_compute; reflexivity).
  destruct (generate (Program (LetCommand (VarDeclaration "x" "Integer")
                                 (AssignCommand "x" (IntegerExpression 3))))) as [st|e] eqn:Hg;
    [|vm_compute in Hg; discriminate].
  exists st. split; [exact Hok|]. split; [reflexivity|]. exact (generate_closes_scopes _ _ Hok Hg).
Defined.
