(* ===== verification/Pipeline.v ===== *)
(** * Pipeline: the driver of [src/codegen.py] and the spec's scenarios

    The [__main__] block of [codegen.py] (lines 396-417) reads the
    source text, runs [Scanner(text).scan()], [Parser(tokens).parse()]
    and [CodeGen(tree).generate()] in turn, prints a [ScannerError] or a
    [ParserException] and stops, and lets every other exception escape.
    [compile] is that composition, with the stage an exception comes
    from; opening the file, the extension test and [gen_pyc] are I/O.

    The theorems compose the stages: the only exceptions the scanner and
    the parser raise on the way are the two the driver catches (in
    particular the parser never raises Python's [IndexError] on the
    scanner's output, which would escape the [except] clause), and a
    successful parse of scanned text stops on its EOT token.  The
    examples run the concrete scenarios of the spec (section 8). *)

From S2P Require Import Prelude Scanner Ast Parser ParserTotal CodeGen.

(** The exception that ends a compilation, by stage. *)
Inductive compile_error : Type :=
| CScanError (e : scan_error)
| CParseError (e : parse_error)
| CGenError (e : cg_error).

(** Lines 398-417: scan, parse, generate. *)
Definition compile (text : string) : outcome compile_error cg_state :=
  match scan text with
  | Raise e => Raise (CScanError e)
  | Ok tokens =>
    match parse tokens with
    | Raise e => Raise (CParseError e)
    | Ok tree =>
      match generate tree with
      | Raise e => Raise (CGenError e)
      | Ok st => Ok st
      end
    end
  end.

(** The code of a compilation, or its exception. *)
Definition compiled_code (text : string) : outcome compile_error (list instr) :=
  match compile text with
  | Ok st => Ok (code st)
  | Raise e => Raise e
  end.

(** ** The scanner's output is what the parser expects *)

Lemma scan_eot_terminated text ts : scan text = Ok ts -> eot_terminated ts.
Proof.
  unfold scan. intros H. destruct (scan_tokens_scanned _ _ _ _ H) as (ts0 & -> & _ & _).
  exists (mkToken TK_EOT (VInt 0) (0 + length (list_ascii_of_string text))).
  split; [|done]. by rewrite last_app.
Qed.

Lemma parse_not_out_of_fuel tokens : parse tokens <> Raise POutOfFuel.
Proof.
  unfold parse. destruct tokens as [|t r]; [discriminate|].
  destruct (parse_program_fine (t :: r)) as [Hn _].
  destruct (parse_program _ _) as [[p ts]|e]; congruence.
Qed.

(** C12: the scanner and the parser raise nothing but the exceptions the
    driver catches: a compilation that fails in the scanner fails with a
    [ScannerError], one that fails in the parser with a
    [ParserException], never with Python's [IndexError] (and neither
    stage runs out of its fuel). *)
Theorem compile_front_errors (text : string) (e : compile_error) :
  compile text = Raise e ->
  (exists q c, e = CScanError (ScannerError q c)) \/
  (exists q k exp, e = CParseError (ParserException q k exp)) \/
  (exists g, e = CGenError g).
Proof.
  unfold compile. destruct (scan text) as [ts|se] eqn:Hs.
  - destruct (parse ts) as [tree|pe] eqn:Hp.
    + destruct (generate tree) as [st|g]; intros [= <-]; eauto.
    + intros [= <-]. right; left. destruct pe as [q k exp| |]; [eauto| |].
      * by destruct (parse_safe ts (scan_eot_terminated _ _ Hs)).
      * by destruct (parse_not_out_of_fuel ts).
  - intros [= <-]. left. destruct se as [q c|]; [eauto|].
    exfalso. revert Hs. unfold scan. apply scan_tokens_total.
    rewrite length_list_ascii_of_string. lia.
Qed.

Lemma compile_front_errors_witness :
  compile "let var x: Integer; x := 1;" = Raise (CParseError (ParserException 20 TK_IDENTIFIER None)) /\
  ((exists q c, CParseError (ParserException 20 TK_IDENTIFIER None) = CScanError (ScannerError q c)) \/
   (exists q k exp, CParseError (ParserException 20 TK_IDENTIFIER None) = CParseError (ParserException q k exp)) \/
   (exists g, CParseError (ParserException 20 TK_IDENTIFIER None) = CGenError g)).
Proof.
  assert (H : compile "let var x: Integer; x := 1;" =
              Raise (CParseError (ParserException 20 TK_IDENTIFIER None))) by (vm_compute; reflexivity).
  split; [exact H|]. exact (compile_front_errors _ _ H).
Defined.

(** ** The scenarios of the spec *)

(** Spec scenario 1, as written, does not compile: [let] takes a
    single command, so [putint(x);] follows the block, where [x]'s slot
    stack is empty and [lookup_var] raises Python's [IndexError]. *)
Example scenario1_index_error :
  compiled_code "let var x: Integer; in x := 3 + 4; putint(x);" = Raise (CGenError CGIndexError).
Proof. vm_compute. reflexivity. Qed.

(** Spec scenario 1 with its two commands in a [begin ... end]
    block: a slot for [x] initialised to [None], [3 + 4] stored into it,
    loaded and printed. *)
Example scenario1_block :
  compiled_code "let var x: Integer; in begin x := 3 + 4; putint(x); end" =
    Ok [LOAD_CONST CNone; STORE_FAST "x1"; LOAD_CONST (CInt 3); LOAD_CONST (CInt 4); BINARY_ADD;
        STORE_FAST "x1"; LOAD_FAST "x1"; PRINT_ITEM; PRINT_NEWLINE; LOAD_CONST (CInt 0); RETURN_VALUE].
Proof. vm_compute. reflexivity. Qed.

(** Spec scenario 2: [f] gets a code object of its own returning its
    one parameter, and the call site pushes exactly one argument before
    [CALL_FUNCTION 1]. *)
Example scenario2_function :
  compiled_code "let func f(n: Integer): Integer return n; in putint(f(5));" =
    Ok [LOAD_CONST (CCode [LOAD_FAST "n2"; RETURN_VALUE] ["n2"] "f"); MAKE_FUNCTION 0; STORE_NAME "f";
        LOAD_GLOBAL "f"; LOAD_CONST (CInt 5); CALL_FUNCTION 1; PRINT_ITEM; PRINT_NEWLINE;
        LOAD_CONST (CInt 0); RETURN_VALUE].
Proof. vm_compute. reflexivity. Qed.

(** Spec scenario 3: [putint(1,2);] fails with the arity error of
    [putint], which takes 1 argument. *)
Example scenario3_arity :
  compiled_code "putint(1,2);" = Raise (CGenError (IllegalFunctionArgumentError "putint" 1)).
Proof. vm_compute. reflexivity. Qed.

(** Spec scenario 4: a [let] block without [in] fails in the parser
    at the token after the declarations, but the exception names no
    expected kind: [parse_single_declaration] raises it with
    [exp_type = None], where the spec expects [in]. *)
Example scenario4_missing_in :
  compiled_code "let var x: Integer; x := 1;" =
    Raise (CParseError (ParserException 20 TK_IDENTIFIER None)).
Proof. vm_compute. reflexivity. Qed.

(** The operator [\] is scanned and has an instruction
    ([BINARY_MODULO]), but no expression can use it: the multiplicative
    tier of the parser lists ["*"; "/"; ""], so [7 \ 2] stops after [7]. *)
Example backslash_unparsable :
  compiled_code "x := 7 \ 2;" = Raise (CParseError (ParserException 7 TK_OPERATOR (Some TK_SEMICOLON))).
Proof. vm_compute. reflexivity. Qed.

(** Spec, section 8, recursion: a function whose body calls itself
    compiles, the call inside the body being a call of the function
    being declared ([LOAD_GLOBAL "f"] ... [CALL_FUNCTION 1]). *)
Example recursion_compiles :
  compiled_code
    "let func f(n: Integer): Integer if n < 1 then return 1; else return n * f(n - 1); in putint(f(5));" =
    Ok [LOAD_CONST (CCode [LOAD_FAST "n2"; LOAD_CONST (CInt 1); COMPARE_OP "<"; POP_JUMP_IF_FALSE 0;
                           LOAD_CONST (CInt 1); RETURN_VALUE; JUMP_FORWARD 1; LABEL 0;
                           LOAD_FAST "n2"; LOAD_GLOBAL "f"; LOAD_FAST "n2"; LOAD_CONST (CInt 1);
                           BINARY_SUBTRACT; CALL_FUNCTION 1; BINARY_MULTIPLY; RETURN_VALUE; LABEL 1]
                          ["n2"] "f");
        MAKE_FUNCTION 0; STORE_NAME "f"; LOAD_GLOBAL "f"; LOAD_CONST (CInt 5); CALL_FUNCTION 1;
        PRINT_ITEM; PRINT_NEWLINE; LOAD_CONST (CInt 0); RETURN_VALUE].
Proof. vm_compute. reflexivity. Qed.

(** A constant can be assigned: the generator records [('Integer',
    False)] for it in the environment but never reads the flag, and no
    [TypeMismatchError] is ever raised. *)
Example const_assignable :
  compiled_code "let const c ~ 1; in c := 2;" =
    Ok [LOAD_CONST (CInt 1); STORE_FAST "c1"; LOAD_CONST (CInt 2); STORE_FAST "c1";
        LOAD_CONST (CInt 0); RETURN_VALUE].
Proof. vm_compute. reflexivity. Qed.

(** Renaming by depth is not injective: [x1] declared at depth 1 and
    [x] declared at depth 11 both get the slot ["x11"], so the inner
    declaration resets the outer variable, the assignment to [x1]
    overwrites [x], and the program prints 7 where the source says 5. *)
Example slot_collision :
  compiled_code
    ("let var x1: Integer; in let var a: Integer; in let var a: Integer; in let var a: Integer; in " ++
     "let var a: Integer; in let var a: Integer; in let var a: Integer; in let var a: Integer; in " ++
     "let var a: Integer; in let var a: Integer; in let var x: Integer; in " ++
     "begin x := 5; x1 := 7; putint(x); end") =
    Ok [LOAD_CONST CNone; STORE_FAST "x11"; LOAD_CONST CNone; STORE_FAST "a2";
        LOAD_CONST CNone; STORE_FAST "a3"; LOAD_CONST CNone; STORE_FAST "a4";
        LOAD_CONST CNone; STORE_FAST "a5"; LOAD_CONST CNone; STORE_FAST "a6";
        LOAD_CONST CNone; STORE_FAST "a7"; LOAD_CONST CNone; STORE_FAST "a8";
        LOAD_CONST CNone; STORE_FAST "a9"; LOAD_CONST CNone; STORE_FAST "a10";
        LOAD_CONST CNone; STORE_FAST "x11"; LOAD_CONST (CInt 5); STORE_FAST "x11";
        LOAD_CONST (CInt 7); STORE_FAST "x11"; LOAD_FAST "x11"; PRINT_ITEM; PRINT_NEWLINE;
        LOAD_CONST (CInt 0); RETURN_VALUE].
Proof. vm_compute. reflexivity. Qed.
