(* ===== verification/Unparse.v ===== *)
(** * Unparse: a program written as text, scanned and parsed back

    The parser looks at the kind and the value of a token and at its
    position only to report an error ([Positions]): two token lists
    with the same kinds and values parse to the same tree.  A program
    printed as source text ([Source.print_source]: the tokens of
    [Roundtrip.Printer.print_program], each followed by a space) is
    scanned by [src/scanner.py] back to those tokens, at the positions
    where the text puts them, so [scan] then [parse] give the program
    back whenever its names are identifiers, its literals are
    non-negative and its operators are characters the scanner reads. *)

From S2P Require Import Prelude Scanner Ast Parser Precedence ParserTotal Roundtrip CodeGen Pipeline.

Module Positions.

(** The kind and the value of each token. *)
Definition kinds (ts : list Token) : list (TK * tval) := map (fun t => (type t, val t)) ts.

(** [same r r']: every tree [r] returns, [r'] returns too, leaving a
    list of the same kinds. *)
Definition same {A} (r r' : presult A) : Prop :=
  forall a rest, r = Ok (a, rest) -> exists rest', r' = Ok (a, rest') /\ kinds rest = kinds rest'.

Lemma kinds_cons_inv t r ts' :
  kinds (t :: r) = kinds ts' ->
  exists t' r', ts' = t' :: r' /\ type t' = type t /\ val t' = val t /\ kinds r = kinds r'.
Proof. destruct ts' as [|t' r']; [discriminate|]. intros [= ? ? ?]. by exists t', r'. Qed.

Lemma kinds_nil_inv ts' : kinds [] = kinds ts' -> ts' = [].
Proof. by destruct ts'. Qed.

Lemma cur_val_kinds ts ts' : kinds ts = kinds ts' -> cur_val ts = cur_val ts'.
Proof. destruct ts as [|t r], ts' as [|t' r']; try discriminate; [done|]. intros [= _ Hv _]. simpl. by rewrite Hv. Qed.

Lemma oper_in_kinds o t t' : type t' = type t -> val t' = val t -> oper_in o t' = oper_in o t.
Proof. unfold oper_in. by intros -> ->. Qed.

Lemma accept_any_kinds ts ts' r :
  kinds ts = kinds ts' -> token_accept_any ts = Ok r ->
  exists r', token_accept_any ts' = Ok r' /\ kinds r = kinds r'.
Proof.
  destruct ts as [|t rest]; [discriminate|]. intros H.
  destruct (kinds_cons_inv _ _ _ H) as (t' & rest' & -> & Ht & _ & Hr).
  unfold token_accept_any. rewrite Ht. case_decide.
  - intros [= <-]. by exists (t' :: rest').
  - destruct rest, rest'; try discriminate; intros [= <-]; eauto.
Qed.

Lemma accept_kinds k ts ts' r :
  kinds ts = kinds ts' -> token_accept k ts = Ok r ->
  exists r', token_accept k ts' = Ok r' /\ kinds r = kinds r'.
Proof.
  destruct ts as [|t rest]; [discriminate|]. intros H.
  destruct (kinds_cons_inv _ _ _ H) as (t' & rest' & -> & Ht & _ & _).
  unfold token_accept. rewrite Ht. case_decide; [|discriminate]. by apply accept_any_kinds.
Qed.

Lemma same_raise {A} e (r' : presult A) : same (Raise e) r'.
Proof. discriminate. Qed.

Lemma same_unexpected {A} t (r' : presult A) : same (unexpected t) r'.
Proof. discriminate. Qed.

Lemma same_ok {A} (a : A) rest rest' : kinds rest = kinds rest' -> same (Ok (a, rest)) (Ok (a, rest')).
Proof. intros H ? ? [= <- <-]. eauto. Qed.

Section Same.
Context {A B : Type}.

Lemma same_bind (c c' : presult A) (k k' : A -> list Token -> presult B) :
  same c c' -> (forall a r r', kinds r = kinds r' -> same (k a r) (k' a r')) ->
  same (match c with Ok (a, r) => k a r | Raise e => Raise e end)
       (match c' with Ok (a, r) => k' a r | Raise e => Raise e end).
Proof.
  intros Hc Hk b rest. destruct c as [[a r]|e]; [|discriminate]. intros H.
  destruct (Hc a r eq_refl) as (r' & -> & Hr). by apply (Hk a r r' Hr).
Qed.

Lemma same_bind_plain (c c' : outcome parse_error (list Token)) (k k' : list Token -> presult B) :
  (forall r, c = Ok r -> exists r', c' = Ok r' /\ kinds r = kinds r') ->
  (forall r r', kinds r = kinds r' -> same (k r) (k' r')) ->
  same (match c with Ok r => k r | Raise e => Raise e end)
       (match c' with Ok r => k' r | Raise e => Raise e end).
Proof.
  intros Hc Hk b rest. destruct c as [r|e]; [|discriminate]. intros H.
  destruct (Hc r eq_refl) as (r' & -> & Hr). by apply (Hk r r' Hr).
Qed.
End Same.

Record same_at (n : nat) : Prop := {
  sm_command : forall ts ts', kinds ts = kinds ts' -> same (parse_command n ts) (parse_command n ts');
  sm_command_loop : forall c ts ts', kinds ts = kinds ts' ->
    same (parse_command_loop n c ts) (parse_command_loop n c ts');
  sm_single_command : forall ts ts', kinds ts = kinds ts' ->
    same (parse_single_command n ts) (parse_single_command n ts');
  sm_expression : forall ts ts', kinds ts = kinds ts' ->
    same (parse_expression n ts) (parse_expression n ts');
  sm_expression_loop : forall e ts ts', kinds ts = kinds ts' ->
    same (parse_expression_loop n e ts) (parse_expression_loop n e ts');
  sm_tertiary : forall ts ts', kinds ts = kinds ts' ->
    same (parse_tertiary_expression n ts) (parse_tertiary_expression n ts');
  sm_tertiary_loop : forall e ts ts', kinds ts = kinds ts' ->
    same (parse_tertiary_loop n e ts) (parse_tertiary_loop n e ts');
  sm_secondary : forall ts ts', kinds ts = kinds ts' ->
    same (parse_secondary_expression n ts) (parse_secondary_expression n ts');
  sm_secondary_loop : forall e ts ts', kinds ts = kinds ts' ->
    same (parse_secondary_loop n e ts) (parse_secondary_loop n e ts');
  sm_primary : forall ts ts', kinds ts = kinds ts' ->
    same (parse_primary_expression n ts) (parse_primary_expression n ts');
  sm_declaration : forall ts ts', kinds ts = kinds ts' ->
    same (parse_declaration n ts) (parse_declaration n ts');
  sm_declaration_loop : forall d ts ts', kinds ts = kinds ts' ->
    same (parse_declaration_loop n d ts) (parse_declaration_loop n d ts');
  sm_single_declaration : forall ts ts', kinds ts = kinds ts' ->
    same (parse_single_declaration n ts) (parse_single_declaration n ts');
  sm_function_declaration : forall ts ts', kinds ts = kinds ts' ->
    same (parse_function_declaration n ts) (parse_function_declaration n ts');
  sm_parameter_list : forall ts ts', kinds ts = kinds ts' ->
    same (parse_parameter_list n ts) (parse_parameter_list n ts');
  sm_parameter_loop : forall acc ts ts', kinds ts = kinds ts' ->
    same (parse_parameter_loop n acc ts) (parse_parameter_loop n acc ts');
  sm_argument_list : forall ts ts', kinds ts = kinds ts' ->
    same (parse_argument_list n ts) (parse_argument_list n ts');
  sm_argument_loop : forall acc ts ts', kinds ts = kinds ts' ->
    same (parse_argument_loop n acc ts) (parse_argument_loop n acc ts')
}.

Ltac apply_same IH :=
  first [ apply (sm_command _ IH) | apply (sm_command_loop _ IH)
        | apply (sm_single_command _ IH) | apply (sm_expression _ IH)
        | apply (sm_expression_loop _ IH) | apply (sm_tertiary _ IH)
        | apply (sm_tertiary_loop _ IH) | apply (sm_secondary _ IH)
        | apply (sm_secondary_loop _ IH) | apply (sm_primary _ IH)
        | apply (sm_declaration _ IH) | apply (sm_declaration_loop _ IH)
        | apply (sm_single_declaration _ IH) | apply (sm_function_declaration _ IH)
        | apply (sm_parameter_list _ IH) | apply (sm_parameter_loop _ IH)
        | apply (sm_argument_list _ IH) | apply (sm_argument_loop _ IH) ].

(** One step through the two runs side by side. *)
Ltac same_step IH :=
  match goal with
  | H : kinds ?a = kinds ?b |- context [cur_val ?b] => rewrite <- (cur_val_kinds _ _ H)
  | |- same (Ok _) (Ok _) => apply same_ok; assumption
  | |- same (unexpected _) _ => apply same_unexpected
  | |- same (Raise _) _ => apply same_raise
  | |- same (match token_accept_any _ with Ok _ => _ | Raise _ => _ end) _ =>
      apply same_bind_plain; [intros ?; apply accept_any_kinds; assumption|];
      let r := fresh "r" in let r' := fresh "r'" in let H := fresh "Hk" in intros r r' H
  | |- same (match token_accept _ _ with Ok _ => _ | Raise _ => _ end) _ =>
      apply same_bind_plain; [intros ?; apply accept_kinds; assumption|];
      let r := fresh "r" in let r' := fresh "r'" in let H := fresh "Hk" in intros r r' H
  | |- same (match _ with Ok _ => _ | Raise _ => _ end) _ =>
      apply same_bind; [apply_same IH; assumption|];
      let a := fresh "a" in let r := fresh "r" in let r' := fresh "r'" in
      let H := fresh "Hk" in intros a r r' H
  | H : kinds ?l = kinds ?l' |- same (match ?l with [] => _ | _ :: _ => _ end) _ =>
      let t := fresh "t" in let r := fresh "r" in destruct l as [|t r];
      [ rewrite (kinds_nil_inv _ H)
      | let t' := fresh "t'" in let r' := fresh "r'" in let Ht := fresh "Ht" in
        let Hv := fresh "Hv" in let Hr := fresh "Hr" in
        destruct (kinds_cons_inv _ _ _ H) as (t' & r' & -> & Ht & Hv & Hr);
        cbn beta iota; rewrite ?Ht, ?Hv, ?(oper_in_kinds _ _ _ Ht Hv) ]
  | |- same (if decide _ then _ else _) _ => case_decide
  | |- same (if oper_in ?o ?t then _ else _) _ => destruct (oper_in o t)
  | |- same (match type ?t with _ => _ end) _ => destruct (type t)
  | |- same _ _ => apply_same IH; assumption
  end.

Ltac same_body IH := intros; cbn -[token_accept_any token_accept unexpected cur_val]; repeat same_step IH.

Section SameStep.
Context (n : nat) (IH : same_at n).

Lemma same_at_S : same_at (S n).
Proof. constructor; same_body IH. Qed.
End SameStep.

Lemma same_at_all n : same_at n.
Proof. induction n as [|n IH]; [|by apply same_at_S]. constructor; intros; apply same_raise. Qed.

Lemma kinds_length ts ts' : kinds ts = kinds ts' -> length ts = length ts'.
Proof.
  intros H. rewrite <- (length_map (fun t => (type t, val t)) ts), <- (length_map (fun t => (type t, val t)) ts').
  exact (f_equal length H).
Qed.

(** Two token lists of the same kinds and values parse to the same
    program: positions only appear in the exceptions. *)
Lemma parse_kinds ts ts' p : kinds ts = kinds ts' -> parse ts = Ok p -> parse ts' = Ok p.
Proof.
  intros H. unfold parse. destruct ts as [|t r]; [discriminate|].
  destruct (kinds_cons_inv _ _ _ H) as (t' & r' & -> & _). unfold parse_fuel.
  rewrite <- (kinds_length _ _ H). unfold parse_program.
  destruct (parse_command _ (t :: r)) as [[c ts1]|e] eqn:Ec; [|discriminate].
  destruct (sm_command _ (same_at_all _) _ _ H c ts1 Ec) as (ts1' & -> & H1).
  destruct (token_accept TK_EOT ts1) as [ts2|] eqn:Ea; [|discriminate].
  by destruct (accept_kinds _ _ _ _ H1 Ea) as (ts2' & -> & _).
Qed.

End Positions.

Module Source.
Import Printer Positions.

(** ** Tokens as text *)

(** The word of each keyword kind: the inverse of [KEYWORDS]. *)
Definition keyword_text (k : TK) : string :=
  match k with
  | TK_BEGIN => "begin" | TK_CONST => "const" | TK_DO => "do" | TK_ELSE => "else"
  | TK_END => "end" | TK_IF => "if" | TK_IN => "in" | TK_LET => "let" | TK_THEN => "then"
  | TK_VAR => "var" | TK_WHILE => "while" | TK_FUNCDEF => "func" | TK_RETURN => "return"
  | TK_SEMICOLON => ";" | TK_COLON => ":" | TK_BECOMES => ":=" | TK_IS => "~"
  | TK_LPAREN => "(" | TK_RPAREN => ")" | TK_COMMA => ","
  | TK_IDENTIFIER | TK_INTLITERAL | TK_OPERATOR | TK_EOT => ""
  end.

(** The text of a token: the name, the decimal digits of the literal
    ([str] of Python), the operator, or the keyword. *)
Definition token_chars (t : Token) : list ascii :=
  match type t with
  | TK_IDENTIFIER | TK_OPERATOR => list_ascii_of_string (ident_of (val t))
  | TK_INTLITERAL => list_ascii_of_string (str_of_nat (Z.to_nat (int_of (val t))))
  | k => list_ascii_of_string (keyword_text k)
  end.

(** A name the scanner reads as one identifier: a letter, then letters
    and digits, and not a keyword. *)
Definition ident_ok (w : string) : bool :=
  match list_ascii_of_string w with
  | c :: cs => isalpha c && forallb isalnum cs &&
               match KEYWORDS w with None => true | Some _ => false end
  | [] => false
  end.

(** An operator the scanner reads: one character of [OPERATORS]. *)
Definition op_ok (o : string) : bool :=
  match o with String c EmptyString => in_OPERATORS c | _ => false end.

(** A token the scanner gives back from its text. *)
Definition token_ok (t : Token) : bool :=
  match type t, val t with
  | TK_IDENTIFIER, VStr w => ident_ok w
  | TK_INTLITERAL, VInt z => (0 <=? z)%Z
  | TK_OPERATOR, VStr o => op_ok o
  | TK_IDENTIFIER, _ | TK_INTLITERAL, _ | TK_OPERATOR, _ | TK_EOT, _ => false
  | _, v => bool_decide (v = VInt 0)
  end.

(** ** Scanning one token back *)

Lemma span_app_stop {A} (f : A -> bool) l x r :
  Forall (fun y => f y = true) l -> f x = false -> span f (l ++ x :: r) = (l, x :: r).
Proof. induction 1 as [|y l Hy _ IH]; intros Hx; simpl; [by rewrite Hx|]. by rewrite Hy, IH. Qed.

Lemma isalpha_class c :
  isalpha c = true -> isspace c = false /\ Ascii.eqb c "!" = false /\ isdigit c = false.
Proof.
  unfold isalpha, isspace, isdigit. intros H.
  destruct (Ascii.eqb_spec c "!") as [->|]; [discriminate|].
  apply orb_prop in H as [H|H]; apply andb_prop in H as [H1 H2]; apply Nat.leb_le in H1, H2;
    repeat split; try done;
    repeat match goal with |- context [?a <=? ?b] => destruct (Nat.leb_spec a b) end;
    destruct (Nat.eqb_spec (nat_of_ascii c) 32); simpl; lia.
Qed.

Lemma operator_chars c :
  in_OPERATORS c = true -> c ∈ ["+"; "*"; "-"; "/"; "<"; ">"; "="; "\"]%char.
Proof.
  destruct c as [[] [] [] [] [] [] [] []]; vm_compute; intros H; try discriminate H; set_solver.
Qed.

(** The scanner reads a printed token back, at the position of its
    first character, and stops on the space that follows it. *)
Lemma scan_token_chars t X p :
  token_ok t = true ->
  scan_token (token_chars t ++ " "%char :: X) p =
    Ok (mkToken (type t) (val t) p, (" "%char :: X, p + length (token_chars t))).
Proof.
  destruct t as [k v q]. unfold token_ok, token_chars. simpl.
  destruct k, v as [z|w]; intros Hok; try discriminate; try (apply bool_decide_eq_true in Hok; discriminate);
    try (apply bool_decide_eq_true in Hok; injection Hok as ->; simpl; unfold punct; repeat f_equal; lia).
  - (* identifier *)
    unfold ident_ok in Hok. destruct (list_ascii_of_string w) as [|c cs] eqn:E; [discriminate|].
    apply andb_prop in Hok as [Hok Hkw]. apply andb_prop in Hok as [Ha Hcs].
    destruct (isalpha_class c Ha) as (Hs & He & Hd). simpl. rewrite E. simpl. rewrite Hs, He, Hd, Ha.
    unfold scan_keyword. rewrite span_app_stop; [|apply List.Forall_forall; intros; by apply (proj1 (forallb_forall _ _) Hcs)|reflexivity].
    rewrite <- E, string_of_list_ascii_of_string. by destruct (KEYWORDS w).
  - (* literal *)
    apply Z.leb_le in Hok. destruct (str_of_nat_digits (Z.to_nat z)) as (c & ds & E & Hd & Hv).
    simpl. rewrite E. inversion Hd as [|? ? Hc Hds]; subst.
    destruct (isdigit_not_space c Hc) as [Hs He]. simpl. rewrite Hs, He, Hc.
    unfold scan_int. rewrite span_app_stop by done. rewrite Hv, Z2Nat.id by done. done.
  - (* operator *)
    destruct w as [|c [|c' w]]; try discriminate. simpl in Hok.
    apply operator_chars in Hok. repeat (rewrite elem_of_cons in Hok; destruct Hok as [->|Hok]);
      [..|by apply elem_of_nil in Hok]; simpl; repeat f_equal; lia.
Qed.

(** ** Programs as text *)

(** Each token's text followed by one space. *)
Definition print_chars (ts : list Token) : list ascii :=
  flat_map (fun t => token_chars t ++ [" "%char]) ts.

Definition print_source (p : program) : string :=
  match p with Program c => string_of_list_ascii (print_chars (print_command c)) end.

(** The names, literals and operators of a tree can be written as
    tokens: names are identifiers that are not keywords, literals are
    non-negative (a negative number is written with a unary minus), and
    operators are one character of [OPERATORS]. *)
Fixpoint expression_src (e : expression) : bool :=
  match e with
  | BinaryExpression e1 o e2 => op_ok o && expression_src e1 && expression_src e2
  | UnaryExpression o e1 => op_ok o && expression_src e1
  | IntegerExpression z => (0 <=? z)%Z
  | VnameExpression x => ident_ok x
  | CallExpression f args => ident_ok f && forallb expression_src args
  end.

Definition param_src (p : param) : bool := ident_ok p.1 && ident_ok p.2.

Fixpoint command_src (c : command) : bool :=
  match c with
  | SequentialCommand c1 c2 => command_src c1 && command_src c2
  | AssignCommand x e => ident_ok x && expression_src e
  | CallCommand f args => ident_ok f && forallb expression_src args
  | IfCommand e c1 c2 => expression_src e && command_src c1 && command_src c2
  | WhileCommand e c1 => expression_src e && command_src c1
  | LetCommand d c1 => declaration_src d && command_src c1
  | ReturnCommand e => expression_src e
  end
with declaration_src (d : declaration) : bool :=
  match d with
  | SequentialDeclaration d1 d2 => declaration_src d1 && declaration_src d2
  | ConstDeclaration x e => ident_ok x && expression_src e
  | VarDeclaration x t => ident_ok x && ident_ok t
  | FunctionDeclaration f ps rt b =>
    ident_ok f && forallb param_src ps && ident_ok rt && command_src b
  end.

Definition program_src (p : program) : bool :=
  match p with Program c => command_src c end.

(** ** Scanning a printed token list back *)

Lemma token_ok_not_eot t : token_ok t = true -> type t <> TK_EOT.
Proof. unfold token_ok. destruct t as [[] [] ?]; simpl; congruence. Qed.

Lemma scan_tokens_space fuel Y q :
  scan_tokens (S fuel) (" "%char :: Y) q = scan_tokens (S fuel) Y (S q).
Proof. reflexivity. Qed.

(** [scan] reads the printed text of tokens back: the same kinds and
    values, then EOT. *)
Lemma scan_tokens_chars ts p fuel :
  Forall (fun t => token_ok t = true) ts -> length ts < fuel ->
  exists ts', scan_tokens fuel (print_chars ts) p = Ok ts' /\ kinds ts' = kinds (ts ++ [tk TK_EOT]).
Proof.
  intros Hall. revert p fuel. induction Hall as [|t ts Ht Hall IH]; intros p fuel Hf;
    destruct fuel as [|fuel]; try (simpl in Hf; lia).
  - by eexists.
  - cbn [print_chars flat_map]. rewrite <- app_assoc. cbn [app scan_tokens].
    rewrite scan_token_chars by done. cbn -[scan_tokens].
    rewrite decide_False by (by apply token_ok_not_eot).
    destruct fuel as [|fuel]; [simpl in Hf; lia|]. rewrite scan_tokens_space.
    fold (print_chars ts).
    destruct (IH (S (p + length (token_chars t))) (S fuel) ltac:(simpl in Hf; lia)) as (ts' & -> & Hk).
    eexists; split; [reflexivity|]. unfold kinds in *. simpl. by rewrite Hk.
Qed.

Lemma print_chars_length ts : length ts <= length (print_chars ts).
Proof. unfold print_chars. induction ts; simpl; [lia|]. rewrite !length_app. simpl. lia. Qed.

Lemma length_string_of_list_ascii l : String.length (string_of_list_ascii l) = length l.
Proof. by rewrite <- length_list_ascii_of_string, list_ascii_of_string_of_list_ascii. Qed.

(** ** Every printed token of a writable tree can be written *)

Definition tok_ok (t : Token) : Prop := token_ok t = true.

Ltac split_src := repeat match goal with H : _ && _ = true |- _ => apply andb_prop in H as [? ?] end.

Ltac fa := repeat match goal with
  | |- Forall _ (_ ++ _) => apply Forall_app; split
  | |- Forall _ (_ :: _) => constructor
  | |- Forall _ [] => constructor
  | |- tok_ok _ => unfold tok_ok; simpl; done
  end.

Lemma Forall_sep {A} (f : A -> list Token) k l :
  token_ok (tk k) = true -> Forall (fun a => Forall tok_ok (f a)) l ->
  Forall tok_ok (flat_map (fun a => tk k :: f a) l).
Proof. intros Hk. induction 1; simpl; fa; done. Qed.

Lemma print_args_ok args :
  Forall (fun e => Forall tok_ok (print_expression e)) args -> Forall tok_ok (print_args args).
Proof. intros H. destruct H; simpl; fa; [done|]. by apply Forall_sep. Qed.

Lemma print_expression_ok e : expression_src e = true -> Forall tok_ok (print_expression e).
Proof.
  induction e as [e1 o e2 IH1 IH2|o e IH|z|x|f args IH] using expression_ind'; intros Hs;
    [..|rewrite print_expression_call]; simpl in Hs; split_src; cbn [print_expression]; fa; auto.
  apply print_args_ok. rewrite List.Forall_forall in IH |- *. intros a Ha. apply IH; [done|].
  by apply (proj1 (forallb_forall _ _) H0).
Qed.

Lemma print_args_src args : forallb expression_src args = true -> Forall tok_ok (print_args args).
Proof.
  intros H. apply print_args_ok, List.Forall_forall. intros a Ha.
  by apply print_expression_ok, (proj1 (forallb_forall _ _) H).
Qed.

Lemma print_params_ok ps : forallb param_src ps = true -> Forall tok_ok (print_params ps).
Proof.
  intros Hs. rewrite forallb_forall in Hs.
  assert (Hp : forall p, In p ps -> Forall tok_ok (print_param p)).
  { intros [x t] Hin. specialize (Hs _ Hin). unfold param_src in Hs. simpl in Hs. split_src.
    unfold print_param. fa; done. }
  destruct ps as [|p l]; [constructor|]. unfold print_params.
  apply Forall_app; split; [by apply Hp; left|].
  apply Forall_sep; [done|]. apply List.Forall_forall. intros q Hq. apply Hp. by right.
Qed.

Lemma print_command_ok :
  (forall c, command_src c = true -> Forall tok_ok (print_single c) /\ Forall tok_ok (print_command c)) /\
  (forall d, declaration_src d = true -> Forall tok_ok (print_declaration d)).
Proof.
  apply command_declaration_mut; intros; simpl in *; split_src;
    repeat match goal with IH : ?b = true -> _, H : ?b = true |- _ => specialize (IH H) end;
    repeat match goal with H : _ /\ _ |- _ => destruct H end.
  all: try (rewrite <- ?print_single_let; cbn [print_command]; split; cbn [print_single]).
  all: rewrite ?print_single_seq; fa; auto using print_expression_ok, print_args_src, print_params_ok.
Qed.

(** ** The printed text scanned and parsed back *)

(** [scan] gives back the printed tokens of a writable program, at the
    positions of their text, and [parse] reads the program from them. *)
Lemma scan_parse_source p :
  program_wf p = true -> program_src p = true ->
  exists ts, scan (print_source p) = Ok ts /\ parse ts = Ok p.
Proof.
  destruct p as [c]. simpl. intros Hw Hs.
  pose proof (proj2 (proj1 print_command_ok c Hs)) as Hall.
  unfold scan, print_source. rewrite list_ascii_of_string_of_list_ascii, length_string_of_list_ascii.
  destruct (scan_tokens_chars (print_command c) 0 (S (length (print_chars (print_command c)))) Hall)
    as (ts & -> & Hk); [pose proof (print_chars_length (print_command c)); lia|].
  exists ts. split; [done|]. apply (parse_kinds (print_program (Program c))); [done|].
  by apply parse_printed.
Qed.

(** C8: source round trip through the whole front end: writing a
    well-formed program whose names are identifiers, whose literals are
    non-negative and whose operators are characters of [OPERATORS] as
    text, and compiling that text, scans and parses the program back
    and gives exactly what [CodeGen.generate] gives on it. *)
Theorem compile_print_source (p : program) :
  program_wf p = true -> program_src p = true ->
  compile (print_source p) =
    match generate p with Ok st => Ok st | Raise e => Raise (CGenError e) end.
Proof.
  intros Hw Hs. destruct (scan_parse_source p Hw Hs) as (ts & Hscan & Hparse).
  unfold compile. by rewrite Hscan, Hparse.
Qed.

Lemma compile_print_source_witness :
  let p := Program
    (LetCommand
       (SequentialDeclaration (VarDeclaration "x" "Integer")
          (FunctionDeclaration "twice" [("n", "Integer")] "Integer"
             (ReturnCommand (BinaryExpression (VnameExpression "n") "*" (IntegerExpression 2)))))
       (SequentialCommand
          (AssignCommand "x" (CallExpression "twice" [IntegerExpression 21]))
          (IfCommand (BinaryExpression (VnameExpression "x") ">" (UnaryExpression "-" (IntegerExpression 1)))
             (CallCommand "putint" [VnameExpression "x"])
             (CallCommand "putint" [IntegerExpression 0])))) in
  program_wf p = true /\ program_src p = true /\
  compile (print_source p) = match generate p with Ok st => Ok st | Raise e => Raise (CGenError e) end.
Proof.
  intros p. split; [reflexivity|]. split; [reflexivity|].
  apply compile_print_source; reflexivity.
Defined.

End Source.
