(* ===== verification/Labels.v ===== *)
(** * Labels: the jumps of the generated code

    [gen_command] lowers [if] and [while] with byteplay [Label()]
    objects (lines 154-177 of [codegen.py]): the pair [(label, None)]
    places a label in the instruction list, [POP_JUMP_IF_FALSE],
    [JUMP_FORWARD] and [JUMP_ABSOLUTE] jump to one, and byteplay's
    assembler turns each label into the offset of the place where it
    stands.  The offset of a label is well defined when it is placed
    once, and a jump resolves when its label is placed in the same
    list.

    [labels_wf lo hi k] says that the labels placed in [k] are distinct
    and drawn from [lo, hi), and that every jump of [k] goes to a label
    placed in [k].  The code contract of a command: it appends to the
    current list only, leaves the open lists alone, and what it appends
    satisfies [labels_wf] for the labels allocated while it ran.  For
    [if] and [while] the exact shape of the appended code shows where
    each jump lands (spec, section 8, "forward-jump resolution"). *)

From S2P Require Import Prelude Ast CodeGen.

(** The labels placed in a list, in order. *)
Fixpoint placed (k : list instr) : list label :=
  match k with
  | [] => []
  | LABEL l :: k => l :: placed k
  | _ :: k => placed k
  end.

(** The targets of the jumps of a list, in order. *)
Fixpoint jumps (k : list instr) : list label :=
  match k with
  | [] => []
  | (POP_JUMP_IF_FALSE l | JUMP_FORWARD l | JUMP_ABSOLUTE l) :: k => l :: jumps k
  | _ :: k => jumps k
  end.

Definition labels_wf (lo hi : nat) (k : list instr) : Prop :=
  NoDup (placed k) /\ Forall (fun l => lo <= l < hi) (placed k) /\
  Forall (fun l => l ∈ placed k) (jumps k).

(** The code contract of a command and of a declaration. *)
Definition cmd_code (c : command) : Prop :=
  forall st st', gen_command c st = Ok st' ->
    exists k, code st' = code st ++ k /\ code_stacks st' = code_stacks st /\
      labels st <= labels st' /\ labels_wf (labels st) (labels st') k.

Definition decl_code (d : declaration) : Prop :=
  forall st st', gen_declaration d st = Ok st' ->
    exists k, code st' = code st ++ k /\ code_stacks st' = code_stacks st /\
      labels st <= labels st' /\ labels_wf (labels st) (labels st') k.

(** ** Placed labels and jumps of a concatenation *)

Lemma placed_app k1 k2 : placed (k1 ++ k2) = placed k1 ++ placed k2.
Proof. induction k1 as [|i k1 IH]; [done|]. destruct i; simpl; rewrite ?IH; done. Qed.

Lemma jumps_app k1 k2 : jumps (k1 ++ k2) = jumps k1 ++ jumps k2.
Proof. induction k1 as [|i k1 IH]; [done|]. destruct i; simpl; rewrite ?IH; done. Qed.

#[export] Hint Rewrite placed_app jumps_app : mt.

Lemma plain_placed k : Forall (fun i => no_flow i = true) k -> placed k = [] /\ jumps k = [].
Proof. induction 1 as [|i k Hi _ [IH1 IH2]]; [done|]. destruct i; simpl in *; done. Qed.

Lemma labels_wf_plain lo hi k : Forall (fun i => no_flow i = true) k -> labels_wf lo hi k.
Proof. intros H. unfold labels_wf. destruct (plain_placed k H) as [-> ->]. repeat constructor. Qed.

Lemma labels_wf_seq lo mid hi k1 k2 :
  lo <= mid -> mid <= hi -> labels_wf lo mid k1 -> labels_wf mid hi k2 -> labels_wf lo hi (k1 ++ k2).
Proof.
  intros Hlo Hhi (N1 & R1 & J1) (N2 & R2 & J2). unfold labels_wf. autorewrite with mt.
  rewrite Forall_forall in R1, R2, J1, J2. split; [|split].
  - apply NoDup_app. split; [done|]. split; [|done].
    intros l H1 H2. apply R1 in H1. apply R2 in H2. lia.
  - apply Forall_forall. intros l [H|H]%elem_of_app; [apply R1 in H|apply R2 in H]; lia.
  - apply Forall_forall. intros l [H|H]%elem_of_app; apply elem_of_app; auto.
Qed.

(** ** [if] and [while] *)

(** Membership in the placed labels of well-formed pieces. *)
Ltac label_range :=
  repeat match goal with
  | H : labels_wf _ _ _ |- _ => destruct H as (? & ? & ?)
  | H : Forall _ _ |- _ => rewrite Forall_forall in H
  end.

Lemma labels_wf_if L m1 m2 ke k1 k2 :
  S (S L) <= m1 -> m1 <= m2 -> Forall (fun i => no_flow i = true) ke -> labels_wf (S (S L)) m1 k1 -> labels_wf m1 m2 k2 ->
  labels_wf L m2 (ke ++ [POP_JUMP_IF_FALSE L] ++ k1 ++ [JUMP_FORWARD (S L); LABEL L] ++ k2 ++ [LABEL (S L)]).
Proof.
  intros Hm1 Hm2 He W1 W2. destruct (plain_placed _ He) as [Pe Je].
  assert (L1 : forall l, l ∈ placed k1 -> S (S L) <= l < m1) by (label_range; auto).
  assert (L2 : forall l, l ∈ placed k2 -> m1 <= l < m2) by (label_range; auto).
  pose proof W1 as (N1 & _ & J1). pose proof W2 as (N2 & _ & J2). rewrite Forall_forall in J1, J2.
  unfold labels_wf. autorewrite with mt. rewrite Pe, Je. simpl. autorewrite with mt. simpl.
  split; [|split].
  - apply NoDup_app. split; [done|]. split.
    + intros l Hl. apply L1 in Hl. rewrite elem_of_cons, elem_of_app, list_elem_of_singleton.
      intros [->|[Hl2%L2| ->]]; lia.
    + apply NoDup_cons. split; [|apply NoDup_app; split; [done|split; [|by apply NoDup_singleton]]].
      * rewrite elem_of_app, list_elem_of_singleton. intros [Hl2%L2| Hl]; lia.
      * intros l Hl2%L2. rewrite list_elem_of_singleton. lia.
  - apply Forall_forall. intros l. rewrite elem_of_app, elem_of_cons, elem_of_app, list_elem_of_singleton.
    intros [Hl%L1|[->|[Hl%L2| ->]]]; lia.
  - apply Forall_forall. intros l. rewrite elem_of_cons, elem_of_app, elem_of_cons, elem_of_app.
    intros [->|[Hj|[->|Hj]]]; set_solver.
Qed.

Lemma labels_wf_while L m ke kb :
  S (S L) <= m -> Forall (fun i => no_flow i = true) ke -> labels_wf (S (S L)) m kb ->
  labels_wf L m ([LABEL L] ++ ke ++ [POP_JUMP_IF_FALSE (S L)] ++ kb ++ [JUMP_ABSOLUTE L; LABEL (S L)]).
Proof.
  intros Hm He W. destruct (plain_placed _ He) as [Pe Je].
  assert (Lb : forall l, l ∈ placed kb -> S (S L) <= l < m) by (label_range; auto).
  pose proof W as (N & _ & J). rewrite Forall_forall in J.
  unfold labels_wf. autorewrite with mt. rewrite Pe, Je. simpl. autorewrite with mt. simpl.
  split; [|split].
  - apply NoDup_cons. split.
    + rewrite elem_of_app, list_elem_of_singleton. intros [Hl%Lb|Hl]; lia.
    + apply NoDup_app. split; [done|]. split; [|by apply NoDup_singleton].
      intros l Hl%Lb. rewrite list_elem_of_singleton. lia.
  - apply Forall_forall. intros l. rewrite elem_of_cons, elem_of_app, list_elem_of_singleton.
    intros [->|[Hl%Lb| ->]]; lia.
  - apply Forall_forall. intros l. rewrite elem_of_cons, elem_of_app, elem_of_cons.
    intros [->|[Hj|[->|Hj]]]; set_solver.
Qed.

(** ** The scope and table operations leave the code alone *)

Lemma env_load_code x ty w st st' :
  env_load x ty w st = Ok st' ->
  code st' = code st /\ code_stacks st' = code_stacks st /\ labels st' = labels st.
Proof. unfold env_load. destruct (envs st); [discriminate|]. by intros [= <-]. Qed.

Lemma lower_scope_code st st' :
  lower_scope st = Ok st' ->
  code st' = code st /\ code_stacks st' = code_stacks st /\ labels st' = labels st.
Proof. unfold lower_scope. destruct (envs st); [discriminate|]. intros H. inv_bind. by subst. Qed.

Lemma load_params_code args st names st' :
  load_params args st = Ok (names, st') ->
  code st' = code st /\ code_stacks st' = code_stacks st /\ labels st' = labels st.
Proof.
  revert st names. induction args as [|[x ty] args IH]; intros st names H; simpl in H.
  { by injection H as _ <-. }
  inv_bind_pairs. subst. destruct (env_load_code _ _ _ _ _ E) as (Hc & Hs & Hl).
  destruct (IH _ _ E0) as (Hc' & Hs' & Hl'). simpl in *. repeat split; congruence.
Qed.

(** A generator step that appends plain code meets the code contract. *)
Lemma contract_plain st st' k :
  code st' = code st ++ k -> code_stacks st' = code_stacks st -> labels st <= labels st' ->
  Forall (fun i => no_flow i = true) k ->
  exists k, code st' = code st ++ k /\ code_stacks st' = code_stacks st /\
    labels st <= labels st' /\ labels_wf (labels st) (labels st') k.
Proof.
  intros Hc Hs Hl Hk. exists k. split; [done|]. split; [done|]. split; [lia|].
  by apply labels_wf_plain.
Qed.

(** Split the contract of a sub-command or sub-declaration. *)
Ltac use_contract IH E :=
  let k := fresh "k" in let C := fresh "C" in let Cs := fresh "Cs" in
  let L := fresh "L" in let W := fresh "W" in
  destruct (IH _ _ E) as (k & C & Cs & L & W).

Ltac use_expression E :=
  let k := fresh "ke" in let P := fresh "Pe" in
  destruct (gen_expression_appends _ _ _ E) as (k & -> & P).

(** Close the equation of the appended code. *)
Ltac solve_app := simpl in *; repeat match goal with C : code _ = _ |- _ => rewrite C; clear C end;
  simpl; rewrite <- ?app_assoc; reflexivity.

Lemma gen_code : (forall c, cmd_code c) /\ (forall d, decl_code d).
Proof.
  apply command_declaration_mut; unfold cmd_code, decl_code; simpl.
  - intros c1 IH1 c2 IH2 st st' H. inv_bind. use_contract IH1 E. use_contract IH2 H.
    exists (k ++ k0). split; [solve_app|]. split; [congruence|]. split; [lia|].
    eapply labels_wf_seq; [| |exact W|exact W0]; lia.
  - intros x e st st' H. inv_bind. use_expression E. case_match; [|discriminate]. inv_bind. subst.
    apply (contract_plain _ _ (ke ++ [STORE_FAST s])); [solve_app|done|simpl; lia|solve_plain].
  - intros name args st st' H. apply gen_call_appends in H as (k & -> & P).
    + apply (contract_plain _ _ k); [done|done|simpl; lia|exact P].
    + apply Forall_forall. intros e _. apply gen_expression_appends.
  - intros e c1 IH1 c2 IH2 st st' H. inv_bind. use_expression E. use_contract IH1 E0.
    use_contract IH2 E1. subst. simpl in *.
    exists (ke ++ [POP_JUMP_IF_FALSE (labels st)] ++ k ++ [JUMP_FORWARD (S (labels st)); LABEL (labels st)]
            ++ k0 ++ [LABEL (S (labels st))]).
    split; [solve_app|]. split; [congruence|]. split; [lia|].
    eapply labels_wf_if; [| |exact Pe|exact W|exact W0]; lia.
  - intros e c IH st st' H. inv_bind. use_expression E. use_contract IH E0. subst. simpl in *.
    exists ([LABEL (labels st)] ++ ke ++ [POP_JUMP_IF_FALSE (S (labels st))] ++ k
            ++ [JUMP_ABSOLUTE (labels st); LABEL (S (labels st))]).
    split; [solve_app|]. split; [congruence|]. split; [lia|].
    apply labels_wf_while; [lia|exact Pe|exact W].
  - intros d IHd c IHc st st' H. inv_bind. use_contract IHd E. use_contract IHc E0.
    destruct (lower_scope_code _ _ H) as (Hc & Hs & Hl). simpl in *. rewrite Hl.
    exists (k ++ k0). split; [solve_app|]. split; [congruence|]. split; [lia|].
    eapply labels_wf_seq; [| |exact W|exact W0]; lia.
  - intros e st st' H. inv_bind. use_expression E. subst.
    apply (contract_plain _ _ (ke ++ [RETURN_VALUE])); [solve_app|done|simpl; lia|solve_plain].
  - intros x e st st' H. inv_bind_pairs. use_expression E. case_match; [|discriminate]. inv_bind. subst.
    destruct (env_load_code _ _ _ _ _ E0) as (Hc & Hs & Hl).
    apply (contract_plain _ _ (ke ++ [STORE_FAST s])); simpl in *; [|congruence|lia|solve_plain].
    rewrite Hc. simpl. by rewrite <- app_assoc.
  - intros x ty st st' H. inv_bind_pairs. case_match; [|discriminate]. inv_bind. subst.
    destruct (env_load_code _ _ _ _ _ E) as (Hc & Hs & Hl).
    apply (contract_plain _ _ [LOAD_CONST CNone; STORE_FAST s]); simpl in *; [|congruence|lia|solve_plain].
    rewrite Hc, <- app_assoc. done.
  - intros d1 IH1 d2 IH2 st st' H. inv_bind. use_contract IH1 E. use_contract IH2 H.
    exists (k ++ k0). split; [solve_app|]. split; [congruence|]. split; [lia|].
    eapply labels_wf_seq; [| |exact W|exact W0]; lia.
  - intros name args rt c IH st st' H. unfold gen_function in H. inv_bind_pairs.
    destruct (load_params_code _ _ _ _ E) as (Hc & Hs & Hl). simpl in Hc, Hs, Hl. use_contract IH E0.
    unfold lower_code_stack in E1. rewrite Cs, Hs in E1.
    destruct (lower_scope_code _ _ E1) as (Hc1 & Hs1 & Hl1). simpl in Hc1, Hs1, Hl1. rewrite <- H.
    apply (contract_plain _ _ [LOAD_CONST (CCode (code a0) l name); MAKE_FUNCTION 0; STORE_NAME name]);
      simpl; [by rewrite Hc1, <- !app_assoc|done|lia|solve_plain].
Qed.

(** A function declaration appends exactly the three instructions that
    bind the name to the code object of its body, generated in a list of
    its own from the labels reached so far. *)
Lemma gen_function_shape name args rt body st st' :
  gen_function gen_command name args rt body st = Ok st' ->
  exists stb stb' names,
    gen_command body stb = Ok stb' /\ code stb = [] /\ labels stb = labels st /\
    code st' = code st ++ [LOAD_CONST (CCode (code stb') names name); MAKE_FUNCTION 0; STORE_NAME name] /\
    code_stacks st' = code_stacks st /\ labels st' = labels stb'.
Proof.
  unfold gen_function. intros H. inv_bind_pairs.
  destruct (load_params_code _ _ _ _ E) as (Hc & Hs & Hl). simpl in Hc, Hs, Hl.
  destruct (proj1 gen_code body _ _ E0) as (k & C & Cs & L & W).
  unfold lower_code_stack in E1. rewrite Cs, Hs in E1.
  destruct (lower_scope_code _ _ E1) as (Hc1 & Hs1 & Hl1). simpl in Hc1, Hs1, Hl1.
  exists c, a0, l. rewrite <- H. simpl. rewrite Hc1, Hs1, Hl1, <- !app_assoc. auto 6.
Qed.

Lemma labels_wf_not_placed lo hi k l : labels_wf lo hi k -> l < lo -> l ∉ placed k.
Proof. intros (_ & R & _) Hl Hin. rewrite Forall_forall in R. apply R in Hin. lia. Qed.

(** ** Where the jumps land *)

(** The labels of the top-level list of a generated program. *)
Lemma generate_wf (p : program) (st : cg_state) :
  generate p = Ok st -> labels_wf 0 (labels st) (code st).
Proof.
  destruct p as [c]. simpl. intros H. inv_bind. subst.
  destruct (proj1 gen_code c _ _ E) as (k & Hc & _ & _ & W). simpl in *.
  rewrite Hc, <- app_assoc. apply (labels_wf_seq _ (labels a)); [lia|lia|exact W|].
  apply labels_wf_plain. solve_plain.
Qed.

(** C19: the code of a whole program resolves its jumps: every label of
    the top-level list is placed once, and every jump of the list goes to
    a label placed in it. *)
Theorem generate_labels_wf (p : program) (st : cg_state) :
  generate p = Ok st -> labels_wf 0 (labels st) (code st).
Proof. apply generate_wf. Qed.

Lemma generate_labels_wf_witness :
  exists st,
    generate (Program (WhileCommand (IntegerExpression 1) (ReturnCommand (IntegerExpression 0)))) = Ok st /\
    labels_wf 0 (labels st) (code st).
Proof.
  destruct (generate (Program (WhileCommand (IntegerExpression 1) (ReturnCommand (IntegerExpression 0))))) as [st|e] eqn:H;
    [|vm_compute in H; discriminate].
  exists st. split; [reflexivity|]. exact (generate_labels_wf _ _ H).
Defined.

(** The code of an [if] and of a [while], and the labels their
    bodies do not place. *)
Lemma if_code_shape (e : expression) (c1 c2 : command) (st st' : cg_state) :
  gen_command (IfCommand e c1 c2) st = Ok st' ->
  exists ke k1 k2,
    code st' = code st ++ ke ++ [POP_JUMP_IF_FALSE (labels st)] ++ k1 ++
                 [JUMP_FORWARD (S (labels st)); LABEL (labels st)] ++ k2 ++ [LABEL (S (labels st))] /\
    Forall (fun i => no_flow i = true) ke /\
    labels st ∉ placed (k1 ++ k2) /\ S (labels st) ∉ placed (k1 ++ k2).
Proof.
  simpl. intros H. inv_bind. use_expression E. use_contract (proj1 gen_code c1) E0.
  use_contract (proj1 gen_code c2) E1. subst. simpl in *.
  exists ke, k, k0. split; [solve_app|]. split; [done|].
  rewrite placed_app, !elem_of_app.
  split; intros [Hin|Hin]; revert Hin; apply (labels_wf_not_placed _ _ _ _ W)
    || apply (labels_wf_not_placed _ _ _ _ W0); lia.
Qed.

Lemma while_code_shape (e : expression) (c : command) (st st' : cg_state) :
  gen_command (WhileCommand e c) st = Ok st' ->
  exists ke kb,
    code st' = code st ++ [LABEL (labels st)] ++ ke ++ [POP_JUMP_IF_FALSE (S (labels st))] ++ kb ++
                 [JUMP_ABSOLUTE (labels st); LABEL (S (labels st))] /\
    Forall (fun i => no_flow i = true) ke /\
    labels st ∉ placed kb /\ S (labels st) ∉ placed kb.
Proof.
  simpl. intros H. inv_bind. use_expression E. use_contract (proj1 gen_code c) E0. subst. simpl in *.
  exists ke, k. split; [solve_app|]. split; [done|].
  split; apply (labels_wf_not_placed _ _ _ _ W); lia.
Qed.

