(* ===== verification/Operators.v ===== *)
(** * Operators: the instructions that compiled text can contain

    [codegen.py] maps the operator [\] to [BINARY_MODULO] (line 213),
    and the scanner accepts [\] as an operator, but the multiplicative
    tier of [parser.py] (line 156) tests [token.val in ['*', '/', '']]:
    no parsed tree holds [\] ([Roundtrip.parse_result_wf]).  This file
    carries that fact through the generator: the code of every compiled
    text, the bodies of its functions included, holds no
    [BINARY_MODULO].  The contract of commands and declarations is
    proved by mutual induction, for the well-formed trees the parser
    returns. *)

From S2P Require Import Prelude Scanner Ast Parser ParserTotal Roundtrip CodeGen Pipeline Labels.
Import Printer.

(** An instruction that is not [BINARY_MODULO], nor a code object whose
    list holds one. *)
Fixpoint no_modulo (i : instr) : bool :=
  match i with
  | BINARY_MODULO => false
  | LOAD_CONST (CCode c _ _) => forallb no_modulo c
  | _ => true
  end.

Definition nm (i : instr) : Prop := no_modulo i = true.

Lemma binop_no_modulo op i : op ∈ binops -> binop_instr op = Some i -> no_modulo i = true.
Proof.
  intros Hop%list_elem_of_In H. simpl in Hop.
  repeat destruct Hop as [<-|Hop]; try done; vm_compute in H; by simplify_eq.
Qed.

Lemma unop_no_modulo op i : unop_instr op = Some i -> no_modulo i = true.
Proof. unfold unop_instr. intros H. repeat case_match; by simplify_eq. Qed.

Lemma gen_expression_no_modulo e : expression_wf e = true -> appends_sat nm gen_expression e.
Proof.
  induction e as [e1 op e2 IH1 IH2|op e1 IH|v|x|name args IH] using expression_ind';
    intros Hwf st st' H; simpl in Hwf, H.
  - apply andb_prop in Hwf as [[Hop%bool_decide_eq_true H1]%andb_prop H2]. inv_bind.
    destruct (IH1 H1 _ _ E) as (k1 & -> & P1). destruct (IH2 H2 _ _ E0) as (k2 & -> & P2).
    destruct (binop_instr op) as [i|] eqn:Ei; [|discriminate]. injection H as <-.
    exists (k1 ++ k2 ++ [i]). split; [solve_code|solve_plain]. exact (binop_no_modulo _ _ Hop Ei).
  - inv_bind. destruct (IH Hwf _ _ E) as (k & -> & P).
    destruct (unop_instr op) as [i|] eqn:Ei; [|discriminate]. injection H as <-.
    exists (k ++ [i]). split; [solve_code|solve_plain]. exact (unop_no_modulo _ _ Ei).
  - injection H as <-. exists [LOAD_CONST (CInt v)]. split; [done|solve_plain].
  - destruct (lookup_var x st) as [[slot|]|]; try discriminate. injection H as <-.
    exists [LOAD_FAST slot]. split; [done|solve_plain].
  - refine (gen_call_sat nm _ _ _ _ gen_expression _ name args st st' _ H); try done.
    rewrite Forall_forall in IH |- *. intros a Ha. apply IH; [exact Ha|].
    apply (proj1 (forallb_forall _ _) Hwf). by apply list_elem_of_In.
Qed.

(** The contract of a well-formed command and declaration: they append
    to the current list instructions that are not [BINARY_MODULO]. *)
Definition cmd_nm (c : command) : Prop :=
  forall st st', command_wf c = true -> gen_command c st = Ok st' ->
    exists k, code st' = code st ++ k /\ code_stacks st' = code_stacks st /\ Forall nm k.

Definition decl_nm (d : declaration) : Prop :=
  forall st st', declaration_wf d = true -> gen_declaration d st = Ok st' ->
    exists k, code st' = code st ++ k /\ code_stacks st' = code_stacks st /\ Forall nm k.

Ltac use_nm IH W E :=
  let k := fresh "k" in let C := fresh "C" in let Cs := fresh "Cs" in let P := fresh "P" in
  destruct (IH _ _ W E) as (k & C & Cs & P).

Ltac use_expr_nm W E :=
  let k := fresh "ke" in let P := fresh "Pe" in
  destruct (gen_expression_no_modulo _ W _ _ E) as (k & -> & P).

Ltac split_wf :=
  repeat match goal with H : (_ && _)%bool = true |- _ => apply andb_prop in H as [? ?] end.

Lemma gen_no_modulo : (forall c, cmd_nm c) /\ (forall d, decl_nm d).
Proof.
  apply command_declaration_mut; unfold cmd_nm, decl_nm; simpl.
  - intros c1 IH1 c2 IH2 st st' Hw H. split_wf. inv_bind. use_nm IH1 H0 E. use_nm IH2 H1 H.
    exists (k ++ k0). split; [solve_app|]. split; [congruence|solve_plain].
  - intros x e st st' Hw H. inv_bind. use_expr_nm Hw E. case_match; [|discriminate]. inv_bind. subst.
    exists (ke ++ [STORE_FAST s]). split; [solve_app|]. split; [done|solve_plain].
  - intros name args st st' Hw H.
    assert (Ha : Forall (appends_sat nm gen_expression) args).
    { apply Forall_forall. intros a Ha. apply gen_expression_no_modulo.
      apply (proj1 (forallb_forall _ _) Hw). by apply list_elem_of_In. }
    apply (gen_call_sat nm) in H as (k & -> & P); try done.
    exists k. split; [done|]. split; [done|exact P].
  - intros e c1 IH1 c2 IH2 st st' Hw H. split_wf. inv_bind. use_expr_nm H0 E.
    use_nm IH1 H2 E0. use_nm IH2 H1 E1. subst. simpl in *.
    eexists. split; [solve_app|]. split; [congruence|solve_plain].
  - intros e c IH st st' Hw H. split_wf. inv_bind. use_expr_nm H0 E. use_nm IH H1 E0. subst. simpl in *.
    eexists. split; [solve_app|]. split; [congruence|solve_plain].
  - intros d IHd c IHc st st' Hw H. split_wf. inv_bind. use_nm IHd H0 E. use_nm IHc H1 E0.
    destruct (lower_scope_code _ _ H) as (Hc & Hs & _). simpl in *.
    exists (k ++ k0). split; [solve_app|]. split; [congruence|solve_plain].
  - intros e st st' Hw H. inv_bind. use_expr_nm Hw E. subst.
    exists (ke ++ [RETURN_VALUE]). split; [solve_app|]. split; [done|solve_plain].
  - intros x e st st' Hw H. inv_bind_pairs. use_expr_nm Hw E. case_match; [|discriminate]. inv_bind. subst.
    destruct (env_load_code _ _ _ _ _ E0) as (Hc & Hs & _). simpl in *.
    exists (ke ++ [STORE_FAST s]). rewrite Hc, <- app_assoc. split; [done|]. split; [done|solve_plain].
  - intros x ty st st' _ H. inv_bind_pairs. case_match; [|discriminate]. inv_bind. subst.
    destruct (env_load_code _ _ _ _ _ E) as (Hc & Hs & _). simpl in *.
    exists [LOAD_CONST CNone; STORE_FAST s]. rewrite Hc, <- app_assoc. split; [done|]. split; [done|solve_plain].
  - intros d1 IH1 d2 IH2 st st' Hw H. split_wf. inv_bind. use_nm IH1 H2 E. use_nm IH2 H1 H.
    exists (k ++ k0). split; [solve_app|]. split; [congruence|solve_plain].
  - intros name args rt c IH st st' Hw H. split_wf.
    destruct (gen_function_shape _ _ _ _ _ _ H) as (stb & stb' & names & Hb & Cb & _ & C & Cs & _).
    use_nm IH H1 Hb. rewrite Cb in C0. simpl in C0.
    eexists. split; [exact C|]. split; [done|]. repeat constructor. simpl.
    rewrite C0. apply forallb_forall. intros i Hi. rewrite Forall_forall in P. apply P.
    by apply list_elem_of_In.
Qed.

(** C30: the operator [\] is dead: the code of every text that compiles,
    the code objects of its functions included, holds no
    [BINARY_MODULO], although [codegen.py] maps [\] to it, because the
    parser's multiplicative tier lists [''] where [\] was meant. *)
Theorem compile_no_modulo (text : string) (st : cg_state) :
  compile text = Ok st -> Forall (fun i => no_modulo i = true) (code st).
Proof.
  unfold compile. destruct (scan text) as [ts|]; [|discriminate].
  destruct (parse ts) as [[c]|] eqn:Hp; [|discriminate].
  destruct (generate (Program c)) as [st0|] eqn:Hg; [|discriminate]. intros [= <-].
  apply parse_result_wf in Hp. simpl in Hp, Hg. inv_bind. subst. simpl.
  destruct (proj1 gen_no_modulo c _ _ Hp E) as (k & -> & _ & P). simpl.
  solve_plain.
Qed.

Lemma compile_no_modulo_witness :
  exists st, compile "let var x: Integer; in x := 7 * 2 / 3 - 1;" = Ok st /\
    Forall (fun i => no_modulo i = true) (code st).
Proof.
  destruct (compile "let var x: Integer; in x := 7 * 2 / 3 - 1;") as [st|e] eqn:H;
    [|vm_compute in H; discriminate].
  exists st. split; [reflexivity|]. exact (compile_no_modulo _ _ H).
Defined.
