(* ===== verification/Stack.v ===== *)
(** * Stack: the operand stack of the generated code

    The instructions [codegen.py] emits run on CPython 2's operand
    stack.  [pops] and [pushes] give, for each opcode, how many values it
    takes from the stack and how many it leaves (CPython 2.7: a call
    [CALL_FUNCTION n] takes the callable and its [n] arguments and leaves
    the result; [PRINT_ITEM] takes the value it prints; a conditional
    jump takes the condition).  [run_stack d k] follows the depth of the
    stack along a straight list of instructions started at depth [d]:
    [None] when an instruction would take more values than there are.

    Every expression that does not call [putint] compiles to code that
    leaves exactly one value and never reaches below its starting depth.
    Two places where the generator leaves the stack unbalanced follow:
    [putint] used as an expression leaves no value (its code prints and
    pushes nothing), and a call statement of a declared function leaves
    the returned value on the stack, the [POP_TOP] that would drop it
    being commented out (line 304). *)

From S2P Require Import Prelude Ast CodeGen.

Definition pops (i : instr) : nat :=
  match i with
  | LOAD_CONST _ | LOAD_FAST _ | LOAD_GLOBAL _ | PRINT_NEWLINE
  | JUMP_FORWARD _ | JUMP_ABSOLUTE _ | LABEL _ => 0
  | STORE_FAST _ | STORE_NAME _ | PRINT_ITEM | RETURN_VALUE | POP_JUMP_IF_FALSE _
  | UNARY_POSITIVE | UNARY_NEGATIVE => 1
  | BINARY_ADD | BINARY_MULTIPLY | BINARY_SUBTRACT | BINARY_DIVIDE | BINARY_MODULO
  | COMPARE_OP _ => 2
  | CALL_FUNCTION n | MAKE_FUNCTION n => S n
  end.

Definition pushes (i : instr) : nat :=
  match i with
  | LOAD_CONST _ | LOAD_FAST _ | LOAD_GLOBAL _ | UNARY_POSITIVE | UNARY_NEGATIVE
  | BINARY_ADD | BINARY_MULTIPLY | BINARY_SUBTRACT | BINARY_DIVIDE | BINARY_MODULO
  | COMPARE_OP _ | CALL_FUNCTION _ | MAKE_FUNCTION _ => 1
  | _ => 0
  end.

(** The depth after running [k] from depth [d], if no instruction underflows. *)
Fixpoint run_stack (d : nat) (k : list instr) : option nat :=
  match k with
  | [] => Some d
  | i :: k => if Nat.leb (pops i) d then run_stack (d - pops i + pushes i) k else None
  end.

(** An expression with no call of [putint] in it. *)
Fixpoint putint_free (e : expression) : bool :=
  match e with
  | BinaryExpression e1 _ e2 => putint_free e1 && putint_free e2
  | UnaryExpression _ e1 => putint_free e1
  | IntegerExpression _ | VnameExpression _ => true
  | CallExpression name args => negb (String.eqb name "putint") && forallb putint_free args
  end.

(** Code that takes the stack from any depth [d] to [d + n]. *)
Definition leaves (n : nat) (k : list instr) : Prop := forall d, run_stack d k = Some (d + n).

(** The stack contract of an expression: one value left, no underflow. *)
Definition expr_leaves_one (e : expression) : Prop :=
  forall st st', putint_free e = true -> gen_expression e st = Ok st' ->
    exists k, st' = append_code k st /\ leaves 1 k.

(** ** Running a concatenation *)

Lemma run_stack_app d k1 k2 :
  run_stack d (k1 ++ k2) = match run_stack d k1 with Some d' => run_stack d' k2 | None => None end.
Proof.
  revert d. induction k1 as [|i k1 IH]; intros d; [done|]. simpl. by case_match.
Qed.

#[export] Hint Rewrite run_stack_app : mt.

Lemma run_stack_cons d i k :
  pops i <= d -> run_stack d (i :: k) = run_stack (d - pops i + pushes i) k.
Proof. intros H. simpl. by rewrite (proj2 (Nat.leb_le _ _) H). Qed.

(** Run a short straight list whose instructions all find their operands. *)
Ltac run_simpl := repeat (rewrite run_stack_cons by (simpl; lia)); simpl; f_equal; lia.

Lemma leaves_app n m k1 k2 : leaves n k1 -> leaves m k2 -> leaves (n + m) (k1 ++ k2).
Proof. intros H1 H2 d. rewrite run_stack_app, H1, H2. f_equal. lia. Qed.

Lemma leaves_nil : leaves 0 [].
Proof. intros d. simpl. f_equal. lia. Qed.

Lemma binop_leaves op i : binop_instr op = Some i -> forall d, run_stack (S (S d)) [i] = Some (S d).
Proof.
  unfold binop_instr. intros H d. repeat case_match; simplify_eq; simpl; f_equal; lia.
Qed.

Lemma unop_leaves op i : unop_instr op = Some i -> forall d, run_stack (S d) [i] = Some (S d).
Proof. unfold unop_instr. intros H d. repeat case_match; simplify_eq; simpl; f_equal; lia. Qed.

Lemma gen_list_leaves args st st' :
  Forall expr_leaves_one args -> forallb putint_free args = true ->
  gen_list gen_expression args st = Ok st' ->
  exists k, st' = append_code k st /\ leaves (length args) k.
Proof.
  intros Hall. revert st. induction Hall as [|a args Ha Hall IH]; intros st Hf H; simpl in *.
  - injection H as <-. exists []. split; [by rewrite append_code_nil|apply leaves_nil].
  - apply andb_prop in Hf as [Hf1 Hf2]. inv_bind.
    destruct (Ha _ _ Hf1 E) as (k1 & -> & L1). destruct (IH _ Hf2 H) as (k2 & -> & L2).
    exists (k1 ++ k2). rewrite append_code_app. split; [done|]. by apply (leaves_app 1).
Qed.

(** A call other than [putint], of a name known to the generator, leaves
    one value: the result of the call. *)
Lemma gen_call_leaves node name args st st' :
  name <> "putint" -> Forall expr_leaves_one args -> forallb putint_free args = true ->
  gen_call gen_expression node name args st = Ok st' ->
  exists k, st' = append_code k st /\ leaves 1 k.
Proof.
  intros Hp IH Hf H. unfold gen_call, gen_call_command in H.
  destruct (String.eqb_spec name "getint").
  - case_match; [discriminate|]. injection H as <-.
    exists [LOAD_GLOBAL "input"; CALL_FUNCTION 0]. split; [solve_code|]. intros d. run_simpl.
  - destruct (String.eqb_spec name "putint"); [done|].
    destruct (declared_functions st !! name) as [[params rt]|]; [|discriminate].
    destruct (Nat.eqb_spec (length params) (length args)) as [Hn|]; [|discriminate]. simpl in H.
    inv_bind. rewrite emit_append in E.
    destruct (gen_list_leaves _ _ _ IH Hf E) as (k & -> & L). subst st'.
    exists ([LOAD_GLOBAL name] ++ k ++ [CALL_FUNCTION (length params)]). split; [solve_code|].
    intros d. rewrite run_stack_app. rewrite run_stack_cons by (simpl; lia). simpl.
    rewrite run_stack_app, L, Hn. run_simpl.
Qed.

Lemma gen_expression_leaves e : expr_leaves_one e.
Proof.
  induction e as [e1 op e2 IH1 IH2|op e1 IH|v|x|name args IH] using expression_ind';
    intros st st' Hf H; simpl in Hf, H.
  - apply andb_prop in Hf as [Hf1 Hf2]. inv_bind.
    destruct (IH1 _ _ Hf1 E) as (k1 & -> & L1). destruct (IH2 _ _ Hf2 E0) as (k2 & -> & L2).
    destruct (binop_instr op) as [i|] eqn:Ei; [|discriminate]. injection H as <-.
    exists (k1 ++ k2 ++ [i]). split; [solve_code|]. intros d.
    rewrite run_stack_app, L1, run_stack_app, L2. replace (d + 1 + 1) with (S (S d)) by lia.
    rewrite (binop_leaves _ _ Ei). f_equal. lia.
  - inv_bind. destruct (IH _ _ Hf E) as (k & -> & L).
    destruct (unop_instr op) as [i|] eqn:Ei; [|discriminate]. injection H as <-.
    exists (k ++ [i]). split; [solve_code|]. intros d.
    rewrite run_stack_app, L. replace (d + 1) with (S d) by lia. by rewrite (unop_leaves _ _ Ei).
  - injection H as <-. exists [LOAD_CONST (CInt v)]. split; [done|]. intros d. simpl. f_equal. lia.
  - destruct (lookup_var x st) as [[slot|]|]; try discriminate. injection H as <-.
    exists [LOAD_FAST slot]. split; [done|]. intros d. simpl. f_equal. lia.
  - apply andb_prop in Hf as [Hp Hf]. apply (gen_call_leaves (NExpression (CallExpression name args)) name args st st');
      [|exact IH|exact Hf|exact H].
    by destruct (String.eqb_spec name "putint").
Qed.

(** ** What the generated code does to the stack *)

(** C23: every expression without a call of [putint] compiles to code
    that leaves exactly one value on the operand stack and never takes
    a value it did not push, from whatever depth it starts. *)
Theorem expression_leaves_one (e : expression) (st st' : cg_state) :
  putint_free e = true -> gen_expression e st = Ok st' ->
  exists k, code st' = code st ++ k /\ forall d, run_stack d k = Some (S d).
Proof.
  intros Hf H. destruct (gen_expression_leaves e st st' Hf H) as (k & -> & L).
  exists k. split; [done|]. intros d. rewrite L. f_equal. lia.
Qed.

Lemma expression_leaves_one_witness :
  exists st',
    putint_free (BinaryExpression (IntegerExpression 1) "+" (CallExpression "getint" [])) = true /\
    gen_expression (BinaryExpression (IntegerExpression 1) "+" (CallExpression "getint" [])) init_state
      = Ok st' /\
    exists k, code st' = code init_state ++ k /\ forall d, run_stack d k = Some (S d).
Proof.
  assert (Hf : putint_free (BinaryExpression (IntegerExpression 1) "+" (CallExpression "getint" []))
               = true) by reflexivity.
  destruct (gen_expression (BinaryExpression (IntegerExpression 1) "+" (CallExpression "getint" []))
              init_state) as [st'|e] eqn:H; [|vm_compute in H; discriminate].
  exists st'. split; [exact Hf|]. split; [reflexivity|]. exact (expression_leaves_one _ _ _ Hf H).
Defined.

(** C25: [putint(a)] used as an expression leaves no value on the stack:
    its code prints [a] and pushes nothing, so the instruction that
    consumes the expression's value (a store, an operator, a return)
    takes a value that is not there. *)
Theorem putint_expression_no_value (a : expression) (st st' : cg_state) :
  putint_free a = true -> gen_expression (CallExpression "putint" [a]) st = Ok st' ->
  exists k, code st' = code st ++ k /\ forall d, run_stack d k = Some d.
Proof.
  intros Hf H. simpl in H. unfold gen_call in H. simpl in H. inv_bind. subst.
  destruct (gen_expression_leaves a st a0 Hf E) as (k & -> & L).
  exists (k ++ [PRINT_ITEM; PRINT_NEWLINE]). split; [simpl; by rewrite <- !app_assoc|].
  intros d. rewrite run_stack_app, L. run_simpl.
Qed.

Lemma putint_expression_no_value_witness :
  exists st',
    putint_free (IntegerExpression 7) = true /\
    gen_expression (CallExpression "putint" [IntegerExpression 7]) init_state = Ok st' /\
    exists k, code st' = code init_state ++ k /\ forall d, run_stack d k = Some d.
Proof.
  assert (Hf : putint_free (IntegerExpression 7) = true) by reflexivity.
  destruct (gen_expression (CallExpression "putint" [IntegerExpression 7]) init_state) as [st'|e] eqn:H;
    [|vm_compute in H; discriminate].
  exists st'. split; [exact Hf|]. split; [reflexivity|]. exact (putint_expression_no_value _ _ _ Hf H).
Defined.

(** C24: a call statement of [getint] or of a declared function leaves
    the call's result on the operand stack: the [POP_TOP] after
    [CALL_FUNCTION] is commented out (line 304), so every such statement
    grows the stack by one value. *)
Theorem call_statement_leaves_value (name : string) (args : list expression) (st st' : cg_state) :
  name <> "putint" -> forallb putint_free args = true ->
  gen_command (CallCommand name args) st = Ok st' ->
  exists k, code st' = code st ++ k /\ forall d, run_stack d k = Some (S d).
Proof.
  intros Hp Hf H. simpl in H.
  destruct (gen_call_leaves (NCommand (CallCommand name args)) name args st st' Hp) as (k & -> & L); [|exact Hf|exact H|].
  - apply Forall_forall. intros e _. apply gen_expression_leaves.
  - exists k. split; [done|]. intros d. rewrite L. f_equal. lia.
Qed.

Lemma call_statement_leaves_value_witness :
  exists st',
    "getint" <> "putint" /\ forallb putint_free [] = true /\
    gen_command (CallCommand "getint" []) init_state = Ok st' /\
    exists k, code st' = code init_state ++ k /\ forall d, run_stack d k = Some (S d).
Proof.
  assert (Hp : "getint" <> "putint") by discriminate.
  assert (Hf : forallb putint_free [] = true) by reflexivity.
  destruct (gen_command (CallCommand "getint" []) init_state) as [st'|e] eqn:H;
    [|vm_compute in H; discriminate].
  exists st'. split; [exact Hp|]. split; [exact Hf|]. split; [reflexivity|].
  exact (call_statement_leaves_value _ _ _ _ Hp Hf H).
Defined.
