(* ===== verification/Assembly.v ===== *)
(** * Assembly: byteplay's [Code.to_code] on the generated lists

    [generate] (line 118 of [codegen.py]) and [gen_function] (line 285)
    wrap an instruction list in a byteplay [Code] object and call
    [to_code], the assembly step of the spec (section 4.3: "two
    control-flow markers ... that a later assembly step resolves to
    concrete offsets").  byteplay is a library outside [src/]; its
    assembler is modelled from the spec and from the CPython 2.7
    bytecode format it targets:
    - [_compute_stacksize] runs first: a depth-first search from the
      first instruction over every way the flow can go, with the depth
      of the operand stack, recording the depth at each label; it raises
      [IndexError] when the flow runs off the end of the list, [KeyError]
      on a jump to a label never placed, and [ValueError] when a label is
      reached at two depths or an instruction pops from an empty stack
      ([compute_stacksize], with a fuel [StackSize.v] shows is enough);
    - one pass over the list appends the bytes of each instruction to
      [co_code]: the opcode alone when it takes no argument, else the
      opcode and a 16-bit little-endian argument, preceded by
      [EXTENDED_ARG] and the high 16 bits when the argument exceeds
      [0xFFFF]; a placed label records the current length of [co_code]
      and emits nothing;
    - the argument of [LOAD_CONST] is the index of the object in
      [co_consts] (found by identity, [operator.is_], else appended;
      a nested [Code] followed by [MAKE_FUNCTION] is assembled first),
      of [LOAD_GLOBAL]/[STORE_NAME] the index in [co_names], of
      [LOAD_FAST]/[STORE_FAST] the index in [co_varnames] (which starts
      as the argument names), of [COMPARE_OP] the index in [cmp_op]
      (an [IndexError] when absent); a jump gets 0 and is remembered;
    - a second pass patches every remembered jump with the offset of its
      label ([KeyError] when the label was never placed), minus the
      offset after the jump for a relative jump, and raises
      [NotImplementedError] when the result exceeds [0xFFFF].
    Object identity is outside the model: whether two integer constants
    are the same object is a parameter [int_is] of the section (CPython
    shares the small integers, [cpython_int_is]). *)

From S2P Require Import Prelude Ast CodeGen Labels.

(** ** CPython 2.7 opcodes ([opcode.py]) *)

Definition HAVE_ARGUMENT : Z := 90.
Definition EXTENDED_ARG : Z := 145.

Definition opcode (i : instr) : Z :=
  match i with
  | UNARY_POSITIVE => 10 | UNARY_NEGATIVE => 11
  | BINARY_MULTIPLY => 20 | BINARY_DIVIDE => 21 | BINARY_MODULO => 22
  | BINARY_ADD => 23 | BINARY_SUBTRACT => 24
  | PRINT_ITEM => 71 | PRINT_NEWLINE => 72 | RETURN_VALUE => 83
  | STORE_NAME _ => 90 | LOAD_CONST _ => 100 | COMPARE_OP _ => 107
  | JUMP_FORWARD _ => 110 | JUMP_ABSOLUTE _ => 113 | POP_JUMP_IF_FALSE _ => 114
  | LOAD_GLOBAL _ => 116 | LOAD_FAST _ => 124 | STORE_FAST _ => 125
  | CALL_FUNCTION _ => 131 | MAKE_FUNCTION _ => 132
  | LABEL _ => 0
  end.

(** [opcode.hasjrel]: the jumps whose argument is relative to the next
    instruction. *)
Definition hasjrel (op : Z) : bool :=
  bool_decide (op ∈ [93; 110; 120; 121; 122; 143]%Z).

(** [opcode.cmp_op]. *)
Definition cmp_op : list string :=
  ["<"; "<="; "=="; "!="; ">"; ">="; "in"; "not in"; "is"; "is not"; "exception match"; "BAD"].

(** ** Code objects *)

Inductive pyconst : Type :=
| KStr (s : string)
| KInt (z : Z)
| KNone
| KCode (co : code_object)                       (** an assembled code object *)
| KByteplay (c : list instr) (args : list string) (name : string)
                                                 (** a byteplay [Code] left as it is *)
with code_object : Type :=
| mkCodeObject (co_code : list Z) (co_consts : list pyconst)
    (co_names co_varnames : list string) (co_name : string) (co_stacksize : nat).

Definition co_bytes (co : code_object) : list Z :=
  match co with mkCodeObject b _ _ _ _ _ => b end.

Inductive asm_error : Type :=
| AsmKeyError (l : label)             (** [label_pos[label]] of a label never placed *)
| AsmIndexError (op : string)         (** [index(cmp_op, arg, can_append=False)] *)
| AsmNotImplemented (jump : Z)        (** "Extended jumps not implemented" *)
| AsmCodeIndexError (pos : nat)       (** [code[pos]] past the end of the list *)
| AsmValueError (msg : string)        (** the [ValueError]s of [_compute_stacksize] *)
| AsmOutOfFuel.                       (** the search ran out of fuel; never happens *)

(** The locals of [to_code]: [co_code], the three tables, [label_pos]
    and the list [jumps] of [(pos, label)] to patch, in order. *)
Record asm_state : Type := mkAsm {
  co_code : list Z;
  consts : list pyconst;
  names : list string;
  varnames : list string;
  label_pos : gmap label nat;
  pending : list (nat * label)
}.

(** [co_consts = [self.docstring]] (the docstring is [''] for every
    [Code] of [codegen.py]) and [co_varnames = list(self.args)]. *)
Definition init_asm (args : list string) : asm_state :=
  mkAsm [] [KStr ""] [] args ∅ [].

(** [index(seq, item, eq)]: the first position of an equal element, or
    the item appended. *)
Fixpoint find_index {A} (eqb : A -> A -> bool) (seq : list A) (x : A) : option nat :=
  match seq with
  | [] => None
  | y :: seq => if eqb y x then Some 0 else S <$> find_index eqb seq x
  end.

Definition index {A} (eqb : A -> A -> bool) (seq : list A) (x : A) : list A * nat :=
  match find_index eqb seq x with
  | Some i => (seq, i)
  | None => (seq ++ [x], length seq)
  end.

(** The bytes of an instruction with argument [arg]. *)
Definition arg_bytes (op arg : Z) : list Z :=
  (if Z.ltb 0xFFFF arg
   then [EXTENDED_ARG; Z.land (Z.shiftr arg 16) 255; Z.land (Z.shiftr arg 24) 255] else []) ++
  [op; Z.land arg 255; Z.land (Z.shiftr arg 8) 255].

(** ** [Code._compute_stacksize]

    [to_code] first computes the largest depth the operand stack can
    reach.  A search from the first instruction follows every way the
    flow can go, carrying the stack state: a tuple with one count per
    open block, here always one count, since the generated code opens no
    block ([SETUP_LOOP], [SETUP_FINALLY] and the like are never emitted,
    so [sf_targets] is empty).  The state is recorded at each label
    reached; a label reached again with another depth is "Inconsistent
    code". *)

(** [getse(op, arg)]: the [(pop, push)] of an opcode whose flow goes on
    to the next one, from the table [_se], and [get_func_tup(arg, 1)]
    for [CALL_FUNCTION], which splits a two-byte argument into
    positional and keyword counts. *)
Definition getse (i : instr) : outcome asm_error (nat * nat) :=
  match i with
  | LOAD_CONST _ | LOAD_FAST _ | LOAD_GLOBAL _ => Ok (0, 1)
  | STORE_FAST _ | STORE_NAME _ | PRINT_ITEM => Ok (1, 0)
  | PRINT_NEWLINE => Ok (0, 0)
  | UNARY_POSITIVE | UNARY_NEGATIVE => Ok (1, 1)
  | BINARY_ADD | BINARY_MULTIPLY | BINARY_SUBTRACT | BINARY_DIVIDE | BINARY_MODULO
  | COMPARE_OP _ => Ok (2, 1)
  | CALL_FUNCTION n =>
    if Z.ltb 0xFFFF (Z.of_nat n) then Raise (AsmValueError "Can only split a two-byte argument")
    else Ok (n mod 256 + 2 * (n / 256 mod 256) + 1, 1)
  | MAKE_FUNCTION n => Ok (1 + n, 1)
  | RETURN_VALUE | POP_JUMP_IF_FALSE _ | JUMP_FORWARD _ | JUMP_ABSOLUTE _ | LABEL _ =>
    Raise (AsmValueError "Not a simple opcode")
  end.

(** [newstack(push - pop)]: the depth after the instruction, unless it
    would go below zero. *)
Definition newstack (cur pop push : nat) : outcome asm_error nat :=
  if Nat.ltb (cur + push) pop then Raise (AsmValueError "Popped a non-existing element")
  else Ok (cur + push - pop).

(** [label_pos = dict((op, pos) for pos, (op, arg) in enumerate(code) if
    isinstance(op, Label))]: the index of each label in the list, the
    last one when a label is placed twice. *)
Fixpoint label_index (k : list instr) (pos : nat) (m : gmap label nat) : gmap label nat :=
  match k with
  | [] => m
  | LABEL l :: k => label_index k (S pos) (<[l := pos]> m)
  | _ :: k => label_index k (S pos) m
  end.

Definition label_target (lp : gmap label nat) (l : label) : outcome asm_error nat :=
  match lp !! l with Some q => Ok q | None => Raise (AsmKeyError l) end.

(** [get_next_stacks(pos, curstack)]: the positions to explore next with
    their depths, in the order they are yielded, and [stacks] with the
    depth recorded at a label reached for the first time.  [code[pos]]
    past the end is an [IndexError]. *)
Definition get_next_stacks (k : list instr) (lp : gmap label nat) (pos cur : nat)
    (stacks : list (option nat)) : outcome asm_error (list (nat * nat) * list (option nat)) :=
  match k !! pos with
  | None => Raise (AsmCodeIndexError pos)
  | Some (LABEL _) =>
    match stacks !! pos with
    | Some (Some s) =>
      if Nat.eqb s cur then Ok ([], stacks) else Raise (AsmValueError "Inconsistent code")
    | _ => Ok ([(S pos, cur)], <[pos := Some cur]> stacks)
    end
  | Some RETURN_VALUE => Ok ([], stacks)
  | Some (JUMP_FORWARD l | JUMP_ABSOLUTE l) =>
    q <- label_target lp l ;; Ok ([(q, cur)], stacks)
  | Some (POP_JUMP_IF_FALSE l) =>
    q <- label_target lp l ;;
    c1 <- newstack cur 1 0 ;;
    c2 <- newstack cur 1 0 ;;
    Ok ([(q, c1); (S pos, c2)], stacks)
  | Some i =>
    '(pop, push) <- getse i ;;
    c <- newstack cur pop push ;;
    Ok ([(S pos, c)], stacks)
  end.

(** The loop [while open_positions: pos, curstack = open_positions.pop();
    maxsize = max(maxsize, sum(curstack));
    open_positions.extend(get_next_stacks(pos, curstack))].  [todo] is
    [open_positions] reversed: [pop()] takes its head, and what
    [extend] appends goes in front, last first. *)
Fixpoint stack_loop (k : list instr) (lp : gmap label nat) (fuel : nat)
    (todo : list (nat * nat)) (stacks : list (option nat)) (maxsize : nat)
    : outcome asm_error nat :=
  match fuel with
  | 0 => Raise AsmOutOfFuel
  | S fuel =>
    match todo with
    | [] => Ok maxsize
    | (pos, cur) :: todo =>
      '(next, stacks) <- get_next_stacks k lp pos cur stacks ;;
      stack_loop k lp fuel (rev next ++ todo) stacks (Nat.max maxsize cur)
    end
  end.

(** Each label is recorded once, and every other position is explored
    at most once per exploration of the one before it; the bound is
    shown enough in [StackSize]. *)
Definition stack_fuel (k : list instr) : nat := S ((2 * length k + 3) * S (length k)).

(** [_compute_stacksize()]: [stacks = [None] * len(code)] and
    [open_positions = [(0, (0,))]]. *)
Definition compute_stacksize (k : list instr) : outcome asm_error nat :=
  stack_loop k (label_index k 0 ∅) (stack_fuel k) [(0, 0)] (repeat None (length k)) 0.

Section ToCode.

(** [a is b] on two integer objects. *)
Variable int_is : Z -> Z -> bool.

Definition const_is (x y : pyconst) : bool :=
  match x, y with
  | KNone, KNone => true
  | KInt a, KInt b => int_is a b
  | _, _ => false
  end.

Definition with_code (s : asm_state) (b : list Z) : asm_state :=
  mkAsm b (consts s) (names s) (varnames s) (label_pos s) (pending s).

(** One iteration of the first loop of [to_code]; [next] is the
    instruction after [i], [cobj] makes the object a [LOAD_CONST]
    argument stands for (assembling a nested [Code] first). *)
Definition asm_instr (cobj : const -> option instr -> outcome asm_error pyconst)
    (i : instr) (next : option instr) (s : asm_state) : outcome asm_error asm_state :=
  let op := opcode i in
  let put arg s := Ok (with_code s (co_code s ++ arg_bytes op arg)) in
  match i with
  | LABEL l =>
    Ok (mkAsm (co_code s) (consts s) (names s) (varnames s)
              (<[l := length (co_code s)]> (label_pos s)) (pending s))
  | LOAD_CONST k =>
    obj <- cobj k next ;;
    let '(cs, arg) := index const_is (consts s) obj in
    put (Z.of_nat arg) (mkAsm (co_code s) cs (names s) (varnames s) (label_pos s) (pending s))
  | LOAD_GLOBAL x | STORE_NAME x =>
    let '(ns, arg) := index String.eqb (names s) x in
    put (Z.of_nat arg) (mkAsm (co_code s) (consts s) ns (varnames s) (label_pos s) (pending s))
  | LOAD_FAST x | STORE_FAST x =>
    let '(vs, arg) := index String.eqb (varnames s) x in
    put (Z.of_nat arg) (mkAsm (co_code s) (consts s) (names s) vs (label_pos s) (pending s))
  | COMPARE_OP o =>
    match find_index String.eqb cmp_op o with
    | Some arg => put (Z.of_nat arg) s
    | None => Raise (AsmIndexError o)
    end
  | POP_JUMP_IF_FALSE l | JUMP_FORWARD l | JUMP_ABSOLUTE l =>
    put 0%Z (mkAsm (co_code s) (consts s) (names s) (varnames s) (label_pos s)
                 (pending s ++ [(length (co_code s), l)]))
  | CALL_FUNCTION n | MAKE_FUNCTION n => put (Z.of_nat n) s
  | _ => Ok (with_code s (co_code s ++ [op]))
  end.

(** The first loop, over [k] followed by [after]. *)
Fixpoint asm_loop (cobj : const -> option instr -> outcome asm_error pyconst)
    (k after : list instr) (s : asm_state) : outcome asm_error asm_state :=
  match k with
  | [] => Ok s
  | i :: k' => s <- asm_instr cobj i (head (k' ++ after)) s ;; asm_loop cobj k' after s
  end.

(** [jump = label_pos[label]; if co_code[pos] in hasjrel: jump -= pos+3]. *)
Definition resolve (op : Z) (pos q : nat) : Z :=
  if hasjrel op then (Z.of_nat q - Z.of_nat (pos + 3))%Z else Z.of_nat q.

(** The second loop: [for pos, label in jumps]. *)
Fixpoint patch_jumps (todo : list (nat * label)) (lp : gmap label nat) (b : list Z)
    : outcome asm_error (list Z) :=
  match todo with
  | [] => Ok b
  | (pos, l) :: todo =>
    match lp !! l with
    | None => Raise (AsmKeyError l)
    | Some q =>
      let jump := resolve (default 0%Z (b !! pos)) pos q in
      if Z.ltb 0xFFFF jump then Raise (AsmNotImplemented jump)
      else patch_jumps todo lp (<[pos + 2 := Z.land (Z.shiftr jump 8) 255]>
                                  (<[pos + 1 := Z.land jump 255]> b))
    end
  end.

(** [Code(code, [], args, ..., name, ...).to_code()] once the objects
    of the constants are known: [co_stacksize = self._compute_stacksize()]
    first, then the two loops. *)
Definition assemble (cobj : const -> option instr -> outcome asm_error pyconst)
    (k : list instr) (args : list string) (name : string) : outcome asm_error code_object :=
  stacksize <- compute_stacksize k ;;
  s <- asm_loop cobj k [] (init_asm args) ;;
  b <- patch_jumps (pending s) (label_pos s) (co_code s) ;;
  Ok (mkCodeObject b (consts s) (names s) (varnames s) name stacksize).

(** The object of a constant: a nested [Code] followed by
    [MAKE_FUNCTION] is assembled ([arg = arg.to_code()]). *)
Fixpoint const_obj (k : const) (next : option instr) {struct k} : outcome asm_error pyconst :=
  match k, next with
  | CInt z, _ => Ok (KInt z)
  | CNone, _ => Ok KNone
  | CCode c args name, Some (MAKE_FUNCTION _) => co <- assemble const_obj c args name ;; Ok (KCode co)
  | CCode c args name, _ => Ok (KByteplay c args name)
  end.

Definition to_code : list instr -> list string -> string -> outcome asm_error code_object :=
  assemble const_obj.

End ToCode.

(** CPython shares the integer objects from -5 to 256. *)
Definition cpython_int_is (a b : Z) : bool :=
  Z.eqb a b && Z.leb (-5) a && Z.leb a 256.

(** [CodeGen.generate] in full (lines 110-121): generate the program's
    list, then [Code(self.code, [], [], ..., 'gencode', ...).to_code()];
    an exception of either step propagates.  [FunctionType] wraps the
    code object into a function and is not modelled. *)
Definition generate_code (int_is : Z -> Z -> bool) (p : program) : outcome (cg_error + asm_error) code_object :=
  match generate p with
  | Raise e => Raise (inl e)
  | Ok st =>
    match to_code int_is (code st) [] "gencode" with
    | Ok co => Ok co
    | Raise e => Raise (inr e)
    end
  end.

(** What the interpreter does with the jump at offset [p] of [b]: the
    offset it continues at ([dis.findlabels]). *)
Definition jump_dest (b : list Z) (p : nat) : option nat :=
  match b !! p, b !! (p + 1), b !! (p + 2) with
  | Some op, Some lo, Some hi =>
    let arg := Z.to_nat (lo + 256 * hi)%Z in
    if hasjrel op then Some (p + 3 + arg) else Some arg
  | _, _, _ => None
  end.

(** ** The first loop *)

Section Loop.
Context (int_is : Z -> Z -> bool).
Local Abbreviation cobj := (const_obj int_is).
Local Abbreviation asm_loop := (asm_loop int_is cobj).
Local Abbreviation asm_instr := (asm_instr int_is cobj).

(** The offset of the [n]-th instruction of [k] in the assembled
    bytes: the length of [co_code] when the first loop reaches it. *)
Definition offset_at (k : list instr) (n : nat) (args : list string) : option nat :=
  match asm_loop (take n k) (drop n k) (init_asm args) with
  | Ok s => Some (length (co_code s))
  | Raise _ => None
  end.

Lemma asm_loop_app k1 k2 a s :
  asm_loop (k1 ++ k2) a s = (s1 <- asm_loop k1 (k2 ++ a) s ;; asm_loop k2 a s1).
Proof.
  revert s. induction k1 as [|i k1 IH]; intros s; [done|]. simpl.
  rewrite <- app_assoc. destruct (asm_instr _ _ _); [apply IH|done].
Qed.

(** What one instruction does to the label table, the jumps to patch and
    the bytes. *)
Definition jump_label (i : instr) : option label :=
  match i with POP_JUMP_IF_FALSE l | JUMP_FORWARD l | JUMP_ABSOLUTE l => Some l | _ => None end.

Lemma asm_instr_effect i nx s s' :
  asm_instr i nx s = Ok s' ->
  (exists bs, co_code s' = co_code s ++ bs) /\
  label_pos s' = (match i with LABEL l => <[l := length (co_code s)]> (label_pos s) | _ => label_pos s end) /\
  pending s' = pending s ++ (match jump_label i with Some l => [(length (co_code s), l)] | None => [] end).
Proof.
  unfold asm_instr. intros H.
  destruct i; simpl; inv_bind_pairs;
    try match goal with H : match ?x with Some _ => _ | None => _ end = _ |- _ => destruct x end;
    inv_bind; subst; simpl; rewrite ?app_nil_r; try discriminate; eauto 6.
  split; [exists []|]; by rewrite ?app_nil_r.
Qed.

Lemma asm_jump_bytes i l nx s s' :
  jump_label i = Some l -> asm_instr i nx s = Ok s' ->
  co_code s' = co_code s ++ [opcode i; 0; 0]%Z.
Proof. destruct i; intros [= <-] [= <-]; reflexivity. Qed.

Lemma asm_loop_code k a s s' :
  asm_loop k a s = Ok s' -> exists bs, co_code s' = co_code s ++ bs.
Proof.
  revert s. induction k as [|i k IH]; intros s H; simpl in H; inv_bind.
  - subst. exists []. by rewrite app_nil_r.
  - destruct (IH _ H) as [bs' ->]. destruct (asm_instr_effect _ _ _ _ E) as ([bs ->] & _ & _).
    exists (bs ++ bs'). by rewrite app_assoc.
Qed.

Lemma asm_loop_label_other k a s s' l :
  asm_loop k a s = Ok s' -> l ∉ placed k -> label_pos s' !! l = label_pos s !! l.
Proof.
  revert s. induction k as [|i k IH]; intros s H Hl; simpl in H; inv_bind; [by subst|].
  destruct (asm_instr_effect _ _ _ _ E) as (_ & Hlp & _). rewrite (IH _ H).
  - rewrite Hlp. destruct i; try done. simpl in Hl. rewrite lookup_insert_ne; set_solver.
  - destruct i; simpl in Hl; set_solver.
Qed.

End Loop.

(** ** The second loop *)

(** The jumps to patch are in increasing order, three bytes apart at
    least, and lie in the bytes emitted. *)
Definition pend_ok (b : list Z) (pend : list (nat * label)) : Prop :=
  StronglySorted (fun x y => x.1 + 3 <= y.1) pend /\ Forall (fun x => x.1 + 3 <= length b) pend.

Lemma patch_length todo lp b b' :
  patch_jumps todo lp b = Ok b' -> length b' = length b.
Proof.
  revert b. induction todo as [|[p l] todo IH]; intros b H; simpl in H; [by injection H as <-|].
  repeat case_match; try discriminate. rewrite (IH _ H). by rewrite !length_insert.
Qed.

Lemma patch_frame todo lp b b' x :
  patch_jumps todo lp b = Ok b' -> Forall (fun e => x <> e.1 + 1 /\ x <> e.1 + 2) todo ->
  b' !! x = b !! x.
Proof.
  revert b. induction todo as [|[p l] todo IH]; intros b H Hx; simpl in H; [by injection H as <-|].
  inversion Hx as [|? ? [Hx1 Hx2] Hx']; subst. repeat case_match; try discriminate.
  rewrite (IH _ H Hx'). rewrite !list_lookup_insert_ne; simpl in *; auto.
Qed.

Lemma patch_at todo lp b b' p l :
  patch_jumps todo lp b = Ok b' -> pend_ok b todo -> (p, l) ∈ todo ->
  exists q, lp !! l = Some q /\
    let jump := resolve (default 0%Z (b !! p)) p q in
    (jump <= 0xFFFF)%Z /\ b' !! p = b !! p /\
    b' !! (p + 1) = Some (Z.land jump 255) /\ b' !! (p + 2) = Some (Z.land (Z.shiftr jump 8) 255).
Proof.
  revert b. induction todo as [|[p0 l0] todo IH]; intros b H [Hs Hb] Hin; [set_solver|].
  simpl in H. destruct (lp !! l0) as [q0|] eqn:Hq0; [|discriminate].
  case_match; [discriminate|]. apply Z.ltb_ge in H0.
  inversion Hs as [|? ? Hs' Hfar]; subst. inversion Hb as [|? ? Hb0 Hb']; subst. simpl in Hb0.
  rewrite Forall_forall in Hfar.
  assert (Hfr : forall x, x <= p0 + 2 -> b' !! x = <[p0 + 2 := Z.land (Z.shiftr (resolve (default 0%Z (b !! p0)) p0 q0) 8) 255]>
                  (<[p0 + 1 := Z.land (resolve (default 0%Z (b !! p0)) p0 q0) 255]> b) !! x).
  { intros x Hx. apply (patch_frame _ _ _ _ _ H). apply Forall_forall. intros [p' l'] Hin'.
    specialize (Hfar _ Hin'). simpl in *. lia. }
  apply elem_of_cons in Hin as [[= -> ->]|Hin].
  - exists q0. split; [done|]. simpl. split; [done|].
    rewrite !Hfr by lia. rewrite list_lookup_insert_ne, list_lookup_insert_ne by lia.
    split; [done|]. rewrite list_lookup_insert_ne by lia.
    rewrite !list_lookup_insert_eq by (rewrite ?length_insert; lia). done.
  - destruct (IH _ H) as (q & Hq & Hj); [|done|].
    + split; [done|]. rewrite Forall_forall in Hb' |- *. intros x Hx.
      rewrite !length_insert. by apply Hb'.
    + exists q. split; [done|]. specialize (Hfar _ Hin). simpl in Hfar.
      rewrite !list_lookup_insert_ne in Hj by lia. exact Hj.
Qed.

(** Two bytes [lo], [hi] read back the argument they were cut from. *)
Lemma land_split (j : Z) :
  (0 <= j <= 0xFFFF)%Z -> (Z.land j 255 + 256 * Z.land (Z.shiftr j 8) 255)%Z = j.
Proof.
  intros Hj. change 255%Z with (Z.ones 8). rewrite Z.shiftr_div_pow2, !Z.land_ones by lia.
  rewrite (Z.mod_small (j / 2 ^ 8)) by (split; [apply Z.div_pos|apply Z.div_lt_upper_bound]; lia).
  pose proof (Z.div_mod j (2 ^ 8)). lia.
Qed.

Lemma StronglySorted_snoc {A} (R : A -> A -> Prop) l y :
  StronglySorted R l -> Forall (fun x => R x y) l -> StronglySorted R (l ++ [y]).
Proof.
  induction 1 as [|x l Hs IH Hx]; intros Hy; simpl; [repeat constructor|].
  inversion Hy; subst. constructor; [auto|]. apply Forall_app; auto.
Qed.

(** ** Where instructions and labels land *)

Section Offsets.
Context (int_is : Z -> Z -> bool).
Local Abbreviation cobj := (const_obj int_is).
Local Abbreviation asm_loop := (asm_loop int_is cobj).
Local Abbreviation asm_instr := (asm_instr int_is cobj).

Lemma asm_instr_pend i nx s s' :
  asm_instr i nx s = Ok s' -> pend_ok (co_code s) (pending s) -> pend_ok (co_code s') (pending s').
Proof.
  intros H [Hs Hb]. destruct (asm_instr_effect _ _ _ _ _ H) as ([bs Hc] & _ & ->).
  destruct (jump_label i) as [l|] eqn:Hj.
  - rewrite (asm_jump_bytes _ _ _ _ _ _ Hj H). split.
    + apply StronglySorted_snoc; [done|]. eapply Forall_impl; [exact Hb|]. simpl. lia.
    + apply Forall_app. split; [|repeat constructor; simpl; rewrite length_app; simpl; lia].
      eapply Forall_impl; [exact Hb|]. intros x. rewrite length_app. lia.
  - rewrite app_nil_r, Hc. split; [done|]. eapply Forall_impl; [exact Hb|].
    intros x. rewrite length_app. lia.
Qed.

Lemma asm_loop_pend k a s s' :
  asm_loop k a s = Ok s' -> pend_ok (co_code s) (pending s) -> pend_ok (co_code s') (pending s').
Proof.
  revert s. induction k as [|i k IH]; intros s H Hp; simpl in H; inv_bind; [by subst|].
  eauto using asm_instr_pend.
Qed.

Lemma asm_loop_pending k a s s' :
  asm_loop k a s = Ok s' -> exists ps, pending s' = pending s ++ ps.
Proof.
  revert s. induction k as [|i k IH]; intros s H; simpl in H; inv_bind.
  - subst. exists []. by rewrite app_nil_r.
  - destruct (IH _ H) as [ps ->]. destruct (asm_instr_effect _ _ _ _ _ E) as (_ & _ & ->).
    eexists. by rewrite <- app_assoc.
Qed.

Lemma asm_loop_jump_at ka j kb a s s' l :
  asm_loop (ka ++ j :: kb) a s = Ok s' -> jump_label j = Some l ->
  exists sa, asm_loop ka (j :: kb ++ a) s = Ok sa /\
    (length (co_code sa), l) ∈ pending s' /\ co_code s' !! length (co_code sa) = Some (opcode j).
Proof.
  rewrite asm_loop_app. intros H Hj. inv_bind. cbn [app] in E. exists a0. split; [done|].
  simpl in H. inv_bind. destruct (asm_instr_effect _ _ _ _ _ E0) as (_ & _ & Hp).
  rewrite Hj in Hp. pose proof (asm_jump_bytes _ _ _ _ _ _ Hj E0) as Hc.
  destruct (asm_loop_pending _ _ _ _ H) as [ps ->]. destruct (asm_loop_code _ _ _ _ _ H) as [bs ->].
  rewrite Hp, Hc. split; [set_solver|].
  rewrite lookup_app_l, lookup_app_r, Nat.sub_diag; [done|lia|rewrite length_app; simpl; lia].
Qed.

Lemma asm_loop_label_at ka l kb a s s' :
  asm_loop (ka ++ LABEL l :: kb) a s = Ok s' -> l ∉ placed kb ->
  exists sa, asm_loop ka (LABEL l :: kb ++ a) s = Ok sa /\
    asm_loop (ka ++ [LABEL l]) (kb ++ a) s = Ok (mkAsm (co_code sa) (consts sa) (names sa) (varnames sa)
        (<[l := length (co_code sa)]> (label_pos sa)) (pending sa)) /\
    label_pos s' !! l = Some (length (co_code sa)).
Proof.
  rewrite asm_loop_app. intros H Hl. inv_bind. cbn [app] in E. exists a0. split; [done|].
  simpl in H. inv_bind. split.
  - rewrite asm_loop_app. cbn [app]. by rewrite E.
  - rewrite (asm_loop_label_other _ _ _ _ _ _ H Hl). simpl. by rewrite lookup_insert_eq.
Qed.

Lemma offset_at_prefix K n args s :
  asm_loop K [] (init_asm args) = Ok s ->
  exists sa, asm_loop (take n K) (drop n K) (init_asm args) = Ok sa /\
    offset_at int_is K n args = Some (length (co_code sa)) /\ exists bs, co_code s = co_code sa ++ bs.
Proof.
  rewrite <- (take_drop n K) at 1. rewrite asm_loop_app, app_nil_r. intros H. inv_bind.
  exists a. unfold offset_at. rewrite E. split; [done|]. split; [done|]. eauto using asm_loop_code.
Qed.

Lemma offset_at_mono K n m args s a b :
  asm_loop K [] (init_asm args) = Ok s -> n <= m ->
  offset_at int_is K n args = Some a -> offset_at int_is K m args = Some b -> a <= b.
Proof.
  intros H Hnm. unfold offset_at.
  replace (take m K) with (take n K ++ take (m - n) (drop n K))
    by (rewrite take_take_drop; f_equal; lia).
  replace (drop m K) with (drop (m - n) (drop n K)) by (rewrite drop_drop; f_equal; lia).
  rewrite asm_loop_app, take_drop. destruct (asm_loop (take n K) _ _) as [sa|] eqn:Ha; [|done].
  intros [= <-]. destruct (asm_loop _ _ sa) as [sb|] eqn:Hb; [|done]. intros [= <-].
  destruct (asm_loop_code _ _ _ _ _ Hb) as [bs ->]. rewrite length_app. lia.
Qed.

(** The bytes of a jump after both loops: its opcode, then its resolved
    argument, at most [0xFFFF]. *)
Lemma assemble_jump ka j kb args name co l :
  assemble int_is cobj (ka ++ j :: kb) args name = Ok co -> jump_label j = Some l ->
  exists sa sf q,
    asm_loop ka (j :: kb) (init_asm args) = Ok sa /\
    asm_loop (ka ++ j :: kb) [] (init_asm args) = Ok sf /\ label_pos sf !! l = Some q /\
    let p := length (co_code sa) in let jump := resolve (opcode j) p q in
    (jump <= 0xFFFF)%Z /\ co_bytes co !! p = Some (opcode j) /\
    co_bytes co !! (p + 1) = Some (Z.land jump 255) /\
    co_bytes co !! (p + 2) = Some (Z.land (Z.shiftr jump 8) 255).
Proof.
  unfold assemble. intros H Hj. inv_bind. subst. simpl.
  destruct (asm_loop_jump_at _ _ _ _ _ _ _ E0 Hj) as (sa & Ha & Hin & Hop). rewrite app_nil_r in Ha.
  assert (Hp : pend_ok (co_code a0) (pending a0))
    by (apply (asm_loop_pend _ _ _ _ E0); split; constructor).
  destruct (patch_at _ _ _ _ _ _ E1 Hp Hin) as (q & Hq & Hjmp & H0 & H1 & H2).
  rewrite Hop in Hjmp, H0, H1, H2. simpl in *. eauto 10.
Qed.

(** A jump whose bytes hold its resolved argument goes to the label's
    offset, when a relative jump goes forward. *)
Lemma jump_dest_resolved b p op q :
  b !! p = Some op -> b !! (p + 1) = Some (Z.land (resolve op p q) 255) ->
  b !! (p + 2) = Some (Z.land (Z.shiftr (resolve op p q) 8) 255) ->
  (resolve op p q <= 0xFFFF)%Z -> (hasjrel op = true -> p + 3 <= q) ->
  jump_dest b p = Some q.
Proof.
  intros H0 H1 H2 Hb Hf. unfold jump_dest. rewrite H0, H1, H2.
  unfold resolve in *. destruct (hasjrel op).
  - specialize (Hf eq_refl). rewrite land_split by lia. f_equal. lia.
  - rewrite land_split by lia. f_equal. lia.
Qed.

(** Spec, section 8: the jump at index [nj] of [K], to a label placed
    at index [nl] and nowhere after, lands at the offset of that index;
    a relative jump is taken forward. *)
Lemma jump_lands_at K nj j l nl args name co :
  to_code int_is K args name = Ok co -> K !! nj = Some j -> jump_label j = Some l ->
  K !! nl = Some (LABEL l) -> l ∉ placed (drop (S nl) K) -> (hasjrel (opcode j) = true -> nj < nl) ->
  exists pj, offset_at int_is K nj args = Some pj /\ jump_dest (co_bytes co) pj = offset_at int_is K nl args.
Proof.
  intros H Hj Hl Hnl Hafter Hfwd.
  pose proof (take_drop_middle _ _ _ Hj) as Ek. rewrite <- Ek in H.
  destruct (assemble_jump _ _ _ _ _ _ _ H Hl) as (sa & sf & q & Ha & Hf & Hq & Hb & B0 & B1 & B2).
  rewrite Ek in Hf. pose proof (take_drop_middle _ _ _ Hnl) as El.
  rewrite <- El in Hf. destruct (asm_loop_label_at _ _ _ _ _ _ Hf) as (sl & Hsl & _ & Hql).
  { exact Hafter. }
  rewrite Hql in Hq. injection Hq as <-. rewrite El in Hf.
  exists (length (co_code sa)). split.
  - unfold offset_at. rewrite <- (drop_S _ _ _ Hj) in Ha. by rewrite Ha.
  - rewrite app_nil_r, <- (drop_S _ _ _ Hnl) in Hsl.
    assert (Hol : offset_at int_is K nl args = Some (length (co_code sl))) by (unfold offset_at; by rewrite Hsl).
    rewrite Hol. apply (jump_dest_resolved _ _ (opcode j)); auto. intros Hr. specialize (Hfwd Hr).
    destruct (offset_at_prefix K (S nj) args _ Hf) as (s1 & Hs1 & Ho1 & _).
    assert (Hnext : length (co_code s1) = length (co_code sa) + 3).
    { rewrite (take_S_r _ _ _ Hj), asm_loop_app in Hs1. cbn [app] in Hs1.
      rewrite Ha in Hs1. simpl in Hs1. inv_bind. subst.
      rewrite (asm_jump_bytes _ _ _ _ _ _ Hl E), length_app. simpl. lia. }
    pose proof (offset_at_mono _ _ _ _ _ _ _ Hf Hfwd Ho1 Hol). lia.
Qed.

(** A placed label emits nothing: the instruction after it has its
    offset. *)
Lemma offset_after_label K n l args :
  K !! n = Some (LABEL l) -> offset_at int_is K (S n) args = offset_at int_is K n args.
Proof.
  intros Hn. unfold offset_at. rewrite (take_S_r _ _ _ Hn), asm_loop_app.
  cbn [app]. rewrite (drop_S _ _ _ Hn). by destruct (asm_loop (take n K) _ _).
Qed.

End Offsets.

Lemma lookup_mid {A} (K l1 l2 : list A) x : K = l1 ++ x :: l2 -> K !! length l1 = Some x.
Proof. intros ->. by apply list_lookup_middle. Qed.

Lemma drop_mid {A} (K l1 l2 : list A) x : K = l1 ++ x :: l2 -> drop (S (length l1)) K = l2.
Proof. intros ->. rewrite drop_app_ge by (simpl; lia). by replace (S (length l1) - length l1) with 1 by lia. Qed.

Ltac split_at := repeat progress (simpl; rewrite <- ?app_assoc); reflexivity.

(** ** Spec, section 8: forward-jump resolution *)

(** C13: spec, section 8, forward-jump resolution, [if], in bytes: once
    the list holding an [if] is assembled, its jump on false goes to the
    offset of the first instruction of the else-branch, and its jump
    forward to the offset of the first instruction after the construct
    (whatever follows it, if that places neither of its labels). *)
Theorem if_jumps_land (int_is : Z -> Z -> bool) (e : expression) (c1 c2 : command) (st st' : cg_state)
    (post : list instr) (args : list string) (name : string) (co : code_object) :
  gen_command (IfCommand e c1 c2) st = Ok st' ->
  labels st ∉ placed (code st ++ post) -> S (labels st) ∉ placed (code st ++ post) ->
  to_code int_is (code st' ++ post) args name = Ok co ->
  exists nf nj pf pj,
    (code st' ++ post) !! nf = Some (POP_JUMP_IF_FALSE (labels st)) /\
    (code st' ++ post) !! nj = Some (JUMP_FORWARD (S (labels st))) /\
    (code st' ++ post) !! S nj = Some (LABEL (labels st)) /\
    length (code st) <= nf < nj /\ S (S nj) < length (code st') /\
    offset_at int_is (code st' ++ post) nf args = Some pf /\
    jump_dest (co_bytes co) pf = offset_at int_is (code st' ++ post) (S (S nj)) args /\
    offset_at int_is (code st' ++ post) nj args = Some pj /\
    jump_dest (co_bytes co) pj = offset_at int_is (code st' ++ post) (length (code st')) args.
Proof.
  intros H HL HSL Hco. destruct (if_code_shape _ _ _ _ _ H) as (ke & k1 & k2 & Hc & _ & Hk1 & Hk2).
  set (L := labels st) in *. rewrite placed_app, elem_of_app in HL, HSL.
  set (A1 := code st ++ ke). set (A2 := A1 ++ POP_JUMP_IF_FALSE L :: k1).
  set (A3 := A2 ++ [JUMP_FORWARD (S L)]). set (A4 := A3 ++ LABEL L :: k2).
  assert (E1 : code st' ++ post = A1 ++ POP_JUMP_IF_FALSE L :: (k1 ++ JUMP_FORWARD (S L) :: LABEL L :: k2 ++ LABEL (S L) :: post))
    by (rewrite Hc; unfold A1; split_at).
  assert (E2 : code st' ++ post = A2 ++ JUMP_FORWARD (S L) :: (LABEL L :: k2 ++ LABEL (S L) :: post))
    by (rewrite E1; unfold A2; split_at).
  assert (E3 : code st' ++ post = A3 ++ LABEL L :: (k2 ++ LABEL (S L) :: post)) by (rewrite E2; unfold A3; split_at).
  assert (E4 : code st' ++ post = A4 ++ LABEL (S L) :: post) by (rewrite E3; unfold A4; split_at).
  assert (Hlen : length (code st') = S (length A4)).
  { apply (f_equal length) in E4. rewrite !length_app in E4. simpl in E4. lia. }
  assert (Hl1 : length A2 = S (length A1) + length k1) by (unfold A2; rewrite length_app; simpl; lia).
  assert (Hl3 : length A3 = S (length A2)) by (unfold A3; rewrite length_app; simpl; lia).
  assert (Hl4 : length A4 = S (length A3) + length k2) by (unfold A4; rewrite length_app; simpl; lia).
  destruct (jump_lands_at _ _ (length A1) _ L (length A3) _ _ _ Hco (lookup_mid _ _ _ _ E1) eq_refl
              (lookup_mid _ _ _ _ E3)) as (pf & Hpf & Df).
  { rewrite (drop_mid _ _ _ _ E3), placed_app. simpl. rewrite elem_of_app, elem_of_cons.
    rewrite placed_app, elem_of_app in Hk1. intros [?|[?|?]]; [tauto|lia|tauto]. }
  { discriminate. }
  destruct (jump_lands_at _ _ (length A2) _ (S L) (length A4) _ _ _ Hco (lookup_mid _ _ _ _ E2) eq_refl
              (lookup_mid _ _ _ _ E4)) as (pj & Hpj & Dj).
  { rewrite (drop_mid _ _ _ _ E4). tauto. }
  { lia. }
  exists (length A1), (length A2), pf, pj.
  split; [exact (lookup_mid _ _ _ _ E1)|]. split; [exact (lookup_mid _ _ _ _ E2)|].
  split; [rewrite <- Hl3; exact (lookup_mid _ _ _ _ E3)|]. split; [assert (length A1 = length (code st) + length ke) by (unfold A1; apply length_app); lia|].
  split; [lia|]. split; [done|]. split.
  - rewrite Df, <- Hl3. symmetry. apply (offset_after_label _ _ _ L). exact (lookup_mid _ _ _ _ E3).
  - split; [done|]. rewrite Dj, Hlen. symmetry. apply (offset_after_label _ _ _ (S L)).
    exact (lookup_mid _ _ _ _ E4).
Qed.

(** C14: spec, section 8, jump resolution, [while], in bytes: once the
    list holding a [while] is assembled, its jump on false goes to the
    offset of the first instruction after the loop, and its jump back to
    the offset of the loop's first instruction, the test. *)
Theorem while_jumps_land (int_is : Z -> Z -> bool) (e : expression) (c : command) (st st' : cg_state)
    (post : list instr) (args : list string) (name : string) (co : code_object) :
  gen_command (WhileCommand e c) st = Ok st' ->
  labels st ∉ placed (code st ++ post) -> S (labels st) ∉ placed (code st ++ post) ->
  to_code int_is (code st' ++ post) args name = Ok co ->
  exists nf nb pf pb,
    (code st' ++ post) !! length (code st) = Some (LABEL (labels st)) /\
    (code st' ++ post) !! nf = Some (POP_JUMP_IF_FALSE (S (labels st))) /\
    (code st' ++ post) !! nb = Some (JUMP_ABSOLUTE (labels st)) /\
    length (code st) < nf /\ nf < nb /\ nb < length (code st') /\
    offset_at int_is (code st' ++ post) nf args = Some pf /\
    jump_dest (co_bytes co) pf = offset_at int_is (code st' ++ post) (length (code st')) args /\
    offset_at int_is (code st' ++ post) nb args = Some pb /\
    jump_dest (co_bytes co) pb = offset_at int_is (code st' ++ post) (S (length (code st))) args.
Proof.
  intros H HL HSL Hco. destruct (while_code_shape _ _ _ _ H) as (ke & kb & Hc & Hke & Hkb & HSkb).
  set (L := labels st) in *. rewrite placed_app, elem_of_app in HL, HSL.
  set (A1 := code st ++ LABEL L :: ke). set (A2 := A1 ++ POP_JUMP_IF_FALSE (S L) :: kb).
  assert (E0 : code st' ++ post = code st ++ LABEL L :: (ke ++ POP_JUMP_IF_FALSE (S L) :: kb ++
                 JUMP_ABSOLUTE L :: LABEL (S L) :: post)) by (rewrite Hc; split_at).
  assert (E1 : code st' ++ post = A1 ++ POP_JUMP_IF_FALSE (S L) :: (kb ++ JUMP_ABSOLUTE L :: LABEL (S L) :: post))
    by (rewrite E0; unfold A1; split_at).
  assert (E2 : code st' ++ post = A2 ++ JUMP_ABSOLUTE L :: (LABEL (S L) :: post)) by (rewrite E1; unfold A2; split_at).
  assert (E3 : code st' ++ post = (A2 ++ [JUMP_ABSOLUTE L]) ++ LABEL (S L) :: post) by (rewrite E2; split_at).
  assert (Hlen : length (code st') = S (S (length A2))).
  { apply (f_equal length) in E2. rewrite !length_app in E2. simpl in E2. lia. }
  assert (Hl1 : length A1 = S (length (code st)) + length ke) by (unfold A1; rewrite length_app; simpl; lia).
  assert (Hl2 : length A2 = S (length A1) + length kb) by (unfold A2; rewrite length_app; simpl; lia).
  assert (Hl3 : length (A2 ++ [JUMP_ABSOLUTE L]) = S (length A2)) by (rewrite length_app; simpl; lia).
  destruct (jump_lands_at _ _ (length A1) _ (S L) (S (length A2)) _ _ _ Hco (lookup_mid _ _ _ _ E1) eq_refl)
    as (pf & Hpf & Df).
  { rewrite <- Hl3. exact (lookup_mid _ _ _ _ E3). }
  { rewrite <- Hl3, (drop_mid _ _ _ _ E3). tauto. }
  { discriminate. }
  destruct (jump_lands_at _ _ (length A2) _ L (length (code st)) _ _ _ Hco (lookup_mid _ _ _ _ E2) eq_refl
              (lookup_mid _ _ _ _ E0)) as (pb & Hpb & Db).
  { rewrite (drop_mid _ _ _ _ E0). simpl. rewrite placed_app, elem_of_app, (proj1 (plain_placed _ Hke)).
    simpl. rewrite placed_app, elem_of_app. simpl. rewrite !elem_of_cons. intros [?|[?|[?|?]]]; [set_solver|tauto|lia|tauto]. }
  { discriminate. }
  exists (length A1), (length A2), pf, pb.
  split; [exact (lookup_mid _ _ _ _ E0)|]. split; [exact (lookup_mid _ _ _ _ E1)|].
  split; [exact (lookup_mid _ _ _ _ E2)|]. split; [lia|]. split; [lia|]. split; [lia|]. split; [done|]. split.
  - rewrite Df, Hlen, <- Hl3. symmetry. apply (offset_after_label _ _ _ (S L)). exact (lookup_mid _ _ _ _ E3).
  - split; [done|]. rewrite Db. symmetry. apply (offset_after_label _ _ _ L). exact (lookup_mid _ _ _ _ E0).
Qed.

(** ** Bounds: [co_code] is an array of bytes *)

Lemma land_byte (x : Z) : (0 <= Z.land x 255 < 256)%Z.
Proof. change 255%Z with (Z.ones 8). rewrite Z.land_ones by lia. apply Z.mod_pos_bound. lia. Qed.

Lemma opcode_byte i : (0 <= opcode i < 256)%Z.
Proof. destruct i; simpl; lia. Qed.

Definition is_byte (b : Z) : Prop := (0 <= b < 256)%Z.

Lemma arg_bytes_byte i arg : Forall is_byte (arg_bytes (opcode i) arg).
Proof.
  unfold arg_bytes, is_byte. pose proof (opcode_byte i). apply Forall_app.
  split; [case_match|]; repeat constructor; try apply land_byte; unfold EXTENDED_ARG; lia.
Qed.

Section Bytes.
Context (int_is : Z -> Z -> bool).

Lemma asm_loop_bytes k a s s' :
  asm_loop int_is (const_obj int_is) k a s = Ok s' -> Forall is_byte (co_code s) -> Forall is_byte (co_code s').
Proof.
  revert s. induction k as [|i k IH]; intros s H Hb; simpl in H; inv_bind; [by subst|].
  apply (IH _ H). unfold asm_instr in E. pose proof (arg_bytes_byte i) as Ha.
  destruct i; simpl in E; inv_bind_pairs;
    try match goal with H : match ?x with Some _ => _ | None => _ end = _ |- _ => destruct x end;
    inv_bind; subst; simpl; try discriminate; try done; apply Forall_app; split; try done;
    repeat constructor; unfold is_byte; simpl; lia.
Qed.

Lemma patch_bytes todo lp b b' :
  patch_jumps todo lp b = Ok b' -> Forall is_byte b -> Forall is_byte b'.
Proof.
  revert b. induction todo as [|[p l] todo IH]; intros b H Hb; simpl in H; [by injection H as <-|].
  repeat case_match; try discriminate. apply (IH _ H).
  apply Forall_insert; [apply Forall_insert; [done|]|]; apply land_byte.
Qed.

End Bytes.

(** Every value [to_code] stores in [co_code] is a byte. *)
Theorem to_code_bytes (int_is : Z -> Z -> bool) (k : list instr) (args : list string) (name : string)
    (co : code_object) :
  to_code int_is k args name = Ok co -> Forall is_byte (co_bytes co).
Proof.
  unfold to_code, assemble. intros H. inv_bind. subst. simpl.
  apply (patch_bytes _ _ _ _ E1), (asm_loop_bytes _ _ _ _ _ E0). constructor.
Qed.

Lemma if_jumps_land_witness :
  exists st' co,
    gen_command (IfCommand (IntegerExpression 1) (ReturnCommand (IntegerExpression 1))
                   (ReturnCommand (IntegerExpression 2))) init_state = Ok st' /\
    (labels init_state ∉ placed (code init_state ++ [LOAD_CONST (CInt 0); RETURN_VALUE])) /\
    (S (labels init_state) ∉ placed (code init_state ++ [LOAD_CONST (CInt 0); RETURN_VALUE])) /\
    to_code cpython_int_is (code st' ++ [LOAD_CONST (CInt 0); RETURN_VALUE]) [] "gencode" = Ok co /\
    exists nf nj pf pj,
      (code st' ++ [LOAD_CONST (CInt 0); RETURN_VALUE]) !! nf = Some (POP_JUMP_IF_FALSE (labels init_state)) /\
      (code st' ++ [LOAD_CONST (CInt 0); RETURN_VALUE]) !! nj = Some (JUMP_FORWARD (S (labels init_state))) /\
      (code st' ++ [LOAD_CONST (CInt 0); RETURN_VALUE]) !! S nj = Some (LABEL (labels init_state)) /\
      length (code init_state) <= nf < nj /\ S (S nj) < length (code st') /\
      offset_at cpython_int_is (code st' ++ [LOAD_CONST (CInt 0); RETURN_VALUE]) nf [] = Some pf /\
      jump_dest (co_bytes co) pf = offset_at cpython_int_is (code st' ++ [LOAD_CONST (CInt 0); RETURN_VALUE]) (S (S nj)) [] /\
      offset_at cpython_int_is (code st' ++ [LOAD_CONST (CInt 0); RETURN_VALUE]) nj [] = Some pj /\
      jump_dest (co_bytes co) pj = offset_at cpython_int_is (code st' ++ [LOAD_CONST (CInt 0); RETURN_VALUE]) (length (code st')) [].
Proof.
  destruct (gen_command (IfCommand (IntegerExpression 1) (ReturnCommand (IntegerExpression 1))
              (ReturnCommand (IntegerExpression 2))) init_state) as [st'|e] eqn:H;
    [|vm_compute in H; discriminate].
  exists st'. pose proof H as H'. vm_compute in H'. injection H' as Hst. subst st'.
  assert (H1 : labels init_state ∉ placed (code init_state ++ [LOAD_CONST (CInt 0); RETURN_VALUE]))
    by (vm_compute; set_solver).
  assert (H2 : S (labels init_state) ∉ placed (code init_state ++ [LOAD_CONST (CInt 0); RETURN_VALUE]))
    by (vm_compute; set_solver).
  match goal with |- exists co, _ /\ _ /\ _ /\ to_code ?i ?k ?a ?n = Ok co /\ _ =>
    destruct (to_code i k a n) as [co|e] eqn:Hco; [|vm_compute in Hco; discriminate] end.
  exists co. split; [exact H|]. split; [exact H1|]. split; [exact H2|]. split; [reflexivity|].
  exact (if_jumps_land _ _ _ _ _ _ _ _ _ _ H H1 H2 Hco).
Defined.

Lemma while_jumps_land_witness :
  exists st' co,
    gen_command (WhileCommand (IntegerExpression 1) (CallCommand "putint" [IntegerExpression 7])) init_state = Ok st' /\
    (labels init_state ∉ placed (code init_state ++ [LOAD_CONST (CInt 0); RETURN_VALUE])) /\
    (S (labels init_state) ∉ placed (code init_state ++ [LOAD_CONST (CInt 0); RETURN_VALUE])) /\
    to_code cpython_int_is (code st' ++ [LOAD_CONST (CInt 0); RETURN_VALUE]) [] "gencode" = Ok co /\
    exists nf nb pf pb,
      (code st' ++ [LOAD_CONST (CInt 0); RETURN_VALUE]) !! length (code init_state) = Some (LABEL (labels init_state)) /\
      (code st' ++ [LOAD_CONST (CInt 0); RETURN_VALUE]) !! nf = Some (POP_JUMP_IF_FALSE (S (labels init_state))) /\
      (code st' ++ [LOAD_CONST (CInt 0); RETURN_VALUE]) !! nb = Some (JUMP_ABSOLUTE (labels init_state)) /\
      length (code init_state) < nf /\ nf < nb /\ nb < length (code st') /\
      offset_at cpython_int_is (code st' ++ [LOAD_CONST (CInt 0); RETURN_VALUE]) nf [] = Some pf /\
      jump_dest (co_bytes co) pf = offset_at cpython_int_is (code st' ++ [LOAD_CONST (CInt 0); RETURN_VALUE]) (length (code st')) [] /\
      offset_at cpython_int_is (code st' ++ [LOAD_CONST (CInt 0); RETURN_VALUE]) nb [] = Some pb /\
      jump_dest (co_bytes co) pb = offset_at cpython_int_is (code st' ++ [LOAD_CONST (CInt 0); RETURN_VALUE]) (S (length (code init_state))) [].
Proof.
  destruct (gen_command (WhileCommand (IntegerExpression 1) (CallCommand "putint" [IntegerExpression 7])) init_state)
    as [st'|e] eqn:H; [|vm_compute in H; discriminate].
  exists st'. pose proof H as H'. vm_compute in H'. injection H' as Hst. subst st'.
  assert (H1 : labels init_state ∉ placed (code init_state ++ [LOAD_CONST (CInt 0); RETURN_VALUE]))
    by (vm_compute; set_solver).
  assert (H2 : S (labels init_state) ∉ placed (code init_state ++ [LOAD_CONST (CInt 0); RETURN_VALUE]))
    by (vm_compute; set_solver).
  match goal with |- exists co, _ /\ _ /\ _ /\ to_code ?i ?k ?a ?n = Ok co /\ _ =>
    destruct (to_code i k a n) as [co|e] eqn:Hco; [|vm_compute in Hco; discriminate] end.
  exists co. split; [exact H|]. split; [exact H1|]. split; [exact H2|]. split; [reflexivity|].
  exact (while_jumps_land _ _ _ _ _ _ _ _ _ H H1 H2 Hco).
Defined.

