(* ===== verification/StackSize.v ===== *)
(** * StackSize: byteplay's stack-depth search

    [Assembly.compute_stacksize] models [Code._compute_stacksize], the
    first step of [to_code]: a search over the instruction list that
    carries the depth of the operand stack and raises when code runs off
    the end of the list ([IndexError]), when an instruction would take a
    value that is not there, or when a label is reached with two depths
    ([ValueError]).  This file shows:
    - the fuel [stack_fuel] is enough: the search ends.  Each turn
      removes a position from the work list and adds its successors; the
      measure [measure] (a weight per pending position, [wt], plus a
      large weight per label not yet recorded) decreases at every turn;
    - the search accepts every list with a [stack_typing]: a depth for
      each position it can reach, such that each instruction finds its
      operands and takes the depth of the position after it, and of the
      label it jumps to, to the depth recorded there;
    - such a typing exists when one pass over the list ([pass_run]),
      which follows the fall-through depth and records the depth of each
      label at its first jump or placement, ends without contradiction
      on a list whose labels are placed once and whose jumps are closed
      ([compute_stacksize_pass]); [StackFlow] runs that pass over the
      generated code. *)

From S2P Require Import Prelude Ast CodeGen Labels Assembly.

(** ** The measure *)

(** The weight of a pending position: two per instruction up to the next
    label, and one for that label (or for the end of the list). *)
Fixpoint wt (k : list instr) : nat :=
  match k with
  | [] => 1
  | LABEL _ :: _ => 1
  | _ :: k => S (S (wt k))
  end.

(** The labels of [k] whose depth is not recorded yet. *)
Fixpoint unrec (k : list instr) (st : list (option nat)) : nat :=
  match k, st with
  | LABEL _ :: k, None :: st => S (unrec k st)
  | _ :: k, _ :: st => unrec k st
  | _, _ => 0
  end.

Lemma wt_bound k : wt k <= 2 * length k + 1.
Proof. induction k as [|i k IH]; [simpl; lia|]. destruct i; simpl; lia. Qed.

Lemma unrec_bound k st : unrec k st <= length k.
Proof.
  revert st. induction k as [|i k IH]; intros [|o st]; simpl; [lia|lia|destruct i; lia|].
  specialize (IH st). destruct i, o; simpl; lia.
Qed.

Lemma unrec_record k st q l c :
  k !! q = Some (LABEL l) -> st !! q = Some None -> S (unrec k (<[q := Some c]> st)) = unrec k st.
Proof.
  revert st q. induction k as [|i k IH]; intros [|o st] [|q] Hk Hs; simpl in *; try done.
  - by injection Hk as ->; injection Hs as ->.
  - rewrite <- (IH _ _ Hk Hs). destruct i, o; done.
Qed.

(** [label_pos] maps a label to a position where it stands. *)
Lemma label_index_spec k : forall n m l q,
  label_index k n m !! l = Some q -> m !! l = Some q \/ exists i, q = n + i /\ k !! i = Some (LABEL l).
Proof.
  induction k as [|i k IH]; intros n m l q H; [by left|].
  destruct i; simpl in H; try (destruct (IH _ _ _ _ H) as [?|(j & -> & Hj)];
    [by left|right; exists (S j); split; [lia|done]]).
  destruct (IH _ _ _ _ H) as [Hm|(j & -> & Hj)]; [|right; exists (S j); split; [lia|done]].
  destruct (decide (l0 = l)) as [->|Hne].
  - rewrite lookup_insert_eq in Hm. injection Hm as <-. right. exists 0. split; [lia|done].
  - rewrite lookup_insert_ne in Hm by done. by left.
Qed.

Lemma label_index_at k l q : label_index k 0 ∅ !! l = Some q -> k !! q = Some (LABEL l).
Proof. intros H. destruct (label_index_spec _ _ _ _ _ H) as [Hm|(j & -> & Hj)]; [done|exact Hj]. Qed.

(** ** The search ends *)

Section Search.
Context (k : list instr).
Local Notation lp := (label_index k 0 ∅).

Definition todo_wt (todo : list (nat * nat)) : nat := sum_list_with (fun x => wt (drop x.1 k)) todo.

Definition measure (todo : list (nat * nat)) (stacks : list (option nat)) : nat :=
  todo_wt todo + (2 * length k + 3) * unrec k stacks.

Lemma todo_wt_app t1 t2 : todo_wt (t1 ++ t2) = todo_wt t1 + todo_wt t2.
Proof. apply sum_list_with_app. Qed.

Lemma todo_wt_rev t : todo_wt (rev t) = todo_wt t.
Proof.
  induction t as [|x t IH]; [done|]. simpl. rewrite todo_wt_app, IH. simpl. lia.
Qed.

Lemma wt_label q l : k !! q = Some (LABEL l) -> wt (drop q k) = 1.
Proof. intros H. by rewrite (drop_S _ _ _ H). Qed.

Lemma label_target_ok l q : label_target lp l = Ok q -> wt (drop q k) = 1.
Proof.
  unfold label_target. destruct (lp !! l) eqn:E; [|discriminate]. intros [= <-].
  exact (wt_label _ _ (label_index_at _ _ _ E)).
Qed.

(** One turn: [stacks] keeps its length and the measure decreases. *)
Lemma next_measure p c stacks next stacks' :
  length stacks = length k -> get_next_stacks k lp p c stacks = Ok (next, stacks') ->
  length stacks' = length k /\ measure next stacks' < wt (drop p k) + (2 * length k + 3) * unrec k stacks.
Proof.
  unfold get_next_stacks, measure. intros Hlen H.
  destruct (k !! p) as [i|] eqn:Hp; [|discriminate]. rewrite (drop_S _ _ _ Hp).
  pose proof (wt_bound (drop (S p) k)) as Hw. rewrite length_drop in Hw.
  destruct i; inv_bind_pairs; subst; unfold todo_wt; simpl;
    repeat match goal with E : label_target _ _ = Ok _ |- _ => apply label_target_ok in E end;
    try (split; [done|lia]).
  destruct (stacks !! p) as [[s|]|] eqn:Hs.
  - destruct (Nat.eqb s c); simplify_eq/=. split; [done|lia].
  - simplify_eq/=. rewrite length_insert. split; [done|].
    rewrite <- (unrec_record _ _ _ _ c Hp Hs). lia.
  - apply lookup_ge_None in Hs. apply lookup_lt_Some in Hp. lia.
Qed.

Lemma get_next_stacks_fuel p c stacks : get_next_stacks k lp p c stacks <> Raise AsmOutOfFuel.
Proof.
  unfold get_next_stacks, label_target, newstack, getse. intros H.
  destruct (k !! p) as [[]|]; repeat (case_match; simpl in H; try discriminate H); congruence.
Qed.

Lemma stack_loop_fuel fuel : forall todo stacks maxsize,
  length stacks = length k -> measure todo stacks < fuel ->
  stack_loop k lp fuel todo stacks maxsize <> Raise AsmOutOfFuel.
Proof.
  induction fuel as [|fuel IH]; intros todo stacks maxsize Hlen Hm; [lia|].
  destruct todo as [|[p c] todo]; simpl; [discriminate|].
  destruct (get_next_stacks k lp p c stacks) as [[next stacks']|e] eqn:E; simpl.
  - destruct (next_measure _ _ _ _ _ Hlen E) as [Hlen' Hlt]. apply IH; [done|].
    unfold measure in *. rewrite todo_wt_app, todo_wt_rev. unfold todo_wt in Hm. simpl in Hm.
    fold (todo_wt todo) in Hm. lia.
  - intros [= ->]. by apply (get_next_stacks_fuel p c stacks).
Qed.

End Search.

(** [_compute_stacksize] never runs out of fuel. *)
Lemma compute_stacksize_fuel k : compute_stacksize k <> Raise AsmOutOfFuel.
Proof.
  unfold compute_stacksize, stack_fuel. apply stack_loop_fuel; [by rewrite repeat_length|].
  unfold measure, todo_wt. simpl. rewrite drop_0.
  pose proof (wt_bound k). pose proof (unrec_bound k (repeat None (length k))). nia.
Qed.

(** ** Code with a stack typing passes *)

Lemma newstack_ok cur pop push : pop <= cur + push -> newstack cur pop push = Ok (cur + push - pop).
Proof. unfold newstack. intros H. destruct (Nat.ltb_spec (cur + push) pop); [lia|done]. Qed.

Lemma elem_of_rev {A} (x : A) l : x ∈ rev l <-> x ∈ l.
Proof. rewrite !list_elem_of_In. symmetry. apply in_rev. Qed.

Lemma repeat_none_lookup n q s : repeat (@None nat) n !! q <> Some (Some s).
Proof. revert q. induction n as [|n IH]; intros [|q]; simpl; [done|done|done|apply IH]. Qed.

Section Typing.
Context (k : list instr) (D : nat -> option nat).
Local Notation lp := (label_index k 0 ∅).

(** What the instruction at [p], reached with depth [d], asks of [D]:
    it exists, finds its operands, and the depths of the places the
    flow goes on to are those [D] gives them. *)
Definition step_ok (p d : nat) : Prop :=
  match k !! p with
  | None => False
  | Some (LABEL _) => D (S p) = Some d
  | Some RETURN_VALUE => True
  | Some (JUMP_FORWARD l | JUMP_ABSOLUTE l) => exists q, lp !! l = Some q /\ D q = Some d
  | Some (POP_JUMP_IF_FALSE l) =>
    1 <= d /\ exists q, lp !! l = Some q /\ D q = Some (d - 1) /\ D (S p) = Some (d - 1)
  | Some i =>
    exists pop push, getse i = Ok (pop, push) /\ pop <= d + push /\ D (S p) = Some (d + push - pop)
  end.

(** A depth for the first instruction and for every place the flow can
    go on to from a place with a depth. *)
Definition stack_typing : Prop := D 0 = Some 0 /\ forall p d, D p = Some d -> step_ok p d.

Definition stacks_agree (stacks : list (option nat)) : Prop :=
  forall q s, stacks !! q = Some (Some s) -> D q = Some s.

Hypothesis HD : forall p d, D p = Some d -> step_ok p d.

Lemma get_next_stacks_plain p c stacks i :
  k !! p = Some i -> no_flow i = true -> i <> RETURN_VALUE ->
  get_next_stacks k lp p c stacks =
    ('(pop, push) <- getse i ;; c' <- newstack c pop push ;; Ok ([(S p, c')], stacks)).
Proof. unfold get_next_stacks. intros -> Hf Hr. by destruct i. Qed.

Lemma label_target_lp l q : lp !! l = Some q -> label_target lp l = Ok q.
Proof. unfold label_target. by intros ->. Qed.

Lemma next_plain p c stacks i :
  k !! p = Some i -> no_flow i = true -> i <> RETURN_VALUE -> stacks_agree stacks ->
  (exists pop push, getse i = Ok (pop, push) /\ pop <= c + push /\ D (S p) = Some (c + push - pop)) ->
  exists next stacks', get_next_stacks k lp p c stacks = Ok (next, stacks') /\
    (forall x, x ∈ next -> D x.1 = Some x.2) /\ stacks_agree stacks'.
Proof.
  intros Hk Hf Hr Hs (pop & push & Hg & Hle & HS). rewrite (get_next_stacks_plain _ _ _ _ Hk Hf Hr).
  rewrite Hg. simpl. rewrite newstack_ok by done. do 2 eexists. split; [reflexivity|].
  split; [by intros x ->%list_elem_of_singleton|done].
Qed.

(** A position with a depth yields positions with their depths. *)
Lemma next_typed p c stacks :
  D p = Some c -> stacks_agree stacks ->
  exists next stacks', get_next_stacks k lp p c stacks = Ok (next, stacks') /\
    (forall x, x ∈ next -> D x.1 = Some x.2) /\ stacks_agree stacks'.
Proof.
  intros Hp Hs. pose proof (HD _ _ Hp) as Hstep. unfold step_ok in Hstep.
  destruct (k !! p) as [i|] eqn:Hk; [|done].
  destruct i; try (apply (next_plain _ _ _ _ Hk); [done|discriminate|done|exact Hstep]);
    unfold get_next_stacks; rewrite Hk.
    + exists [], stacks. split; [done|]. split; [set_solver|done].
    + destruct Hstep as (H1 & q & Hq & HDq & HDS). rewrite (label_target_lp _ _ Hq). simpl.
      rewrite newstack_ok by lia. simpl. replace (c + 0 - 1) with (c - 1) by lia.
      do 2 eexists. split; [reflexivity|]. split; [|done].
      intros x [->| ->%list_elem_of_singleton]%elem_of_cons; done.
    + destruct Hstep as (q & Hq & HDq). rewrite (label_target_lp _ _ Hq). simpl.
      do 2 eexists. split; [reflexivity|]. split; [by intros x ->%list_elem_of_singleton|done].
    + destruct Hstep as (q & Hq & HDq). rewrite (label_target_lp _ _ Hq). simpl.
      do 2 eexists. split; [reflexivity|]. split; [by intros x ->%list_elem_of_singleton|done].
    + destruct (stacks !! p) as [[s|]|] eqn:Hsp.
      * rewrite (Hs _ _ Hsp) in Hp. injection Hp as ->. rewrite Nat.eqb_refl.
        exists [], stacks. split; [done|]. split; [set_solver|done].
      * do 2 eexists. split; [reflexivity|]. split; [by intros x ->%list_elem_of_singleton|].
        intros q s. destruct (decide (q = p)) as [->|Hne].
        -- rewrite list_lookup_insert_eq by (by apply lookup_lt_Some in Hk; apply lookup_lt_Some in Hsp).
           by intros [= <-].
        -- rewrite list_lookup_insert_ne by done. apply Hs.
      * do 2 eexists. split; [reflexivity|]. split; [by intros x ->%list_elem_of_singleton|].
        rewrite list_insert_ge by (by apply lookup_ge_None). exact Hs.
Qed.

Lemma stack_loop_typed fuel : forall todo stacks maxsize,
  (forall x, x ∈ todo -> D x.1 = Some x.2) -> stacks_agree stacks ->
  stack_loop k lp fuel todo stacks maxsize = Raise AsmOutOfFuel \/
  exists m, stack_loop k lp fuel todo stacks maxsize = Ok m.
Proof.
  induction fuel as [|fuel IH]; intros todo stacks maxsize Ht Hs; [by left|].
  destruct todo as [|[p c] todo]; simpl; [by right; eexists|].
  destruct (next_typed p c stacks) as (next & stacks' & -> & Hn & Hs');
    [apply (Ht (p, c)); set_solver|done|].
  simpl. apply IH; [|done]. intros x [Hx|Hx]%elem_of_app; [rewrite elem_of_rev in Hx; by apply Hn|].
  apply Ht. set_solver.
Qed.

End Typing.

(** The search accepts every list with a stack typing. *)
Lemma compute_stacksize_typed k D : stack_typing k D -> exists m, compute_stacksize k = Ok m.
Proof.
  intros [H0 HD]. pose proof (compute_stacksize_fuel k) as Hf. unfold compute_stacksize in *.
  destruct (stack_loop_typed k D HD (stack_fuel k) [(0, 0)] (repeat None (length k)) 0)
    as [Hr|Hr]; [|intros q s Hq; by apply repeat_none_lookup in Hq|done|done].
  by intros x ->%list_elem_of_singleton.
Qed.

(** ** A typing from one pass over the list

    [pass_run] walks the list once, in order, with the depth of the
    current place ([None] after a return or a jump, until a label
    reached by an earlier jump) and the depth known at each label
    ([None] for a label placed where no flow arrives).  When every label
    is placed once and the pass ends with no flow left, the depths it
    meets are a stack typing. *)

Record pass_state := mkPass { cur : option nat; env : gmap label (option nat) }.

Definition pass_init : pass_state := mkPass (Some 0) ∅.

(** The depth at a label: the flow arriving from above, or else what the
    jumps to it recorded. *)
Definition label_depth (s : pass_state) (l : label) : option nat :=
  match cur s with
  | Some d => Some d
  | None => match env s !! l with Some (Some d) => Some d | _ => None end
  end.

(** A jump with depth [d] to [l]: the first one records [d], the others
    must agree; a jump back to a label no flow reached fails. *)
Definition jump_to (s : pass_state) (l : label) (d : nat) : option (gmap label (option nat)) :=
  match env s !! l with
  | Some (Some d') => if Nat.eqb d d' then Some (env s) else None
  | Some None => None
  | None => Some (<[l := Some d]> (env s))
  end.

Definition pass_step (i : instr) (s : pass_state) : option pass_state :=
  match i with
  | LABEL l =>
    match cur s, env s !! l with
    | Some d, Some (Some d') => if Nat.eqb d d' then Some s else None
    | _, _ => Some (mkPass (label_depth s l) (<[l := label_depth s l]> (env s)))
    end
  | _ =>
    match cur s with
    | None => Some s
    | Some d =>
      match i with
      | RETURN_VALUE => Some (mkPass None (env s))
      | JUMP_FORWARD l | JUMP_ABSOLUTE l => e ← jump_to s l d; Some (mkPass None e)
      | POP_JUMP_IF_FALSE l =>
        if Nat.ltb d 1 then None else e ← jump_to s l (d - 1); Some (mkPass (Some (d - 1)) e)
      | _ =>
        match getse i with
        | Ok (pop, push) =>
          if Nat.ltb (d + push) pop then None else Some (mkPass (Some (d + push - pop)) (env s))
        | Raise _ => None
        end
      end
    end
  end.

Fixpoint pass_run (k : list instr) (s : pass_state) : option pass_state :=
  match k with
  | [] => Some s
  | i :: k => s' ← pass_step i s; pass_run k s'
  end.

(** The depth the pass gives position [p] of [k]. *)
Definition pass_depth (k : list instr) (p : nat) : option nat :=
  match pass_run (take p k) pass_init with
  | Some s => match k !! p with Some (LABEL l) => label_depth s l | _ => cur s end
  | None => None
  end.

Lemma pass_run_app k1 k2 s :
  pass_run (k1 ++ k2) s = (s1 ← pass_run k1 s; pass_run k2 s1).
Proof.
  revert s. induction k1 as [|i k1 IH]; intros s; [done|]. simpl.
  destruct (pass_step i s); [apply IH|done].
Qed.

Lemma pass_run_split k1 k2 s sf :
  pass_run (k1 ++ k2) s = Some sf -> exists s1, pass_run k1 s = Some s1 /\ pass_run k2 s1 = Some sf.
Proof. rewrite pass_run_app. destruct (pass_run k1 s); [eauto|done]. Qed.

(** What a step does to the depth recorded at a label it does not place. *)
Lemma pass_step_env i s s' l x :
  pass_step i s = Some s' -> i <> LABEL l -> env s !! l = Some x -> env s' !! l = Some x.
Proof.
  intros H Hi Hx. unfold pass_step, jump_to in H.
  destruct i; try (destruct (cur s); [|by injection H as <-]);
    repeat (case_match; simplify_eq/=; try done);
    try (rewrite lookup_insert_ne; [done|]; intros ->; congruence).
  all: by injection H as <-.
Qed.

Lemma pass_run_env k s s' l x :
  pass_run k s = Some s' -> l ∉ placed k -> env s !! l = Some x -> env s' !! l = Some x.
Proof.
  revert s. induction k as [|i k IH]; intros s H Hl Hx; simpl in H; [by injection H as <-|].
  destruct (pass_step i s) as [s1|] eqn:E; [|done]. apply (IH s1 H).
  - destruct i; simpl in Hl; set_solver.
  - apply (pass_step_env _ _ _ _ _ E); [|done]. intros ->. simpl in Hl. set_solver.
Qed.

(** *** Labels and jumps of a list, by position *)

Lemma placed_lookup k l : l ∈ placed k <-> exists q, k !! q = Some (LABEL l).
Proof.
  induction k as [|i k IH]; simpl.
  - split; [set_solver|]. by intros [q Hq].
  - split.
    + intros Hl. destruct i; try (apply IH in Hl as [q Hq]; by exists (S q)).
      apply elem_of_cons in Hl as [->|Hl]; [by exists 0|]. apply IH in Hl as [q Hq]. by exists (S q).
    + intros [[|q] Hq]; simpl in Hq; [injection Hq as ->; set_solver|].
      assert (Hl : l ∈ placed k) by (apply IH; eauto). destruct i; set_solver.
Qed.

Lemma label_unique k l q1 q2 :
  NoDup (placed k) -> k !! q1 = Some (LABEL l) -> k !! q2 = Some (LABEL l) -> q1 = q2.
Proof.
  revert q1 q2. induction k as [|i k IH]; intros q1 q2 Hnd H1 H2; [done|].
  assert (Hnd' : NoDup (placed k)) by (destruct i; simpl in Hnd; try done; by apply NoDup_cons in Hnd as [_ ?]).
  destruct q1 as [|q1], q2 as [|q2]; simpl in *; try done.
  - injection H1 as ->. simpl in Hnd. apply NoDup_cons in Hnd as [Hn _].
    destruct Hn. apply placed_lookup. eauto.
  - injection H2 as ->. simpl in Hnd. apply NoDup_cons in Hnd as [Hn _].
    destruct Hn. apply placed_lookup. eauto.
  - f_equal. eauto.
Qed.

Lemma label_index_is_some k l : forall n m,
  (exists i, k !! i = Some (LABEL l)) \/ is_Some (m !! l) -> is_Some (label_index k n m !! l).
Proof.
  induction k as [|i k IH]; intros n m H.
  - destruct H as [[q Hq]|H]; [done|exact H].
  - destruct H as [[[|q] Hq]|H].
    + injection Hq as ->. simpl. apply IH. right. rewrite lookup_insert_eq. by eexists.
    + destruct i; simpl; apply IH; left; eauto.
    + destruct i; simpl; apply IH; right; try exact H.
      destruct (decide (l0 = l)) as [->|Hne]; [rewrite lookup_insert_eq; by eexists|].
      by rewrite lookup_insert_ne.
Qed.

Lemma label_index_lookup k l q :
  NoDup (placed k) -> k !! q = Some (LABEL l) -> label_index k 0 ∅ !! l = Some q.
Proof.
  intros Hnd Hq. destruct (label_index_is_some k l 0 ∅) as [q' Hq']; [left; eauto|].
  rewrite Hq'. f_equal. apply (label_unique k l); [done| |done]. by apply label_index_at.
Qed.

Lemma jumps_lookup k p i l : k !! p = Some i -> jump_label i = Some l -> l ∈ jumps k.
Proof.
  revert p. induction k as [|j k IH]; intros [|p] Hp Hl; simpl in *; try done.
  - injection Hp as ->. destruct i; simpl in Hl; try done; injection Hl as ->; set_solver.
  - specialize (IH _ Hp Hl). destruct j; set_solver.
Qed.

(** *** Single steps *)

Lemma pass_step_label l s s' :
  pass_step (LABEL l) s = Some s' -> cur s' = label_depth s l /\ env s' !! l = Some (label_depth s l).
Proof.
  unfold pass_step, label_depth. intros H.
  destruct (cur s) as [d|] eqn:Hc, (env s !! l) as [[d'|]|] eqn:He; simplify_eq/=;
    try (split; [done|by rewrite lookup_insert_eq]).
  destruct (Nat.eqb_spec d d'); simplify_eq/=. rewrite Hc, He. done.
Qed.

Lemma jump_to_env s l d e : jump_to s l d = Some e -> e !! l = Some (Some d).
Proof.
  unfold jump_to. destruct (env s !! l) as [[d'|]|] eqn:He; intros H; simplify_eq/=.
  - destruct (Nat.eqb_spec d d'); simplify_eq/=. done.
  - by rewrite lookup_insert_eq.
Qed.

(** An instruction that goes on to the next one. *)
Lemma pass_step_plain i s s' d :
  pass_step i s = Some s' -> cur s = Some d -> no_flow i = true -> i <> RETURN_VALUE ->
  exists pop push, getse i = Ok (pop, push) /\ pop <= d + push /\ cur s' = Some (d + push - pop).
Proof.
  intros H Hc Hf Hr. unfold pass_step in H. rewrite Hc in H.
  destruct i; try done; destruct (getse _) as [[pop push]|]; try done;
    destruct (Nat.ltb_spec (d + push) pop); simplify_eq/=; eauto 6 with lia.
Qed.

(** *** The pass gives a typing *)

Section PassTyping.
Context (k : list instr) (sf : pass_state).
Hypothesis Hnd : NoDup (placed k).
Hypothesis Hjmp : Forall (fun l => l ∈ placed k) (jumps k).
Hypothesis Hrun : pass_run k pass_init = Some sf.
Hypothesis Hend : cur sf = None.

Local Notation run p := (pass_run (take p k) pass_init).

Lemma prefix_ok a : exists sa, run a = Some sa.
Proof.
  destruct (pass_run_split (take a k) (drop a k) pass_init sf) as (sa & Ha & _); [|eauto].
  by rewrite take_drop.
Qed.

Lemma step_at p s i : run p = Some s -> k !! p = Some i ->
  exists s', pass_step i s = Some s' /\ run (S p) = Some s'.
Proof.
  intros Hs Hk. destruct (prefix_ok (S p)) as [s' Hs']. rewrite (take_S_r _ _ _ Hk) in Hs'.
  rewrite pass_run_app, Hs in Hs'. simpl in Hs'.
  destruct (pass_step i s) as [s1|] eqn:Hst; [|done]. exists s1. split; [done|].
  rewrite (take_S_r _ _ _ Hk), pass_run_app, Hs. simpl. by rewrite Hst.
Qed.

Lemma depth_next p s' x : run (S p) = Some s' -> cur s' = Some x -> pass_depth k (S p) = Some x.
Proof.
  unfold pass_depth. intros -> Hc. unfold label_depth. rewrite Hc. by destruct (k !! S p) as [[]|].
Qed.

(** The recorded depth of [l] stays while the pass crosses no place of [l]. *)
Lemma env_between a b l sa sb x :
  a <= b -> (forall q, a <= q < b -> k !! q <> Some (LABEL l)) ->
  run a = Some sa -> run b = Some sb -> env sa !! l = Some x -> env sb !! l = Some x.
Proof.
  intros Hab Hq Ha Hb Hx.
  replace (take b k) with (take a k ++ take (b - a) (drop a k)) in Hb
    by (rewrite take_take_drop; f_equal; lia).
  rewrite pass_run_app, Ha in Hb. simpl in Hb. apply (pass_run_env _ _ _ _ _ Hb); [|done].
  intros [i Hi]%placed_lookup. apply lookup_take_Some in Hi as [Hi Hlt]. rewrite lookup_drop in Hi.
  apply (Hq (a + i)); [lia|done].
Qed.

(** A jump with depth [d] from [p] goes to a label the pass gives [d]. *)
Lemma jump_lands p j l s d e :
  k !! p = Some j -> jump_label j = Some l -> run p = Some s -> jump_to s l d = Some e ->
  (forall s', run (S p) = Some s' -> env s' = e) ->
  exists q, label_index k 0 ∅ !! l = Some q /\ pass_depth k q = Some d.
Proof.
  intros Hk Hl Hs Hj He.
  assert (Hin : l ∈ placed k).
  { rewrite Forall_forall in Hjmp. apply Hjmp. exact (jumps_lookup _ _ _ _ Hk Hl). }
  apply placed_lookup in Hin as [q Hq]. exists q. split; [by apply label_index_lookup|].
  assert (Hne : q <> p) by (intros ->; rewrite Hk in Hq; injection Hq as ->; done).
  assert (Huniq : forall q', k !! q' = Some (LABEL l) -> q' = q) by (intros; eapply label_unique; eauto).
  destruct (prefix_ok q) as [sq Hsq]. unfold pass_depth. rewrite Hsq, Hq.
  destruct (step_at q sq _ Hsq Hq) as (sq' & Hstq & Hsq').
  destruct (pass_step_label _ _ _ Hstq) as [Hc' He'].
  destruct (decide (q < p)) as [Hlt|Hgt].
  - assert (Hx : env s !! l = Some (label_depth sq l)).
    { apply (env_between (S q) p l sq' s); [lia| |done|done|done].
      intros q' Hq' Hl'. apply Huniq in Hl'. lia. }
    unfold jump_to in Hj. rewrite Hx in Hj.
    destruct (label_depth sq l) as [d'|]; [|done]. by destruct (Nat.eqb_spec d d') as [->|].
  - destruct (step_at p s j Hs Hk) as (s' & _ & Hs').
    assert (Hx : env sq !! l = Some (Some d)).
    { apply (env_between (S p) q l s' sq); [lia| |done|done|].
      - intros q' Hq' Hl'. apply Huniq in Hl'. lia.
      - rewrite (He _ Hs'). exact (jump_to_env _ _ _ _ Hj). }
    unfold pass_step in Hstq. unfold label_depth. rewrite Hx in Hstq.
    destruct (cur sq) as [d2|]; [|by rewrite Hx].
    by destruct (Nat.eqb_spec d2 d); simplify_eq.
Qed.

(** The depths of the pass are a stack typing. *)
Theorem pass_typing : stack_typing k (pass_depth k).
Proof.
  split.
  { unfold pass_depth. simpl. by destruct (k !! 0) as [[]|]. }
  intros p d Hd. unfold pass_depth in Hd. destruct (run p) as [s|] eqn:Hs; [|done].
  unfold step_ok. destruct (k !! p) as [i|] eqn:Hk.
  2: { rewrite take_ge in Hs by (by apply lookup_ge_None). rewrite Hrun in Hs. injection Hs as <-.
       by rewrite Hend in Hd. }
  destruct (step_at p s i Hs Hk) as (s' & Hst & Hs').
  destruct i; simpl in Hd;
    try (destruct (pass_step_plain _ _ _ _ Hst Hd eq_refl ltac:(discriminate)) as (pop & push & Hg & Hle & Hc);
         exists pop, push; split; [done|]; split; [done|]; exact (depth_next _ _ _ Hs' Hc)).
  - done.
  - unfold pass_step in Hst. rewrite Hd in Hst.
    destruct (Nat.ltb_spec d 1); [done|]. destruct (jump_to s l (d - 1)) as [e|] eqn:Hj; [|done].
    injection Hst as <-. split; [lia|].
    destruct (jump_lands p _ l s (d - 1) e Hk eq_refl Hs Hj) as (q & Hq & HDq).
    { intros s2 Hs2. rewrite Hs' in Hs2. by injection Hs2 as <-. }
    exists q. split; [done|]. split; [done|]. by apply (depth_next _ _ _ Hs').
  - unfold pass_step in Hst. rewrite Hd in Hst.
    destruct (jump_to s l d) as [e|] eqn:Hj; [|done]. injection Hst as <-.
    apply (jump_lands p _ l s d e Hk eq_refl Hs Hj).
    intros s2 Hs2. rewrite Hs' in Hs2. by injection Hs2 as <-.
  - unfold pass_step in Hst. rewrite Hd in Hst.
    destruct (jump_to s l d) as [e|] eqn:Hj; [|done]. injection Hst as <-.
    apply (jump_lands p _ l s d e Hk eq_refl Hs Hj).
    intros s2 Hs2. rewrite Hs' in Hs2. by injection Hs2 as <-.
  - destruct (pass_step_label _ _ _ Hst) as [Hc _]. rewrite Hd in Hc. exact (depth_next _ _ _ Hs' Hc).
Qed.

End PassTyping.

(** A list the pass walks to its end, with no flow left and its labels
    placed once, passes [_compute_stacksize]. *)
Lemma compute_stacksize_pass k sf :
  NoDup (placed k) -> Forall (fun l => l ∈ placed k) (jumps k) ->
  pass_run k pass_init = Some sf -> cur sf = None ->
  exists m, compute_stacksize k = Ok m.
Proof. intros. eapply compute_stacksize_typed, pass_typing; eauto. Qed.
