(* ===== verification/StackFlow.v ===== *)
(** * StackFlow: which generated lists byteplay's stack search accepts

    [Code._compute_stacksize] ([StackSize]) rejects three shapes the
    generator can produce: a list whose flow runs off its end (a
    function body that can end without [return]), an instruction that
    takes a value the stack does not hold ([putint] used as an
    expression, which pushes nothing), and a label reached with two
    depths (a call statement, which leaves its result on the stack,
    inside a branch or a loop body).  [cmd_flow] describes the commands
    that avoid all three: each either falls through having grown the
    stack by [n] values ([Falls n]) or never falls through ([Returns]);
    the two branches of an [if] agree, a [while] body leaves the stack
    as it found it, every function body returns, and no expression
    calls [putint] or passes 256 arguments or more (byteplay splits a
    [CALL_FUNCTION] argument into positional and keyword counts).

    [gen_stack] shows that the code generated for such a command passes
    the one-pass check of [StackSize] ([seg_pass]): the code of each
    construct takes the depth it starts with to the depth its flow
    says, and records depths only at the labels it allocates.  The
    last sections show that each of the three shapes does fail, for
    whole families of programs: a function whose body has no [if],
    [while] or [return] ([function_falls_off]: [IndexError]), a loop
    whose body leaves values ([loop_inconsistent]: "Inconsistent
    code"), and [putint] assigned to a variable
    ([putint_operand_underflow]: "Popped a non-existing element"). *)

From S2P Require Import Prelude Ast CodeGen Labels Stack Assembly StackSize.

(** ** The commands whose code keeps the stack consistent *)

Inductive flow : Type :=
| Falls (n : nat)      (** falls through with [n] more values on the stack *)
| Returns.             (** never falls through *)

Definition seq_flow (f1 f2 : flow) : flow :=
  match f1, f2 with
  | Falls a, Falls b => Falls (a + b)
  | Falls _, Returns => Returns
  | Returns, _ => Returns
  end.

(** The two branches of an [if] meet at its end label. *)
Definition if_flow (f1 f2 : flow) : option flow :=
  match f1, f2 with
  | Falls a, Falls b => if Nat.eqb a b then Some (Falls a) else None
  | Returns, f | f, Returns => Some f
  end.

(** The body of a [while] jumps back to the test with the depth it began with. *)
Definition loop_flow (f : flow) : option flow :=
  match f with
  | Falls 0 | Returns => Some (Falls 0)
  | Falls (S _) => None
  end.

(** An expression that leaves one value: no call of [putint], and fewer
    than 256 arguments in every call. *)
Fixpoint expr_stack_ok (e : expression) : bool :=
  match e with
  | BinaryExpression e1 _ e2 => expr_stack_ok e1 && expr_stack_ok e2
  | UnaryExpression _ e1 => expr_stack_ok e1
  | IntegerExpression _ | VnameExpression _ => true
  | CallExpression name args =>
    negb (String.eqb name "putint") && Nat.ltb (length args) 256 && forallb expr_stack_ok args
  end.

Fixpoint cmd_flow (c : command) : option flow :=
  match c with
  | SequentialCommand c1 c2 =>
    match cmd_flow c1, cmd_flow c2 with
    | Some f1, Some f2 => Some (seq_flow f1 f2)
    | _, _ => None
    end
  | AssignCommand _ e => if expr_stack_ok e then Some (Falls 0) else None
  | CallCommand name args =>
    if String.eqb name "putint" then
      match args with [e] => if expr_stack_ok e then Some (Falls 0) else None | _ => None end
    else if Nat.ltb (length args) 256 && forallb expr_stack_ok args then Some (Falls 1) else None
  | IfCommand e c1 c2 =>
    if expr_stack_ok e then
      match cmd_flow c1, cmd_flow c2 with Some f1, Some f2 => if_flow f1 f2 | _, _ => None end
    else None
  | WhileCommand e c =>
    if expr_stack_ok e then match cmd_flow c with Some f => loop_flow f | None => None end else None
  | LetCommand d c => if decl_stack_ok d then cmd_flow c else None
  | ReturnCommand e => if expr_stack_ok e then Some Returns else None
  end
with decl_stack_ok (d : declaration) : bool :=
  match d with
  | ConstDeclaration _ e => expr_stack_ok e
  | VarDeclaration _ _ => true
  | SequentialDeclaration d1 d2 => decl_stack_ok d1 && decl_stack_ok d2
  | FunctionDeclaration _ _ _ body => match cmd_flow body with Some Returns => true | _ => false end
  end.

Definition program_stack_ok (p : program) : bool :=
  match p with Program c => match cmd_flow c with Some _ => true | None => false end end.

(** ** Expressions *)

(** An instruction that goes on to the next one, with the effect [getse]
    gives it that of CPython ([Stack.pops], [Stack.pushes]). *)
Definition stack_plain (i : instr) : Prop :=
  no_flow i = true /\ i <> RETURN_VALUE /\ getse i = Ok (pops i, pushes i).

Lemma getse_call n : n < 256 -> stack_plain (CALL_FUNCTION n).
Proof.
  intros Hn. split; [done|]. split; [done|]. unfold getse.
  destruct (Z.ltb_spec 0xFFFF (Z.of_nat n)); [lia|].
  rewrite Nat.mod_small, Nat.div_small by lia. simpl. f_equal. f_equal. lia.
Qed.

Lemma binop_stack op i : binop_instr op = Some i -> stack_plain i.
Proof. unfold binop_instr. intros H. repeat case_match; simplify_eq; repeat split; discriminate. Qed.

Lemma unop_stack op i : unop_instr op = Some i -> stack_plain i.
Proof. unfold unop_instr. intros H. repeat case_match; simplify_eq; repeat split; discriminate. Qed.

Lemma expr_stack_putint_free e : expr_stack_ok e = true -> putint_free e = true.
Proof.
  induction e as [e1 op e2 IH1 IH2|op e1 IH|v|x|name args IH] using expression_ind'; simpl;
    rewrite ?andb_true_iff; try tauto.
  intros [[Hp _] Ha]. split; [done|]. rewrite forallb_forall in Ha |- *. rewrite Forall_forall in IH.
  intros a Hin. apply IH; [by apply list_elem_of_In|]. by apply Ha.
Qed.

(** The arguments of a call, each generated by [gen_e]. *)
Lemma gen_list_stack gen_e args st st' :
  Forall (fun e => forall st st', gen_e e st = Ok st' ->
                   exists k, st' = append_code k st /\ Forall stack_plain k) args ->
  gen_list gen_e args st = Ok st' -> exists k, st' = append_code k st /\ Forall stack_plain k.
Proof.
  intros Hall. revert st. induction Hall as [|e args He Hall IH]; intros st H; simpl in H.
  - injection H as <-. exists []. by rewrite append_code_nil.
  - inv_bind. destruct (He _ _ E) as (k1 & -> & P1). destruct (IH _ H) as (k2 & -> & P2).
    exists (k1 ++ k2). rewrite append_code_app. split; [done|by apply Forall_app].
Qed.

(** A call other than [putint] with fewer than 256 arguments. *)
Lemma gen_call_stack gen_e node name args st st' :
  name <> "putint" -> length args < 256 ->
  Forall (fun e => forall st st', gen_e e st = Ok st' ->
                   exists k, st' = append_code k st /\ Forall stack_plain k) args ->
  gen_call gen_e node name args st = Ok st' -> exists k, st' = append_code k st /\ Forall stack_plain k.
Proof.
  intros Hp Hn Hall H. unfold gen_call, gen_call_command in H.
  destruct (String.eqb_spec name "getint").
  - case_match; [discriminate|]. injection H as <-. exists [LOAD_GLOBAL "input"; CALL_FUNCTION 0].
    split; [solve_code|]. repeat constructor; discriminate.
  - destruct (String.eqb_spec name "putint"); [done|].
    destruct (declared_functions st !! name) as [[params rt]|]; [|discriminate].
    destruct (Nat.eqb_spec (length params) (length args)) as [Hl|]; [|discriminate]. simpl in H.
    inv_bind. rewrite emit_append in E. destruct (gen_list_stack _ _ _ _ Hall E) as (k & -> & P).
    subst st'. exists ([LOAD_GLOBAL name] ++ k ++ [CALL_FUNCTION (length params)]).
    split; [solve_code|]. apply Forall_app. split; [repeat constructor; discriminate|].
    apply Forall_app. split; [done|]. constructor; [|done]. apply getse_call. lia.
Qed.

Lemma gen_expression_stack e : forall st st',
  expr_stack_ok e = true -> gen_expression e st = Ok st' ->
  exists k, st' = append_code k st /\ Forall stack_plain k.
Proof.
  induction e as [e1 op e2 IH1 IH2|op e1 IH|v|x|name args IH] using expression_ind';
    intros st st' Hok H; simpl in Hok, H; rewrite ?andb_true_iff in Hok.
  - destruct Hok as [Hok1 Hok2]. inv_bind. destruct (IH1 _ _ Hok1 E) as (k1 & -> & P1).
    destruct (IH2 _ _ Hok2 E0) as (k2 & -> & P2).
    destruct (binop_instr op) as [i|] eqn:Ei; [|discriminate]. injection H as <-.
    exists (k1 ++ k2 ++ [i]). split; [solve_code|]. repeat (apply Forall_app; split); try done.
    constructor; [exact (binop_stack _ _ Ei)|done].
  - inv_bind. destruct (IH _ _ Hok E) as (k & -> & P).
    destruct (unop_instr op) as [i|] eqn:Ei; [|discriminate]. injection H as <-.
    exists (k ++ [i]). split; [solve_code|]. apply Forall_app. split; [done|].
    constructor; [exact (unop_stack _ _ Ei)|done].
  - injection H as <-. exists [LOAD_CONST (CInt v)]. split; [done|]. repeat constructor; discriminate.
  - destruct (lookup_var x st) as [[slot|]|]; try discriminate. injection H as <-.
    exists [LOAD_FAST slot]. split; [done|]. repeat constructor; discriminate.
  - destruct Hok as [[Hp Hn] Ha]. apply (gen_call_stack gen_expression (NExpression (CallExpression name args)) name args st st');
      [| |clear H|exact H].
    + by destruct (String.eqb_spec name "putint").
    + by apply Nat.ltb_lt.
    + rewrite Forall_forall in IH |- *. rewrite forallb_forall in Ha. intros a Hin st1 st2 Ha'.
      apply (IH a); [done| |done]. apply Ha. by apply list_elem_of_In.
Qed.

(** ** Single steps of the pass *)

Lemma pass_step_dead i s : cur s = None -> (forall l, i <> LABEL l) -> pass_step i s = Some s.
Proof. intros Hc Hi. unfold pass_step. destruct i; try (by rewrite Hc). by destruct (Hi l). Qed.

Lemma pass_label_fresh s l :
  env s !! l = None -> pass_step (LABEL l) s = Some (mkPass (cur s) (<[l := cur s]> (env s))).
Proof. unfold pass_step, label_depth. intros He. destruct (cur s); by rewrite He. Qed.

Lemma pass_label_known s l d :
  env s !! l = Some (Some d) -> cur s = None \/ cur s = Some d ->
  pass_step (LABEL l) s = Some (mkPass (Some d) (env s)).
Proof.
  unfold pass_step, label_depth. intros He [Hc|Hc]; rewrite Hc, He.
  - by rewrite insert_id.
  - rewrite Nat.eqb_refl. destruct s; simpl in *. by subst.
Qed.

(** A forward jump to a label no jump reached yet records the depth. *)
Lemma pass_forward s l :
  env s !! l = None ->
  exists s', pass_step (JUMP_FORWARD l) s = Some s' /\ cur s' = None /\
    env s' !! l = option_map Some (cur s) /\ forall l', l' <> l -> env s' !! l' = env s !! l'.
Proof.
  intros He. destruct (cur s) as [d|] eqn:Hc.
  - exists (mkPass None (<[l := Some d]> (env s))). unfold pass_step, jump_to. rewrite Hc, He.
    split; [done|]. split; [done|]. simpl. split; [by rewrite lookup_insert_eq|].
    intros l' Hne. by rewrite lookup_insert_ne.
  - exists s. rewrite pass_step_dead by (done || discriminate). split; [done|]. by rewrite He.
Qed.

Lemma pass_pjif_fresh e l d :
  e !! l = None ->
  pass_step (POP_JUMP_IF_FALSE l) (mkPass (Some (S d)) e) = Some (mkPass (Some d) (<[l := Some d]> e)).
Proof. unfold pass_step, jump_to. intros He. simpl. rewrite He, Nat.sub_0_r. done. Qed.

Lemma pass_jump_back s l d :
  cur s = Some d -> env s !! l = Some (Some d) -> pass_step (JUMP_ABSOLUTE l) s = Some (mkPass None (env s)).
Proof. unfold pass_step, jump_to. intros Hc He. rewrite Hc, He, Nat.eqb_refl. done. Qed.

Lemma pass_step_plain_eq i d e :
  stack_plain i ->
  pass_step i (mkPass (Some d) e) =
    if Nat.ltb (d + pushes i) (pops i) then None else Some (mkPass (Some (d + pushes i - pops i)) e).
Proof.
  intros (Hf & Hr & Hg). unfold pass_step.
  destruct i; try done; cbn -[getse pops pushes]; rewrite Hg; reflexivity.
Qed.

(** Plain code moves the depth as [Stack.run_stack] does. *)
Lemma pass_plain k d d' e :
  Forall stack_plain k -> run_stack d k = Some d' ->
  pass_run k (mkPass (Some d) e) = Some (mkPass (Some d') e).
Proof.
  intros Hk. revert d. induction Hk as [|i k (Hf & Hr & Hg) Hk IH]; intros d H; simpl in H.
  - by injection H as <-.
  - destruct (Nat.leb_spec (pops i) d) as [Hle|]; [|done]. simpl.
    rewrite pass_step_plain_eq by done. destruct (Nat.ltb_spec (d + pushes i) (pops i)); [lia|]. simpl.
    replace (d + pushes i - pops i) with (d - pops i + pushes i) by lia. by apply IH.
Qed.

Definition label_of (i : instr) : option label := match i with LABEL l => Some l | _ => None end.

(** Code the flow does not reach leaves the depth unknown and records
    nothing but the labels it places. *)
Lemma pass_dead k : forall e,
  (forall l d, l ∈ placed k -> e !! l <> Some (Some d)) ->
  exists e', pass_run k (mkPass None e) = Some (mkPass None e') /\ forall l, l ∉ placed k -> e' !! l = e !! l.
Proof.
  induction k as [|i k IH]; intros e He; [by exists e|].
  destruct (label_of i) as [l|] eqn:Hi.
  - assert (i = LABEL l) as -> by (destruct i; simpl in Hi; congruence). simpl. unfold label_depth. simpl.
    destruct (e !! l) as [[x|]|] eqn:El; [by destruct (He l x); [left|]|..];
      (destruct (IH (<[l := None]> e)) as (e' & Hr & Hf);
       [intros l' d Hl'; destruct (decide (l' = l)) as [->|Hne];
          [by rewrite lookup_insert_eq|rewrite lookup_insert_ne by done; apply He; set_solver]|]);
      exists e'; (split; [done|]); intros l' Hl'; rewrite Hf by set_solver;
      rewrite lookup_insert_ne; set_solver.
  - simpl. rewrite pass_step_dead; [|done|intros l ->; discriminate]. simpl.
    destruct (IH e) as (e' & Hr & Hf); [intros l d Hl; apply He; destruct i; set_solver|].
    exists e'. split; [done|]. intros l Hl. apply Hf. destruct i; set_solver.
Qed.

(** ** The contract of a piece of code *)

#[local] Arguments pass_step : simpl never.

Definition flow_out (d : nat) (f : flow) : option nat :=
  match f with Falls n => Some (d + n) | Returns => None end.

(** No depth is recorded for the labels from [lo] on. *)
Definition fresh_from (s : pass_state) (lo : nat) : Prop := forall l, lo <= l -> env s !! l = None.

(** The depths recorded outside [lo, hi) are left alone. *)
Definition env_frame (s s' : pass_state) (lo hi : nat) : Prop :=
  forall l, l < lo \/ hi <= l -> env s' !! l = env s !! l.

(** [k] places labels of [lo, hi) only, and run from a depth [d] with no
    label of [lo, hi) recorded, it ends with the depth its flow [f]
    says, recording depths for labels of [lo, hi) only. *)
Definition seg_pass (k : list instr) (lo hi : nat) (f : flow) : Prop :=
  lo <= hi /\ Forall (fun l => lo <= l < hi) (placed k) /\
  forall s d, cur s = Some d -> fresh_from s lo ->
    exists s', pass_run k s = Some s' /\ cur s' = flow_out d f /\ env_frame s s' lo hi.

Lemma seg_pass_dead k lo hi f s :
  seg_pass k lo hi f -> cur s = None -> fresh_from s lo ->
  exists s', pass_run k s = Some s' /\ cur s' = None /\ env_frame s s' lo hi.
Proof.
  intros (Hlh & Hpl & _) Hc Hf. rewrite Forall_forall in Hpl.
  destruct (pass_dead k (env s)) as (e' & Hr & He').
  { intros l d Hl. rewrite Hf; [done|]. apply Hpl in Hl. lia. }
  exists (mkPass None e'). destruct s as [c e]. simpl in *. subst c. split; [done|]. split; [done|].
  intros l Hl. simpl. apply He'. intros Hin%Hpl. lia.
Qed.

Lemma seg_pass_plain k n lo hi :
  lo <= hi -> Forall stack_plain k -> (forall d, run_stack d k = Some (d + n)) -> seg_pass k lo hi (Falls n).
Proof.
  intros Hlh Hk Hr. split; [done|]. split.
  { rewrite (proj1 (plain_placed k (Forall_impl _ _ _ Hk (fun i Hi => proj1 Hi)))). constructor. }
  intros [c e] d Hc _. simpl in Hc. subst c. exists (mkPass (Some (d + n)) e).
  split; [by apply pass_plain|]. split; [done|]. intros l _. done.
Qed.

Lemma seg_pass_return lo hi : lo <= hi -> seg_pass [RETURN_VALUE] lo hi Returns.
Proof.
  intros Hlh. split; [done|]. split; [constructor|]. intros [c e] d Hc _. simpl in Hc. subst c.
  exists (mkPass None e). split; [done|]. split; [done|]. intros l _. done.
Qed.

Lemma seg_pass_app k1 k2 lo mid hi f1 f2 :
  seg_pass k1 lo mid f1 -> seg_pass k2 mid hi f2 -> seg_pass (k1 ++ k2) lo hi (seq_flow f1 f2).
Proof.
  intros (Hlm & Hp1 & H1) (Hmh & Hp2 & H2). split; [lia|]. split.
  { rewrite placed_app. apply Forall_app. split; eapply Forall_impl; eauto; simpl; lia. }
  intros s d Hc Hf. destruct (H1 s d Hc Hf) as (s1 & R1 & C1 & F1).
  assert (Hf1 : fresh_from s1 mid) by (intros l Hl; rewrite F1 by lia; apply Hf; lia).
  destruct f1 as [n1|]; simpl in C1.
  - destruct (H2 s1 (d + n1) C1 Hf1) as (s2 & R2 & C2 & F2). exists s2.
    rewrite pass_run_app, R1. simpl. split; [done|]. split.
    + rewrite C2. destruct f2; simpl; [f_equal; lia|done].
    + intros l Hl. rewrite F2 by lia. apply F1. lia.
  - destruct (seg_pass_dead k2 mid hi f2 s1 (conj Hmh (conj Hp2 H2)) C1 Hf1) as (s2 & R2 & C2 & F2).
    exists s2. rewrite pass_run_app, R1. simpl. split; [done|]. split; [done|].
    intros l Hl. rewrite F2 by lia. apply F1. lia.
Qed.

(** ** [if] and [while] *)

(** The end label of an [if]: the flow of the [then] branch arrives by
    its [JUMP_FORWARD], that of the [else] branch from above. *)
Lemma label_join s l d f1 f2 f :
  if_flow f1 f2 = Some f -> env s !! l = option_map Some (flow_out d f1) -> cur s = flow_out d f2 ->
  exists s', pass_step (LABEL l) s = Some s' /\ cur s' = flow_out d f /\
    forall l', l' <> l -> env s' !! l' = env s !! l'.
Proof.
  intros Hf He Hc. destruct f1 as [a|], f2 as [b|]; simpl in Hf, He, Hc.
  - destruct (Nat.eqb_spec a b) as [<-|]; [|done]. injection Hf as <-.
    rewrite (pass_label_known _ _ (d + a) He) by auto. eexists. split; [reflexivity|]. done.
  - injection Hf as <-. rewrite (pass_label_known _ _ (d + a) He) by auto.
    eexists. split; [reflexivity|]. done.
  - injection Hf as <-. rewrite (pass_label_fresh _ _ He). eexists. split; [reflexivity|].
    split; [done|]. intros l' Hne. simpl. by rewrite lookup_insert_ne.
  - injection Hf as <-. rewrite (pass_label_fresh _ _ He). eexists. split; [reflexivity|].
    split; [done|]. intros l' Hne. simpl. by rewrite lookup_insert_ne.
Qed.

Lemma placed_plain k : Forall stack_plain k -> placed k = [].
Proof. intros Hk. apply (plain_placed k (Forall_impl _ _ _ Hk (fun i Hi => proj1 Hi))). Qed.

Lemma seg_pass_if L m1 m2 ke k1 k2 f1 f2 f :
  Forall stack_plain ke -> (forall d, run_stack d ke = Some (S d)) ->
  seg_pass k1 (S (S L)) m1 f1 -> seg_pass k2 m1 m2 f2 -> if_flow f1 f2 = Some f ->
  seg_pass (ke ++ [POP_JUMP_IF_FALSE L] ++ k1 ++ [JUMP_FORWARD (S L); LABEL L] ++ k2 ++ [LABEL (S L)])
    L m2 f.
Proof.
  intros Pe Le (H1lh & P1 & R1) (H2lh & P2 & R2) Hf. split; [lia|]. split.
  { rewrite !placed_app, (placed_plain _ Pe). simpl.
    repeat first [apply Forall_cons; split | apply Forall_app; split | apply Forall_nil];
      try (eapply Forall_impl; [eassumption|]); simpl; intros; lia. }
  intros [c e] d Hc Hfr. simpl in Hc. subst c.
  pose proof (Hfr L ltac:(lia)) as HL. pose proof (Hfr (S L) ltac:(lia)) as HSL. simpl in HL, HSL.
  destruct (R1 (mkPass (Some d) (<[L := Some d]> e)) d eq_refl) as (s2 & Rk1 & C2 & F2).
  { intros l Hl. simpl. rewrite lookup_insert_ne by lia. apply Hfr. lia. }
  destruct (pass_forward s2 (S L)) as (s3 & J3 & C3 & E3 & F3).
  { rewrite F2 by lia. simpl. rewrite lookup_insert_ne by lia. exact HSL. }
  assert (HL3 : env s3 !! L = Some (Some d)).
  { rewrite F3, F2 by lia. simpl. by rewrite lookup_insert_eq. }
  destruct (R2 (mkPass (Some d) (env s3)) d eq_refl) as (s5 & Rk2 & C5 & F5).
  { intros l Hl. simpl. rewrite F3, F2 by lia. simpl. rewrite lookup_insert_ne by lia. apply Hfr. lia. }
  destruct (label_join s5 (S L) d f1 f2 f Hf) as (s6 & J6 & C6 & F6); [|done|].
  { rewrite F5 by lia. simpl. by rewrite E3, C2. }
  exists s6. split; [|split; [done|]].
  - rewrite pass_run_app, (pass_plain _ _ _ _ Pe (Le d)). simpl. rewrite pass_pjif_fresh by done. simpl.
    rewrite pass_run_app, Rk1. simpl. rewrite J3. simpl. rewrite (pass_label_known _ _ d HL3) by auto.
    simpl. rewrite pass_run_app, Rk2. simpl. by rewrite J6.
  - intros l Hl. rewrite F6, F5, F3, F2 by lia. simpl. rewrite lookup_insert_ne by lia. done.
Qed.

Lemma seg_pass_while L m ke kb fb f :
  Forall stack_plain ke -> (forall d, run_stack d ke = Some (S d)) ->
  seg_pass kb (S (S L)) m fb -> loop_flow fb = Some f ->
  seg_pass ([LABEL L] ++ ke ++ [POP_JUMP_IF_FALSE (S L)] ++ kb ++ [JUMP_ABSOLUTE L; LABEL (S L)]) L m f.
Proof.
  intros Pe Le (Hlh & Pb & Rb) Hf. split; [lia|]. split.
  { rewrite !placed_app, (placed_plain _ Pe). simpl.
    constructor; [lia|]. apply Forall_app. split; [eapply Forall_impl; [eassumption|]; simpl; intros; lia|].
    constructor; [lia|constructor]. }
  intros [c e] d Hc Hfr. simpl in Hc. subst c.
  pose proof (Hfr L ltac:(lia)) as HL. pose proof (Hfr (S L) ltac:(lia)) as HSL. simpl in HL, HSL.
  set (e2 := <[S L := Some d]> (<[L := Some d]> e)).
  destruct (Rb (mkPass (Some d) e2) d eq_refl) as (s4 & Rk & C4 & F4).
  { intros l Hl. unfold e2. simpl. rewrite !lookup_insert_ne by lia. apply Hfr. lia. }
  assert (HL4 : env s4 !! L = Some (Some d)).
  { rewrite F4 by lia. unfold e2. simpl. rewrite lookup_insert_ne by lia. by rewrite lookup_insert_eq. }
  assert (HSL4 : env s4 !! S L = Some (Some d)).
  { rewrite F4 by lia. unfold e2. simpl. by rewrite lookup_insert_eq. }
  assert (J5 : pass_step (JUMP_ABSOLUTE L) s4 = Some (mkPass None (env s4))).
  { destruct fb as [[|n]|]; simpl in Hf, C4; try done.
    - rewrite Nat.add_0_r in C4. exact (pass_jump_back _ _ _ C4 HL4).
    - rewrite pass_step_dead by (done || discriminate). destruct s4; simpl in *. by subst. }
  destruct fb as [[|n]|]; simpl in Hf; try done; injection Hf as <-;
    exists (mkPass (Some d) (env s4)); (split; [|split; [simpl; f_equal; lia|]]);
    try (intros l Hl; simpl; rewrite F4 by lia; unfold e2; simpl; rewrite !lookup_insert_ne by lia; done);
    simpl; rewrite (pass_label_fresh (mkPass (Some d) e) L HL); simpl; rewrite pass_run_app,
      (pass_plain _ _ _ _ Pe (Le d)); simpl; rewrite pass_pjif_fresh by (rewrite lookup_insert_ne by lia; done);
    simpl; rewrite pass_run_app; fold e2; rewrite Rk; simpl; rewrite J5; simpl;
    unfold label_depth; simpl; rewrite HSL4; by rewrite insert_id.
Qed.

(** ** The generated code meets the contract *)

Lemma append_code_inj k1 k2 st : append_code k1 st = append_code k2 st -> k1 = k2.
Proof. intros H. apply (f_equal code) in H. simpl in H. by apply app_inv_head in H. Qed.

(** An expression of [expr_stack_ok] appends plain code leaving one value. *)
Lemma expr_code e st st' :
  expr_stack_ok e = true -> gen_expression e st = Ok st' ->
  exists k, st' = append_code k st /\ Forall stack_plain k /\ leaves 1 k.
Proof.
  intros Hok H. destruct (gen_expression_stack _ _ _ Hok H) as (k & -> & P).
  destruct (gen_expression_leaves e st _ (expr_stack_putint_free _ Hok) H) as (k' & Hk & L).
  apply append_code_inj in Hk as <-. eauto.
Qed.

Ltac use_expr E Hok :=
  let k := fresh "ke" in let P := fresh "Pe" in let L := fresh "Le" in
  destruct (expr_code _ _ _ Hok E) as (k & -> & P & L).

(** [Forall stack_plain] of generated pieces. *)
Ltac plain_solve :=
  repeat first [ assumption | exact I | apply Forall_app; split | apply Forall_cons; split | apply Forall_nil
               | split; [reflexivity|split; [discriminate|reflexivity]] ].

Ltac leaves_solve := intros ?; rewrite ?run_stack_app;
  repeat match goal with L : leaves _ ?k |- context [run_stack ?d ?k] => rewrite L end; run_simpl.

Definition cmd_stack (c : command) : Prop :=
  forall f st st', cmd_flow c = Some f -> gen_command c st = Ok st' ->
    exists k, code st' = code st ++ k /\ seg_pass k (labels st) (labels st') f.

Definition decl_stack (d : declaration) : Prop :=
  forall st st', decl_stack_ok d = true -> gen_declaration d st = Ok st' ->
    exists k, code st' = code st ++ k /\ labels st <= labels st' /\ Forall stack_plain k /\ leaves 0 k.

Lemma call_stack node name args st st' f :
  cmd_flow (CallCommand name args) = Some f -> gen_call gen_expression node name args st = Ok st' ->
  exists k, st' = append_code k st /\ Forall stack_plain k /\ leaves (match f with Falls n => n | _ => 0 end) k.
Proof.
  simpl. intros Hf H. destruct (String.eqb_spec name "putint") as [->|Hp].
  - destruct args as [|e [|]]; try discriminate. destruct (expr_stack_ok e) eqn:Hok; [|discriminate].
    injection Hf as <-. unfold gen_call in H. simpl in H. inv_bind. use_expr E Hok. subst.
    exists (ke ++ [PRINT_ITEM; PRINT_NEWLINE]). split; [solve_code|]. split; [plain_solve|leaves_solve].
  - destruct (Nat.ltb_spec (length args) 256) as [Hn|]; [|discriminate].
    destruct (forallb expr_stack_ok args) eqn:Ha; [|discriminate]. injection Hf as <-.
    rewrite forallb_forall in Ha.
    destruct (gen_call_stack _ _ _ _ _ _ Hp Hn ltac:(apply Forall_forall; intros a Hin st1 st2;
      apply gen_expression_stack, Ha, list_elem_of_In, Hin) H) as (k & -> & P).
    destruct (gen_call_leaves node name args st (append_code k st) Hp) as (k' & Hk & L); [| |exact H|].
    + apply Forall_forall. intros a _. apply gen_expression_leaves.
    + apply forallb_forall. intros a Hin. apply expr_stack_putint_free, Ha, Hin.
    + apply append_code_inj in Hk as <-. eauto.
Qed.

Lemma seq_flow_0 f : seq_flow (Falls 0) f = f.
Proof. by destruct f. Qed.

Lemma gen_stack : (forall c, cmd_stack c) /\ (forall d, decl_stack d).
Proof.
  apply command_declaration_mut; unfold cmd_stack, decl_stack; simpl.
  - intros c1 IH1 c2 IH2 f st st' Hf H.
    destruct (cmd_flow c1) as [f1|] eqn:F1, (cmd_flow c2) as [f2|] eqn:F2; try discriminate.
    injection Hf as <-. inv_bind. destruct (IH1 _ _ _ eq_refl E) as (k1 & C1 & S1).
    destruct (IH2 _ _ _ eq_refl H) as (k2 & C2 & S2).
    exists (k1 ++ k2). split; [by rewrite C2, C1, app_assoc|]. exact (seg_pass_app _ _ _ _ _ _ _ S1 S2).
  - intros x e f st st' Hf H. destruct (expr_stack_ok e) eqn:Hok; [|discriminate]. injection Hf as <-.
    inv_bind. use_expr E Hok. case_match; [|discriminate]. inv_bind. subst.
    exists (ke ++ [STORE_FAST s]). split; [simpl; by rewrite app_assoc|].
    apply seg_pass_plain; [simpl; lia|plain_solve|leaves_solve].
  - intros name args f st st' Hf H.
    destruct (call_stack _ _ _ _ _ _ Hf H) as (k & -> & P & L). exists k. split; [done|].
    destruct f as [n|]; [apply seg_pass_plain; [simpl; lia|done|done]|].
    simpl in Hf. destruct (String.eqb name "putint"); [destruct args as [|? []]; try discriminate|];
      repeat case_match; discriminate.
  - intros e c1 IH1 c2 IH2 f st st' Hf H. destruct (expr_stack_ok e) eqn:Hok; [|discriminate].
    destruct (cmd_flow c1) as [f1|] eqn:F1, (cmd_flow c2) as [f2|] eqn:F2; try discriminate.
    inv_bind. use_expr E Hok. destruct (IH1 _ _ _ eq_refl E0) as (k1 & C1 & S1).
    destruct (IH2 _ _ _ eq_refl E1) as (k2 & C2 & S2). subst. simpl in *.
    exists (ke ++ [POP_JUMP_IF_FALSE (labels st)] ++ k1 ++ [JUMP_FORWARD (S (labels st)); LABEL (labels st)]
            ++ k2 ++ [LABEL (S (labels st))]).
    split; [solve_app|]. eapply seg_pass_if; eauto. intros d. rewrite Le. f_equal. lia.
  - intros e c IH f st st' Hf H. destruct (expr_stack_ok e) eqn:Hok; [|discriminate].
    destruct (cmd_flow c) as [fb|] eqn:Fb; [|discriminate].
    inv_bind. use_expr E Hok. destruct (IH _ _ _ eq_refl E0) as (kb & Cb & Sb). subst. simpl in *.
    exists ([LABEL (labels st)] ++ ke ++ [POP_JUMP_IF_FALSE (S (labels st))] ++ kb
            ++ [JUMP_ABSOLUTE (labels st); LABEL (S (labels st))]).
    split; [solve_app|]. eapply seg_pass_while; eauto. intros d. rewrite Le. f_equal. lia.
  - intros d IHd c IHc f st st' Hf H. destruct (decl_stack_ok d) eqn:Hd; [|discriminate].
    inv_bind. destruct (IHd _ _ eq_refl E) as (kd & Cd & Ld & Pd & Lvd).
    destruct (IHc _ _ _ Hf E0) as (kc & Cc & Sc).
    destruct (lower_scope_code _ _ H) as (Hc & _ & Hl). simpl in *.
    exists (kd ++ kc). split; [by rewrite Hc, Cc, Cd, app_assoc|]. rewrite Hl, <- (seq_flow_0 f).
    apply (seg_pass_app _ _ _ (labels a) _ _ _); [apply seg_pass_plain; [simpl in Ld; lia|done|done]|done].
  - intros e f st st' Hf H. destruct (expr_stack_ok e) eqn:Hok; [|discriminate]. injection Hf as <-.
    inv_bind. use_expr E Hok. subst. exists (ke ++ [RETURN_VALUE]). split; [solve_app|].
    change Returns with (seq_flow (Falls 1) Returns).
    apply (seg_pass_app _ _ _ (labels st)); [apply seg_pass_plain; [done|done|done]|].
    apply seg_pass_return. simpl. lia.
  - intros x e st st' Hok H. inv_bind_pairs. use_expr E Hok. case_match; [|discriminate]. inv_bind. subst.
    destruct (env_load_code _ _ _ _ _ E0) as (Hc & _ & Hl). simpl in *.
    exists (ke ++ [STORE_FAST s]). rewrite Hc, <- app_assoc. split; [done|]. split; [lia|].
    split; [plain_solve|leaves_solve].
  - intros x ty st st' _ H. inv_bind_pairs. case_match; [|discriminate]. inv_bind. subst.
    destruct (env_load_code _ _ _ _ _ E) as (Hc & _ & Hl). simpl in *.
    exists [LOAD_CONST CNone; STORE_FAST s]. rewrite Hc, <- app_assoc. split; [done|]. split; [lia|].
    split; [plain_solve|leaves_solve].
  - intros d1 IH1 d2 IH2 st st' Hok H. apply andb_prop in Hok as [Hok1 Hok2]. inv_bind.
    destruct (IH1 _ _ Hok1 E) as (k1 & C1 & L1 & P1 & V1). destruct (IH2 _ _ Hok2 H) as (k2 & C2 & L2 & P2 & V2).
    exists (k1 ++ k2). split; [by rewrite C2, C1, app_assoc|]. split; [lia|].
    split; [plain_solve|]. apply (leaves_app 0 0); done.
  - intros name args rt c _ st st' _ H.
    destruct (gen_function_shape _ _ _ _ _ _ H) as (stb & stb' & names & Hb & Cb & Lb & C & _ & L).
    destruct (proj1 gen_code c _ _ Hb) as (? & _ & _ & Lbb & _).
    exists [LOAD_CONST (CCode (code stb') names name); MAKE_FUNCTION 0; STORE_NAME name].
    split; [done|]. split; [lia|]. split; [plain_solve|leaves_solve].
Qed.

(** ** Whole lists *)

(** A list that never falls off its end, with its labels placed once and
    its jumps closed, passes [_compute_stacksize]. *)
Lemma seg_pass_stacksize k lo hi :
  seg_pass k lo hi Returns -> labels_wf lo hi k -> exists m, compute_stacksize k = Ok m.
Proof.
  intros (_ & _ & R) (Hnd & _ & Hj). destruct (R pass_init 0 eq_refl) as (s & Hs & Hc & _).
  { intros l _. done. }
  exact (compute_stacksize_pass k s Hnd Hj Hs Hc).
Qed.

(** The body of a function whose flow returns passes [_compute_stacksize]. *)
Lemma body_stacksize body stb stb' :
  cmd_flow body = Some Returns -> gen_command body stb = Ok stb' -> code stb = [] ->
  exists m, compute_stacksize (code stb') = Ok m.
Proof.
  intros Hf H Hc. destruct (proj1 gen_stack body _ _ _ Hf H) as (k & Ck & Sk).
  destruct (proj1 gen_code body _ _ H) as (k' & Ck' & _ & _ & W).
  rewrite Hc in Ck, Ck'. simpl in Ck, Ck'. rewrite Ck' in Ck. subst k'. rewrite Ck'.
  exact (seg_pass_stacksize _ _ _ Sk W).
Qed.

(** The top-level list of a program of [program_stack_ok] passes
    [_compute_stacksize]: its code is followed by [LOAD_CONST 0] and
    [RETURN_VALUE]. *)
Lemma generate_stacksize p st :
  program_stack_ok p = true -> generate p = Ok st -> exists m, compute_stacksize (code st) = Ok m.
Proof.
  intros Hok H. pose proof (generate_wf _ _ H) as W. destruct p as [c]. simpl in Hok, H.
  destruct (cmd_flow c) as [f|] eqn:Hf; [|discriminate]. inv_bind. subst.
  destruct (proj1 gen_stack c _ _ _ Hf E) as (k & Ck & Sk). simpl in *. rewrite Ck in W |- *.
  apply (seg_pass_stacksize _ 0 (labels a)); [|exact W].
  replace Returns with (seq_flow f (seq_flow (Falls 1) Returns)) by (by destruct f).
  rewrite <- app_assoc. apply (seg_pass_app _ _ _ (labels a)); [exact Sk|].
  apply (seg_pass_app _ [RETURN_VALUE] _ (labels a)).
  - apply seg_pass_plain; [lia|plain_solve|leaves_solve].
  - apply seg_pass_return. lia.
Qed.

(** ** Code that runs off its end

    A list of plain instructions has one path: the search walks it to
    the end and reads [code[len(code)]], an [IndexError].  A function
    body made of assignments, calls and [let] blocks only ([straight])
    gives such a list, since [gen_function] appends no [RETURN_VALUE]
    after the body. *)

Lemma stack_loop_runs_off k fuel pos d todo stacks m :
  pos <= length k -> Forall stack_plain (drop pos k) -> run_stack d (drop pos k) <> None ->
  length k - pos < fuel ->
  stack_loop k (label_index k 0 ∅) fuel ((pos, d) :: todo) stacks m = Raise (AsmCodeIndexError (length k)).
Proof.
  revert pos d stacks m. induction fuel as [|fuel IH]; intros pos d stacks m Hp Hk Hr Hf; [lia|]. simpl.
  destruct (decide (pos = length k)) as [->|Hne].
  - unfold get_next_stacks. rewrite lookup_ge_None_2 by lia. reflexivity.
  - destruct (lookup_lt_is_Some_2 k pos) as [i Hi]; [lia|].
    rewrite (drop_S _ _ _ Hi) in Hk, Hr. apply Forall_cons in Hk as [(Hfl & Hret & Hg) Hk]. simpl in Hr.
    destruct (Nat.leb_spec (pops i) d) as [Hle|]; [|done].
    rewrite (get_next_stacks_plain k pos d stacks i Hi Hfl Hret), Hg. simpl.
    rewrite newstack_ok by lia. simpl. apply IH; [lia|done| |lia].
    by replace (d + pushes i - pops i) with (d - pops i + pushes i) by lia.
Qed.

Lemma compute_stacksize_runs_off k :
  Forall stack_plain k -> run_stack 0 k <> None -> compute_stacksize k = Raise (AsmCodeIndexError (length k)).
Proof.
  intros Hk Hr. apply stack_loop_runs_off; [lia|done|done|]. unfold stack_fuel. nia.
Qed.

(** A command with neither [if], [while] nor [return]. *)
Fixpoint straight (c : command) : bool :=
  match c with
  | SequentialCommand c1 c2 => straight c1 && straight c2
  | AssignCommand _ _ | CallCommand _ _ => true
  | LetCommand _ c => straight c
  | IfCommand _ _ _ | WhileCommand _ _ | ReturnCommand _ => false
  end.

Lemma straight_plain c : forall n st st', straight c = true -> cmd_flow c = Some (Falls n) ->
  gen_command c st = Ok st' -> exists k, code st' = code st ++ k /\ Forall stack_plain k /\ leaves n k.
Proof.
  induction c as [c1 IHc1 c2 IHc2|x e|name args|e c1 _ c2 _|e c _|d c IHc|e];
    intros n st st' Hs Hf H; simpl in *; try discriminate.
  - apply andb_prop in Hs as [Hs1 Hs2].
    destruct (cmd_flow c1) as [[n1|]|] eqn:F1, (cmd_flow c2) as [[n2|]|] eqn:F2; try discriminate.
    injection Hf as <-. inv_bind. destruct (IHc1 _ _ _ Hs1 eq_refl E) as (k1 & C1 & P1 & L1).
    destruct (IHc2 _ _ _ Hs2 eq_refl H) as (k2 & C2 & P2 & L2).
    exists (k1 ++ k2). split; [by rewrite C2, C1, app_assoc|]. split; [plain_solve|by apply leaves_app].
  - destruct (expr_stack_ok e) eqn:Hok; [|discriminate]. injection Hf as <-.
    inv_bind. use_expr E Hok. case_match; [|discriminate]. inv_bind. subst.
    exists (ke ++ [STORE_FAST s]). split; [simpl; by rewrite app_assoc|]. split; [plain_solve|leaves_solve].
  - destruct (call_stack _ _ _ _ _ _ Hf H) as (k & -> & P & L). by exists k.
  - destruct (decl_stack_ok d) eqn:Hd; [|discriminate]. inv_bind.
    destruct (proj2 gen_stack d _ _ Hd E) as (kd & Cd & _ & Pd & Lvd).
    destruct (IHc _ _ _ Hs Hf E0) as (kc & Cc & Pc & Lc).
    destruct (lower_scope_code _ _ H) as (Hc & _ & _). simpl in *.
    exists (kd ++ kc). split; [by rewrite Hc, Cc, Cd, app_assoc|]. split; [plain_solve|].
    exact (leaves_app 0 n _ _ Lvd Lc).
Qed.

(** The code object of a function whose body is [straight] and falls
    through fails to assemble: [_compute_stacksize] runs off its end. *)
Lemma body_runs_off body n stb stb' :
  straight body = true -> cmd_flow body = Some (Falls n) -> gen_command body stb = Ok stb' -> code stb = [] ->
  compute_stacksize (code stb') = Raise (AsmCodeIndexError (length (code stb'))).
Proof.
  intros Hs Hf Hb Hc. destruct (straight_plain _ _ _ _ Hs Hf Hb) as (k & Ck & Pk & Lk).
  rewrite Ck, Hc. simpl. apply compute_stacksize_runs_off; [done|]. by rewrite (Lk 0).
Qed.

(** C16: a function whose body has no [if], [while] or [return] and can
    therefore only fall off its end ([gen_function] appends no
    [RETURN_VALUE]) makes [CodeGen.generate] fail in [to_code] with
    [IndexError], although the tree walk succeeds: declared first in a
    program whose main command keeps the stack discipline, the top-level
    list passes the stack search, and assembling its first instruction
    assembles the function's code object, whose search reads past the
    end of the list. *)
Theorem function_falls_off (int_is : Z -> Z -> bool) (f : string) (ps : list param) (rt : string)
    (body c : command) (n : nat) (st : cg_state) :
  straight body = true -> cmd_flow body = Some (Falls n) -> cmd_flow c <> None ->
  generate (Program (LetCommand (FunctionDeclaration f ps rt body) c)) = Ok st ->
  exists m, generate_code int_is (Program (LetCommand (FunctionDeclaration f ps rt body) c)) =
    Raise (inr (AsmCodeIndexError m)).
Proof.
  intros Hs Hf Hc H. pose proof (generate_wf _ _ H) as W. unfold generate_code. rewrite H.
  simpl in H. inv_bind. inv_bind. subst.
  destruct (gen_function_shape _ _ _ _ _ _ E0) as (stb & stb' & names & Hb & Cb & _ & C1 & _ & _).
  destruct (cmd_flow c) as [fc|] eqn:Fc; [|done].
  destruct (proj1 gen_stack c _ _ _ Fc E1) as (kc & Cc & Sc).
  destruct (lower_scope_code _ _ E) as (Ca & _ & La). simpl in *.
  rewrite Ca, Cc, C1 in W |- *. simpl in W |- *.
  assert (Sw : seg_pass ([LOAD_CONST (CCode (code stb') names f); MAKE_FUNCTION 0; STORE_NAME f] ++
                         (kc ++ [LOAD_CONST (CInt 0)]) ++ [RETURN_VALUE]) 0 (labels a) Returns).
  { rewrite La. replace Returns with (seq_flow (Falls 0) (seq_flow fc (seq_flow (Falls 1) Returns))) by (by destruct fc).
    apply (seg_pass_app _ _ _ (labels a0)); [apply seg_pass_plain; [lia|plain_solve|leaves_solve]|].
    rewrite <- app_assoc. apply (seg_pass_app _ _ _ (labels a1)); [exact Sc|].
    apply (seg_pass_app _ [RETURN_VALUE] _ (labels a1)).
    - apply seg_pass_plain; [lia|plain_solve|leaves_solve].
    - apply seg_pass_return. lia. }
  simpl in Sw. destruct (seg_pass_stacksize _ _ _ Sw W) as [m Hm].
  exists (length (code stb')). unfold to_code, assemble. rewrite Hm.
  assert (HR : const_obj int_is (CCode (code stb') names f) (Some (MAKE_FUNCTION 0)) =
    Raise (AsmCodeIndexError (length (code stb')))).
  { simpl. unfold assemble. rewrite (body_runs_off _ _ _ _ Hs Hf Hb Cb). reflexivity. }
  cbn [asm_loop head app]. unfold asm_instr at 1. rewrite HR. reflexivity.
Qed.

Lemma function_falls_off_witness :
  let body := AssignCommand "n" (IntegerExpression 2) in
  let c := CallCommand "putint" [CallExpression "f" [IntegerExpression 5]] in
  straight body = true /\ cmd_flow body = Some (Falls 0) /\ cmd_flow c <> None /\
  exists m, generate_code cpython_int_is
    (Program (LetCommand (FunctionDeclaration "f" [("n", "Integer")] "Integer" body) c)) =
    Raise (inr (AsmCodeIndexError m)).
Proof.
  intros body c.
  assert (H1 : straight body = true) by reflexivity.
  assert (H2 : cmd_flow body = Some (Falls 0)) by reflexivity.
  assert (H3 : cmd_flow c <> None) by discriminate.
  split; [exact H1|]. split; [exact H2|]. split; [exact H3|].
  destruct (generate (Program (LetCommand (FunctionDeclaration "f" [("n", "Integer")] "Integer" body) c)))
    as [st|e] eqn:H; [|vm_compute in H; discriminate].
  exact (function_falls_off cpython_int_is _ _ _ _ _ _ _ H1 H2 H3 H).
Defined.

(** ** A loop body that leaves values on the stack *)

(** The search walks a plain stretch [p] of the list in one go. *)
Lemma stack_loop_walk k pre p post pos pos' d d' todo stacks m fuel :
  k = pre ++ p ++ post -> pos = length pre -> pos' = pos + length p ->
  Forall stack_plain p -> run_stack d p = Some d' ->
  exists m', stack_loop k (label_index k 0 ∅) (length p + fuel) ((pos, d) :: todo) stacks m =
             stack_loop k (label_index k 0 ∅) fuel ((pos', d') :: todo) stacks m'.
Proof.
  intros -> -> ->. revert pre d m. induction p as [|i p IH]; intros pre d m Hp Hr.
  - simpl in Hr. injection Hr as <-. exists m. by rewrite Nat.add_0_r.
  - apply Forall_cons in Hp as [(Hf & Hret & Hg) Hp]. simpl in Hr.
    destruct (Nat.leb_spec (pops i) d) as [Hle|]; [|done].
    cbn [length Nat.add stack_loop].
    rewrite (get_next_stacks_plain _ _ _ _ i (list_lookup_middle pre (p ++ post) i _ eq_refl) Hf Hret), Hg.
    simpl. rewrite newstack_ok by lia. simpl.
    replace (pre ++ i :: p ++ post) with ((pre ++ [i]) ++ p ++ post) by (by rewrite <- app_assoc).
    destruct (IH (pre ++ [i]) (d + pushes i - pops i) (Nat.max m d) Hp) as [m' Hm'].
    { by replace (d + pushes i - pops i) with (d - pops i + pushes i) by lia. }
    exists m'. rewrite length_app in Hm'. simpl in Hm'. rewrite Nat.add_1_r in Hm'. rewrite Hm'.
    f_equal. f_equal. f_equal. lia.
Qed.


(** The search over a loop: the test label is recorded with the depth
    before the loop, the body is walked first (the fall-through of the
    conditional jump is explored before its target), and the jump back
    reaches the label with the body's extra values. *)
Lemma loop_search_inconsistent (kd ke kb rest : list instr) (L j : nat) :
  Forall stack_plain kd -> leaves 0 kd -> Forall stack_plain ke -> leaves 1 ke ->
  Forall stack_plain kb -> leaves j kb -> 0 < j ->
  NoDup (placed (kd ++ LABEL L :: ke ++ POP_JUMP_IF_FALSE (S L) :: kb ++ JUMP_ABSOLUTE L :: LABEL (S L) :: rest)) ->
  compute_stacksize (kd ++ LABEL L :: ke ++ POP_JUMP_IF_FALSE (S L) :: kb ++ JUMP_ABSOLUTE L :: LABEL (S L) :: rest) =
    Raise (AsmValueError "Inconsistent code").
Proof.
  intros Pd Ld Pe Le Pb Lb Hj.
  remember (kd ++ LABEL L :: ke ++ POP_JUMP_IF_FALSE (S L) :: kb ++ JUMP_ABSOLUTE L :: LABEL (S L) :: rest)
    as k eqn:K1. intros Hnd.
  set (p1 := length kd). set (p2 := S (p1 + length ke)). set (p3 := S (p2 + length kb)).
  assert (K2 : k = (kd ++ [LABEL L]) ++ ke ++ POP_JUMP_IF_FALSE (S L) :: kb ++
                     JUMP_ABSOLUTE L :: LABEL (S L) :: rest)
    by (rewrite K1; by rewrite <- !app_assoc).
  assert (K3 : k = (kd ++ [LABEL L] ++ ke ++ [POP_JUMP_IF_FALSE (S L)]) ++ kb ++
                     JUMP_ABSOLUTE L :: LABEL (S L) :: rest)
    by (rewrite K1; by rewrite <- !app_assoc).
  assert (Hl1 : k !! p1 = Some (LABEL L)) by (rewrite K1; by apply list_lookup_middle).
  assert (Hl2 : k !! p2 = Some (POP_JUMP_IF_FALSE (S L))).
  { rewrite K2. rewrite app_assoc. apply list_lookup_middle. rewrite !length_app. simpl. unfold p3, p2, p1. lia. }
  assert (Hl3 : k !! p3 = Some (JUMP_ABSOLUTE L)).
  { rewrite K3, app_assoc. apply list_lookup_middle. rewrite !length_app. simpl. unfold p3, p2, p1. lia. }
  assert (Hl4 : k !! S p3 = Some (LABEL (S L))).
  { replace k with (((kd ++ [LABEL L] ++ ke ++ [POP_JUMP_IF_FALSE (S L)]) ++ kb ++ [JUMP_ABSOLUTE L]) ++
      LABEL (S L) :: rest) by (rewrite K3; by rewrite <- !app_assoc).
    apply list_lookup_middle. rewrite !length_app. simpl. unfold p3, p2, p1. lia. }
  assert (Hlen : length k = S (S (p3 + length rest))).
  { rewrite K3, !length_app. simpl. unfold p3, p2, p1. lia. }
  set (S0 := repeat (@None nat) (length k)).
  assert (G1 : get_next_stacks k (label_index k 0 ∅) p1 0 S0 = Ok ([(S p1, 0)], <[p1 := Some 0]> S0)).
  { unfold get_next_stacks. rewrite Hl1.
    destruct (S0 !! p1) as [[x|]|] eqn:Hx; [by apply repeat_none_lookup in Hx|done|done]. }
  assert (G2 : get_next_stacks k (label_index k 0 ∅) p2 1 (<[p1 := Some 0]> S0) =
               Ok ([(S p3, 0); (S p2, 0)], <[p1 := Some 0]> S0)).
  { unfold get_next_stacks, label_target. by rewrite Hl2, (label_index_lookup k (S L) (S p3) Hnd Hl4). }
  assert (G3 : get_next_stacks k (label_index k 0 ∅) p3 j (<[p1 := Some 0]> S0) =
               Ok ([(p1, j)], <[p1 := Some 0]> S0)).
  { unfold get_next_stacks, label_target. by rewrite Hl3, (label_index_lookup k L p1 Hnd Hl1). }
  assert (G4 : get_next_stacks k (label_index k 0 ∅) p1 j (<[p1 := Some 0]> S0) =
               Raise (AsmValueError "Inconsistent code")).
  { unfold get_next_stacks. rewrite Hl1, list_lookup_insert_eq.
    - destruct (Nat.eqb_spec 0 j); [lia|done].
    - unfold S0. rewrite repeat_length, Hlen. unfold p3, p2. lia. }
  assert (Hfuel : stack_fuel k = length kd + S (length ke + S (length kb + S (S (stack_fuel k - (p3 + 2)))))).
  { unfold stack_fuel. rewrite Hlen. unfold p3, p2, p1. nia. }
  unfold compute_stacksize. fold S0. rewrite Hfuel.
  set (F := stack_fuel k - (p3 + 2)).
  destruct (stack_loop_walk k [] kd _ 0 p1 0 0 [] S0 0 (S (length ke + S (length kb + S (S F))))
    K1 eq_refl eq_refl Pd (Ld 0)) as [m1 ->].
  cbn [stack_loop]. rewrite G1. cbn [rev app].
  destruct (stack_loop_walk k (kd ++ [LABEL L]) ke _ (S p1) p2 0 1 [] (<[p1 := Some 0]> S0) (Nat.max m1 0) (S (length kb + S (S F)))
    K2 ltac:(rewrite length_app; simpl; unfold p1; lia) ltac:(unfold p2; lia) Pe (Le 0)) as [m2 ->].
  cbn [stack_loop]. rewrite G2. cbn [rev app].
  destruct (stack_loop_walk k (kd ++ [LABEL L] ++ ke ++ [POP_JUMP_IF_FALSE (S L)]) kb _ (S p2) p3 0 j
    [(S p3, 0)] (<[p1 := Some 0]> S0) (Nat.max m2 1) (S (S F))
    K3 ltac:(rewrite !length_app; simpl; unfold p2, p1; lia) ltac:(unfold p3; lia) Pb (Lb 0)) as [m3 ->].
  cbn [stack_loop]. rewrite G3. cbn [rev app stack_loop]. by rewrite G4.
Qed.

(** C17: a [while] loop whose body is [straight] and leaves values on the
    operand stack (a call statement of [getint] or of a declared function,
    whose [POP_TOP] is commented out) makes [CodeGen.generate] fail in
    [to_code] with [ValueError("Inconsistent code")]: the search reaches
    the loop's test label first with the depth before the loop and then,
    by the jump back, with that depth plus what the body left. *)
Theorem loop_inconsistent (int_is : Z -> Z -> bool) (d : declaration) (e : expression) (c : command)
    (j : nat) (st : cg_state) :
  decl_stack_ok d = true -> expr_stack_ok e = true -> straight c = true -> cmd_flow c = Some (Falls j) ->
  0 < j -> generate (Program (LetCommand d (WhileCommand e c))) = Ok st ->
  generate_code int_is (Program (LetCommand d (WhileCommand e c))) =
    Raise (inr (AsmValueError "Inconsistent code")).
Proof.
  intros Hd He Hs Hf Hj H. pose proof (generate_wf _ _ H) as [Hnd _]. unfold generate_code. rewrite H.
  simpl in H. inv_bind. inv_bind. inv_bind. subst.
  destruct (proj2 gen_stack d _ _ Hd E0) as (kd & Cd & _ & Pd & Ld).
  use_expr E2 He. destruct (straight_plain _ _ _ _ Hs Hf E3) as (kb & Cb & Pb & Lb).
  destruct (lower_scope_code _ _ E) as (Ca & _ & _). simpl in *.
  rewrite Ca, Cb, Cd in Hnd |- *. rewrite <- !app_assoc in Hnd |- *. simpl in Hnd |- *.
  unfold to_code, assemble. by rewrite (loop_search_inconsistent _ _ _ _ _ j Pd Ld Pe Le Pb Lb Hj Hnd).
Qed.

Lemma loop_inconsistent_witness :
  let d := FunctionDeclaration "f" [("n", "Integer")] "Integer" (ReturnCommand (VnameExpression "n")) in
  let e := BinaryExpression (IntegerExpression 1) "<" (IntegerExpression 2) in
  let c := CallCommand "f" [IntegerExpression 1] in
  decl_stack_ok d = true /\ expr_stack_ok e = true /\ straight c = true /\ cmd_flow c = Some (Falls 1) /\
  generate_code cpython_int_is (Program (LetCommand d (WhileCommand e c))) =
    Raise (inr (AsmValueError "Inconsistent code")).
Proof.
  intros d e c.
  assert (H1 : decl_stack_ok d = true) by reflexivity.
  assert (H2 : expr_stack_ok e = true) by reflexivity.
  assert (H3 : straight c = true) by reflexivity.
  assert (H4 : cmd_flow c = Some (Falls 1)) by reflexivity.
  split; [exact H1|]. split; [exact H2|]. split; [exact H3|]. split; [exact H4|].
  destruct (generate (Program (LetCommand d (WhileCommand e c)))) as [st|err] eqn:H;
    [|vm_compute in H; discriminate].
  exact (loop_inconsistent cpython_int_is _ _ _ _ _ H1 H2 H3 H4 ltac:(lia) H).
Defined.


(** ** An operand that pushes nothing *)

(** A plain stretch that ends with the stack empty, followed by a store:
    the store pops from an empty stack. *)
Lemma store_search_underflow (p rest : list instr) (x : string) :
  Forall stack_plain p -> run_stack 0 p = Some 0 ->
  compute_stacksize (p ++ STORE_FAST x :: rest) = Raise (AsmValueError "Popped a non-existing element").
Proof.
  intros Pp Rp. unfold compute_stacksize.
  replace (stack_fuel _) with (length p + S (stack_fuel (p ++ STORE_FAST x :: rest) - S (length p)))
    by (unfold stack_fuel; rewrite length_app; simpl; nia).
  destruct (stack_loop_walk (p ++ STORE_FAST x :: rest) [] p (STORE_FAST x :: rest) 0 (length p) 0 0 []
    (repeat None (length (p ++ STORE_FAST x :: rest))) 0
    (S (stack_fuel (p ++ STORE_FAST x :: rest) - S (length p))) eq_refl eq_refl eq_refl Pp Rp) as [m ->].
  cbn [stack_loop]. rewrite (get_next_stacks_plain _ _ _ _ (STORE_FAST x)); [reflexivity| |done|done].
  by apply list_lookup_middle.
Qed.

(** C18: [putint(a)] as the right-hand side of an assignment pushes no
    value ([gen_call] emits [PRINT_ITEM], [PRINT_NEWLINE] and nothing
    for the result), so in a program whose block declares well-behaved
    names and then assigns [putint(a)], [CodeGen.generate] fails in
    [to_code] with [ValueError("Popped a non-existing element")]: the
    stack search reaches the [STORE_FAST] with an empty stack. *)
Theorem putint_operand_underflow (int_is : Z -> Z -> bool) (d : declaration) (x : string) (a : expression)
    (st : cg_state) :
  decl_stack_ok d = true -> expr_stack_ok a = true ->
  generate (Program (LetCommand d (AssignCommand x (CallExpression "putint" [a])))) = Ok st ->
  generate_code int_is (Program (LetCommand d (AssignCommand x (CallExpression "putint" [a])))) =
    Raise (inr (AsmValueError "Popped a non-existing element")).
Proof.
  intros Hd Ha H. unfold generate_code. rewrite H.
  simpl in H. inv_bind. inv_bind. inv_bind. subst.
  destruct (proj2 gen_stack d _ _ Hd E0) as (kd & Cd & _ & Pd & Ld).
  unfold gen_call in E2. simpl in E2. inv_bind. use_expr E4 Ha. subst.
  destruct a4 as [slot|]; [|discriminate]. injection E1 as <-.
  destruct (lower_scope_code _ _ E) as (Ca & _ & _). simpl in *. rewrite Ca, Cd. simpl.
  rewrite <- !app_assoc. simpl. rewrite app_assoc.
  replace ((kd ++ ke) ++ [PRINT_ITEM; PRINT_NEWLINE; STORE_FAST slot; LOAD_CONST (CInt 0); RETURN_VALUE]) with
    ((kd ++ ke ++ [PRINT_ITEM; PRINT_NEWLINE]) ++ STORE_FAST slot :: [LOAD_CONST (CInt 0); RETURN_VALUE])
    by (by rewrite <- !app_assoc).
  unfold to_code, assemble. rewrite store_search_underflow; [done|plain_solve|].
  rewrite run_stack_app, (Ld 0), run_stack_app. simpl. rewrite (Le 0). reflexivity.
Qed.

Lemma putint_operand_underflow_witness :
  let d := VarDeclaration "x" "Integer" in
  let a := IntegerExpression 7 in
  decl_stack_ok d = true /\ expr_stack_ok a = true /\
  generate_code cpython_int_is (Program (LetCommand d (AssignCommand "x" (CallExpression "putint" [a])))) =
    Raise (inr (AsmValueError "Popped a non-existing element")).
Proof.
  intros d a.
  assert (H1 : decl_stack_ok d = true) by reflexivity.
  assert (H2 : expr_stack_ok a = true) by reflexivity.
  split; [exact H1|]. split; [exact H2|].
  destruct (generate (Program (LetCommand d (AssignCommand "x" (CallExpression "putint" [a]))))) as [st|err] eqn:H;
    [|vm_compute in H; discriminate].
  exact (putint_operand_underflow cpython_int_is _ _ _ _ H1 H2 H).
Defined.
