(* ===== verification/AssemblyTotal.v ===== *)
(** * AssemblyTotal: the generated code always assembles

    [to_code] first runs [_compute_stacksize], which raises [IndexError]
    when the flow runs off the end of a list and [ValueError] when a
    label is reached at two depths or an instruction pops from an empty
    stack; it then raises in three more ways: a jump to a label that is
    not placed ([KeyError]), a [COMPARE_OP] whose operator is not in
    [cmp_op] ([IndexError]), a jump farther than [0xFFFF] bytes
    ([NotImplementedError]); a nested [Code] raises the same way when it
    is assembled.  [code_ok] excludes all but the last ([stack_ok]: the
    stack search succeeds), [code_small] the last (every list, nested
    ones included, is at most 10922 instructions long, and an
    instruction takes at most 6 bytes).  [to_code_total] shows that
    these exclude every exception, and [generate_code_ok] that
    [generate] produces [code_ok] lists for every program that keeps the
    stack discipline of [StackFlow] ([program_stack_ok]), so that the
    compiler's [cg.generate()] never fails in [to_code] on such a
    program of that size.  Programs outside the discipline do fail
    there: see [StackFlow]. *)

From S2P Require Import Prelude Ast CodeGen Labels Stack Assembly StackSize StackFlow.

(** ** What the assembler needs *)

Definition cmp_ok (o : string) : bool := bool_decide (o ∈ cmp_op).

(** Every jump of [k] goes to a label placed in [k]. *)
Definition closed (k : list instr) : bool :=
  forallb (fun l => bool_decide (l ∈ placed k)) (jumps k).

(** [_compute_stacksize] accepts [k]. *)
Definition stack_ok (k : list instr) : bool := is_ok (compute_stacksize k).

Fixpoint instr_ok (i : instr) : bool :=
  match i with
  | COMPARE_OP o => cmp_ok o
  | LOAD_CONST (CCode c _ _) => closed c && stack_ok c && forallb instr_ok c
  | _ => true
  end.

Definition code_ok (k : list instr) : bool := closed k && stack_ok k && forallb instr_ok k.

Fixpoint instr_small (i : instr) : bool :=
  match i with
  | LOAD_CONST (CCode c _ _) => Z.leb (6 * Z.of_nat (length c)) 65535 && forallb instr_small c
  | _ => true
  end.

Definition code_small (k : list instr) : bool := Z.leb (6 * Z.of_nat (length k)) 65535 && forallb instr_small k.

(** The number of instructions of a list, nested ones included. *)
Fixpoint instr_size (i : instr) : nat :=
  match i with
  | LOAD_CONST (CCode c _ _) => S (list_sum (map instr_size c))
  | _ => 1
  end.

Definition code_size (k : list instr) : nat := list_sum (map instr_size k).

Lemma nested_smaller c a n k :
  LOAD_CONST (CCode c a n) ∈ k -> code_size c < code_size k.
Proof.
  unfold code_size. induction k as [|i k IH]; [set_solver|]. simpl.
  rewrite elem_of_cons. intros [<-|Hin]; simpl; [lia|]. specialize (IH Hin). lia.
Qed.

(** ** The first loop does not raise *)

Section Total.
Context (int_is : Z -> Z -> bool).
Local Abbreviation cobj := (const_obj int_is).
Local Abbreviation asm_loop := (asm_loop int_is cobj).
Local Abbreviation asm_instr := (asm_instr int_is cobj).

Lemma find_index_complete (o : string) (seq : list string) :
  o ∈ seq -> exists i, find_index String.eqb seq o = Some i.
Proof.
  induction seq as [|y seq IH]; [set_solver|]. simpl. rewrite elem_of_cons.
  destruct (String.eqb_spec y o) as [->|Hne]; [eauto|]. intros [->|Hin]; [done|].
  destruct (IH Hin) as [i ->]. by exists (S i).
Qed.

(** The nested lists of [k] assemble. *)
Definition nested_total (k : list instr) : Prop :=
  forall c a n, LOAD_CONST (CCode c a n) ∈ k -> forall args name, exists co, to_code int_is c args name = Ok co.

Lemma const_obj_total k nx :
  nested_total [LOAD_CONST k] -> exists obj, cobj k nx = Ok obj.
Proof.
  intros Hn. destruct k as [z| |c a n]; [by eexists|by eexists|].
  destruct nx as [[]|]; try by eexists. simpl.
  destruct (Hn c a n (proj2 (list_elem_of_singleton _ _) eq_refl) a n) as [co Hco].
  unfold to_code in Hco. rewrite Hco. by eexists.
Qed.

Lemma asm_instr_total i nx s :
  instr_ok i = true -> nested_total [i] -> exists s', asm_instr i nx s = Ok s'.
Proof.
  intros Hok Hn. unfold asm_instr. destruct i; simpl in Hok; try by eexists.
  all: try match goal with
    | |- context [const_obj _ ?k ?x] => destruct (const_obj_total k x Hn) as [obj ->]
    | |- context [find_index String.eqb cmp_op ?o] =>
        destruct (find_index_complete o cmp_op) as [j ->]; [by apply bool_decide_eq_true in Hok|]
    end.
  all: try by eexists.
  all: by destruct (index _ _ _); eexists.
Qed.

Lemma nested_total_cons i k : nested_total (i :: k) -> nested_total [i] /\ nested_total k.
Proof. intros H. split; intros c a n Hin; apply (H c a n); set_solver. Qed.

Lemma asm_loop_total k a s :
  Forall (fun i => instr_ok i = true) k -> nested_total k -> exists s', asm_loop k a s = Ok s'.
Proof.
  intros Hk. revert s. induction Hk as [|i k Hi Hk IH]; intros s Hn; simpl; [by eexists|].
  apply nested_total_cons in Hn as [Hn1 Hn2].
  destruct (asm_instr_total i (head (k ++ a)) s Hi Hn1) as [s1 ->]. auto.
Qed.

(** ** What the first loop leaves for the second *)

Lemma arg_bytes_length op arg : length (arg_bytes op arg) <= 6.
Proof. unfold arg_bytes. case_match; simpl; lia. Qed.

Lemma asm_instr_size i nx s s' :
  asm_instr i nx s = Ok s' -> length (co_code s') <= length (co_code s) + 6.
Proof.
  unfold asm_instr. intros H.
  destruct i; simpl in H; inv_bind_pairs;
    try match goal with H : match ?x with Some _ => _ | None => _ end = _ |- _ => destruct x end;
    inv_bind; subst; simpl; try discriminate; rewrite ?length_app; simpl; try lia.
  all: match goal with |- context [arg_bytes ?o ?x] => pose proof (arg_bytes_length o x) end; lia.
Qed.

Lemma asm_loop_size k a s s' :
  asm_loop k a s = Ok s' -> length (co_code s') <= length (co_code s) + 6 * length k.
Proof.
  revert s. induction k as [|i k IH]; intros s H; simpl in H; inv_bind; [subst; lia|].
  pose proof (asm_instr_size _ _ _ _ E). specialize (IH _ H). simpl. lia.
Qed.

(** Every recorded label offset lies within the bytes emitted. *)
Definition labels_in (s : asm_state) : Prop :=
  forall l q, label_pos s !! l = Some q -> q <= length (co_code s).

Lemma asm_loop_labels_in k a s s' :
  asm_loop k a s = Ok s' -> labels_in s -> labels_in s'.
Proof.
  revert s. induction k as [|i k IH]; intros s H Hin; simpl in H; inv_bind; [by subst|].
  apply (IH _ H). destruct (asm_instr_effect _ _ _ _ _ E) as ([bs Hc] & Hlp & _).
  intros l q. rewrite Hlp, Hc, length_app. destruct i; try (intros Hq; specialize (Hin _ _ Hq); lia).
  rewrite lookup_insert. case_decide; [intros [= <-]; lia|]. intros Hq. specialize (Hin _ _ Hq). lia.
Qed.

Lemma asm_loop_keeps_labels k a s s' l :
  asm_loop k a s = Ok s' -> is_Some (label_pos s !! l) -> is_Some (label_pos s' !! l).
Proof.
  revert s. induction k as [|i k IH]; intros s H Hl; simpl in H; inv_bind; [by subst|].
  apply (IH _ H). destruct (asm_instr_effect _ _ _ _ _ E) as (_ & -> & _).
  destruct i; try done. rewrite lookup_insert. case_decide; [by eexists|done].
Qed.

Lemma asm_loop_placed k a s s' l :
  asm_loop k a s = Ok s' -> l ∈ placed k -> is_Some (label_pos s' !! l).
Proof.
  revert s. induction k as [|i k IH]; intros s H Hl; simpl in H; inv_bind; [set_solver|].
  destruct i; simpl in Hl; try (by apply (IH _ H)).
  apply elem_of_cons in Hl as [->|Hl]; [|by apply (IH _ H)].
  apply (asm_loop_keeps_labels _ _ _ _ _ H). destruct (asm_instr_effect _ _ _ _ _ E) as (_ & -> & _).
  rewrite lookup_insert_eq. by eexists.
Qed.

Lemma asm_loop_pending_jumps k a s s' x :
  asm_loop k a s = Ok s' -> x ∈ pending s' -> x ∈ pending s \/ x.2 ∈ jumps k.
Proof.
  revert s. induction k as [|i k IH]; intros s H Hx; simpl in H; inv_bind; [subst; by left|].
  destruct (IH _ H Hx) as [Hp|Hj]; [|right; destruct i; simpl; set_solver].
  destruct (asm_instr_effect _ _ _ _ _ E) as (_ & _ & Hpe). rewrite Hpe in Hp.
  apply elem_of_app in Hp as [Hp|Hp]; [by left|right].
  destruct i; simpl in Hp; try set_solver; apply list_elem_of_singleton in Hp; subst; simpl; set_solver.
Qed.

End Total.

(** ** The second loop does not raise *)

Lemma patch_total todo lp b (N : nat) :
  (forall x, x ∈ todo -> exists q, lp !! x.2 = Some q /\ q <= N) -> (Z.of_nat N <= 65535)%Z ->
  exists b', patch_jumps todo lp b = Ok b'.
Proof.
  revert b. induction todo as [|[p l] todo IH]; intros b Hall HN; simpl; [by eexists|].
  destruct (Hall (p, l)) as (q & Hq & HqN); [set_solver|]. simpl in Hq. rewrite Hq.
  assert (Hr : (resolve (default 0%Z (b !! p)) p q <= 0xFFFF)%Z) by (unfold resolve; case_match; lia).
  apply Z.ltb_ge in Hr. rewrite Hr. apply IH; [|done]. intros x Hx. apply Hall. set_solver.
Qed.

(** ** [to_code] returns a code object *)

Lemma forallb_elem {A} (f : A -> bool) (l : list A) x : forallb f l = true -> x ∈ l -> f x = true.
Proof. rewrite forallb_forall. intros H Hx. apply H. by apply list_elem_of_In. Qed.

Lemma nested_ok k c a n :
  code_ok k = true -> LOAD_CONST (CCode c a n) ∈ k -> code_ok c = true.
Proof. unfold code_ok. intros [_ H]%andb_prop Hin. exact (forallb_elem _ _ _ H Hin). Qed.

Lemma nested_small k c a n :
  code_small k = true -> LOAD_CONST (CCode c a n) ∈ k -> code_small c = true.
Proof. unfold code_small. intros [_ H]%andb_prop Hin. exact (forallb_elem _ _ _ H Hin). Qed.

Lemma to_code_step int_is k args name :
  nested_total int_is k -> code_ok k = true -> code_small k = true ->
  exists co, to_code int_is k args name = Ok co.
Proof.
  unfold to_code, assemble. intros Hn [[Hc Hst]%andb_prop Hok]%andb_prop [Hsz _]%andb_prop.
  unfold stack_ok, is_ok in Hst. destruct (compute_stacksize k) as [m|]; [|discriminate]. simpl.
  destruct (asm_loop_total int_is k [] (init_asm args)) as [s Hs]; [|done|].
  { apply Forall_forall. intros i Hi. exact (forallb_elem _ _ _ Hok Hi). }
  rewrite Hs. apply Z.leb_le in Hsz. pose proof (asm_loop_size _ _ _ _ _ Hs) as Hlen. simpl in Hlen.
  assert (Hli : labels_in s).
  { apply (asm_loop_labels_in _ _ _ _ _ Hs). intros l q. simpl. by rewrite lookup_empty. }
  destruct (patch_total (pending s) (label_pos s) (co_code s) (length (co_code s))) as [b ->].
  - intros x Hx. destruct (asm_loop_pending_jumps _ _ _ _ _ _ Hs Hx) as [Hx0|Hj]; [set_solver|].
    unfold closed in Hc. apply (forallb_elem _ _ _ Hc), bool_decide_eq_true in Hj.
    destruct (asm_loop_placed _ _ _ _ _ _ Hs Hj) as [q Hq]. exists q. split; [done|].
    exact (Hli _ _ Hq).
  - lia.
  - by eexists.
Qed.

(** The assembler returns a code object on every list whose jumps
    go to labels it places, whose comparisons are those of [cmp_op] and
    whose lists (nested ones included) are short enough for a 16-bit
    jump: neither [KeyError], [IndexError] nor [NotImplementedError]. *)
Theorem to_code_total (int_is : Z -> Z -> bool) (k : list instr) (args : list string) (name : string) :
  code_ok k = true -> code_small k = true -> exists co, to_code int_is k args name = Ok co.
Proof.
  revert args name. induction k as [k IH] using (well_founded_induction (Wf_nat.well_founded_ltof _ code_size)).
  intros args name Hok Hsm. apply to_code_step; [|done|done].
  intros c a n Hin args' name'. apply IH; [exact (nested_smaller _ _ _ _ Hin)|exact (nested_ok _ _ _ _ Hok Hin)|
    exact (nested_small _ _ _ _ Hsm Hin)].
Qed.

(** ** [generate] produces lists the assembler accepts *)

Lemma binop_instr_ok op i : binop_instr op = Some i -> instr_ok i = true.
Proof.
  unfold binop_instr. intros H. repeat case_match; simplify_eq; try reflexivity.
  match goal with Ho : (_ || _)%bool = true |- _ =>
    apply orb_prop in Ho as [?%String.eqb_eq|?%String.eqb_eq]; subst; reflexivity end.
Qed.

Lemma unop_instr_ok op i : unop_instr op = Some i -> instr_ok i = true.
Proof. unfold unop_instr. intros H. repeat case_match; simplify_eq; reflexivity. Qed.

Lemma gen_expression_ok e : appends_sat (fun i => instr_ok i = true) gen_expression e.
Proof. apply gen_expression_sat; eauto using binop_instr_ok, unop_instr_ok. Qed.

Lemma labels_wf_closed lo hi k : labels_wf lo hi k -> closed k = true.
Proof.
  intros (_ & _ & J). unfold closed. apply forallb_forall. intros l Hl.
  apply bool_decide_eq_true. rewrite Forall_forall in J. apply J. by apply list_elem_of_In.
Qed.

(** The contract of a command and of a declaration whose code keeps the
    stack consistent ([StackFlow]): they append to the current list
    instructions the assembler accepts. *)
Definition cmd_asm (c : command) : Prop :=
  forall f st st', cmd_flow c = Some f -> gen_command c st = Ok st' ->
    exists k, code st' = code st ++ k /\ code_stacks st' = code_stacks st /\ Forall (fun i => instr_ok i = true) k.

Definition decl_asm (d : declaration) : Prop :=
  forall st st', decl_stack_ok d = true -> gen_declaration d st = Ok st' ->
    exists k, code st' = code st ++ k /\ code_stacks st' = code_stacks st /\ Forall (fun i => instr_ok i = true) k.

Ltac use_asm IH F E :=
  let k := fresh "k" in let C := fresh "C" in let Cs := fresh "Cs" in let P := fresh "P" in
  first [destruct (IH _ _ _ F E) as (k & C & Cs & P)
        | destruct (IH _ _ _ (eq_refl (Some _)) E) as (k & C & Cs & P)
        | destruct (IH _ _ F E) as (k & C & Cs & P)
        | destruct (IH _ _ eq_refl E) as (k & C & Cs & P)].

Ltac use_expr_ok E :=
  let k := fresh "ke" in let P := fresh "Pe" in destruct (gen_expression_ok _ _ _ E) as (k & -> & P).

(** The flow of each part of a command whose flow is known. *)
Ltac split_flow :=
  repeat match goal with
  | H : (if ?b then _ else _) = Some _ |- _ => destruct b; [|discriminate]
  | H : ?t = Some _ |- _ =>
      lazymatch t with
      | cmd_flow _ => fail
      | context [cmd_flow ?c] => let F := fresh "F" in destruct (cmd_flow c) eqn:F; try discriminate
      end
  end.

Lemma gen_asm : (forall c, cmd_asm c) /\ (forall d, decl_asm d).
Proof.
  apply command_declaration_mut; unfold cmd_asm, decl_asm; simpl.
  - intros c1 IH1 c2 IH2 f st st' Hf H. split_flow. inv_bind. use_asm IH1 I E. use_asm IH2 I H.
    exists (k ++ k0). split; [solve_app|]. split; [congruence|solve_plain].
  - intros x e f st st' _ H. inv_bind. use_expr_ok E. case_match; [|discriminate]. inv_bind. subst.
    exists (ke ++ [STORE_FAST s]). split; [solve_app|]. split; [done|solve_plain].
  - intros name args f st st' _ H.
    apply (gen_call_sat (fun i => instr_ok i = true)) in H as (k & -> & P);
      eauto using binop_instr_ok, unop_instr_ok.
    apply Forall_forall. intros e _. apply gen_expression_ok.
  - intros e c1 IH1 c2 IH2 f st st' Hf H. split_flow. inv_bind. use_expr_ok E.
    use_asm IH1 I E0. use_asm IH2 I E1. subst. simpl in *.
    eexists. split; [solve_app|]. split; [congruence|solve_plain].
  - intros e c IH f st st' Hf H. split_flow. inv_bind. use_expr_ok E. use_asm IH I E0. subst. simpl in *.
    eexists. split; [solve_app|]. split; [congruence|solve_plain].
  - intros d IHd c IHc f st st' Hf H. destruct (decl_stack_ok d) eqn:Hd; [|discriminate].
    inv_bind. destruct (IHd _ _ eq_refl E) as (k & C & Cs & P). use_asm IHc Hf E0.
    destruct (lower_scope_code _ _ H) as (Hc & Hs & _). simpl in *.
    exists (k ++ k0). split; [solve_app|]. split; [congruence|solve_plain].
  - intros e f st st' _ H. inv_bind. use_expr_ok E. subst.
    exists (ke ++ [RETURN_VALUE]). split; [solve_app|]. split; [done|solve_plain].
  - intros x e st st' _ H. inv_bind_pairs. use_expr_ok E. case_match; [|discriminate]. inv_bind. subst.
    destruct (env_load_code _ _ _ _ _ E0) as (Hc & Hs & _). simpl in *.
    exists (ke ++ [STORE_FAST s]). rewrite Hc, <- app_assoc. split; [done|]. split; [done|solve_plain].
  - intros x ty st st' _ H. inv_bind_pairs. case_match; [|discriminate]. inv_bind. subst.
    destruct (env_load_code _ _ _ _ _ E) as (Hc & Hs & _). simpl in *.
    exists [LOAD_CONST CNone; STORE_FAST s]. rewrite Hc, <- app_assoc. split; [done|]. split; [done|solve_plain].
  - intros d1 IH1 d2 IH2 st st' Hok H. apply andb_prop in Hok as [Hok1 Hok2]. inv_bind.
    destruct (IH1 _ _ Hok1 E) as (k & C & Cs & P). destruct (IH2 _ _ Hok2 H) as (k0 & C0 & Cs0 & P0).
    exists (k ++ k0). split; [solve_app|]. split; [congruence|solve_plain].
  - intros name args rt c IH st st' Hok H.
    destruct (cmd_flow c) as [[n|]|] eqn:F; try discriminate.
    destruct (gen_function_shape _ _ _ _ _ _ H) as (stb & stb' & names & Hb & Cb & _ & C & Cs & _).
    use_asm IH I Hb. destruct (proj1 gen_code c _ _ Hb) as (kb & Cb' & _ & _ & W).
    destruct (body_stacksize _ _ _ F Hb Cb) as [m Hm].
    eexists. split; [exact C|]. split; [done|]. repeat constructor. simpl.
    rewrite Cb in Cb'. simpl in Cb'. rewrite Cb', (labels_wf_closed _ _ _ W). unfold stack_ok.
    rewrite <- Cb', Hm. simpl. apply forallb_forall. intros i Hi.
    rewrite Cb in C0. simpl in C0. rewrite C0 in Hi. rewrite Forall_forall in P. apply P.
    by apply list_elem_of_In.
Qed.

Lemma generate_code_ok (p : program) (st : cg_state) :
  program_stack_ok p = true -> generate p = Ok st -> code_ok (code st) = true.
Proof.
  intros Hok H. unfold code_ok. rewrite (labels_wf_closed _ _ _ (generate_wf _ _ H)). simpl.
  destruct (generate_stacksize _ _ Hok H) as [m Hm]. unfold stack_ok. rewrite Hm. simpl.
  destruct p as [c]. simpl in H, Hok. destruct (cmd_flow c) as [f|] eqn:Hf; [|discriminate].
  inv_bind. subst. simpl.
  destruct (proj1 gen_asm c _ _ _ Hf E) as (k & Hc & _ & P). rewrite Hc. simpl.
  apply forallb_forall. intros i Hi%list_elem_of_In. rewrite Forall_forall in P.
  rewrite !elem_of_app, !list_elem_of_singleton in Hi. destruct Hi as [[Hi| ->]| ->]; [by apply P|done|done].
Qed.

(** C15: [CodeGen.generate] in full returns a code object whenever the
    tree-walking part succeeds and the lists are short enough for 16-bit
    jumps: the assembly step it ends with never raises on generated
    code. *)
Theorem generate_assembles (int_is : Z -> Z -> bool) (p : program) (st : cg_state) :
  program_stack_ok p = true -> generate p = Ok st -> code_small (code st) = true ->
  exists co, generate_code int_is p = Ok co.
Proof.
  intros Hok H Hs. unfold generate_code. rewrite H.
  destruct (to_code_total int_is (code st) [] "gencode" (generate_code_ok _ _ Hok H) Hs) as [co ->].
  by exists co.
Qed.

Lemma generate_assembles_witness :
  exists st co,
    generate (Program (LetCommand
      (FunctionDeclaration "f" [("n", "Integer")] "Integer"
         (IfCommand (BinaryExpression (VnameExpression "n") "<" (IntegerExpression 1))
            (ReturnCommand (IntegerExpression 0))
            (ReturnCommand (CallExpression "f" [BinaryExpression (VnameExpression "n") "-" (IntegerExpression 1)]))))
      (CallCommand "putint" [CallExpression "f" [IntegerExpression 3]]))) = Ok st /\
    code_small (code st) = true /\
    generate_code cpython_int_is (Program (LetCommand
      (FunctionDeclaration "f" [("n", "Integer")] "Integer"
         (IfCommand (BinaryExpression (VnameExpression "n") "<" (IntegerExpression 1))
            (ReturnCommand (IntegerExpression 0))
            (ReturnCommand (CallExpression "f" [BinaryExpression (VnameExpression "n") "-" (IntegerExpression 1)]))))
      (CallCommand "putint" [CallExpression "f" [IntegerExpression 3]]))) = Ok co.
Proof.
  match goal with |- exists st co, generate ?p = Ok st /\ _ =>
    destruct (generate p) as [st|e] eqn:H; [|vm_compute in H; discriminate] end.
  exists st. assert (Hs : code_small (code st) = true).
  { pose proof H as H'. vm_compute in H'. injection H' as <-. vm_compute. reflexivity. }
  pose proof (fun Hok => generate_assembles cpython_int_is _ _ Hok H Hs) as G.
  destruct G as [co Hco]; [vm_compute; reflexivity|].
  exists co. split; [reflexivity|]. split; [exact Hs|exact Hco].
Defined.
