(* ===== verification/Driver.v ===== *)
(** * Driver: the [__main__] block of [codegen.py] and [gen_pyc]

    [python codegen.py path] (lines 381-426) opens [path] (printing
    "Could not find source file" and [sys.exit(0)] on [IOError]), splits
    off its extension with [os.path.splitext], and for [.mt] runs the
    three stages: a [ScannerError] is printed, a [ParserException] is
    printed after "Could not compile source:", each followed by
    [sys.exit(0)]; any other exception escapes as a traceback.  On
    success [gen_pyc] (lines 371-378) writes [name.pyc]: the magic
    number [int(imp.get_magic().encode('hex'), 16)] and [time.time()],
    each packed with [struct.pack(">L", ...)], then the marshalled code.

    A run is a function of the command line, of the readable files
    ([files], path to text), of the clock (whole seconds; [struct]
    truncates the float) and of the object-identity parameter of the
    assembler.  Its result is the lines printed, the file written, and
    how the script ends.  [marshal.dump] is not modelled: the file
    written holds the header bytes and the code object itself.  The
    directory is taken to be writable.
    The messages are the [__str__] methods of [Token] (scanner.py
    89-90), [ScannerError] (104-105) and [ParserException] (parser.py
    19-26).  [os.path.splitext] is modelled from CPython's
    [genericpath._splitext]. *)

From S2P Require Import Prelude Scanner Ast Parser CodeGen Pipeline Assembly.

(** ** Messages *)

(** Python's [str] on an [int]. *)
Definition str_of_Z (z : Z) : string :=
  if Z.ltb z 0 then "-" +:+ str_of_nat (Z.to_nat (- z)) else str_of_nat (Z.to_nat z).

Definition tval_str (v : tval) : string :=
  match v with VInt z => str_of_Z z | VStr s => s end.

(** [Token.__str__]: ['(%s(%s) at %s)' % (TOKENS[self.type], self.val, self.pos)]. *)
Definition token_str (t : Token) : string :=
  "(" +:+ TOKENS (type t) +:+ "(" +:+ tval_str (val t) +:+ ") at " +:+ str_of_nat (pos t) +:+ ")".

(** [ScannerError.__str__]; [ScanOutOfFuel] is not an exception of the
    source and never happens ([Scanner.scan_total]). *)
Definition scan_error_str (e : scan_error) : string :=
  match e with
  | ScannerError p c => "ScannerError at pos = " +:+ str_of_nat p +:+ ", char = " +:+ String c EmptyString
  | ScanOutOfFuel => ""
  end.

(** [ParserException.__str__]: the expected kind is shown when
    [exp_type != ''], that is when [token_accept] gave one. *)
Definition parse_error_str (e : parse_error) : string :=
  match e with
  | ParserException p k (Some x) =>
    "ParserException: Found bad token " +:+ TOKENS k +:+ " at " +:+ str_of_nat p +:+ ". Expected " +:+ TOKENS x
  | ParserException p k None =>
    "ParserException: Found bad token " +:+ TOKENS k +:+ " at " +:+ str_of_nat p +:+ ". "
  | _ => ""
  end.

(** ** [os.path.splitext] *)

(** [s.rfind(c)]: the last index of [c] in [s]. *)
Fixpoint rfind (s : string) (c : ascii) : option nat :=
  match s with
  | EmptyString => None
  | String d s' =>
    match rfind s' c with
    | Some i => Some (S i)
    | None => if Ascii.eqb d c then Some 0 else None
    end
  end.

(** [genericpath._splitext(p, '/', None, '.')]: the extension starts at
    the last dot of the last path component, unless the component is
    only dots up to it. *)
Definition splitext (p : string) : string * string :=
  match rfind p "." with
  | None => (p, "")
  | Some d =>
    let start := match rfind p "/" with None => 0 | Some s => S s end in
    if Nat.leb start d &&
       existsb (fun i => negb (Ascii.eqb (default "."%char (String.get i p)) "."%char)) (seq start (d - start))
    then (substring 0 d p, substring d (String.length p - d) p)
    else (p, "")
  end.

(** ** [struct.pack(">L", x)] and the magic number *)

Inductive pyc_error : Type :=
| StructError (x : Z)              (** [struct.error]: [x] out of range for ['L'] *)
| HexValueError.                   (** [int(s, 16)] on a string that is no number *)

Definition pack_L (x : Z) : outcome pyc_error (list Z) :=
  if Z.leb 0 x && Z.ltb x (2 ^ 32) then
    Ok [Z.land (Z.shiftr x 24) 255; Z.land (Z.shiftr x 16) 255; Z.land (Z.shiftr x 8) 255; Z.land x 255]
  else Raise (StructError x).

(** [imp.get_magic()] of CPython 2.7: ['\x03\xf3\r\n']. *)
Definition MAGIC : list Z := [3; 243; 13; 10]%Z.

Definition hex_digit (n : Z) : ascii :=
  default "0"%char (String.get (Z.to_nat n) "0123456789abcdef").

(** [s.encode('hex')]: two lower-case digits per byte. *)
Fixpoint hex_encode (bs : list Z) : string :=
  match bs with
  | [] => EmptyString
  | b :: bs => String (hex_digit (b / 16)) (String (hex_digit (b mod 16)) (hex_encode bs))
  end.

Definition hex_value (c : ascii) : option Z :=
  let n := Z.of_nat (nat_of_ascii c) in
  if Z.leb 48 n && Z.leb n 57 then Some (n - 48)%Z
  else if Z.leb 97 n && Z.leb n 102 then Some (n - 87)%Z
  else if Z.leb 65 n && Z.leb n 70 then Some (n - 55)%Z
  else None.

Fixpoint hex_acc (s : string) (acc : Z) : option Z :=
  match s with
  | EmptyString => Some acc
  | String c s' => match hex_value c with Some v => hex_acc s' (16 * acc + v)%Z | None => None end
  end.

(** [int(s, 16)] on a string of hex digits, the only strings it is given
    here ([encode('hex')] output); the empty string is a [ValueError]. *)
Definition int_of_hex (s : string) : outcome pyc_error Z :=
  match s with
  | EmptyString => Raise HexValueError
  | _ => match hex_acc s 0 with Some z => Ok z | None => Raise HexValueError end
  end.

(** ** [gen_pyc] *)

(** A [.pyc] file: the bytes written to it, and the code object when
    [marshal.dump] was reached. *)
Record pyc_file : Type := mkPyc { pyc_header : list Z; pyc_code : option code_object }.

(** [gen_pyc(code, name)] at time [now]: the file [name.pyc] is opened
    (and so created) first; each [write] happens in order, and an
    exception leaves in the file what was written before it. *)
Definition gen_pyc (co : code_object) (name : string) (now : Z) : (string * pyc_file) * option pyc_error :=
  let f := name +:+ ".pyc" in
  match int_of_hex (hex_encode MAGIC) with
  | Raise e => ((f, mkPyc [] None), Some e)
  | Ok magic =>
    match pack_L magic with
    | Raise e => ((f, mkPyc [] None), Some e)
    | Ok m =>
      match pack_L now with
      | Raise e => ((f, mkPyc m None), Some e)
      | Ok t => ((f, mkPyc (m ++ t) (Some co)), None)
      end
    end
  end.

(** ** The script *)

Record world : Type := mkWorld {
  script : string;                     (** [sys.argv[0]] *)
  args : list string;                  (** [sys.argv[1:]] *)
  files : gmap string string;          (** the files [open(path, 'r')] can read *)
  now : Z                              (** [time.time()], in whole seconds *)
}.

(** The exceptions the script does not catch. *)
Inductive uncaught : Type :=
| UParse (e : parse_error)             (** Python's [IndexError] in the parser *)
| UGen (e : cg_error)
| UAsm (e : asm_error)
| UPyc (e : pyc_error).

Inductive ending : Type :=
| Finished                             (** the end of the script, status 0 *)
| SysExit0                             (** [sys.exit(0)] *)
| Traceback (e : uncaught).            (** an exception escapes, status 1 *)

Record run : Type := mkRun { stdout : list string; written : list (string * pyc_file); ends : ending }.

Definition say (lines : list string) (e : ending) : run := mkRun lines [] e.

(** The exceptions of the three stages that an [except] clause of the
    script catches (lines 402 and 410). *)
Definition caught (e : compile_error) : bool :=
  match e with
  | CScanError _ => true
  | CParseError (ParserException _ _ _) => true
  | _ => false
  end.

(** The [.mt] branch, from the text read. *)
Definition compile_file (int_is : Z -> Z -> bool) (text name : string) (now : Z) : run :=
  match compile text with
  | Raise (CScanError e) => say [scan_error_str e] SysExit0
  | Raise (CParseError (ParserException p k x)) =>
    say ["Could not compile source:"; parse_error_str (ParserException p k x)] SysExit0
  | Raise (CParseError e) => say [] (Traceback (UParse e))
  | Raise (CGenError e) => say [] (Traceback (UGen e))
  | Ok st =>
    match to_code int_is (code st) [] "gencode" with
    | Raise e => say [] (Traceback (UAsm e))
    | Ok co =>
      let '(f, err) := gen_pyc co name now in
      mkRun [] [f] (match err with None => Finished | Some e => Traceback (UPyc e) end)
    end
  end.

Definition main (int_is : Z -> Z -> bool) (w : world) : run :=
  match args w with
  | [path] =>
    match files w !! path with
    | None => say ["Could not find source file: " +:+ path] SysExit0
    | Some text =>
      let '(name, exten) := splitext path in
      if String.eqb exten ".mt" then compile_file int_is text name (now w)
      else say ["Error: Unrecoginized file type: Cannot compile '" +:+ exten +:+ "'"] Finished
    end
  | _ => say ["Usage: python " +:+ script w +:+ " /path/to/source"] Finished
  end.

(** ** Big-endian bytes *)

(** The four bytes of [x], most significant first. *)
Definition be32 (x : Z) : list Z :=
  [(x / 2 ^ 24) mod 256; (x / 2 ^ 16) mod 256; (x / 2 ^ 8) mod 256; x mod 256]%Z.

(** The number four bytes stand for, most significant first. *)
Definition be_combine (bs : list Z) : Z := fold_left (fun acc b => acc * 256 + b)%Z bs 0%Z.

Lemma land_shiftr_byte (x : Z) (n : Z) :
  (0 <= n)%Z -> Z.land (Z.shiftr x n) 255 = ((x / 2 ^ n) mod 256)%Z.
Proof. intros Hn. change 255%Z with (Z.ones 8). by rewrite Z.land_ones, Z.shiftr_div_pow2 by lia. Qed.

Lemma pack_L_ok (x : Z) : (0 <= x < 2 ^ 32)%Z -> pack_L x = Ok (be32 x).
Proof.
  intros Hx. unfold pack_L. replace (Z.leb 0 x && Z.ltb x (2 ^ 32)) with true
    by (symmetry; apply andb_true_intro; split; [apply Z.leb_le|apply Z.ltb_lt]; lia).
  unfold be32. rewrite !land_shiftr_byte by lia. f_equal. f_equal.
  change 255%Z with (Z.ones 8). by rewrite Z.land_ones by lia.
Qed.

Lemma pack_L_range (x : Z) : ~ (0 <= x < 2 ^ 32)%Z -> pack_L x = Raise (StructError x).
Proof.
  intros Hx. unfold pack_L. destruct (Z.leb_spec 0 x), (Z.ltb_spec x (2 ^ 32)); simpl; try done. lia.
Qed.

(** [be32] undoes [be_combine] on four bytes. *)
Lemma be32_combine (a b c d : Z) :
  (0 <= a < 256)%Z -> (0 <= b < 256)%Z -> (0 <= c < 256)%Z -> (0 <= d < 256)%Z ->
  be32 (be_combine [a; b; c; d]) = [a; b; c; d].
Proof.
  intros Ha Hb Hc Hd. unfold be32, be_combine. simpl.
  set (x := ((((0 * 256 + a) * 256 + b) * 256 + c) * 256 + d)%Z).
  assert (E3 : (x / 2 ^ 24 = a)%Z) by (symmetry; apply (Z.div_unique _ _ _ (b * 2 ^ 16 + c * 256 + d)); [left|unfold x]; lia).
  assert (E2 : (x / 2 ^ 16 = a * 256 + b)%Z) by (symmetry; apply (Z.div_unique _ _ _ (c * 256 + d)); [left|unfold x]; lia).
  assert (E1 : (x / 2 ^ 8 = (a * 256 + b) * 256 + c)%Z) by (symmetry; apply (Z.div_unique _ _ _ d); [left|unfold x]; lia).
  rewrite E3, E2, E1. f_equal; [by apply Z.mod_small|].
  f_equal; [symmetry; apply (Z.mod_unique _ _ a); [left|]; lia|].
  f_equal; [symmetry; apply (Z.mod_unique _ _ (a * 256 + b)); [left|]; lia|].
  f_equal. symmetry. apply (Z.mod_unique _ _ ((a * 256 + b) * 256 + c)); [left|unfold x]; lia.
Qed.

(** ** [int(s.encode('hex'), 16)] *)

Lemma hex_value_digit (n : Z) : (0 <= n < 16)%Z -> hex_value (hex_digit n) = Some n.
Proof.
  intros Hn. destruct (Z_of_nat_complete n) as [m ->]; [lia|].
  assert (Hm : m < 16) by lia. clear Hn.
  do 16 (destruct m as [|m]; [reflexivity|]). lia.
Qed.

Lemma hex_acc_encode (bs : list Z) (acc : Z) :
  Forall is_byte bs -> hex_acc (hex_encode bs) acc = Some (fold_left (fun a b => a * 256 + b)%Z bs acc).
Proof.
  revert acc. induction bs as [|b bs IH]; intros acc Hb; [done|].
  inversion Hb as [|? ? [Hb0 Hb1] Hbs]; subst. simpl.
  rewrite hex_value_digit by (split; [apply Z.div_pos|apply Z.div_lt_upper_bound]; lia).
  rewrite hex_value_digit by (apply Z.mod_pos_bound; lia).
  rewrite IH by done. f_equal. f_equal. pose proof (Z.div_mod b 16). lia.
Qed.

(** ** [gen_pyc] and the script *)

Lemma magic_bytes : (magic <- int_of_hex (hex_encode MAGIC) ;; pack_L magic) = Ok MAGIC.
Proof. vm_compute. reflexivity. Qed.

Lemma gen_pyc_in_range co name now :
  (0 <= now < 2 ^ 32)%Z -> gen_pyc co name now = ((name +:+ ".pyc", mkPyc (MAGIC ++ be32 now) (Some co)), None).
Proof.
  intros Hn. pose proof magic_bytes as Hm. unfold gen_pyc.
  destruct (int_of_hex (hex_encode MAGIC)) as [magic|]; [|discriminate]. simpl in Hm. rewrite Hm.
  by rewrite pack_L_ok.
Qed.

Lemma gen_pyc_out_of_range co name now :
  ~ (0 <= now < 2 ^ 32)%Z -> gen_pyc co name now = ((name +:+ ".pyc", mkPyc MAGIC None), Some (StructError now)).
Proof.
  intros Hn. pose proof magic_bytes as Hm. unfold gen_pyc.
  destruct (int_of_hex (hex_encode MAGIC)) as [magic|]; [|discriminate]. simpl in Hm. rewrite Hm.
  by rewrite pack_L_range.
Qed.

(** C20: bounds of the [.pyc] header: [gen_pyc] writes the magic and
    the clock as four big-endian bytes each, then the code, when the
    clock fits in 32 bits; from [2 ** 32] seconds on (the year 2106)
    [struct.pack] raises [struct.error] after the file was opened and the
    magic written, which leaves a four-byte file behind. *)
Theorem gen_pyc_time_bounds (co : code_object) (name : string) (now : Z) :
  ((0 <= now < 2 ^ 32)%Z -> gen_pyc co name now = ((name +:+ ".pyc", mkPyc (MAGIC ++ be32 now) (Some co)), None)) /\
  (~ (0 <= now < 2 ^ 32)%Z -> gen_pyc co name now = ((name +:+ ".pyc", mkPyc MAGIC None), Some (StructError now))).
Proof. split; [apply gen_pyc_in_range|apply gen_pyc_out_of_range]. Qed.

Lemma main_mt w path text name :
  args w = [path] -> files w !! path = Some text -> splitext path = (name, ".mt") ->
  forall int_is, main int_is w = compile_file int_is text name (now w).
Proof. intros Ha Hf Hs int_is. unfold main. by rewrite Ha, Hf, Hs. Qed.

(** C22: the script on a [.mt] file that compiles, assembles, and is
    compiled before [2 ** 32] seconds: it prints nothing, writes
    [name.pyc] with the magic, the clock in big-endian order and the
    code object, and ends normally. *)
Theorem main_compiles (int_is : Z -> Z -> bool) (w : world) (path text name : string) (st : cg_state)
    (co : code_object) :
  args w = [path] -> files w !! path = Some text -> splitext path = (name, ".mt") ->
  compile text = Ok st -> to_code int_is (code st) [] "gencode" = Ok co -> (0 <= now w < 2 ^ 32)%Z ->
  main int_is w = mkRun [] [(name +:+ ".pyc", mkPyc (MAGIC ++ be32 (now w)) (Some co))] Finished.
Proof.
  intros Ha Hf Hs Hc Ht Hn. rewrite (main_mt _ _ _ _ Ha Hf Hs). unfold compile_file.
  by rewrite Hc, Ht, gen_pyc_in_range.
Qed.

(** C21: the script on a [.mt] file that does not compile: it writes no
    file, and ends with [sys.exit(0)], status 0, exactly when the
    exception is a [ScannerError] or a [ParserException]; a generator
    error or the parser's [IndexError] escapes as a traceback with
    nothing printed. *)
Theorem main_compile_errors (int_is : Z -> Z -> bool) (w : world) (path text name : string) (e : compile_error) :
  args w = [path] -> files w !! path = Some text -> splitext path = (name, ".mt") ->
  compile text = Raise e ->
  written (main int_is w) = [] /\
  (ends (main int_is w) = SysExit0 <-> caught e = true) /\
  (caught e = false -> stdout (main int_is w) = [] /\ exists u, ends (main int_is w) = Traceback u).
Proof.
  intros Ha Hf Hs Hc. rewrite (main_mt _ _ _ _ Ha Hf Hs). unfold compile_file. rewrite Hc.
  destruct e as [e|[]|e]; simpl; repeat split; try done; eauto.
Qed.

Lemma main_compiles_witness :
  exists st co,
    args (mkWorld "codegen.py" ["prog.mt"] (<["prog.mt" := "putint(1+2);"]> ∅) 1700000000) = ["prog.mt"] /\
    files (mkWorld "codegen.py" ["prog.mt"] (<["prog.mt" := "putint(1+2);"]> ∅) 1700000000) !! "prog.mt" =
      Some "putint(1+2);" /\
    splitext "prog.mt" = ("prog", ".mt") /\
    compile "putint(1+2);" = Ok st /\ to_code cpython_int_is (code st) [] "gencode" = Ok co /\
    (0 <= now (mkWorld "codegen.py" ["prog.mt"] (<["prog.mt" := "putint(1+2);"]> ∅) 1700000000) < 2 ^ 32)%Z /\
    main cpython_int_is (mkWorld "codegen.py" ["prog.mt"] (<["prog.mt" := "putint(1+2);"]> ∅) 1700000000) =
      mkRun [] [("prog" +:+ ".pyc", mkPyc (MAGIC ++ be32 1700000000) (Some co))] Finished.
Proof.
  destruct (compile "putint(1+2);") as [st|e] eqn:Hc; [|vm_compute in Hc; discriminate].
  exists st. pose proof Hc as Hc'. vm_compute in Hc'. injection Hc' as Hst. subst st.
  match goal with |- exists co, _ /\ _ /\ _ /\ _ /\ to_code ?i ?k ?a ?n = Ok co /\ _ =>
    destruct (to_code i k a n) as [co|e] eqn:Ht; [|vm_compute in Ht; discriminate] end.
  assert (H1 : args (mkWorld "codegen.py" ["prog.mt"] (<["prog.mt" := "putint(1+2);"]> ∅) 1700000000) = ["prog.mt"])
    by reflexivity.
  assert (H2 : files (mkWorld "codegen.py" ["prog.mt"] (<["prog.mt" := "putint(1+2);"]> ∅) 1700000000) !! "prog.mt" =
                 Some "putint(1+2);") by reflexivity.
  assert (H3 : splitext "prog.mt" = ("prog", ".mt")) by reflexivity.
  assert (H4 : (0 <= now (mkWorld "codegen.py" ["prog.mt"] (<["prog.mt" := "putint(1+2);"]> ∅) 1700000000) < 2 ^ 32)%Z)
    by (simpl; lia).
  exists co. do 6 (split; [assumption || reflexivity|]).
  exact (main_compiles _ _ _ _ _ _ _ H1 H2 H3 Hc Ht H4).
Defined.

Lemma main_compile_errors_witness :
  args (mkWorld "codegen.py" ["prog.mt"] (<["prog.mt" := "x := 1;"]> ∅) 0) = ["prog.mt"] /\
  files (mkWorld "codegen.py" ["prog.mt"] (<["prog.mt" := "x := 1;"]> ∅) 0) !! "prog.mt" = Some "x := 1;" /\
  splitext "prog.mt" = ("prog", ".mt") /\
  compile "x := 1;" = Raise (CGenError (InvalidExpressionError (NCommand (AssignCommand "x" (IntegerExpression 1))))) /\
  written (main cpython_int_is (mkWorld "codegen.py" ["prog.mt"] (<["prog.mt" := "x := 1;"]> ∅) 0)) = [] /\
  (ends (main cpython_int_is (mkWorld "codegen.py" ["prog.mt"] (<["prog.mt" := "x := 1;"]> ∅) 0)) = SysExit0 <->
     caught (CGenError (InvalidExpressionError (NCommand (AssignCommand "x" (IntegerExpression 1))))) = true) /\
  (caught (CGenError (InvalidExpressionError (NCommand (AssignCommand "x" (IntegerExpression 1))))) = false ->
     stdout (main cpython_int_is (mkWorld "codegen.py" ["prog.mt"] (<["prog.mt" := "x := 1;"]> ∅) 0)) = [] /\
     exists u, ends (main cpython_int_is (mkWorld "codegen.py" ["prog.mt"] (<["prog.mt" := "x := 1;"]> ∅) 0)) = Traceback u).
Proof.
  assert (H1 : args (mkWorld "codegen.py" ["prog.mt"] (<["prog.mt" := "x := 1;"]> ∅) 0) = ["prog.mt"]) by reflexivity.
  assert (H2 : files (mkWorld "codegen.py" ["prog.mt"] (<["prog.mt" := "x := 1;"]> ∅) 0) !! "prog.mt" = Some "x := 1;")
    by reflexivity.
  assert (H3 : splitext "prog.mt" = ("prog", ".mt")) by reflexivity.
  assert (H4 : compile "x := 1;" =
                 Raise (CGenError (InvalidExpressionError (NCommand (AssignCommand "x" (IntegerExpression 1))))))
    by (vm_compute; reflexivity).
  do 4 (split; [assumption|]). exact (main_compile_errors cpython_int_is _ _ _ _ _ H1 H2 H3 H4).
Defined.

(** Spec scenario 4 through the script: a [let] block without [in]
    prints "Could not compile source:" and a message that names the bad
    token and its position but no expected kind, and exits with status
    0 without writing a file. *)
Example scenario4_message :
  main cpython_int_is (mkWorld "codegen.py" ["s4.mt"] (<["s4.mt" := "let var x: Integer; x := 1;"]> ∅) 0) =
    mkRun ["Could not compile source:"; "ParserException: Found bad token IDENTIFIER at 20. "] [] SysExit0.
Proof. vm_compute. reflexivity. Qed.
